(** * A shallow embedding of the clause presolver and the core-guided optimizer

    Sources: [src/sat/simplification.cc] (postsolver, presolver, clause
    primitives, equivalent-literal probing) and [src/bop/complete_optimizer.cc]
    (the core-guided optimizer).

    Conventions.
    - A [Literal] is represented by its index, a natural number: variable [v]
      has the positive literal [2v] and the negative literal [2v+1];
      [Negated] flips the low bit.  A [LiteralIndex] is a signed integer,
      because the code uses [LiteralIndex(-1)] as "no literal".
    - C++ [int] counters (sizes, differences) are modelled in [Z]; they are
      bounded by vector sizes in the source, so no wrap-around arises.
    - A [CHECK] that fails aborts the program: functions that can abort
      return an [option], [None] being the abort. *)

From stdpp Require Import base list numbers gmap.
From Stdlib Require Import ZArith NArith Lia.

Local Open Scope Z_scope.

(** ** Literals *)

Abbreviation Literal := N.
Abbreviation VariableIndex := N.
Abbreviation LiteralIndex := Z.
Abbreviation ClauseIndex := nat.

(** Modelled from the spec: the class [Literal] is declared in a header that
    is not among the sources; section 3 gives its index as
    [2v + (sign ? 0 : 1)] and its negation as the flip of the low bit. *)
Definition MakeLiteral (v : VariableIndex) (is_positive : bool) : Literal :=
  if is_positive then N.shiftl v 1 else N.lxor (N.shiftl v 1) 1.

Definition Negated (l : Literal) : Literal := N.lxor l 1.
Definition LiteralVariable (l : Literal) : VariableIndex := N.shiftr l 1.
Definition IsPositive (l : Literal) : bool := negb (N.testbit l 0).
Definition Index (l : Literal) : LiteralIndex := Z.of_N l.
Definition NegatedIndex (l : Literal) : LiteralIndex := Index (Negated l).

(** ** Clause simplification primitives *)

(** How the merge loop of [SimplifyClause] ends. *)
Inductive SimplifyExit : Type :=
| ExitFalse                                    (* a [return false] in the loop *)
| ExitLoop (num_diff : Z) (to_remove : nat)    (* [ia == a.end()] *)
| ExitPastEnd.                                 (* [*ib] read at [b->end()] *)

(** The [while] loop of [SimplifyClause].  [a] and [b] are what is left
    after the iterators [ia] and [ib]; [ib] is also kept as a position in
    the whole of [b], since [to_remove] is an iterator into [b]. *)
Fixpoint SimplifyClause_loop (a b : list Literal) (ib : nat)
    (num_diff : Z) (to_remove : nat) (size_diff : Z) {struct b} : SimplifyExit :=
  match a with
  | [] => ExitLoop num_diff to_remove
  | la :: a' =>
    match b with
    | [] => ExitPastEnd
    | lb :: b' =>
      if (la =? lb)%N then
        SimplifyClause_loop a' b' (S ib) num_diff to_remove size_diff
      else if (la =? Negated lb)%N then
        if num_diff + 1 >? 1 then ExitFalse
        else SimplifyClause_loop a' b' (S ib) (num_diff + 1) ib size_diff
      else if (la <? lb)%N then ExitFalse
      else if size_diff - 1 <? 0 then ExitFalse
      else SimplifyClause_loop a b' (S ib) num_diff to_remove (size_diff - 1)
    end
  end.

(** [SimplifyClause(a, &b, &opposite_literal)]: the result is the returned
    boolean, the new content of [b] and the new content of
    [opposite_literal] (left untouched by the first [return false]). *)
Definition SimplifyClause (a b : list Literal) (opposite_literal : LiteralIndex)
    : option (bool * list Literal * LiteralIndex) :=
  if (length b <? length a)%nat then Some (false, b, opposite_literal)
  else
    match SimplifyClause_loop a b 0 0 0
            (Z.of_nat (length b) - Z.of_nat (length a)) with
    | ExitFalse => Some (false, b, -1)
    | ExitPastEnd => None
    | ExitLoop num_diff to_remove =>
      if num_diff =? 1 then
        match b !! to_remove with
        | Some x => Some (true, delete to_remove b, Index x)
        | None => None
        end
      else Some (true, b, -1)
    end.

(** [ComputeResolvant(x, a, b, &out)]: the returned boolean and the content
    of [out] when the function returns (the literals pushed so far when it
    returns false). *)
Fixpoint ComputeResolvant (x : Literal) (a b : list Literal) {struct a}
    : bool * list Literal :=
  match a with
  | [] => (true, b)
  | la :: a' =>
    (fix scan_b (b : list Literal) {struct b} : bool * list Literal :=
       match b with
       | [] => (true, la :: a')
       | lb :: b' =>
         if (la =? lb)%N then
           let '(r, out) := ComputeResolvant x a' b' in (r, la :: out)
         else if (la =? Negated lb)%N then
           if negb (la =? x)%N then (false, [])
           else ComputeResolvant x a' b'
         else if (la <? lb)%N then
           let '(r, out) := ComputeResolvant x a' (lb :: b') in (r, la :: out)
         else
           let '(r, out) := scan_b b' in (r, lb :: out)
       end) b
  end.

(** The loop of [ComputeResolvantSize], [size] being its running counter. *)
Fixpoint ComputeResolvantSize_loop (x : Literal) (a b : list Literal)
    (size : Z) {struct a} : Z :=
  match a with
  | [] => size
  | la :: a' =>
    (fix scan_b (b : list Literal) (size : Z) {struct b} : Z :=
       match b with
       | [] => size
       | lb :: b' =>
         if (la =? lb)%N then ComputeResolvantSize_loop x a' b' (size - 1)
         else if (la =? Negated lb)%N then
           if negb (la =? x)%N then -1
           else ComputeResolvantSize_loop x a' b' size
         else if (la <? lb)%N then ComputeResolvantSize_loop x a' (lb :: b') size
         else scan_b b' size
       end) b size
  end.

Definition ComputeResolvantSize (x : Literal) (a b : list Literal) : Z :=
  ComputeResolvantSize_loop x a b
    (Z.of_nat (length a) + Z.of_nat (length b) - 2).

(** ** Canonical clauses

    The presolver keeps its clauses sorted by literal index, without
    duplicates and without a complementary pair ([AddClause]). *)

Fixpoint is_sorted (c : list Literal) : bool :=
  match c with
  | [] => true
  | l :: c' =>
    match c' with
    | [] => true
    | l' :: _ => (l <? l')%N && is_sorted c'
    end
  end.

Definition tautology_free (c : list Literal) : bool :=
  forallb (fun l => negb (bool_decide (Negated l ∈ c))) c.

Definition canonical (c : list Literal) : bool :=
  is_sorted c && tautology_free c.

(** The same properties as propositions. *)
Definition complement_free (c : list Literal) : Prop :=
  forall l, l ∈ c -> Negated l ∉ c.

(** A literal other than [x] occurs in [a] and its negation in [b]: the
    resolvent of [a] and [b] on [x] is then trivially true. *)
Definition clash (x : Literal) (a b : list Literal) : Prop :=
  exists l, l ∈ a /\ Negated l ∈ b /\ l <> x.

(** The literals common to [a] and [b], other than [x]. *)
Definition common_literals (x : Literal) (a b : list Literal) : list Literal :=
  filter (fun l => l ∈ b /\ l <> x) a.

(** "[a] is a subset of [b] as sets after possibly removing one literal
    from [b]". *)
Definition subset_after_removing_one (a b : list Literal) : Prop :=
  exists b', (b' = b \/ exists i : nat, b' = delete i b) /\ a ⊆ b'.

(** [b] with its literal [x] replaced by the negation of [x]. *)
Definition negate_one (x : Literal) (b : list Literal) : list Literal :=
  map (fun y => if decide (y = x) then Negated x else y) b.

(** "[a] is a subset of [b] as sets after possibly negating one literal of
    [b]". *)
Definition subset_after_negating_one (a b : list Literal) : Prop :=
  a ⊆ b \/ exists x, x ∈ b /\ a ⊆ negate_one x b.

(** ** Assignments *)

(** Modelled from the spec: [VariablesAssignment] is declared in a header
    that is not among the sources.  An assignment gives some of the
    variables [0 .. NumberOfVariables) a boolean value; a literal is true
    when its variable is assigned the polarity of the literal. *)
Record VariablesAssignment : Type := mkAssignment {
  NumberOfVariables : nat;
  values : gmap VariableIndex bool
}.

Definition VariableIsAssigned (a : VariablesAssignment) (v : VariableIndex)
    : bool :=
  bool_decide (is_Some (values a !! v)).

Definition LiteralIsTrue (a : VariablesAssignment) (l : Literal) : bool :=
  bool_decide (values a !! LiteralVariable l = Some (IsPositive l)).

Definition AssignFromTrueLiteral (a : VariablesAssignment) (l : Literal)
    : VariablesAssignment :=
  {| NumberOfVariables := NumberOfVariables a;
     values := <[LiteralVariable l := IsPositive l]> (values a) |}.

Definition UnassignLiteral (a : VariablesAssignment) (l : Literal)
    : VariablesAssignment :=
  {| NumberOfVariables := NumberOfVariables a;
     values := delete (LiteralVariable l) (values a) |}.

(** [Resize(num_variables)] on a fresh assignment. *)
Definition empty_assignment (num_variables : nat) : VariablesAssignment :=
  {| NumberOfVariables := num_variables; values := ∅ |}.

(** A clause is satisfied when one of its literals is true. *)
Definition clause_satisfied (a : VariablesAssignment) (c : list Literal)
    : bool :=
  existsb (LiteralIsTrue a) c.

(** ** The postsolver *)

(** The fields of [SatPostsolver].  A [VariableIndex] of a mapping can be
    [-1], for "no variable".  The log is kept flat: [clauses_literals_]
    holds the literals of all the logged clauses, [clauses_start_] the
    position at which each one starts. *)
Record SatPostsolver : Type := mkPostsolver {
  reverse_mapping_ : list Z;
  associated_literal_ : list Literal;
  clauses_start_ : list nat;
  clauses_literals_ : list Literal;
  assignment_ : VariablesAssignment
}.

(** [SatPostsolver::SatPostsolver(num_variables)]. *)
Definition SatPostsolver_new (num_variables : nat) : SatPostsolver :=
  {| reverse_mapping_ := map Z.of_nat (seq 0 num_variables);
     associated_literal_ := [];
     clauses_start_ := [];
     clauses_literals_ := [];
     assignment_ := empty_assignment num_variables |}.

(** [ApplyReverseMapping(l)]; [None] when one of its two [CHECK]s fails. *)
Definition ApplyReverseMapping (p : SatPostsolver) (l : Literal)
    : option Literal :=
  match reverse_mapping_ p !! N.to_nat (LiteralVariable l) with
  | None => None
  | Some image =>
    if image =? -1 then None
    else Some (MakeLiteral (Z.to_N image) (IsPositive l))
  end.

(** [Add(x, clause)]. *)
Definition Add (p : SatPostsolver) (x : Literal) (clause : list Literal)
    : option SatPostsolver :=
  match clause with
  | [] => None
  | _ =>
    match ApplyReverseMapping p x, mapM (ApplyReverseMapping p) clause with
    | Some x', Some clause' =>
      Some {| reverse_mapping_ := reverse_mapping_ p;
              associated_literal_ := associated_literal_ p ++ [x'];
              clauses_start_ :=
                clauses_start_ p ++ [length (clauses_literals_ p)];
              clauses_literals_ := clauses_literals_ p ++ clause';
              assignment_ := assignment_ p |}
    | _, _ => None
    end
  end.

(** Lines 73-77 of [Postsolve]: every unassigned variable is set to true. *)
Definition assign_if_unassigned (a : VariablesAssignment) (var : VariableIndex)
    : VariablesAssignment :=
  if VariableIsAssigned a var then a
  else AssignFromTrueLiteral a (MakeLiteral var true).

Definition assign_unassigned (a : VariablesAssignment) : VariablesAssignment :=
  foldl assign_if_unassigned a (map N.of_nat (seq 0 (NumberOfVariables a))).

(** Lines 81-95: the body of the loop of [Postsolve] for the log entry with
    associated literal [x], whose clause starts at [new_start] and ends
    before [previous_start]. *)
Definition Postsolve_step (clauses_literals : list Literal)
    (x : Literal) (new_start previous_start : nat)
    (a : VariablesAssignment) : VariablesAssignment :=
  let set_associated_var :=
    negb (existsb (LiteralIsTrue a)
            (take (previous_start - new_start)
               (drop new_start clauses_literals))) in
  if set_associated_var then AssignFromTrueLiteral (UnassignLiteral a x) x
  else a.

(** Lines 79-96: the loop, over the entries from the last one down. *)
Fixpoint Postsolve_loop (clauses_literals : list Literal)
    (entries : list (Literal * nat)) (previous_start : nat)
    (a : VariablesAssignment) : VariablesAssignment :=
  match entries with
  | [] => a
  | (x, new_start) :: entries' =>
    Postsolve_loop clauses_literals entries' new_start
      (Postsolve_step clauses_literals x new_start previous_start a)
  end.

(** [Postsolve(&assignment)]. *)
Definition Postsolve (p : SatPostsolver) (a : VariablesAssignment)
    : VariablesAssignment :=
  Postsolve_loop (clauses_literals_ p)
    (rev (zip (associated_literal_ p) (clauses_start_ p)))
    (length (clauses_literals_ p))
    (assign_unassigned a).

(** *** The log as a list of entries *)

(** The log seen as the sequence of its entries [(x_i, C_i)], in the order
    in which they were appended. *)
Abbreviation LogEntry := (Literal * list Literal)%type.

Fixpoint entry_starts (start : nat) (entries : list LogEntry) : list nat :=
  match entries with
  | [] => []
  | e :: entries' => start :: entry_starts (start + length e.2) entries'
  end.

Definition log_is (p : SatPostsolver) (entries : list LogEntry) : Prop :=
  associated_literal_ p = map fst entries
  /\ clauses_start_ p = entry_starts 0 entries
  /\ clauses_literals_ p = concat (map snd entries).

(** Replaying one entry: [x] is forced to true unless a literal of [c] is
    already true. *)
Definition replay_entry (a : VariablesAssignment) (e : LogEntry)
    : VariablesAssignment :=
  if clause_satisfied a e.2 then a
  else AssignFromTrueLiteral (UnassignLiteral a e.1) e.1.

(** Replaying a log: the entries are taken from the last one to the first. *)
Definition replay (entries : list LogEntry) (a : VariablesAssignment)
    : VariablesAssignment :=
  foldl replay_entry a (rev entries).

(** *** The other entry points of the postsolver *)

(** [FixVariable(x)]; [None] when a [CHECK] fails. *)
Definition FixVariable (p : SatPostsolver) (x : Literal)
    : option SatPostsolver :=
  match ApplyReverseMapping p x with
  | None => None
  | Some l =>
    if VariableIsAssigned (assignment_ p) (LiteralVariable l) then None
    else
      Some {| reverse_mapping_ := reverse_mapping_ p;
              associated_literal_ := associated_literal_ p;
              clauses_start_ := clauses_start_ p;
              clauses_literals_ := clauses_literals_ p;
              assignment_ := AssignFromTrueLiteral (assignment_ p) l |}
  end.

(** The loop of [ApplyMapping] (lines 52-60).  [v] is the variable the loop
    has reached, [mapping] what is left of the mapping from [v] on.  [None]
    is the failure of one of the three [CHECK]s.  The source has no check
    on [image]: it reads and writes [new_mapping[image]] as it is, which is
    only defined for an index of [new_mapping]; for any other image the
    model also gives [None], and nothing is stated about the source
    there. *)
Fixpoint ApplyMapping_loop (reverse_mapping : list Z) (v : nat)
    (mapping : list Z) (new_mapping : list Z) : option (list Z) :=
  match mapping with
  | [] => Some new_mapping
  | image :: mapping' =>
    if image =? -1 then
      ApplyMapping_loop reverse_mapping (S v) mapping' new_mapping
    else if image <? 0 then None
    else
      match new_mapping !! Z.to_nat image, reverse_mapping !! v with
      | Some current, Some original =>
        if (current =? -1) && negb (original =? -1) then
          ApplyMapping_loop reverse_mapping (S v) mapping'
            (<[Z.to_nat image := original]> new_mapping)
        else None
      | _, _ => None
      end
  end.

(** [ApplyMapping(mapping)]. *)
Definition ApplyMapping (p : SatPostsolver) (mapping : list Z)
    : option SatPostsolver :=
  match ApplyMapping_loop (reverse_mapping_ p) 0 mapping
          (replicate (length (reverse_mapping_ p)) (-1)) with
  | None => None
  | Some new_mapping =>
    Some {| reverse_mapping_ := new_mapping;
            associated_literal_ := associated_literal_ p;
            clauses_start_ := clauses_start_ p;
            clauses_literals_ := clauses_literals_ p;
            assignment_ := assignment_ p |}
  end.

(** Lines 110-116 of [PostsolveSolution]: the solution is copied into
    [assignment_] through the reverse mapping.  [var] is the variable the
    loop has reached.  [None] is the failure of one of the three [CHECK]s
    (a negative entry of the reverse mapping names no variable). *)
Fixpoint seed_solution (reverse_mapping : list Z) (var : nat)
    (solution : list bool) (a : VariablesAssignment)
    : option VariablesAssignment :=
  match solution with
  | [] => Some a
  | value :: solution' =>
    match reverse_mapping !! var with
    | None => None
    | Some original =>
      if original <? 0 then None
      else if VariableIsAssigned a (Z.to_N original) then None
      else
        seed_solution reverse_mapping (S var) solution'
          (AssignFromTrueLiteral a (MakeLiteral (Z.to_N original) value))
    end
  end.

(** [PostsolveSolution(solution)]: the returned vector, and the postsolver
    with the assignment the call leaves in [assignment_]. *)
Definition PostsolveSolution (p : SatPostsolver) (solution : list bool)
    : option (list bool * SatPostsolver) :=
  match seed_solution (reverse_mapping_ p) 0 solution (assignment_ p) with
  | None => None
  | Some seeded =>
    let a := Postsolve p seeded in
    Some (map (fun i => LiteralIsTrue a (MakeLiteral (N.of_nat i) true))
            (seq 0 (length (reverse_mapping_ p))),
          {| reverse_mapping_ := reverse_mapping_ p;
             associated_literal_ := associated_literal_ p;
             clauses_start_ := clauses_start_ p;
             clauses_literals_ := clauses_literals_ p;
             assignment_ := a |})
  end.

(** ** The presolver *)

(** The fields of [SatPresolver].  The clause database [clauses_] is indexed
    by clause index, a deleted clause being empty; the occurrence lists
    [literal_to_clauses_] and their sizes [literal_to_clause_sizes_] are
    indexed by literal index.  The two parameters read by the presolver are
    kept as fields.

    Modelled from the spec: the priority queue of variables is an
    [AdjustablePriorityQueue], declared in a header that is not among the
    sources.  Section 4.3 keys it by the number of occurrences of a
    variable; it is modelled by the weights [var_pq_elements_] of the
    variables and by the list [var_pq_] of the variables that are in the
    queue. *)
Record SatPresolver : Type := mkPresolver {
  clauses_ : list (list Literal);
  literal_to_clauses_ : list (list ClauseIndex);
  literal_to_clause_sizes_ : list Z;
  in_clause_to_process_ : list bool;
  clause_to_process_ : list ClauseIndex;
  var_pq_elements_ : list Z;
  var_pq_ : list VariableIndex;
  equiv_mapping_ : list LiteralIndex;
  num_trivial_clauses_ : Z;
  presolve_bve_threshold : Z;
  presolve_bve_clause_weight : Z;
  postsolver_ : SatPostsolver
}.

Definition set_clauses (s : SatPresolver) (v : list (list Literal))
    : SatPresolver :=
  mkPresolver v (literal_to_clauses_ s) (literal_to_clause_sizes_ s)
    (in_clause_to_process_ s) (clause_to_process_ s) (var_pq_elements_ s)
    (var_pq_ s) (equiv_mapping_ s) (num_trivial_clauses_ s)
    (presolve_bve_threshold s) (presolve_bve_clause_weight s) (postsolver_ s).

Definition set_literal_to_clauses (s : SatPresolver)
    (v : list (list ClauseIndex)) : SatPresolver :=
  mkPresolver (clauses_ s) v (literal_to_clause_sizes_ s)
    (in_clause_to_process_ s) (clause_to_process_ s) (var_pq_elements_ s)
    (var_pq_ s) (equiv_mapping_ s) (num_trivial_clauses_ s)
    (presolve_bve_threshold s) (presolve_bve_clause_weight s) (postsolver_ s).

Definition set_literal_to_clause_sizes (s : SatPresolver) (v : list Z)
    : SatPresolver :=
  mkPresolver (clauses_ s) (literal_to_clauses_ s) v
    (in_clause_to_process_ s) (clause_to_process_ s) (var_pq_elements_ s)
    (var_pq_ s) (equiv_mapping_ s) (num_trivial_clauses_ s)
    (presolve_bve_threshold s) (presolve_bve_clause_weight s) (postsolver_ s).

Definition set_clause_queue (s : SatPresolver) (flags : list bool)
    (queue : list ClauseIndex) : SatPresolver :=
  mkPresolver (clauses_ s) (literal_to_clauses_ s) (literal_to_clause_sizes_ s)
    flags queue (var_pq_elements_ s)
    (var_pq_ s) (equiv_mapping_ s) (num_trivial_clauses_ s)
    (presolve_bve_threshold s) (presolve_bve_clause_weight s) (postsolver_ s).

Definition set_var_pq (s : SatPresolver) (elements : list Z)
    (queue : list VariableIndex) : SatPresolver :=
  mkPresolver (clauses_ s) (literal_to_clauses_ s) (literal_to_clause_sizes_ s)
    (in_clause_to_process_ s) (clause_to_process_ s) elements queue
    (equiv_mapping_ s) (num_trivial_clauses_ s)
    (presolve_bve_threshold s) (presolve_bve_clause_weight s) (postsolver_ s).

Definition set_num_trivial_clauses (s : SatPresolver) (v : Z) : SatPresolver :=
  mkPresolver (clauses_ s) (literal_to_clauses_ s) (literal_to_clause_sizes_ s)
    (in_clause_to_process_ s) (clause_to_process_ s) (var_pq_elements_ s)
    (var_pq_ s) (equiv_mapping_ s) v
    (presolve_bve_threshold s) (presolve_bve_clause_weight s) (postsolver_ s).

Definition set_postsolver (s : SatPresolver) (v : SatPostsolver)
    : SatPresolver :=
  mkPresolver (clauses_ s) (literal_to_clauses_ s) (literal_to_clause_sizes_ s)
    (in_clause_to_process_ s) (clause_to_process_ s) (var_pq_elements_ s)
    (var_pq_ s) (equiv_mapping_ s) (num_trivial_clauses_ s)
    (presolve_bve_threshold s) (presolve_bve_clause_weight s) v.

(** A presolver that has not been given any clause. *)
Definition SatPresolver_new (postsolver : SatPostsolver)
    (bve_threshold bve_clause_weight : Z) : SatPresolver :=
  mkPresolver [] [] [] [] [] [] [] [] 0 bve_threshold bve_clause_weight
    postsolver.

(** [clauses_[ci]], [literal_to_clauses_[l.Index()]] and
    [literal_to_clause_sizes_[l.Index()]].  The indices are in range in the
    source; out of range the model reads an empty clause, an empty list and
    zero. *)
Definition clause_at (s : SatPresolver) (ci : ClauseIndex) : list Literal :=
  clauses_ s !!! ci.

Definition occurrences (s : SatPresolver) (l : Literal) : list ClauseIndex :=
  literal_to_clauses_ s !!! N.to_nat l.

Definition occurrence_size (s : SatPresolver) (l : Literal) : Z :=
  literal_to_clause_sizes_ s !!! N.to_nat l.

Definition is_empty_clause (c : list Literal) : bool :=
  match c with [] => true | _ => false end.

(** [UpdatePriorityQueue(var)]. *)
Definition UpdatePriorityQueue (s : SatPresolver) (var : VariableIndex)
    : SatPresolver :=
  match var_pq_elements_ s with
  | [] => s
  | _ =>
    let weight := occurrence_size s (MakeLiteral var true)
                  + occurrence_size s (MakeLiteral var false) in
    set_var_pq s (<[N.to_nat var := weight]> (var_pq_elements_ s))
      (if bool_decide (var ∈ var_pq_ s) then var_pq_ s
       else var_pq_ s ++ [var])
  end.

(** The loop shared by [Remove] and [RemoveAndRegisterForPostsolve]: the
    size of the occurrence list of every literal of the clause is
    decremented. *)
Definition forget_occurrence (s : SatPresolver) (e : Literal)
    : SatPresolver :=
  UpdatePriorityQueue
    (set_literal_to_clause_sizes s
       (alter (fun n => n - 1) (N.to_nat e) (literal_to_clause_sizes_ s)))
    (LiteralVariable e).

(** [Remove(ci)]. *)
Definition Remove (s : SatPresolver) (ci : ClauseIndex) : SatPresolver :=
  let s := foldl forget_occurrence s (clause_at s ci) in
  set_clauses s (<[ci := []]> (clauses_ s)).

(** [RemoveAndRegisterForPostsolve(ci, x)]. *)
Definition RemoveAndRegisterForPostsolve (s : SatPresolver) (ci : ClauseIndex)
    (x : Literal) : option SatPresolver :=
  let clause := clause_at s ci in
  let s := foldl forget_occurrence s clause in
  match Add (postsolver_ s) x clause with
  | None => None
  | Some postsolver =>
    Some (set_clauses (set_postsolver s postsolver) (<[ci := []]> (clauses_ s)))
  end.

(** The loop that registers a clause in the occurrence lists of its
    literals. *)
Definition add_occurrence (ci : ClauseIndex) (s : SatPresolver) (e : Literal)
    : SatPresolver :=
  set_literal_to_clause_sizes
    (set_literal_to_clauses s
       (alter (fun occ => occ ++ [ci]) (N.to_nat e) (literal_to_clauses_ s)))
    (alter (fun n => n + 1) (N.to_nat e) (literal_to_clause_sizes_ s)).

(** [AddClauseInternal(&clause)]. *)
Definition AddClauseInternal (s : SatPresolver) (clause : list Literal)
    : option SatPresolver :=
  match clause with
  | [] => None
  | _ =>
    let ci := length (clauses_ s) in
    let s := set_clauses s (clauses_ s ++ [clause]) in
    let s := set_clause_queue s (in_clause_to_process_ s ++ [true])
               (clause_to_process_ s ++ [ci]) in
    Some (foldl (add_occurrence ci) s clause)
  end.

(** [FindLiteralWithShortestOccurenceList(clause)]. *)
Definition FindLiteralWithShortestOccurenceList (s : SatPresolver)
    (clause : list Literal) : option Literal :=
  match clause with
  | [] => None
  | front :: _ =>
    Some (foldl (fun result l =>
                   if occurrence_size s l <? occurrence_size s result then l
                   else result)
                front clause)
  end.

(** [std::sort] followed by [std::unique] and [erase]: the literals of the
    clause in increasing order, each one once. *)
Fixpoint insert_sorted (l : Literal) (c : list Literal) : list Literal :=
  match c with
  | [] => [l]
  | l' :: c' =>
    if (l <? l')%N then l :: l' :: c'
    else if (l =? l')%N then l' :: c'
    else l' :: insert_sorted l c'
  end.

Definition sort_unique (c : list Literal) : list Literal :=
  foldr insert_sorted [] c.

(** Lines 152-161: is some literal followed by its negation? *)
Fixpoint has_trivial_pair (c : list Literal) : bool :=
  match c with
  | [] => false
  | l :: c' =>
    match c' with
    | [] => false
    | l' :: _ => (l' =? Negated l)%N || has_trivial_pair c'
    end
  end.

(** Lines 142-146: the literals are replaced by their representatives when
    an equivalence mapping has been set. *)
Definition apply_equiv_mapping (s : SatPresolver) (clause : list Literal)
    : list Literal :=
  match equiv_mapping_ s with
  | [] => clause
  | mapping => map (fun l => Z.to_N (mapping !!! N.to_nat l)) clause
  end.

(** [AddClause(clause)]. *)
Definition AddClause (s : SatPresolver) (clause : list Literal)
    : option SatPresolver :=
  match clause with
  | [] => None
  | _ =>
    let ci := length (clauses_ s) in
    let clause_ref := sort_unique (apply_equiv_mapping s clause) in
    if has_trivial_pair clause_ref then
      Some (set_num_trivial_clauses s (num_trivial_clauses_ s + 1))
    else
      let s := set_clauses s (clauses_ s ++ [clause_ref]) in
      let s := set_clause_queue s (in_clause_to_process_ s ++ [true])
                 (clause_to_process_ s ++ [ci]) in
      let max_literal := default 0%N (last clause_ref) in
      let required_size :=
        Z.to_nat (Z.max (Index max_literal) (NegatedIndex max_literal) + 1) in
      let s :=
        if (length (literal_to_clauses_ s) <? required_size)%nat then
          set_literal_to_clause_sizes
            (set_literal_to_clauses s
               (resize required_size [] (literal_to_clauses_ s)))
            (resize required_size 0 (literal_to_clause_sizes_ s))
        else s in
      Some (foldl (add_occurrence ci) s clause_ref)
  end.

(** Lines 377-388 of [CrossProduct]: the budget of the elimination. *)
Definition add_clause_cost (s : SatPresolver) (threshold : Z)
    (i : ClauseIndex) : Z :=
  if is_empty_clause (clause_at s i) then threshold
  else threshold
       + (presolve_bve_clause_weight s + Z.of_nat (length (clause_at s i))).

Definition bve_threshold (s : SatPresolver) (x : Literal) : Z :=
  foldl (add_clause_cost s)
    (foldl (add_clause_cost s) 0 (occurrences s x))
    (occurrences s (Negated x)).

(** Lines 398-408: the inner loop of the test, over the clauses [js] that
    contain the negation of [x].  It returns whether the budget was
    exceeded, [no_resolvant] and [size]. *)
Fixpoint resolvent_sizes (s : SatPresolver) (x : Literal)
    (clause_i : list Literal) (js : list ClauseIndex) (threshold : Z)
    (no_resolvant : bool) (size : Z) : bool * bool * Z :=
  match js with
  | [] => (false, no_resolvant, size)
  | j :: js' =>
    if is_empty_clause (clause_at s j) then
      resolvent_sizes s x clause_i js' threshold no_resolvant size
    else
      let rs := ComputeResolvantSize x clause_i (clause_at s j) in
      if rs >=? 0 then
        let size := size + (presolve_bve_clause_weight s + rs) in
        if size >? threshold then (true, false, size)
        else resolvent_sizes s x clause_i js' threshold false size
      else resolvent_sizes s x clause_i js' threshold no_resolvant size
  end.

(** Lines 395-424: the test of the elimination, over the clauses [ids] that
    contain [x]; the blocked clauses met on the way are removed.  It returns
    whether the budget was exceeded. *)
Fixpoint eliminate_blocked (s : SatPresolver) (x : Literal)
    (ids : list ClauseIndex) (threshold size : Z)
    : option (bool * Z * SatPresolver) :=
  match ids with
  | [] => Some (false, size, s)
  | i :: ids' =>
    if is_empty_clause (clause_at s i) then
      eliminate_blocked s x ids' threshold size
    else
      let '(exceeded, no_resolvant, size) :=
        resolvent_sizes s x (clause_at s i) (occurrences s (Negated x))
          threshold true size in
      if exceeded then Some (true, size, s)
      else if no_resolvant then
        match RemoveAndRegisterForPostsolve s i x with
        | None => None
        | Some s => eliminate_blocked s x ids' threshold size
        end
      else eliminate_blocked s x ids' threshold size
  end.

(** Lines 430-438: the resolvents are added.  The occurrence lists of [x]
    and of its negation are those of the state in which the loops start:
    no resolvent contains [x] or its negation. *)
Fixpoint add_resolvents_of (s : SatPresolver) (x : Literal) (i : ClauseIndex)
    (js : list ClauseIndex) : option SatPresolver :=
  match js with
  | [] => Some s
  | j :: js' =>
    if is_empty_clause (clause_at s j) then add_resolvents_of s x i js'
    else
      match ComputeResolvant x (clause_at s i) (clause_at s j) with
      | (true, temp) =>
        match AddClauseInternal s temp with
        | None => None
        | Some s => add_resolvents_of s x i js'
        end
      | (false, _) => add_resolvents_of s x i js'
      end
  end.

Fixpoint add_resolvents (s : SatPresolver) (x : Literal)
    (ids : list ClauseIndex) : option SatPresolver :=
  match ids with
  | [] => Some s
  | i :: ids' =>
    if is_empty_clause (clause_at s i) then add_resolvents s x ids'
    else
      match add_resolvents_of s x i (occurrences s (Negated x)) with
      | None => None
      | Some s => add_resolvents s x ids'
      end
  end.

(** [RemoveAndRegisterForPostsolveAllClauseContaining(x)]. *)
Fixpoint remove_and_register_all (s : SatPresolver) (x : Literal)
    (ids : list ClauseIndex) : option SatPresolver :=
  match ids with
  | [] => Some s
  | i :: ids' =>
    if is_empty_clause (clause_at s i) then remove_and_register_all s x ids'
    else
      match RemoveAndRegisterForPostsolve s i x with
      | None => None
      | Some s => remove_and_register_all s x ids'
      end
  end.

Definition RemoveAndRegisterForPostsolveAllClauseContaining
    (s : SatPresolver) (x : Literal) : option SatPresolver :=
  match remove_and_register_all s x (occurrences s x) with
  | None => None
  | Some s =>
    Some (set_literal_to_clause_sizes
            (set_literal_to_clauses s
               (<[N.to_nat x := []]> (literal_to_clauses_ s)))
            (<[N.to_nat x := 0]> (literal_to_clause_sizes_ s)))
  end.

(** [CrossProduct(x)]. *)
Definition CrossProduct (s : SatPresolver) (x : Literal)
    : option (bool * SatPresolver) :=
  let s1 := occurrence_size s x in
  let s2 := occurrence_size s (Negated x) in
  if (s1 =? 0) && (s2 =? 0) then Some (false, s)
  else if (s1 >? 1) && (s2 >? 1) && (s1 * s2 >? presolve_bve_threshold s)
  then Some (false, s)
  else
    let threshold := bve_threshold s x in
    let x := if s1 <? s2 then Negated x else x in
    match eliminate_blocked s x (occurrences s x) threshold 0 with
    | None => None
    | Some (true, _, s) => Some (false, s)
    | Some (false, _, s) =>
      match add_resolvents s x (occurrences s x) with
      | None => None
      | Some s =>
        match RemoveAndRegisterForPostsolveAllClauseContaining s x with
        | None => None
        | Some s =>
          match RemoveAndRegisterForPostsolveAllClauseContaining s
                  (Negated x) with
          | None => None
          | Some s => Some (true, s)
          end
        end
      end
    end.

(** [std::find] followed by [erase]: the first occurrence of [ci] is
    removed from the list. *)
Fixpoint remove_first (ci : ClauseIndex) (occ : list ClauseIndex)
    : list ClauseIndex :=
  match occ with
  | [] => []
  | c :: occ' => if (c =? ci)%nat then occ' else c :: remove_first ci occ'
  end.

(** Lines 306-309 and 335-338: the clause is queued if it is not yet. *)
Definition enqueue_clause (s : SatPresolver) (ci : ClauseIndex)
    : SatPresolver :=
  if (in_clause_to_process_ s !!! ci : bool) then s
  else set_clause_queue s (<[ci := true]> (in_clause_to_process_ s))
         (clause_to_process_ s ++ [ci]).

(** Lines 297-309: the clause [ci] has lost [opposite_literal]. *)
Definition unregister_literal (s : SatPresolver) (ci : ClauseIndex)
    (opposite_literal : LiteralIndex) : SatPresolver :=
  let l := Z.to_N opposite_literal in
  let s := set_literal_to_clauses s
             (alter (remove_first ci) (N.to_nat l) (literal_to_clauses_ s)) in
  let s := set_literal_to_clause_sizes s
             (alter (fun n => n - 1) (N.to_nat l)
                (literal_to_clause_sizes_ s)) in
  enqueue_clause (UpdatePriorityQueue s (LiteralVariable l)) ci.

(** Lines 285-314: the loop over the occurrence list of [lit].  [todo] is
    what is left of the list, [kept] what has been written back at its
    start so far.  The boolean of the result is false when the loop is left
    by [return false] (UNSAT). *)
Fixpoint simplify_occurrences (clause_index : ClauseIndex)
    (clause : list Literal) (lit : Literal) (todo kept : list ClauseIndex)
    (opposite_literal : LiteralIndex) (s : SatPresolver)
    : option (bool * list ClauseIndex * LiteralIndex * SatPresolver) :=
  match todo with
  | [] => Some (true, kept, opposite_literal, s)
  | ci :: todo' =>
    if is_empty_clause (clause_at s ci) then
      simplify_occurrences clause_index clause lit todo' kept
        opposite_literal s
    else if (ci =? clause_index)%nat then
      simplify_occurrences clause_index clause lit todo' (kept ++ [ci])
        opposite_literal s
    else
      match SimplifyClause clause (clause_at s ci) opposite_literal with
      | None => None
      | Some (subsumed, b, opposite_literal) =>
        let s := set_clauses s (<[ci := b]> (clauses_ s)) in
        if subsumed then
          if opposite_literal =? -1 then
            simplify_occurrences clause_index clause lit todo' kept
              opposite_literal (Remove s ci)
          else if opposite_literal =? Index lit then None
          else if is_empty_clause b then
            Some (false, kept, opposite_literal, s)
          else
            simplify_occurrences clause_index clause lit todo' (kept ++ [ci])
              opposite_literal (unregister_literal s ci opposite_literal)
        else
          simplify_occurrences clause_index clause lit todo' (kept ++ [ci])
            opposite_literal s
      end
  end.

(** Lines 327-344: the loop over the occurrence list of the negation of
    [lit]. *)
Fixpoint simplify_negated_occurrences (clause : list Literal) (lit : Literal)
    (todo kept : list ClauseIndex) (something_removed : bool)
    (opposite_literal : LiteralIndex) (s : SatPresolver)
    : option (bool * list ClauseIndex * bool * SatPresolver) :=
  match todo with
  | [] => Some (true, kept, something_removed, s)
  | ci :: todo' =>
    if is_empty_clause (clause_at s ci) then
      simplify_negated_occurrences clause lit todo' kept something_removed
        opposite_literal s
    else
      match SimplifyClause clause (clause_at s ci) opposite_literal with
      | None => None
      | Some (subsumed, b, opposite_literal) =>
        let s := set_clauses s (<[ci := b]> (clauses_ s)) in
        if subsumed then
          if negb (opposite_literal =? NegatedIndex lit) then None
          else if is_empty_clause b then
            Some (false, kept, something_removed, s)
          else
            simplify_negated_occurrences clause lit todo' kept true
              opposite_literal (enqueue_clause s ci)
        else
          simplify_negated_occurrences clause lit todo' (kept ++ [ci])
            something_removed opposite_literal s
      end
  end.

(** The occurrence list of [l] after a scan that wrote [kept] back at its
    start: it is cut to [kept] when the scan went through, and keeps its
    old tail when the scan was left early. *)
Definition write_occurrences (s : SatPresolver) (l : Literal)
    (kept : list ClauseIndex) (completed : bool) : SatPresolver :=
  set_literal_to_clauses s
    (<[N.to_nat l :=
         if completed then kept
         else kept ++ drop (length kept) (occurrences s l)]>
       (literal_to_clauses_ s)).

(** [ProcessClauseToSimplifyOthers(clause_index)].  The returned boolean is
    false when a clause became empty (UNSAT). *)
Definition ProcessClauseToSimplifyOthers (s : SatPresolver)
    (clause_index : ClauseIndex) : option (bool * SatPresolver) :=
  let clause := clause_at s clause_index in
  match FindLiteralWithShortestOccurenceList s clause with
  | None => Some (true, s)
  | Some lit =>
    match simplify_occurrences clause_index clause lit (occurrences s lit) []
            0 s with
    | None => None
    | Some (false, kept, _, s) =>
      Some (false, write_occurrences s lit kept false)
    | Some (true, kept, opposite_literal, s) =>
      let s := write_occurrences s lit kept true in
      if negb (occurrence_size s lit =? Z.of_nat (length kept)) then None
      else
        match simplify_negated_occurrences clause lit
                (occurrences s (Negated lit)) [] false opposite_literal s with
        | None => None
        | Some (false, kept, _, s) =>
          Some (false, write_occurrences s (Negated lit) kept false)
        | Some (true, kept, something_removed, s) =>
          let s := write_occurrences s (Negated lit) kept true in
          let s := set_literal_to_clause_sizes s
                     (<[N.to_nat (Negated lit) := Z.of_nat (length kept)]>
                        (literal_to_clause_sizes_ s)) in
          Some (true,
                if something_removed
                then UpdatePriorityQueue s (LiteralVariable (Negated lit))
                else s)
        end
    end
  end.

(** A new presolver loaded with the clauses of a formula. *)
Definition presolver_of_clauses (postsolver : SatPostsolver)
    (bve_threshold bve_clause_weight : Z) (formula : list (list Literal))
    : option SatPresolver :=
  foldl (fun state clause => state ≫= fun s => AddClause s clause)
    (Some (SatPresolver_new postsolver bve_threshold bve_clause_weight))
    formula.

(** *** Notions used to state what [CrossProduct] does *)

Definition log_length (s : SatPresolver) : nat :=
  length (associated_literal_ (postsolver_ s)).

(** The number of clauses of the occurrence list of [l] that are not
    deleted. *)
Definition live_occurrences (s : SatPresolver) (l : Literal) : Z :=
  Z.of_nat (length (filter (fun i => clause_at s i <> [])
                      (occurrences s l))).

(** The clause [i] is blocked on [x]: it has no resolvent on [x], other than
    trivially true ones, with the clauses of the occurrence list of the
    negation of [x]. *)
Definition blocked (s : SatPresolver) (x : Literal) (i : ClauseIndex) : Prop :=
  forall j, j ∈ occurrences s (Negated x) -> clause_at s j <> [] ->
    ComputeResolvantSize x (clause_at s i) (clause_at s j) < 0.

(** [s'] is obtained from [s] by removing clauses of the occurrence list of
    [x] that are blocked on [x], each one being registered for postsolve
    with [x]. *)
Inductive blocked_removals (x : Literal)
    : SatPresolver -> SatPresolver -> Prop :=
| blocked_removals_done s : blocked_removals x s s
| blocked_removals_step s i s1 s' :
    i ∈ occurrences s x -> clause_at s i <> [] -> blocked s x i ->
    RemoveAndRegisterForPostsolve s i x = Some s1 ->
    blocked_removals x s1 s' ->
    blocked_removals x s s'.

(** From [s] to [s'] the clauses present in [s] were kept or deleted, and
    the log grew whenever one of them was deleted. *)
Definition only_deletes (s s' : SatPresolver) : Prop :=
  (log_length s <= log_length s')%nat
  /\ (length (clauses_ s) <= length (clauses_ s'))%nat
  /\ forall i, (i < length (clauses_ s))%nat ->
       clause_at s' i = clause_at s i
       \/ (clause_at s' i = [] /\ (log_length s < log_length s')%nat).

(** *** Invariants of the clause database *)

(** Every clause is sorted, without duplicate and without complementary
    pair. *)
Definition canonical_db (s : SatPresolver) : Prop :=
  forall ci, canonical (clause_at s ci) = true.

(** Every clause is in the occurrence list of each of its literals. *)
Definition occurrences_complete (s : SatPresolver) : Prop :=
  forall ci l, l ∈ clause_at s ci -> ci ∈ occurrences s l.

(** A clause of the occurrence list of a literal is deleted or contains the
    literal. *)
Definition occurrences_accurate (s : SatPresolver) : Prop :=
  forall l ci, ci ∈ occurrences s l ->
    clause_at s ci = [] \/ l ∈ clause_at s ci.

Definition occurrences_nodup (s : SatPresolver) : Prop :=
  forall l, NoDup (occurrences s l).

(** The occurrence lists only hold indices of clauses of the database. *)
Definition occurrences_in_range (s : SatPresolver) : Prop :=
  forall l ci, ci ∈ occurrences s l -> (ci < length (clauses_ s))%nat.

(** The reverse mapping of a postsolver over [n] variables that has not been
    given any mapping. *)
Definition identity_mapping (n : nat) (p : SatPostsolver) : Prop :=
  reverse_mapping_ p = map Z.of_nat (seq 0 n).

Record presolver_inv (n : nat) (s : SatPresolver) : Prop := mkInv {
  inv_canonical : canonical_db s;
  inv_complete : occurrences_complete s;
  inv_accurate : occurrences_accurate s;
  inv_nodup : occurrences_nodup s;
  inv_in_range : occurrences_in_range s;
  inv_mapping : identity_mapping n (postsolver_ s)
}.

(** *** Models *)

(** The assignment gives a value to each of the [n] variables. *)
Definition total_on (n : nat) (m : VariablesAssignment) : Prop :=
  forall v : VariableIndex, (v < N.of_nat n)%N -> is_Some (values m !! v).

(** The assignment satisfies every clause of the database that is not
    deleted. *)
Definition satisfies_db (m : VariablesAssignment) (s : SatPresolver) : Prop :=
  forall ci, clause_at s ci <> [] -> clause_satisfied m (clause_at s ci) = true.

(** Replaying the entries [new] turns every model of the database [s'] into
    a model of the database [s]. *)
Definition reconstructs (n : nat) (s s' : SatPresolver)
    (new : list LogEntry) : Prop :=
  forall m, total_on n m -> satisfies_db m s' ->
    total_on n (replay new m) /\ satisfies_db (replay new m) s.

(** The clauses that contain [x] and the clauses that contain its negation
    have their resolvents on [x] in the database, when these are not
    trivially true. *)
Definition resolved (s : SatPresolver) (x : Literal) : Prop :=
  forall i j, x ∈ clause_at s i -> Negated x ∈ clause_at s j ->
    clash x (clause_at s i) (clause_at s j)
    \/ exists k, clause_at s k <> [] /\ (x ∉ clause_at s k)
         /\ forall l, l ∈ clause_at s k ->
              (l ∈ clause_at s i /\ l <> x)
              \/ (l ∈ clause_at s j /\ l <> Negated x).

(** The clause [ci] can be removed with associated literal [x]: every other
    clause that contains the negation of [x] clashes with it on another
    literal, or has with it a resolvent on [x] that is implied by a clause
    of the database. *)
Definition removable (s : SatPresolver) (ci : ClauseIndex) (x : Literal)
    : Prop :=
  forall j, j <> ci -> Negated x ∈ clause_at s j ->
    clash x (clause_at s ci) (clause_at s j)
    \/ exists k, k <> ci /\ clause_at s k <> []
         /\ forall l, l ∈ clause_at s k ->
              (l ∈ clause_at s ci /\ l <> x)
              \/ (l ∈ clause_at s j /\ l <> Negated x).

(** A step of the presolver from [s] to [s'] is sound: it keeps the
    invariants of the database, it only appends to the log, and replaying
    what it appended turns the models of [s'] into models of [s]. *)
Definition sound_step (n : nat) (s s' : SatPresolver) : Prop :=
  forall es, presolver_inv n s -> log_is (postsolver_ s) es ->
    presolver_inv n s'
    /\ exists new, log_is (postsolver_ s') (es ++ new)
         /\ reconstructs n s s' new.

(** From [s] to [s'] clauses that contain neither [x] nor its negation were
    appended to the database, and nothing else changed for [x]. *)
Definition resolvents_added (x : Literal) (s s' : SatPresolver) : Prop :=
  postsolver_ s' = postsolver_ s
  /\ (length (clauses_ s) <= length (clauses_ s'))%nat
  /\ (forall k, (k < length (clauses_ s))%nat ->
        clause_at s' k = clause_at s k)
  /\ (forall k, (length (clauses_ s) <= k)%nat ->
        (x ∉ clause_at s' k) /\ (Negated x ∉ clause_at s' k))
  /\ occurrences s' x = occurrences s x
  /\ occurrences s' (Negated x) = occurrences s (Negated x).

(** [ProcessAllClauses()] (lines 232-240).  The queue can grow while it
    is emptied, so the loop is run on a [fuel]; [None] is also a failed
    [CHECK]. *)
Fixpoint ProcessAllClauses (fuel : nat) (s : SatPresolver)
    : option (bool * SatPresolver) :=
  match fuel with
  | O => None
  | S fuel' =>
    match clause_to_process_ s with
    | [] => Some (true, s)
    | ci :: queue =>
      let s := set_clause_queue s (<[ci := false]> (in_clause_to_process_ s))
                 queue in
      match ProcessClauseToSimplifyOthers s ci with
      | None => None
      | Some (false, s) => Some (false, s)
      | Some (true, s) => ProcessAllClauses fuel' s
      end
    end
  end.

(** *** The operations of [Presolve]

    [Presolve] (lines 242-265) and [ProcessAllClauses] (lines 232-240) call
    [ProcessClauseToSimplifyOthers] on the queued clauses and [CrossProduct]
    on the variables of the priority queue, as long as no clause becomes
    empty; in between they only pop the two queues and reset the flags of
    the queued clauses. *)
Inductive presolve_step : SatPresolver -> SatPresolver -> Prop :=
| step_process s ci s' :
    ProcessClauseToSimplifyOthers s ci = Some (true, s') ->
    presolve_step s s'
| step_eliminate s x r s' :
    CrossProduct s x = Some (r, s') ->
    presolve_step s s'
| step_schedule s flags queue elements pq :
    presolve_step s
      (set_var_pq (set_clause_queue s flags queue) elements pq).

Inductive presolve_steps : SatPresolver -> SatPresolver -> Prop :=
| presolve_steps_done s : presolve_steps s s
| presolve_steps_next s s1 s' :
    presolve_step s s1 -> presolve_steps s1 s' -> presolve_steps s s'.

(** *** The size counters and the variables of the database *)

(** The counters [literal_to_clause_sizes_] are exact: there is one for
    each occurrence list, and it is the number of clauses of the list that
    are not deleted. *)
Definition sizes_exact (s : SatPresolver) : Prop :=
  length (literal_to_clause_sizes_ s) = length (literal_to_clauses_ s)
  /\ forall l : Literal, (N.to_nat l < length (literal_to_clauses_ s))%nat ->
       literal_to_clause_sizes_ s !! N.to_nat l = Some (live_occurrences s l).

(** The same for all the counters but the one of [skip]: the second scan of
    [ProcessClauseToSimplifyOthers] only sets that one when it ends. *)
Definition sizes_exact_but (skip : Literal) (s : SatPresolver) : Prop :=
  length (literal_to_clause_sizes_ s) = length (literal_to_clauses_ s)
  /\ forall l : Literal, (N.to_nat l < length (literal_to_clauses_ s))%nat ->
       l <> skip ->
       literal_to_clause_sizes_ s !! N.to_nat l = Some (live_occurrences s l).

(** The clauses of the database are over the variables [0 .. n). *)
Definition variables_below (n : nat) (s : SatPresolver) : Prop :=
  forall ci l, l ∈ clause_at s ci -> (LiteralVariable l < N.of_nat n)%N.

(** What the presolver keeps besides the invariants of the database: exact
    counters, clauses over the [n] variables of the postsolver, and a
    postsolver whose assignment is still empty. *)
Record counters_inv (n : nat) (s : SatPresolver) : Prop := mkCountersInv {
  inv_sizes : sizes_exact s;
  inv_variables : variables_below n s;
  inv_assignment : assignment_ (postsolver_ s) = empty_assignment n
}.

(** The number of literals of the database, and what bounds the number of
    iterations of [ProcessAllClauses]: the length of the queue plus the
    number of literals. *)
Definition total_literals (s : SatPresolver) : nat :=
  sum_list_with length (clauses_ s).

Definition queue_measure (s : SatPresolver) : nat :=
  length (clause_to_process_ s) + total_literals s.

(** *** Handing the problem over to the solver *)

(** [VariableMapping()] (lines 189-202).  [NumVariables()] is defined with
    the class, outside the sources: its value is the argument
    [num_variables] of [VariableMapping].  In the loop [todo] is the number
    of variables left, [var] the variable the loop has reached; [None]
    stands for a counter read out of range. *)
Fixpoint VariableMapping_loop (sizes : list Z) (todo var : nat) (new_var : Z)
    : option (list Z) :=
  match todo with
  | O => Some []
  | S todo' =>
    match sizes !! N.to_nat (MakeLiteral (N.of_nat var) true) with
    | None => None
    | Some positive =>
      if positive >? 0 then
        (new_var ::.) <$> VariableMapping_loop sizes todo' (S var) (new_var + 1)
      else
        match sizes !! N.to_nat (MakeLiteral (N.of_nat var) false) with
        | None => None
        | Some negative =>
          if negative >? 0 then
            (new_var ::.)
              <$> VariableMapping_loop sizes todo' (S var) (new_var + 1)
          else (-1 ::.) <$> VariableMapping_loop sizes todo' (S var) new_var
        end
    end
  end.

Definition VariableMapping (num_variables : nat) (s : SatPresolver)
    : option (list Z) :=
  VariableMapping_loop (literal_to_clause_sizes_ s) num_variables 0 0.

(** A variable is in use when the counter of one of its two literals is
    positive; its rank is the number of variables in use below it. *)
Definition variable_in_use (s : SatPresolver) (var : nat) : bool :=
  match literal_to_clause_sizes_ s !! N.to_nat (MakeLiteral (N.of_nat var) true)
  with
  | None => false
  | Some positive =>
    (positive >? 0)
    || match literal_to_clause_sizes_ s
               !! N.to_nat (MakeLiteral (N.of_nat var) false) with
       | None => false
       | Some negative => negative >? 0
       end
  end.

Definition variable_rank (s : SatPresolver) (var : nat) : nat :=
  length (filter (fun u => variable_in_use s u = true) (seq 0 var)).

(** The literal [l] as the solver is to see it: its variable is replaced by
    the rank of the variable. *)
Definition renamed_literal (s : SatPresolver) (l : Literal) : Literal :=
  MakeLiteral (N.of_nat (variable_rank s (N.to_nat (LiteralVariable l))))
    (IsPositive l).

(** Lines 224-225: a literal renamed through [mapping]; [None] is the
    failure of [CHECK_NE], or a variable that [mapping] does not cover. *)
Definition remap_literal (mapping : list Z) (l : Literal) : option Literal :=
  match mapping !! N.to_nat (LiteralVariable l) with
  | None => None
  | Some image =>
    if image =? -1 then None
    else Some (MakeLiteral (Z.to_N image) (IsPositive l))
  end.

(** [LoadProblemIntoSatSolver(solver)] (lines 204-230).  The solver is an
    external collaborator: the result holds the argument of
    [SetNumVariables], the clauses given to [AddProblemClause], in the
    order of the calls, and the presolver as the call leaves it. *)
Definition LoadProblemIntoSatSolver (num_variables : nat) (s : SatPresolver)
    : option (nat * list (list Literal) * SatPresolver) :=
  let s := mkPresolver (clauses_ s) [] (literal_to_clause_sizes_ s) [] [] []
             [] (equiv_mapping_ s) (num_trivial_clauses_ s)
             (presolve_bve_threshold s) (presolve_bve_clause_weight s)
             (postsolver_ s) in
  match VariableMapping num_variables s with
  | None => None
  | Some mapping =>
    let new_size := length (filter (fun index => index <> -1) mapping) in
    match mapM (mapM (remap_literal mapping)) (clauses_ s) with
    | None => None
    | Some clauses =>
      Some (new_size, filter (fun temp => temp <> []) clauses,
            set_clauses s (map (fun _ => []) (clauses_ s)))
    end
  end.

(** [ExtractAndPostsolveSolution(solver)] (lines 99-108).  The solver is
    seen through [solver.NumVariables()] and [solver.Assignment()]. *)
Definition ExtractAndPostsolveSolution (p : SatPostsolver)
    (num_variables : nat) (assignment : VariablesAssignment)
    : option (list bool * SatPostsolver) :=
  let vars := map N.of_nat (seq 0 num_variables) in
  if forallb (VariableIsAssigned assignment) vars then
    PostsolveSolution p
      (map (fun var => LiteralIsTrue assignment (MakeLiteral var true)) vars)
  else None.

(** ** Equivalent-literal probing *)

(** Modelled from the spec: [MergingPartition] is declared and implemented
    in files that are not among the sources.  Section 4.5 describes it as a
    merging partition over [2N] elements whose parts are unioned and which
    gives each element the representative of its part.  Its state is
    modelled by what the calls observe: the root of the part of every node,
    and the size of the part of every root.  Which of the two roots a union
    keeps is left to a policy. *)
Record MergingPartition : Type := mkPartition {
  root_of : N -> N;
  part_size_ : N -> nat
}.

(** A policy tells whether a union keeps the root of its first argument,
    from the two roots and the sizes of their parts. *)
Class MergePolicy : Type :=
  keep_first : N -> nat -> N -> nat -> bool.

(** The usual union by size: the smaller part is attached to the larger one,
    ties being broken towards the smaller root. *)
Definition union_by_size : MergePolicy :=
  fun root1 s1 root2 s2 =>
    negb ((s1 <? s2)%nat || ((s1 =? s2)%nat && (root2 <? root1)%N)).

(** A policy is mirror symmetric when it decides alike for two roots and for
    their negations. *)
Definition mirror_symmetric (policy : MergePolicy) : Prop :=
  forall root1 s1 root2 s2,
    LiteralVariable root1 <> LiteralVariable root2 ->
    keep_first (Negated root1) s1 (Negated root2) s2
    = keep_first root1 s1 root2 s2.

(** [MergingPartition partition(size)]: every node is alone in its part. *)
Definition MergingPartition_new : MergingPartition :=
  {| root_of := fun n => n; part_size_ := fun _ => 1%nat |}.

Definition MergePartsOf `{MergePolicy} (p : MergingPartition) (node1 node2 : N)
    : MergingPartition :=
  let root1 := root_of p node1 in
  let root2 := root_of p node2 in
  if (root1 =? root2)%N then p
  else
    let s1 := part_size_ p root1 in
    let s2 := part_size_ p root2 in
    let kept := if keep_first root1 s1 root2 s2 then root1 else root2 in
    let dropped := if keep_first root1 s1 root2 s2 then root2 else root1 in
    {| root_of := fun n =>
         if (root_of p n =? dropped)%N then kept else root_of p n;
       part_size_ := fun r =>
         if (r =? kept)%N then (s1 + s2)%nat else part_size_ p r |}.

(** Path compression does not change the root of any node. *)
Definition GetRootAndCompressPath (p : MergingPartition) (node : N) : N :=
  root_of p node.

(** Lines 724-732 of [ProbeAndFindEquivalentLiteral]: the literals of a
    component, from the second one on, are merged with its first literal,
    and their negations with its negation. *)
Fixpoint merge_component `{MergePolicy} (representative : Literal)
    (component : list Literal) (p : MergingPartition) : MergingPartition :=
  match component with
  | [] => p
  | l :: component' =>
    merge_component representative component'
      (MergePartsOf (MergePartsOf p representative l)
         (Negated representative) (Negated l))
  end.

(** Lines 719-741: the loop over the strongly connected components.  [None]
    is the failure of the [CHECK_EQ] on the representative. *)
Fixpoint merge_components `{MergePolicy} (scc : list (list Literal))
    (p : MergingPartition) : option MergingPartition :=
  match scc with
  | [] => Some p
  | component :: scc' =>
    match component with
    | representative :: (_ :: _) as others =>
      let p := merge_component representative others p in
      if (GetRootAndCompressPath p representative
          =? Negated (GetRootAndCompressPath p (Negated representative)))%N
      then merge_components scc' p
      else None
    | _ => merge_components scc' p
    end
  end.

(** The mapping emitted by [ProbeAndFindEquivalentLiteral] for the
    components [scc] over [size] literals: it stays empty when no component
    has more than one literal, and otherwise maps every literal index to
    the root of its part (line 761).  The components come from the
    propagation graph of the solver; the unit clauses and the postsolve
    entries of lines 743-778 do not change the mapping. *)
Definition equivalence_mapping `{MergePolicy} (size : nat)
    (scc : list (list Literal)) : option (list LiteralIndex) :=
  match merge_components scc MergingPartition_new with
  | None => None
  | Some p =>
    if existsb (fun component => (1 <? length component)%nat) scc then
      Some (map (fun i => Index (GetRootAndCompressPath p (N.of_nat i)))
              (seq 0 size))
    else Some []
  end.

(** The roots are their own roots. *)
Definition partition_wf (p : MergingPartition) : Prop :=
  forall n, root_of p (root_of p n) = root_of p n.

(** The partition is its own mirror image under negation. *)
Definition partition_mirrored (p : MergingPartition) : Prop :=
  (forall l, root_of p (Negated l) = Negated (root_of p l))
  /\ (forall l, part_size_ p (Negated l) = part_size_ p l).

(** ** The core-guided optimizer ([complete_optimizer.cc]) *)

(** [sat::Coefficient] is a 64-bit signed integer. *)
Abbreviation Coefficient := Z.
Definition kCoefficientMax : Coefficient := 2 ^ 63 - 1.

(** Modelled from the spec: [sat::EncodingNode] is declared in a header that
    is not among the sources.  Section 3 describes a node by its current
    weight, its size and its output literal [literal(0)], whose negation is
    the assumption of the node. *)
Record EncodingNode : Type := mkNode {
  literal0 : Literal;
  weight : Coefficient;
  size : Z
}.

Definition set_weight (n : EncodingNode) (w : Coefficient) : EncodingNode :=
  {| literal0 := literal0 n; weight := w; size := size n |}.

Inductive SatStatus : Type :=
| ASSUMPTIONS_UNSAT | MODEL_UNSAT | MODEL_SAT | LIMIT_REACHED.

Inductive BopStatus : Type :=
| OPTIMAL_SOLUTION_FOUND | SOLUTION_FOUND | INFEASIBLE | CONTINUE.

(** The SAT solver and the encoding library are external collaborators:
    the optimizer only sees them through these operations, which thread the
    state [Solver] of the solver. *)
Class SolverOps (Solver : Type) : Type := {
  Backtrack : Z -> Solver -> Solver;
  LiteralIsFalse : Literal -> Solver -> bool;
  AddUnitClause : Literal -> Solver -> bool * Solver;
  IncreaseNodeSize : EncodingNode -> Solver -> EncodingNode * Solver;
  LazyMergeAllNodeWithPQ : list EncodingNode -> Solver -> EncodingNode * Solver
}.

(** The fields of [SatCoreBasedOptimizer] that the main loop updates once
    the solver has answered. *)
Record Optimizer : Type := mkOptimizer {
  nodes_ : list EncodingNode;
  stratified_lower_bound_ : Coefficient;
  assumptions_already_added_ : bool
}.

(** Lines 160-167: the loop over [nodes_] that updates
    [stratified_lower_bound_], [old_lower_bound] being its value before the
    loop. *)
Fixpoint update_stratified_lower_bound (old_lower_bound : Coefficient)
    (nodes : list EncodingNode) (stratified_lower_bound : Coefficient)
    : Coefficient :=
  match nodes with
  | [] => stratified_lower_bound
  | n :: nodes' =>
    update_stratified_lower_bound old_lower_bound nodes'
      (if weight n <? old_lower_bound then
         if (stratified_lower_bound =? old_lower_bound)
            || (weight n >? stratified_lower_bound)
         then weight n
         else stratified_lower_bound
       else stratified_lower_bound)
  end.

(** Lines 158-176: the branch taken when the solver answers [MODEL_SAT].
    (The copy of the assignment into [learned_info] is an output only and
    is left out.) *)
Definition OnModelSat (o : Optimizer) : BopStatus * Optimizer :=
  let old_lower_bound := stratified_lower_bound_ o in
  let new_lower_bound :=
    update_stratified_lower_bound old_lower_bound (nodes_ o) old_lower_bound in
  if new_lower_bound <? old_lower_bound then
    (SOLUTION_FOUND,
     {| nodes_ := nodes_ o;
        stratified_lower_bound_ := new_lower_bound;
        assumptions_already_added_ := false |})
  else
    (OPTIMAL_SOLUTION_FOUND,
     {| nodes_ := nodes_ o;
        stratified_lower_bound_ := new_lower_bound;
        assumptions_already_added_ := assumptions_already_added_ o |}).

(** The nodes from the first one whose assumption [literal(0).Negated()] is
    [c] on: the inner [for] loops that advance [index]. *)
Fixpoint skip_to_assumption (c : Literal) (nodes : list EncodingNode)
    : list EncodingNode * list EncodingNode :=
  match nodes with
  | [] => ([], [])
  | n :: nodes' =>
    if (Negated (literal0 n) =? c)%N then ([], n :: nodes')
    else let '(skipped, rest) := skip_to_assumption c nodes' in
         (n :: skipped, rest)
  end.

(** Lines 184-195: the minimum weight over the nodes matched by the core.
    [nodes] is [nodes_] from [index] on; [index] is not advanced past a
    match.  [None] is the failure of [CHECK_LT(index, nodes_.size())]. *)
Fixpoint core_min_weight (core : list Literal) (nodes : list EncodingNode)
    (min_weight : Coefficient) : option Coefficient :=
  match core with
  | [] => Some min_weight
  | c :: core' =>
    match skip_to_assumption c nodes with
    | (_, []) => None
    | (_, n :: nodes') =>
      core_min_weight core' (n :: nodes') (Z.min min_weight (weight n))
    end
  end.

(** Lines 209-230: the scan that rebuilds [nodes_] and collects [to_merge].
    [nodes] is [nodes_] from [index] on; the result is what is written from
    [new_node_index] on, and [to_merge].  The nodes are shared by pointer:
    [to_merge] sees the weights as decreased by [set_weight].  [None] stands
    for [index] running past the end of [nodes_]. *)
Fixpoint merge_scan (min_weight : Coefficient) (core : list Literal)
    (nodes : list EncodingNode)
    : option (list EncodingNode * list EncodingNode) :=
  match core with
  | [] => Some (nodes, [])
  | c :: core' =>
    match skip_to_assumption c nodes with
    | (_, []) => None
    | (skipped, n :: nodes') =>
      match merge_scan min_weight core' nodes' with
      | None => None
      | Some (kept, to_merge) =>
        if weight n >? min_weight then
          let n' := set_weight n (weight n - min_weight) in
          Some (skipped ++ n' :: kept, n' :: to_merge)
        else Some (skipped ++ kept, n :: to_merge)
      end
    end
  end.

(** Lines 202-207: the branch for a core of one literal. *)
Fixpoint grow_matching_nodes `{SolverOps Solver} (c : Literal)
    (nodes : list EncodingNode) (solver : Solver)
    : list EncodingNode * Solver :=
  match nodes with
  | [] => ([], solver)
  | n :: nodes' =>
    if (Negated (literal0 n) =? c)%N then
      let '(n', solver') := IncreaseNodeSize n solver in
      let '(nodes'', solver'') := grow_matching_nodes c nodes' solver' in
      (n' :: nodes'', solver'')
    else
      let '(nodes'', solver'') := grow_matching_nodes c nodes' solver in
      (n :: nodes'', solver'')
  end.

(** Lines 184-236: what the main loop does with the minimized [core]. *)
Definition ProcessCore `{SolverOps Solver} (core : list Literal)
    (solver : Solver) (o : Optimizer) : option (Optimizer * Solver) :=
  match core_min_weight core (nodes_ o) kCoefficientMax with
  | None => None
  | Some min_weight =>
    let solver := Backtrack 0 solver in
    if (length core =? 1)%nat then
      if LiteralIsFalse (hd 0%N core) solver then
        let '(nodes, solver) :=
          grow_matching_nodes (hd 0%N core) (nodes_ o) solver in
        Some ({| nodes_ := nodes;
                 stratified_lower_bound_ := stratified_lower_bound_ o;
                 assumptions_already_added_ := false |}, solver)
      else None
    else
      match merge_scan min_weight core (nodes_ o) with
      | None => None
      | Some (kept, to_merge) =>
        let '(merged, solver) := LazyMergeAllNodeWithPQ to_merge solver in
        let '(grown, solver) := IncreaseNodeSize merged solver in
        let new_node := set_weight grown min_weight in
        let '(accepted, solver) := AddUnitClause (literal0 new_node) solver in
        if accepted then
          Some ({| nodes_ := kept ++ [new_node];
                   stratified_lower_bound_ := stratified_lower_bound_ o;
                   assumptions_already_added_ := false |}, solver)
        else None
      end
  end.

(** How one iteration of the main loop ends. *)
Inductive IterationEnd : Type :=
| Return (status : BopStatus)
| NextIteration.

(** Lines 143-237: one iteration of the main loop from the answer
    [sat_status] of the solver on.  [conflict_limit] is its value after line
    144, [is_feasible] is [problem_state.solution().IsFeasible()] and [core]
    is the minimized core, which is only read in the last case. *)
Definition AfterSolve `{SolverOps Solver} (sat_status : SatStatus)
    (conflict_limit : Z) (is_feasible : bool) (core : list Literal)
    (solver : Solver) (o : Optimizer)
    : option (IterationEnd * Optimizer * Solver) :=
  let o := {| nodes_ := nodes_ o;
              stratified_lower_bound_ := stratified_lower_bound_ o;
              assumptions_already_added_ := true |} in
  match sat_status with
  | MODEL_UNSAT =>
    Some (Return (if is_feasible then OPTIMAL_SOLUTION_FOUND else INFEASIBLE),
          o, solver)
  | _ =>
    if match sat_status with LIMIT_REACHED => true | _ => false end
       || (conflict_limit <? 0)
    then Some (Return CONTINUE, o, solver)
    else
      match sat_status with
      | MODEL_SAT =>
        let '(status, o) := OnModelSat o in Some (Return status, o, solver)
      | _ =>
        match ProcessCore core solver o with
        | None => None
        | Some (o, solver) => Some (NextIteration, o, solver)
        end
      end
  end.

Definition total_weight (nodes : list EncodingNode) : Z :=
  foldr Z.add 0 (map weight nodes).

(** A matching of a core against the node list cuts the list into
    segments: the nodes skipped before a cored node, and that node; then the
    nodes after the last cored node. *)
Definition segments_nodes (segs : list (list EncodingNode * EncodingNode))
    (tail : list EncodingNode) : list EncodingNode :=
  flat_map (fun s => s.1 ++ [s.2]) segs ++ tail.

(** A cored node after its weight is decreased by [w]. *)
Definition reduce (w : Coefficient) (n : EncodingNode) : EncodingNode :=
  if weight n >? w then set_weight n (weight n - w) else n.

(** What is left of a cored node in the list: nothing when its residual
    weight is zero. *)
Definition residual (w : Coefficient) (n : EncodingNode) : list EncodingNode :=
  if weight n >? w then [set_weight n (weight n - w)] else [].

Definition segments_residual (w : Coefficient)
    (segs : list (list EncodingNode * EncodingNode))
    (tail : list EncodingNode) : list EncodingNode :=
  flat_map (fun s => s.1 ++ residual w s.2) segs ++ tail.

(** A stand-in for the solver, used to run the optimizer on examples: it
    records the calls it receives, accepts every unit clause, and numbers
    the literals of merged nodes from [1000] on. *)
Inductive SolverCall : Type :=
| CallBacktrack (level : Z)
| CallAddUnitClause (l : Literal)
| CallIncreaseNodeSize (n : EncodingNode)
| CallLazyMerge (to_merge : list EncodingNode).

#[export] Instance recording_solver : SolverOps (list SolverCall) := {|
  Backtrack level calls := calls ++ [CallBacktrack level];
  LiteralIsFalse l calls := true;
  AddUnitClause l calls := (true, calls ++ [CallAddUnitClause l]);
  IncreaseNodeSize n calls :=
    ({| literal0 := literal0 n; weight := weight n; size := size n + 1 |},
     calls ++ [CallIncreaseNodeSize n]);
  LazyMergeAllNodeWithPQ to_merge calls :=
    ({| literal0 := 1000 + 2 * N.of_nat (length calls);
        weight := 0; size := 0 |},
     calls ++ [CallLazyMerge to_merge])
|}.

(** Lines 87-100 of [SolveWithAssumptions]: the nodes of size zero are
    dropped from [nodes_], and every other node whose weight reaches
    [stratified_lower_bound_] gives the negation of its output literal as
    an assumption.  The result is the assumptions and the nodes kept. *)
Fixpoint collect_assumptions (stratified_lower_bound : Coefficient)
    (nodes : list EncodingNode) : list Literal * list EncodingNode :=
  match nodes with
  | [] => ([], [])
  | n :: nodes' =>
    let '(assumptions, kept) :=
      collect_assumptions stratified_lower_bound nodes' in
    if size n >? 0 then
      (if weight n >=? stratified_lower_bound
       then Negated (literal0 n) :: assumptions else assumptions,
       n :: kept)
    else (assumptions, kept)
  end.

(** Lines 87-101: the assumptions that [SolveWithAssumptions] gives to the
    solver, and the optimizer with the nodes that are left; [None] is the
    failure of [CHECK_LE]. *)
Definition assumptions_of_nodes (o : Optimizer)
    : option (list Literal * Optimizer) :=
  let '(assumptions, kept) :=
    collect_assumptions (stratified_lower_bound_ o) (nodes_ o) in
  if (length assumptions <=? length kept)%nat then
    Some (assumptions,
          {| nodes_ := kept;
             stratified_lower_bound_ := stratified_lower_bound_ o;
             assumptions_already_added_ := assumptions_already_added_ o |})
  else None.

(** Lines 55-58 of [SynchronizeIfNeeded]: the value that
    [stratified_lower_bound_] gets when the nodes are created. *)
Definition initial_stratified_lower_bound (nodes : list EncodingNode)
    : Coefficient :=
  foldl (fun stratified_lower_bound n =>
           Z.max stratified_lower_bound (weight n)) 0 nodes.

(** ** The prober and the solver ([ProbeAndFindEquivalentLiteral]) *)

(** [solver->Assignment()]: the assignment of the solver, which the loops
    of lines 746-778 read through a reference, so that they see what
    [AddUnitClause] changes. *)
Class SolverAssignment (Solver : Type) : Type :=
  Assignment : Solver -> VariablesAssignment.

(** The stand-in for the solver fixes the literals of the unit clauses it
    was given. *)
#[export] Instance recording_solver_assignment
    : SolverAssignment (list SolverCall) :=
  fun calls =>
    foldl (fun a call =>
             match call with
             | CallAddUnitClause l => AssignFromTrueLiteral a l
             | _ => a
             end)
      (empty_assignment 0) calls.

(** Modelled from the spec: [IsLiteralAssigned] is declared with
    [VariablesAssignment], in a header that is not among the sources.  A
    literal is assigned when its variable is. *)
Definition IsLiteralAssigned (a : VariablesAssignment) (l : Literal) : bool :=
  VariableIsAssigned a (LiteralVariable l).

(** Lines 748-756: the body of the first loop.  A literal that is fixed
    fixes its representative. *)
Definition fix_representative `{SolverOps Solver} `{SolverAssignment Solver}
    (partition : MergingPartition) (solver : Solver) (i : nat) : Solver :=
  let rep := GetRootAndCompressPath partition (N.of_nat i) in
  if IsLiteralAssigned (Assignment solver) (N.of_nat i)
     && negb (IsLiteralAssigned (Assignment solver) rep)
  then
    (AddUnitClause
       (if LiteralIsTrue (Assignment solver) (N.of_nat i)
        then rep else Negated rep) solver).2
  else solver.

(** Lines 759-777: the body of the second loop, on the solver, the
    postsolver and the mapping.  A literal whose representative is fixed is
    fixed; a literal that is not its own representative gets the postsolve
    entry [(i, {i, not rep})].  [None] is the failure of one of the two
    [CHECK]s, or of a [CHECK] of [Add].  (The counter [num_equiv] is only
    written to the log message and is left out.) *)
Definition record_equivalence `{SolverOps Solver} `{SolverAssignment Solver}
    (partition : MergingPartition)
    (state : Solver * SatPostsolver * list LiteralIndex) (i : nat)
    : option (Solver * SatPostsolver * list LiteralIndex) :=
  let '(solver, postsolver, mapping) := state in
  let rep := GetRootAndCompressPath partition (N.of_nat i) in
  let mapping := <[i := Index rep]> mapping in
  if IsLiteralAssigned (Assignment solver) rep then
    if negb (IsLiteralAssigned (Assignment solver) (N.of_nat i)) then
      Some ((AddUnitClause
               (if LiteralIsTrue (Assignment solver) rep
                then N.of_nat i else Negated (N.of_nat i)) solver).2,
            postsolver, mapping)
    else Some (solver, postsolver, mapping)
  else if negb (rep =? N.of_nat i)%N then
    if IsLiteralAssigned (Assignment solver) (N.of_nat i) then None
    else if IsLiteralAssigned (Assignment solver) rep then None
    else
      match Add postsolver (N.of_nat i) [N.of_nat i; Negated rep] with
      | None => None
      | Some postsolver => Some (solver, postsolver, mapping)
      end
  else Some (solver, postsolver, mapping).

(** Lines 719-778 of [ProbeAndFindEquivalentLiteral], from the strongly
    connected components [scc] of the propagation graph on ([solver] is
    the solver once they are found; the graph and the search of its
    components are not among the sources).  [num_variables] is
    [solver->NumVariables()].  The result is the solver, the postsolver and
    the mapping; the mapping stays empty when no component has more than
    one literal.  [None] is the failure of a [CHECK]. *)
Definition ProbeAndFindEquivalentLiteral `{MergePolicy} `{SolverOps Solver}
    `{SolverAssignment Solver} (num_variables : nat)
    (scc : list (list Literal)) (solver : Solver) (postsolver : SatPostsolver)
    : option (Solver * SatPostsolver * list LiteralIndex) :=
  let size := (num_variables * 2)%nat in
  match merge_components scc MergingPartition_new with
  | None => None
  | Some partition =>
    let solver := Backtrack 0 solver in
    if existsb (fun component => (1 <? length component)%nat) scc then
      let solver := foldl (fix_representative partition) solver (seq 0 size) in
      foldl (fun state i =>
               state ≫= fun state => record_equivalence partition state i)
        (Some (solver, postsolver, replicate size (-1)))
        (seq 0 size)
    else Some (solver, postsolver, [])
  end.



(** The postsolve entry of an equivalence: [(l, {l, not rep})] for a
    literal [l] that is not its own representative [rep]. *)
Definition equivalence_entry (partition : MergingPartition) (e : LogEntry)
    : Prop :=
  exists l : Literal,
    root_of partition l <> l
    /\ e = (l, [l; Negated (root_of partition l)]).

(** * Facts about literals *)

Lemma Negated_cases (l : Literal) :
  exists k : N, (l = 2 * k /\ Negated l = 2 * k + 1)%N
             \/ (l = 2 * k + 1 /\ Negated l = 2 * k)%N.
Proof.
  unfold Negated. destruct l as [|[p|p|]].
  - exists 0%N. left. split; reflexivity.
  - exists (Npos p). right. split; reflexivity.
  - exists (Npos p). left. split; reflexivity.
  - exists 0%N. right. split; reflexivity.
Qed.

(** [decide_by_compute] settles a closed decidable proposition by
    evaluation. *)
Ltac decide_by_compute :=
  match goal with
  | |- ?P => apply (bool_decide_unpack P); vm_compute; exact I
  end.

(** [literal_parity l] adds the parity of the literal [l] to the context. *)
Ltac literal_parity l :=
  let k := fresh "k" in
  let H := fresh "Hpar" in
  destruct (Negated_cases l) as [k [[H ?]|[H ?]]].

Lemma Negated_involutive (l : Literal) : Negated (Negated l) = l.
Proof.
  unfold Negated. rewrite N.lxor_assoc. change (N.lxor 1 1) with 0%N.
  apply N.lxor_0_r.
Qed.

Lemma Negated_neq (l : Literal) : Negated l <> l.
Proof. literal_parity l; lia. Qed.

Lemma Negated_inj (l l' : Literal) : Negated l = Negated l' -> l = l'.
Proof.
  intros H. rewrite <- (Negated_involutive l), H. apply Negated_involutive.
Qed.

Lemma Negated_swap (l l' : Literal) : l = Negated l' <-> l' = Negated l.
Proof.
  split; intros ->; symmetry; apply Negated_involutive.
Qed.

Lemma Index_nonneg (l : Literal) : 0 <= Index l.
Proof. unfold Index. lia. Qed.

Lemma Index_inj (l l' : Literal) : Index l = Index l' -> l = l'.
Proof. unfold Index. lia. Qed.

(** * The clause primitives *)

(** ** Unfolding equations of the merge loops *)

Lemma ComputeResolvantSize_loop_nil_r x a size :
  ComputeResolvantSize_loop x a [] size = size.
Proof. destruct a; reflexivity. Qed.

Lemma ComputeResolvantSize_loop_cons x la a' lb b' size :
  ComputeResolvantSize_loop x (la :: a') (lb :: b') size =
    if (la =? lb)%N then ComputeResolvantSize_loop x a' b' (size - 1)
    else if (la =? Negated lb)%N then
      if negb (la =? x)%N then -1
      else ComputeResolvantSize_loop x a' b' size
    else if (la <? lb)%N then ComputeResolvantSize_loop x a' (lb :: b') size
    else ComputeResolvantSize_loop x (la :: a') b' size.
Proof. reflexivity. Qed.

Lemma ComputeResolvant_nil_r x a : ComputeResolvant x a [] = (true, a).
Proof. destruct a; reflexivity. Qed.

Lemma ComputeResolvant_cons x la a' lb b' :
  ComputeResolvant x (la :: a') (lb :: b') =
    if (la =? lb)%N then
      let '(r, out) := ComputeResolvant x a' b' in (r, la :: out)
    else if (la =? Negated lb)%N then
      if negb (la =? x)%N then (false, [])
      else ComputeResolvant x a' b'
    else if (la <? lb)%N then
      let '(r, out) := ComputeResolvant x a' (lb :: b') in (r, la :: out)
    else
      let '(r, out) := ComputeResolvant x (la :: a') b' in (r, lb :: out).
Proof. reflexivity. Qed.

(** ** Resolvent symmetry *)

(** The two runs of the size loop are mirror images of each other, whatever
    the two sequences are. *)
Lemma ComputeResolvantSize_loop_mirror x a :
  forall b size,
    ComputeResolvantSize_loop x a b size =
    ComputeResolvantSize_loop (Negated x) b a size.
Proof.
  induction a as [|la a' IHa]; intros b size.
  - rewrite ComputeResolvantSize_loop_nil_r. reflexivity.
  - revert size. induction b as [|lb b' IHb]; intros size.
    + reflexivity.
    + rewrite !ComputeResolvantSize_loop_cons.
      destruct (N.eqb_spec la lb) as [->|Hne].
      { rewrite N.eqb_refl. apply IHa. }
      destruct (N.eqb_spec lb la) as [->|_]; [done|].
      destruct (N.eqb_spec la (Negated lb)) as [Hn|Hn].
      { apply Negated_swap in Hn.
        destruct (N.eqb_spec lb (Negated la)) as [_|?]; [|done].
        destruct (N.eqb_spec la x) as [->|Hx].
        - rewrite Hn, N.eqb_refl. apply IHa.
        - destruct (N.eqb_spec lb (Negated x)) as [Hbx|_]; [|done].
          exfalso. apply Hx, Negated_inj. congruence. }
      destruct (N.eqb_spec lb (Negated la)) as [Hn'|_].
      { exfalso. apply Hn. by apply Negated_swap. }
      destruct (N.ltb_spec la lb), (N.ltb_spec lb la); try lia.
      * apply IHa.
      * apply IHb.
Qed.

(** C9. Resolvent symmetry: for sorted, duplicate-free clauses [a] and [b]
    and a literal [x] with [x] in [a] and [Negated x] in [b],
    [ComputeResolvantSize(x, a, b) = ComputeResolvantSize(not x, b, a)]. *)
Theorem ComputeResolvantSize_symmetric (x : Literal) (a b : list Literal) :
  is_sorted a = true -> is_sorted b = true ->
  x ∈ a -> Negated x ∈ b ->
  ComputeResolvantSize x a b = ComputeResolvantSize (Negated x) b a.
Proof.
  intros _ _ _ _. unfold ComputeResolvantSize.
  rewrite ComputeResolvantSize_loop_mirror. f_equal. lia.
Qed.

Lemma ComputeResolvantSize_symmetric_witness :
  ComputeResolvantSize 0%N [0; 2; 4]%N [1; 2; 6]%N
  = ComputeResolvantSize (Negated 0%N) [1; 2; 6]%N [0; 2; 4]%N.
Proof.
  apply ComputeResolvantSize_symmetric.
  - reflexivity.
  - reflexivity.
  - decide_by_compute.
  - decide_by_compute.
Defined.

(** ** [SimplifyClause]: what happens to [b] *)

(** The early abort on [size_diff] keeps [ib] inside [b]: the loop never
    reads [*ib] at [b->end()]. *)
Lemma SimplifyClause_loop_in_bounds b :
  forall a ib num_diff to_remove size_diff,
    0 <= size_diff ->
    Z.of_nat (length a) + size_diff <= Z.of_nat (length b) ->
    SimplifyClause_loop a b ib num_diff to_remove size_diff <> ExitPastEnd.
Proof.
  induction b as [|lb b' IH]; intros a ib nd tr sd Hsd Hlen.
  - destruct a; simpl in *; [done | lia].
  - destruct a as [|la a']; [done|]. simpl in Hlen. simpl.
    destruct (la =? lb)%N; [apply IH; lia|].
    destruct (la =? Negated lb)%N.
    { destruct (nd + 1 >? 1); [done | apply IH; lia]. }
    destruct (la <? lb)%N; [done|].
    destruct (Z.ltb_spec (sd - 1) 0); [done|].
    apply IH; simpl; lia.
Qed.

(** When the loop runs to the end of [a], either no opposite literal was met
    and [to_remove] still has its initial value, or exactly one was met and
    [to_remove] is its position in [b]. *)
Lemma SimplifyClause_loop_exit b :
  forall a ib num_diff to_remove size_diff num_diff' to_remove',
    SimplifyClause_loop a b ib num_diff to_remove size_diff
      = ExitLoop num_diff' to_remove' ->
    (num_diff' = num_diff /\ to_remove' = to_remove)
    \/ (num_diff < num_diff' <= 1
        /\ (ib <= to_remove' < ib + length b)%nat).
Proof.
  induction b as [|lb b' IH]; intros a ib nd tr sd nd' tr' H.
  - destruct a; simpl in H; [|done]. left. by inversion H.
  - destruct a as [|la a']; simpl in H.
    { left. by inversion H. }
    destruct (la =? lb)%N.
    { apply IH in H as [?|[? ?]]; [by left | right; simpl; lia]. }
    destruct (la =? Negated lb)%N.
    { destruct (Z.gtb_spec (nd + 1) 1); [done|].
      apply IH in H as [[-> ->]|[? ?]]; right; simpl; lia. }
    destruct (la <? lb)%N; [done|].
    destruct (sd - 1 <? 0); [done|].
    apply IH in H as [?|[? ?]]; [by left | right; simpl; lia].
Qed.

Lemma delete_lookup_split {A} (l : list A) (i : nat) (x : A) :
  l !! i = Some x ->
  l = take i l ++ x :: drop (S i) l /\ delete i l = take i l ++ drop (S i) l.
Proof.
  intros H. split.
  - by rewrite take_drop_middle.
  - apply delete_take_drop.
Qed.

(** C10. [SimplifyClause] mutates [b] only in the self-subsuming case: on
    every input it returns; if it returns false, or true with
    [opposite_literal = -1], [b] is unchanged; if it returns true with
    [opposite_literal = x], [x <> -1], then [b] has lost exactly the one
    occurrence of [x] that was matched, the other literals keeping their
    order, so that its size decreased by one. *)
Theorem SimplifyClause_frame (a b : list Literal) (opp0 : LiteralIndex) :
  exists (r : bool) (b' : list Literal) (opp : LiteralIndex),
    SimplifyClause a b opp0 = Some (r, b', opp)
    /\ (r = false \/ opp = -1 -> b' = b)
    /\ (r = true -> opp <> -1 ->
        exists (b1 b2 : list Literal) (x : Literal),
          opp = Index x /\ b = b1 ++ x :: b2 /\ b' = b1 ++ b2
          /\ S (length b') = length b).
Proof.
  unfold SimplifyClause.
  destruct (Nat.ltb_spec (length b) (length a)) as [Hlt|Hge].
  { exists false, b, opp0. split; [done|]. split; [done|]. intros; done. }
  destruct (SimplifyClause_loop a b 0 0 0
              (Z.of_nat (length b) - Z.of_nat (length a))) as [|nd tr|] eqn:Hloop.
  - exists false, b, (-1). split; [done|]. split; [done|]. intros; done.
  - apply SimplifyClause_loop_exit in Hloop as Hexit.
    destruct (Z.eqb_spec nd 1) as [->|Hnd].
    + destruct Hexit as [[? _]|[_ Hpos]]; [lia|].
      destruct (lookup_lt_is_Some_2 b tr) as [x Hx]; [lia|].
      rewrite Hx. exists true, (delete tr b), (Index x).
      destruct (delete_lookup_split b tr x Hx) as [Hb Hb'].
      split; [done|]. split.
      * intros [?|Hopp]; [done|]. pose proof (Index_nonneg x). lia.
      * intros _ _. exists (take tr b), (drop (S tr) b), x.
        split; [done|]. split; [done|]. split; [done|].
        rewrite length_delete; [|by eexists].
        apply lookup_lt_Some in Hx. lia.
    + exists true, b, (-1). split; [done|]. split; [done|]. intros; done.
  - exfalso. revert Hloop. apply SimplifyClause_loop_in_bounds; lia.
Qed.

(** ** Canonical clauses *)

Lemma is_sorted_cons (l : Literal) (c : list Literal) :
  is_sorted (l :: c) = true <->
  (forall l', l' ∈ c -> (l < l')%N) /\ is_sorted c = true.
Proof.
  revert l. induction c as [|l1 c IH]; intros l.
  - simpl. split; [|done]. intros _. split; [|done]. intros l' H. inversion H.
  - change (is_sorted (l :: l1 :: c)) with ((l <? l1)%N && is_sorted (l1 :: c)).
    rewrite andb_true_iff, N.ltb_lt. split.
    + intros [Hlt Hs]. split; [|done]. intros l' [->|Hin]%elem_of_cons; [done|].
      apply IH in Hs as [Hs _]. specialize (Hs l' Hin). lia.
    + intros [Hall Hs]. split; [|done]. apply Hall. left.
Qed.

Lemma is_sorted_tail (l : Literal) (c : list Literal) :
  is_sorted (l :: c) = true -> is_sorted c = true.
Proof. intros H. by apply is_sorted_cons in H as [_ ?]. Qed.

Lemma is_sorted_head_notin (l : Literal) (c : list Literal) :
  is_sorted (l :: c) = true -> l ∉ c.
Proof.
  intros [H _]%is_sorted_cons Hin. specialize (H l Hin). lia.
Qed.

Lemma tautology_free_spec (c : list Literal) :
  tautology_free c = true <-> complement_free c.
Proof.
  unfold tautology_free, complement_free. rewrite forallb_forall. split.
  - intros H l Hl. apply list_elem_of_In, H, negb_true_iff in Hl.
    by apply bool_decide_eq_false in Hl.
  - intros H l Hl. apply negb_true_iff, bool_decide_eq_false, H.
    by apply list_elem_of_In.
Qed.

Lemma canonical_spec (c : list Literal) :
  canonical c = true <-> is_sorted c = true /\ complement_free c.
Proof.
  unfold canonical. by rewrite andb_true_iff, tautology_free_spec.
Qed.

Lemma complement_free_tail (l : Literal) (c : list Literal) :
  complement_free (l :: c) -> complement_free c.
Proof.
  intros H l' Hl' Hn. apply (H l'); by right.
Qed.

Lemma complement_free_head (l : Literal) (c : list Literal) :
  complement_free (l :: c) -> Negated l ∉ c.
Proof.
  intros H Hn. apply (H l); [left | by right].
Qed.

Lemma complement_free_head' (l l' : Literal) (c : list Literal) :
  complement_free (l :: c) -> l' ∈ c -> Negated l' <> l.
Proof.
  intros H Hin Heq. apply (H l'); [by right | rewrite Heq; left].
Qed.

Lemma filter_ext_elem {A} (P Q : A -> Prop)
    `{forall x, Decision (P x)} `{forall x, Decision (Q x)} (l : list A) :
  (forall x, x ∈ l -> (P x <-> Q x)) -> filter P l = filter Q l.
Proof.
  induction l as [|y l IH]; intros Hext; [done|].
  rewrite !filter_cons. rewrite IH.
  - destruct (decide (P y)) as [Hp|Hp], (decide (Q y)) as [Hq|Hq]; try done;
      exfalso; apply (Hext y) in Hp || apply (Hext y) in Hq; try done; left.
  - intros x Hx. apply Hext. by right.
Qed.

Lemma filter_none {A} (P : A -> Prop) `{forall x, Decision (P x)} (l : list A) :
  (forall x, x ∈ l -> ~ P x) -> filter P l = [].
Proof.
  induction l as [|y l IH]; intros Hno; [done|].
  rewrite filter_cons. destruct (decide (P y)) as [Hp|_].
  - exfalso. apply (Hno y); [left | done].
  - apply IH. intros x Hx. apply Hno. by right.
Qed.

(** ** Resolvents *)

Lemma clash_mono x (a b a' b' : list Literal) :
  a' ⊆ a -> b' ⊆ b -> clash x a' b' -> clash x a b.
Proof.
  intros Ha Hb (l & Hla & Hlb & Hx). exists l. split; [|split]; auto.
Qed.

Lemma clash_cons_l x la (a b : list Literal) :
  clash x a b -> clash x (la :: a) b.
Proof. apply clash_mono; intros l Hl; [by right | done]. Qed.

Lemma clash_cons_r x lb (a b : list Literal) :
  clash x a b -> clash x a (lb :: b).
Proof. apply clash_mono; intros l Hl; [done | by right]. Qed.

Lemma clash_nil_l x b : ~ clash x [] b.
Proof. intros (l & Hl & _). inversion Hl. Qed.

Lemma clash_nil_r x a : ~ clash x a [].
Proof. intros (l & _ & Hl & _). inversion Hl. Qed.

(** The four moves of the merge never skip a clashing pair. *)
Lemma clash_move_same x la lb (a' b' : list Literal) :
  complement_free (la :: a') -> complement_free (lb :: b') ->
  la = lb -> clash x (la :: a') (lb :: b') -> clash x a' b'.
Proof.
  intros Hca Hcb <- (l & [->|Hla]%elem_of_cons & [Hn|Hlb]%elem_of_cons & Hx).
  - by apply Negated_neq in Hn.
  - by apply complement_free_head in Hcb.
  - by apply (complement_free_head' _ _ _ Hca) in Hla.
  - by exists l.
Qed.

Lemma clash_move_opposite x lb (a' b' : list Literal) :
  x = Negated lb -> clash x (x :: a') (lb :: b') -> clash x a' b'.
Proof.
  intros Hn (l & [->|Hla]%elem_of_cons & [Hn'|Hlb]%elem_of_cons & Hx);
    try done.
  - exfalso. apply Hx. rewrite Hn. by apply Negated_swap.
  - by exists l.
Qed.

Lemma clash_move_left x la lb (a' b' : list Literal) :
  is_sorted (lb :: b') = true ->
  (la < lb)%N -> la <> Negated lb ->
  clash x (la :: a') (lb :: b') -> clash x a' (lb :: b').
Proof.
  intros Hsb Hlt Hn (l & [->|Hla]%elem_of_cons & Hlb & Hx); [|by exists l].
  exfalso. apply elem_of_cons in Hlb as [Heq|Hlb].
  - apply Hn. by apply Negated_swap.
  - apply is_sorted_cons in Hsb as [Hsb' _]. specialize (Hsb' _ Hlb).
    literal_parity la; literal_parity lb; lia.
Qed.

Lemma clash_move_right x la lb (a' b' : list Literal) :
  is_sorted (la :: a') = true ->
  (lb < la)%N -> la <> Negated lb ->
  clash x (la :: a') (lb :: b') -> clash x (la :: a') b'.
Proof.
  intros Hsa Hlt Hn (l & Hla & [Heq|Hlb]%elem_of_cons & Hx); [|by exists l].
  exfalso. apply elem_of_cons in Hla as [->|Hla].
  { apply Hn. by apply Negated_swap. }
  apply is_sorted_cons in Hsa as [Hsa' _]. specialize (Hsa' _ Hla).
  literal_parity la; literal_parity lb; literal_parity l; lia.
Qed.

(** What the size loop computes on canonical clauses. *)
Lemma ComputeResolvantSize_loop_spec x a :
  forall b size,
    is_sorted a = true -> is_sorted b = true ->
    complement_free a -> complement_free b ->
    (clash x a b -> ComputeResolvantSize_loop x a b size = -1)
    /\ (~ clash x a b ->
        ComputeResolvantSize_loop x a b size
        = size - Z.of_nat (length (filter (fun l => l ∈ b) a))).
Proof.
  induction a as [|la a' IHa]; intros b size Hsa Hsb Hca Hcb.
  { split; [by intros ?%clash_nil_l|]. intros _. simpl. lia. }
  revert size. induction b as [|lb b' IHb]; intros size.
  { split; [by intros ?%clash_nil_r|]. intros _.
    rewrite ComputeResolvantSize_loop_nil_r, filter_none; [simpl; lia|].
    intros l _ H. inversion H. }
  pose proof (is_sorted_tail _ _ Hsa) as Hsa'.
  pose proof (is_sorted_tail _ _ Hsb) as Hsb'.
  pose proof (complement_free_tail _ _ Hca) as Hca'.
  pose proof (complement_free_tail _ _ Hcb) as Hcb'.
  apply is_sorted_cons in Hsa as Hlta. destruct Hlta as [Hlta _].
  apply is_sorted_cons in Hsb as Hltb. destruct Hltb as [Hltb _].
  rewrite ComputeResolvantSize_loop_cons.
  destruct (N.eqb_spec la lb) as [Heq|Hne].
  { destruct (IHa b' (size - 1) Hsa' Hsb' Hca' Hcb') as [IH1 IH2]. split.
    - intros Hc. by apply IH1, (clash_move_same x la lb).
    - intros Hc. rewrite IH2.
      2:{ intros Hc'. by apply Hc, clash_cons_l, clash_cons_r. }
      rewrite filter_cons_True by (subst; left).
      rewrite (filter_ext_elem (fun l => l ∈ lb :: b') (fun l => l ∈ b') a').
      + simpl. lia.
      + intros l Hl. specialize (Hlta l Hl). rewrite elem_of_cons.
        split; [intros [->|?]; [lia|done] | by right]. }
  destruct (N.eqb_spec la (Negated lb)) as [Hn|Hn].
  { destruct (N.eqb_spec la x) as [->|Hx]; simpl.
    - destruct (IHa b' size Hsa' Hsb' Hca' Hcb') as [IH1 IH2]. split.
      + intros Hc. by apply IH1, (clash_move_opposite x lb).
      + intros Hc. rewrite IH2.
        2:{ intros Hc'. by apply Hc, clash_cons_l, clash_cons_r. }
        rewrite filter_cons_False.
        2:{ intros [?|Hin]%elem_of_cons; [done|].
            apply complement_free_head in Hcb. apply Hcb. by rewrite <- Hn. }
        rewrite (filter_ext_elem (fun l => l ∈ lb :: b') (fun l => l ∈ b') a');
          [done|].
        intros l Hl. rewrite elem_of_cons.
        split; [intros [->|?]; [|done] | by right].
        exfalso. apply (Hca x); [left|]. apply Negated_swap in Hn.
        rewrite <- Hn. by right.
    - split; [done|]. intros Hc. exfalso. apply Hc. exists la.
      split; [left|]. split; [|done]. apply Negated_swap in Hn.
      rewrite <- Hn. left. }
  destruct (N.ltb_spec la lb) as [Hlt|Hge].
  { destruct (IHa (lb :: b') size Hsa' Hsb Hca' Hcb) as [IH1 IH2]. split.
    - intros Hc. by apply IH1, (clash_move_left x la lb).
    - intros Hc. rewrite IH2.
      2:{ intros Hc'. by apply Hc, clash_cons_l. }
      rewrite filter_cons_False; [done|].
      intros [?|Hin]%elem_of_cons; [done|]. specialize (Hltb la Hin). lia. }
  assert (lb < la)%N as Hlt by lia.
  destruct (IHb Hsb' Hcb' size) as [IH1 IH2]. split.
  - intros Hc. by apply IH1, (clash_move_right x la lb).
  - intros Hc. rewrite IH2.
    2:{ intros Hc'. by apply Hc, clash_cons_r. }
    rewrite (filter_ext_elem (fun l => l ∈ lb :: b') (fun l => l ∈ b') (la :: a'));
      [done|].
    intros l Hl. rewrite elem_of_cons.
    split; [intros [->|?]; [|done] | by right].
    exfalso. apply elem_of_cons in Hl as [->|Hl]; [lia|].
    specialize (Hlta lb Hl). lia.
Qed.

(** What [ComputeResolvant] computes on canonical clauses. *)
Lemma ComputeResolvant_spec x a :
  forall b,
    is_sorted a = true -> is_sorted b = true ->
    complement_free a -> complement_free b ->
    Negated x ∉ a -> x ∉ b -> (x ∈ a <-> Negated x ∈ b) ->
    (clash x a b -> (ComputeResolvant x a b).1 = false)
    /\ (~ clash x a b ->
        exists out, ComputeResolvant x a b = (true, out)
          /\ is_sorted out = true
          /\ forall l, l ∈ out <->
               (l ∈ a /\ l <> x) \/ (l ∈ b /\ l <> Negated x)).
Proof.
  induction a as [|la a' IHa]; intros b Hsa Hsb Hca Hcb Hnxa Hxb Hiff.
  { split; [by intros ?%clash_nil_l|]. intros _. exists b.
    split; [done|]. split; [done|]. intros l. split.
    - intros Hl. right. split; [done|]. intros ->. apply Hiff in Hl.
      inversion Hl.
    - intros [[Hl _]|[Hl _]]; [inversion Hl | done]. }
  induction b as [|lb b' IHb].
  { split; [by intros ?%clash_nil_r|]. intros _. exists (la :: a').
    split; [done|]. split; [done|]. intros l. split.
    - intros Hl. left. split; [done|]. intros ->. apply Hiff in Hl.
      inversion Hl.
    - intros [[Hl _]|[Hl _]]; [done | inversion Hl]. }
  pose proof (is_sorted_tail _ _ Hsa) as Hsa'.
  pose proof (is_sorted_tail _ _ Hsb) as Hsb'.
  pose proof (complement_free_tail _ _ Hca) as Hca'.
  pose proof (complement_free_tail _ _ Hcb) as Hcb'.
  apply is_sorted_cons in Hsa as Hlta. destruct Hlta as [Hlta _].
  apply is_sorted_cons in Hsb as Hltb. destruct Hltb as [Hltb _].
  apply not_elem_of_cons in Hnxa as Hnxa'. destruct Hnxa' as [Hnxla Hnxa'].
  apply not_elem_of_cons in Hxb as Hxb'. destruct Hxb' as [Hxlb Hxb'].
  rewrite ComputeResolvant_cons.
  destruct (N.eqb_spec la lb) as [Heq|Hne].
  { subst lb.
    assert (x <> la) as Hxla by done.
    assert (x ∈ a' <-> Negated x ∈ b') as Hiff'.
    { rewrite !elem_of_cons in Hiff. tauto. }
    destruct (IHa b' Hsa' Hsb' Hca' Hcb' Hnxa' Hxb' Hiff') as [IH1 IH2]. split.
    - intros Hc. apply (clash_move_same x la la) in Hc; [|done..]. apply IH1 in Hc.
      by destruct (ComputeResolvant x a' b').
    - intros Hc. destruct IH2 as (out & -> & Hso & Hout).
      { intros Hc'. by apply Hc, clash_cons_l, clash_cons_r. }
      exists (la :: out). split; [done|]. split.
      + apply is_sorted_cons. split; [|done]. intros l' Hl'.
        apply Hout in Hl' as [[? _]|[? _]]; auto.
      + intros l. rewrite !elem_of_cons, Hout. intuition (subst; first [done | congruence]). }
  destruct (N.eqb_spec la (Negated lb)) as [Hn|Hn].
  { destruct (N.eqb_spec la x) as [->|Hx]; simpl.
    - apply Negated_swap in Hn as Hn'.
      assert (x ∉ a') as Hxa' by (intros H; specialize (Hlta _ H); lia).
      assert (Negated x ∉ b') as Hnxb'.
      { rewrite <- Hn'. intros H. specialize (Hltb _ H). lia. }
      destruct (IHa b' Hsa' Hsb' Hca' Hcb' Hnxa' Hxb') as [IH1 IH2]; [tauto|].
      split.
      + intros Hc. by apply IH1, (clash_move_opposite x lb).
      + intros Hc. destruct IH2 as (out & -> & Hso & Hout).
        { intros Hc'. by apply Hc, clash_cons_l, clash_cons_r. }
        exists out. split; [done|]. split; [done|].
        intros l. rewrite !elem_of_cons, Hout. intuition (subst; first [done | congruence]).
    - split; [done|]. intros Hc. exfalso. apply Hc. exists la.
      split; [left|]. split; [|done]. apply Negated_swap in Hn.
      rewrite <- Hn. left. }
  destruct (N.ltb_spec la lb) as [Hlt|Hge].
  { assert (la <> x) as Hlax.
    { intros ->. assert (Negated x ∈ lb :: b') as Hin by (apply Hiff; left).
      apply elem_of_cons in Hin as [Hin|Hin].
      - apply Hn. by apply Negated_swap.
      - specialize (Hltb _ Hin). literal_parity x; lia. }
    assert (x ∈ a' <-> Negated x ∈ lb :: b') as Hiff'.
    { rewrite <- Hiff, elem_of_cons. intuition (subst; first [done | congruence]). }
    destruct (IHa (lb :: b') Hsa' Hsb Hca' Hcb Hnxa' Hxb Hiff') as [IH1 IH2].
    split.
    - intros Hc. apply clash_move_left in Hc; [|done..]. apply IH1 in Hc.
      by destruct (ComputeResolvant x a' (lb :: b')).
    - intros Hc. destruct IH2 as (out & -> & Hso & Hout).
      { intros Hc'. by apply Hc, clash_cons_l. }
      exists (la :: out). split; [done|]. split.
      + apply is_sorted_cons. split; [|done]. intros l' Hl'.
        apply Hout in Hl' as [[? _]|[[->|Hb]%elem_of_cons _]]; auto.
        specialize (Hltb l' Hb). lia.
      + intros l. rewrite !elem_of_cons, Hout, ?elem_of_cons. intuition (subst; first [done | congruence]). }
  assert (lb < la)%N as Hlt by lia.
  assert (lb <> Negated x) as Hlbx.
  { intros ->. assert (x ∈ la :: a') as Hin by (apply Hiff; left).
    apply elem_of_cons in Hin as [Hin|Hin].
    - apply Hn. subst la. symmetry. apply Negated_involutive.
    - specialize (Hlta _ Hin). literal_parity x; lia. }
  assert (x ∈ la :: a' <-> Negated x ∈ b') as Hiff'.
  { rewrite Hiff, elem_of_cons. intuition (subst; first [done | congruence]). }
  destruct (IHb Hsb' Hcb' Hxb' Hiff') as [IH1 IH2].
  split.
  - intros Hc. apply clash_move_right in Hc; [|done..]. apply IH1 in Hc.
    by destruct (ComputeResolvant x (la :: a') b').
  - intros Hc. destruct IH2 as (out & -> & Hso & Hout).
    { intros Hc'. by apply Hc, clash_cons_r. }
    exists (lb :: out). split; [done|]. split.
    + apply is_sorted_cons. split; [|done]. intros l' Hl'.
      apply Hout in Hl' as [[[->|Ha]%elem_of_cons _]|[? _]]; auto.
      specialize (Hlta l' Ha). lia.
    + intros l. rewrite !elem_of_cons, Hout, ?elem_of_cons. intuition (subst; first [done | congruence]).
Qed.

(** C4. For canonical clauses [a] and [b] with [x] in [a] and [not x] in
    [b]: if a literal other than [x] occurs in [a] with its negation in
    [b], [ComputeResolvantSize] returns [-1] and [ComputeResolvant] returns
    false; otherwise [ComputeResolvantSize] returns
    [|a| + |b| - 2 - (number of literals common to a and b other than x)]
    and [ComputeResolvant] returns true with [out] the sorted merge of
    [a \ {x}] and [b \ {not x}]. *)
Theorem ComputeResolvant_contract (x : Literal) (a b : list Literal) :
  canonical a = true -> canonical b = true ->
  x ∈ a -> Negated x ∈ b ->
  (clash x a b ->
     ComputeResolvantSize x a b = -1
     /\ (ComputeResolvant x a b).1 = false)
  /\ (~ clash x a b ->
     ComputeResolvantSize x a b
       = Z.of_nat (length a) + Z.of_nat (length b) - 2
         - Z.of_nat (length (common_literals x a b))
     /\ exists out,
          ComputeResolvant x a b = (true, out)
          /\ is_sorted out = true
          /\ forall l, l ∈ out <->
               (l ∈ a /\ l <> x) \/ (l ∈ b /\ l <> Negated x)).
Proof.
  intros [Hsa Hca]%canonical_spec [Hsb Hcb]%canonical_spec Hxa Hxb.
  assert (Negated x ∉ a) as Hnxa by (by apply Hca).
  assert (x ∉ b) as Hxnb.
  { intros Hin. apply (Hcb x Hin Hxb). }
  destruct (ComputeResolvantSize_loop_spec x a b
              (Z.of_nat (length a) + Z.of_nat (length b) - 2)
              Hsa Hsb Hca Hcb) as [S1 S2].
  destruct (ComputeResolvant_spec x a b Hsa Hsb Hca Hcb Hnxa Hxnb) as [R1 R2];
    [tauto|].
  split; intros Hc.
  - split; [by apply S1 | by apply R1].
  - split; [|by apply R2]. unfold ComputeResolvantSize, common_literals.
    rewrite (S2 Hc). do 3 f_equal. apply filter_ext_elem.
    intros l _. split; [|tauto]. intros Hl. split; [done|]. by intros ->.
Qed.

Lemma ComputeResolvant_contract_witness :
  (clash 0%N [0; 2; 4]%N [1; 2; 6]%N ->
     ComputeResolvantSize 0%N [0; 2; 4]%N [1; 2; 6]%N = -1
     /\ (ComputeResolvant 0%N [0; 2; 4]%N [1; 2; 6]%N).1 = false)
  /\ (~ clash 0%N [0; 2; 4]%N [1; 2; 6]%N ->
     ComputeResolvantSize 0%N [0; 2; 4]%N [1; 2; 6]%N
       = Z.of_nat (length [0; 2; 4]%N) + Z.of_nat (length [1; 2; 6]%N) - 2
         - Z.of_nat (length (common_literals 0%N [0; 2; 4]%N [1; 2; 6]%N))
     /\ exists out,
          ComputeResolvant 0%N [0; 2; 4]%N [1; 2; 6]%N = (true, out)
          /\ is_sorted out = true
          /\ forall l, l ∈ out <->
               (l ∈ [0; 2; 4]%N /\ l <> 0%N)
               \/ (l ∈ [1; 2; 6]%N /\ l <> Negated 0%N)).
Proof.
  apply ComputeResolvant_contract.
  - reflexivity.
  - reflexivity.
  - decide_by_compute.
  - decide_by_compute.
Defined.

Example ComputeResolvant_example :
  ComputeResolvant 0%N [0; 2; 4]%N [1; 2; 6]%N = (true, [2; 4; 6]%N)
  /\ ComputeResolvantSize 0%N [0; 2; 4]%N [1; 2; 6]%N = 3
  /\ ComputeResolvant 0%N [0; 2; 4]%N [1; 3; 6]%N = (false, [])
  /\ ComputeResolvantSize 0%N [0; 2; 4]%N [1; 3; 6]%N = -1.
Proof. repeat split; reflexivity. Qed.

(** ** [SimplifyClause]: when it succeeds *)

Lemma elem_of_negate_one (x l : Literal) (b : list Literal) :
  l ∈ negate_one x b <-> (l = Negated x /\ x ∈ b) \/ (l ∈ b /\ l <> x).
Proof.
  unfold negate_one. rewrite list_elem_of_fmap. split.
  - intros (y & -> & Hy). destruct (decide (y = x)) as [->|Hne]; auto.
  - intros [[-> Hx]|[Hl Hne]].
    + exists x. by rewrite decide_True.
    + exists l. by rewrite decide_False.
Qed.

(** If the loop runs to the end of [a], every literal of [a] was found in
    [b], at most one of them negated; [to_remove] then points to it. *)
Lemma SimplifyClause_loop_sound b :
  forall a ib num_diff to_remove size_diff num_diff' to_remove',
    SimplifyClause_loop a b ib num_diff to_remove size_diff
      = ExitLoop num_diff' to_remove' ->
    0 <= num_diff ->
    (num_diff' = num_diff /\ to_remove' = to_remove /\ a ⊆ b)
    \/ (num_diff = 0 /\ num_diff' = 1 /\ (ib <= to_remove')%nat
        /\ exists x, b !! (to_remove' - ib)%nat = Some x
             /\ Negated x ∈ a
             /\ forall l, l ∈ a -> l = Negated x \/ l ∈ b).
Proof.
  induction b as [|lb b' IH]; intros a ib nd tr sd nd' tr' H Hnd.
  { destruct a; simpl in H; [|done]. left. inversion H.
    split; [done|]. split; [done|]. intros l Hl. inversion Hl. }
  destruct a as [|la a']; simpl in H.
  { left. inversion H. split; [done|]. split; [done|]. intros l Hl.
    inversion Hl. }
  destruct (N.eqb_spec la lb) as [->|Hne].
  { apply IH in H; [|done].
    destruct H as [(-> & -> & Hsub)|(-> & -> & Hib & x & Hx & Hnx & Hall)].
    - left. split; [done|]. split; [done|].
      intros l [->|Hl]%elem_of_cons; [left | right; auto].
    - right. split; [done|]. split; [done|]. split; [lia|]. exists x.
      split; [|split].
      + replace (tr' - ib)%nat with (S (tr' - S ib)) by lia. done.
      + by right.
      + intros l [->|Hl]%elem_of_cons; [right; left|].
        destruct (Hall l Hl); [by left | right; by right]. }
  destruct (N.eqb_spec la (Negated lb)) as [Hn|Hn].
  { destruct (Z.gtb_spec (nd + 1) 1); [done|].
    assert (nd = 0) as -> by lia.
    apply IH in H; [|lia]. destruct H as [(-> & -> & Hsub)|(? & _)]; [|lia].
    right. split; [done|]. split; [done|]. split; [done|]. exists lb.
    split; [|split].
    - by rewrite Nat.sub_diag.
    - rewrite <- Hn. left.
    - intros l [->|Hl]%elem_of_cons; [by left | right; right; auto]. }
  destruct (la <? lb)%N; [done|].
  destruct (sd - 1 <? 0); [done|].
  apply IH in H; [|done].
  destruct H as [(-> & -> & Hsub)|(-> & -> & Hib & x & Hx & Hnx & Hall)].
  - left. split; [done|]. split; [done|]. intros l Hl. right. auto.
  - right. split; [done|]. split; [done|]. split; [lia|]. exists x.
    split; [|split; [done|]].
    + replace (tr' - ib)%nat with (S (tr' - S ib)) by lia. done.
    + intros l Hl. destruct (Hall l Hl); [by left | right; by right].
Qed.

(** Conversely, on canonical clauses the loop runs to the end of [a] as soon
    as every literal of [a] occurs in [b], at most one of them negated; the
    abort on [size_diff] does not fire, since [a] is then no longer than
    [b]. *)
Lemma SimplifyClause_loop_complete b :
  forall a ib num_diff to_remove size_diff,
    is_sorted a = true -> is_sorted b = true ->
    complement_free a -> complement_free b ->
    0 <= num_diff <= 1 ->
    (a ⊆ b
     \/ (num_diff = 0
         /\ exists x, x ∈ b /\ forall l, l ∈ a -> l = Negated x \/ l ∈ b)) ->
    (length a <= length b)%nat
    /\ (Z.of_nat (length b) - Z.of_nat (length a) <= size_diff ->
        exists num_diff' to_remove',
          SimplifyClause_loop a b ib num_diff to_remove size_diff
            = ExitLoop num_diff' to_remove').
Proof.
  induction b as [|lb b' IH]; intros a ib nd tr sd Hsa Hsb Hca Hcb Hnd Hinv.
  { destruct a as [|la a'].
    - split; [done|]. intros _. by eexists _, _.
    - exfalso. destruct Hinv as [Hsub|(_ & x & Hx & _)].
      + specialize (Hsub la). rewrite elem_of_nil in Hsub. apply Hsub. left.
      + inversion Hx. }
  destruct a as [|la a'].
  { split; [simpl; lia|]. intros _. by eexists _, _. }
  pose proof (is_sorted_tail _ _ Hsa) as Hsa'.
  pose proof (is_sorted_tail _ _ Hsb) as Hsb'.
  pose proof (complement_free_tail _ _ Hca) as Hca'.
  pose proof (complement_free_tail _ _ Hcb) as Hcb'.
  apply is_sorted_cons in Hsa as Hlta. destruct Hlta as [Hlta _].
  apply is_sorted_cons in Hsb as Hltb. destruct Hltb as [Hltb _].
  simpl SimplifyClause_loop.
  destruct (N.eqb_spec la lb) as [Heq|Hne].
  { subst lb.
    assert (forall l, l ∈ a' -> l ∈ la :: b' -> l ∈ b') as Hshift.
    { intros l Hl [->|?]%elem_of_cons; [|done]. specialize (Hlta _ Hl). lia. }
    destruct (IH a' (S ib) nd tr sd Hsa' Hsb' Hca' Hcb' Hnd) as [Hlen Hrun].
    { destruct Hinv as [Hsub|(-> & x & Hx & Hall)].
      - left. intros l Hl. apply Hshift; [done|]. apply Hsub. by right.
      - apply elem_of_cons in Hx as [->|Hx].
        + left. intros l Hl. apply Hshift; [done|].
          destruct (Hall l) as [->|?]; [by right| |done].
          exfalso. by apply (complement_free_head _ _ Hca).
        + right. split; [done|]. exists x. split; [done|]. intros l Hl.
          destruct (Hall l) as [->|?]; [by right|by left|]. right.
          by apply Hshift. }
    split; [simpl; lia|]. intros Hsd. apply Hrun. simpl in Hsd. lia. }
  destruct (N.eqb_spec la (Negated lb)) as [Hn|Hn].
  { assert (la ∉ lb :: b') as Hlab.
    { intros [?|Hin]%elem_of_cons; [done|].
      apply (complement_free_head _ _ Hcb). by rewrite <- Hn. }
    destruct Hinv as [Hsub|(-> & x & Hx & Hall)].
    { exfalso. apply Hlab, Hsub. left. }
    assert (la = Negated x) as Hlx.
    { destruct (Hall la) as [?|?]; [left|done|done]. }
    assert (x = lb) as -> by (apply Negated_inj; congruence).
    destruct (IH a' (S ib) 1 ib sd Hsa' Hsb' Hca' Hcb') as [Hlen Hrun]; [lia| |].
    { left. intros l Hl.
      destruct (Hall l) as [->|[->|?]%elem_of_cons]; [by right| | |done].
      - specialize (Hlta _ Hl). lia.
      - exfalso. apply (Hca lb); [by right | rewrite <- Hlx; left]. }
    split; [simpl; lia|]. intros Hsd. change (0 + 1 >? 1) with false.
    apply Hrun. simpl in Hsd. lia. }
  destruct (N.ltb_spec la lb) as [Hlt|Hge].
  { exfalso. destruct Hinv as [Hsub|(-> & x & Hx & Hall)].
    - assert (la ∈ lb :: b') as [?|Hin]%elem_of_cons by (apply Hsub; left);
        [done|].
      specialize (Hltb _ Hin). lia.
    - destruct (Hall la) as [Hlx|[?|Hin]%elem_of_cons]; [left| |done|].
      + apply elem_of_cons in Hx as [->|Hx]; [done|].
        specialize (Hltb _ Hx). literal_parity x; lia.
      + specialize (Hltb _ Hin). lia. }
  assert (lb < la)%N as Hlt by lia.
  assert (forall l, l ∈ la :: a' -> l ∈ lb :: b' -> l ∈ b') as Hshift.
  { intros l Hl [->|?]%elem_of_cons; [|done].
    apply elem_of_cons in Hl as [->|Hl]; [lia|]. specialize (Hlta _ Hl). lia. }
  destruct (IH (la :: a') (S ib) nd tr (sd - 1) Hsa Hsb' Hca Hcb' Hnd)
    as [Hlen Hrun].
  { destruct Hinv as [Hsub|(-> & x & Hx & Hall)].
    - left. intros l Hl. apply Hshift; auto.
    - apply elem_of_cons in Hx as [->|Hx].
      + left. intros l Hl. apply Hshift; [done|].
        destruct (Hall l Hl) as [->|?]; [|done]. exfalso.
        apply elem_of_cons in Hl as [Hl|Hl]; [by apply Hn|].
        specialize (Hlta _ Hl). literal_parity lb; lia.
      + right. split; [done|]. exists x. split; [done|]. intros l Hl.
        destruct (Hall l Hl) as [->|?]; [by left|]. right. by apply Hshift. }
  cbn [length] in *. split; [lia|]. intros Hsd.
  destruct (Z.ltb_spec (sd - 1) 0); [lia|].
  apply Hrun. lia.
Qed.

Lemma is_sorted_NoDup (c : list Literal) : is_sorted c = true -> NoDup c.
Proof.
  induction c as [|l c IH]; intros Hs; [constructor|].
  constructor.
  - by apply is_sorted_head_notin.
  - by apply IH, (is_sorted_tail l).
Qed.

Lemma subset_after_removing_one_subseteq (a b : list Literal) :
  subset_after_removing_one a b -> a ⊆ b.
Proof.
  intros (b' & [->|[i ->]] & Hsub); [done|].
  intros l Hl. apply Hsub in Hl. rewrite delete_take_drop in Hl.
  apply elem_of_app in Hl as [Hl|Hl].
  - by apply (subseteq_take i b).
  - by apply (subseteq_drop (S i) b).
Qed.

(** C2, as stated, fails: [a = {x0, x1}] and [b = {not x0, x1}] are
    canonical and of the same size, [SimplifyClause] returns subsumed
    (self-subsuming resolution), but [a] is not a subset of [b], whether or
    not a literal is removed from [b]. *)
Lemma SimplifyClause_subset_counterexample :
  canonical [0; 2]%N = true /\ canonical [1; 2]%N = true
  /\ (length [0; 2]%N <= length [1; 2]%N)%nat
  /\ SimplifyClause [0; 2]%N [1; 2]%N (-1) = Some (true, [2]%N, 1)
  /\ ~ subset_after_removing_one [0; 2]%N [1; 2]%N.
Proof.
  split; [reflexivity|]. split; [reflexivity|]. split; [simpl; lia|].
  split; [reflexivity|].
  intros H%subset_after_removing_one_subseteq.
  assert (0%N ∈ [1; 2]%N) as Hin by (apply H; left).
  revert Hin. rewrite !elem_of_cons, elem_of_nil. lia.
Qed.

(** C2, amended.  For canonical clauses [a] and [b] with [|b| >= |a|],
    [SimplifyClause(a, b)] returns subsumed if and only if [a] is a subset
    of [b] as sets after possibly negating one literal of [b]; when it
    returns subsumed with [opposite_literal = x], the negation of [x] is a
    literal of [a] and [b] has exactly [x] removed in place; when it returns
    subsumed with [opposite_literal = -1], [a] is a subset of [b] and [b] is
    unchanged. *)
Theorem SimplifyClause_contract (a b : list Literal) (opp0 : LiteralIndex) :
  canonical a = true -> canonical b = true ->
  (length a <= length b)%nat ->
  exists (r : bool) (b' : list Literal) (opp : LiteralIndex),
    SimplifyClause a b opp0 = Some (r, b', opp)
    /\ (r = true <-> subset_after_negating_one a b)
    /\ (r = true -> opp = -1 -> a ⊆ b /\ b' = b)
    /\ (r = true -> opp <> -1 ->
        exists (x : Literal) (b1 b2 : list Literal),
          opp = Index x /\ Negated x ∈ a /\ a ⊆ negate_one x b
          /\ b = b1 ++ x :: b2 /\ b' = b1 ++ b2 /\ x ∉ b').
Proof.
  intros [Hsa Hca]%canonical_spec [Hsb Hcb]%canonical_spec Hlen.
  unfold SimplifyClause.
  destruct (Nat.ltb_spec (length b) (length a)) as [?|_]; [lia|].
  set (sd := Z.of_nat (length b) - Z.of_nat (length a)).
  assert (subset_after_negating_one a b ->
          exists nd tr, SimplifyClause_loop a b 0 0 0 sd = ExitLoop nd tr)
    as Hcomplete.
  { intros Hsub.
    apply (SimplifyClause_loop_complete b a 0%nat 0 0%nat sd); try done.
    destruct Hsub as [?|(x & Hx & Hsub)]; [by left|]. right.
    split; [done|]. exists x. split; [done|]. intros l Hl.
    apply Hsub, elem_of_negate_one in Hl as [[-> _]|[? _]]; auto. }
  destruct (SimplifyClause_loop a b 0 0 0 sd) as [|nd tr|] eqn:Hloop.
  - exists false, b, (-1). split; [done|]. split; [|done].
    split; [done|]. intros (? & ? & ?)%Hcomplete. done.
  - apply SimplifyClause_loop_sound in Hloop; [|done].
    destruct Hloop as [(-> & -> & Hsub)|(_ & -> & _ & x & Hx & Hnx & Hall)].
    + exists true, b, (-1). split; [done|]. split; [|done].
      split; [by left | done].
    + rewrite Nat.sub_0_r in Hx. simpl. rewrite Hx.
      assert (a ⊆ negate_one x b) as Hneg.
      { intros l Hl. apply elem_of_negate_one.
        destruct (Hall l Hl) as [->|Hb].
        - left. split; [done|]. by eapply list_elem_of_lookup_2.
        - right. split; [done|]. intros ->. by apply (Hca x). }
      destruct (delete_lookup_split b tr x Hx) as [Hb Hb'].
      exists true, (delete tr b), (Index x). split; [done|].
      split; [|split].
      * split; [|done]. intros _. right. exists x. split; [|done].
        by eapply list_elem_of_lookup_2.
      * intros _ Hopp. pose proof (Index_nonneg x). lia.
      * intros _ _. exists x, (take tr b), (drop (S tr) b).
        split; [done|]. split; [done|]. split; [done|]. split; [done|].
        split; [done|]. rewrite Hb'. apply is_sorted_NoDup in Hsb.
        rewrite Hb in Hsb. apply NoDup_app in Hsb as (_ & Hdisj & Hnd).
        apply NoDup_cons in Hnd as [Hx2 _].
        intros [Hin|Hin]%elem_of_app; [|done].
        apply (Hdisj x Hin). left.
  - exfalso. revert Hloop. apply SimplifyClause_loop_in_bounds; subst sd; lia.
Qed.

Lemma SimplifyClause_contract_witness :
  exists (r : bool) (b' : list Literal) (opp : LiteralIndex),
    SimplifyClause [0; 2]%N [1; 2; 4]%N (-1) = Some (r, b', opp)
    /\ (r = true <-> subset_after_negating_one [0; 2]%N [1; 2; 4]%N)
    /\ (r = true -> opp = -1 -> [0; 2]%N ⊆ [1; 2; 4]%N /\ b' = [1; 2; 4]%N)
    /\ (r = true -> opp <> -1 ->
        exists (x : Literal) (b1 b2 : list Literal),
          opp = Index x /\ Negated x ∈ [0; 2]%N
          /\ [0; 2]%N ⊆ negate_one x [1; 2; 4]%N
          /\ [1; 2; 4]%N = b1 ++ x :: b2 /\ b' = b1 ++ b2 /\ x ∉ b').
Proof.
  apply SimplifyClause_contract.
  - reflexivity.
  - reflexivity.
  - simpl. lia.
Defined.

Example SimplifyClause_examples :
  SimplifyClause [0; 2]%N [0; 2; 4]%N 7 = Some (true, [0; 2; 4]%N, -1)
  /\ SimplifyClause [0; 2]%N [1; 2; 4]%N 7 = Some (true, [2; 4]%N, 1)
  /\ SimplifyClause [0; 2]%N [1; 3; 4]%N 7 = Some (false, [1; 3; 4]%N, -1)
  /\ SimplifyClause [0; 2; 4]%N [0; 2]%N 7 = Some (false, [0; 2]%N, 7).
Proof. repeat split; reflexivity. Qed.

(** * The core-guided optimizer *)

(** ** The stratified lower bound *)

(** The loop keeps [stratified_lower_bound_] at or below its old value; as
    soon as it has seen a weight below the old value, it holds the largest
    such weight seen so far. *)
Lemma update_stratified_lower_bound_spec old nodes :
  forall slb, slb <= old ->
    let r := update_stratified_lower_bound old nodes slb in
    r <= old
    /\ (r = slb \/ exists n, n ∈ nodes /\ weight n = r /\ r < old)
    /\ (slb < old -> slb <= r < old)
    /\ (forall n, n ∈ nodes -> weight n < old -> weight n <= r < old).
Proof.
  induction nodes as [|n nodes IH]; intros slb Hle; simpl.
  { split; [done|]. split; [by left|]. split; [lia|].
    intros n Hn. inversion Hn. }
  set (slb1 := if weight n <? old then _ else _).
  assert (slb1 <= old
          /\ (slb1 = slb \/ (slb1 = weight n /\ weight n < old))
          /\ (slb < old -> slb <= slb1 < old)
          /\ (weight n < old -> weight n <= slb1 < old)) as (H1 & H2 & H3 & H4).
  { subst slb1. destruct (Z.ltb_spec (weight n) old).
    - destruct (Z.eqb_spec slb old), (Z.gtb_spec (weight n) slb); simpl; lia.
    - lia. }
  destruct (IH slb1 H1) as (I1 & I2 & I3 & I4).
  split; [done|]. split; [|split].
  - destruct I2 as [->|(n' & Hn' & Hw & Hlt)].
    + destruct H2 as [?|[Hw Hlt]]; [by left|]. right. exists n.
      split; [left|]. split; [done|lia].
    + right. exists n'. split; [by right|done].
  - intros Hlt. specialize (H3 Hlt). specialize (I3 ltac:(lia)). lia.
  - intros n' [->|Hn']%elem_of_cons Hlt.
    + specialize (H4 Hlt). specialize (I3 ltac:(lia)). lia.
    + by apply I4.
Qed.

(** What the branch of lines 158-176 does: [stratified_lower_bound_] becomes
    the largest node weight strictly below its previous value, and is
    unchanged if there is no such weight; the status is [SOLUTION_FOUND],
    with the assumptions marked stale, exactly when it strictly decreased. *)
Lemma OnModelSat_contract (o : Optimizer) :
  exists (status : BopStatus) (o' : Optimizer),
    OnModelSat o = (status, o')
    /\ nodes_ o' = nodes_ o
    /\ ((exists n, n ∈ nodes_ o /\ weight n < stratified_lower_bound_ o) ->
        stratified_lower_bound_ o' < stratified_lower_bound_ o
        /\ (exists n, n ∈ nodes_ o /\ weight n = stratified_lower_bound_ o')
        /\ (forall n, n ∈ nodes_ o ->
              weight n < stratified_lower_bound_ o ->
              weight n <= stratified_lower_bound_ o'))
    /\ ((forall n, n ∈ nodes_ o -> ~ weight n < stratified_lower_bound_ o) ->
        stratified_lower_bound_ o' = stratified_lower_bound_ o)
    /\ (stratified_lower_bound_ o' < stratified_lower_bound_ o ->
        status = SOLUTION_FOUND /\ assumptions_already_added_ o' = false)
    /\ (~ stratified_lower_bound_ o' < stratified_lower_bound_ o ->
        status = OPTIMAL_SOLUTION_FOUND
        /\ assumptions_already_added_ o' = assumptions_already_added_ o).
Proof.
  destruct o as [nodes old added]. unfold OnModelSat. simpl.
  destruct (update_stratified_lower_bound_spec old nodes old)
    as (H1 & H2 & _ & H4); [lia|].
  set (r := update_stratified_lower_bound old nodes old) in *.
  assert ((exists n, n ∈ nodes /\ weight n < old) ->
          r < old /\ (exists n, n ∈ nodes /\ weight n = r)
          /\ (forall n, n ∈ nodes -> weight n < old -> weight n <= r)) as Hsome.
  { intros (n & Hn & Hlt). destruct (H4 n Hn Hlt) as [_ Hr].
    split; [done|]. split.
    - destruct H2 as [?|(n' & ? & ? & _)]; [lia|by exists n'].
    - intros n' Hn' Hlt'. by apply H4. }
  assert ((forall n, n ∈ nodes -> ~ weight n < old) -> r = old) as Hnone.
  { intros Hno. destruct H2 as [?|(n' & Hn' & Hw & Hlt)]; [done|].
    exfalso. apply (Hno n' Hn'). lia. }
  destruct (Z.ltb_spec r old) as [Hlt|Hge]; eexists _, _; (split; [done|]);
    simpl; repeat split; try done; try lia; by apply Hsome.
Qed.

(** The SAT branch is the one taken by the main loop when the solver
    answers [MODEL_SAT] and the conflict budget is not overdrawn. *)
Lemma AfterSolve_model_sat `{SolverOps Solver} conflict_limit is_feasible core
    (solver : Solver) (o : Optimizer) :
  0 <= conflict_limit ->
  AfterSolve MODEL_SAT conflict_limit is_feasible core solver o =
    let '(status, o') :=
      OnModelSat {| nodes_ := nodes_ o;
                    stratified_lower_bound_ := stratified_lower_bound_ o;
                    assumptions_already_added_ := true |} in
    Some (Return status, o', solver).
Proof.
  intros Hlimit. unfold AfterSolve.
  destruct (Z.ltb_spec conflict_limit 0); [lia|]. reflexivity.
Qed.

(** C5. Stratified lower-bound update on SAT.  When the solver answers
    [MODEL_SAT] in the main loop and the conflict budget is not overdrawn,
    the iteration returns: [stratified_lower_bound_] becomes the largest
    node weight strictly below its previous value, and is unchanged if no
    node weight is strictly below it; the call returns [SOLUTION_FOUND] and
    marks the assumptions stale exactly when [stratified_lower_bound_]
    strictly decreased, and [OPTIMAL_SOLUTION_FOUND] otherwise; the nodes
    and the solver are left as they are.  (An overdrawn conflict budget is
    a limit: line 155 then returns [CONTINUE] before the SAT branch, and
    [stratified_lower_bound_] is not touched.) *)
Theorem AfterSolve_on_model_sat `{SolverOps Solver} (conflict_limit : Z)
    (is_feasible : bool) (core : list Literal) (solver : Solver)
    (o : Optimizer) :
  (conflict_limit < 0 ->
     AfterSolve MODEL_SAT conflict_limit is_feasible core solver o
     = Some (Return CONTINUE,
             {| nodes_ := nodes_ o;
                stratified_lower_bound_ := stratified_lower_bound_ o;
                assumptions_already_added_ := true |}, solver))
  /\ (0 <= conflict_limit ->
      exists (status : BopStatus) (o' : Optimizer),
        AfterSolve MODEL_SAT conflict_limit is_feasible core solver o
        = Some (Return status, o', solver)
        /\ nodes_ o' = nodes_ o
        /\ ((exists n, n ∈ nodes_ o /\ weight n < stratified_lower_bound_ o) ->
            stratified_lower_bound_ o' < stratified_lower_bound_ o
            /\ (exists n, n ∈ nodes_ o
                          /\ weight n = stratified_lower_bound_ o')
            /\ (forall n, n ∈ nodes_ o ->
                  weight n < stratified_lower_bound_ o ->
                  weight n <= stratified_lower_bound_ o'))
        /\ ((forall n, n ∈ nodes_ o ->
               ~ weight n < stratified_lower_bound_ o) ->
            stratified_lower_bound_ o' = stratified_lower_bound_ o)
        /\ (stratified_lower_bound_ o' < stratified_lower_bound_ o ->
            status = SOLUTION_FOUND /\ assumptions_already_added_ o' = false)
        /\ (~ stratified_lower_bound_ o' < stratified_lower_bound_ o ->
            status = OPTIMAL_SOLUTION_FOUND
            /\ assumptions_already_added_ o' = true)).
Proof.
  split.
  - intros Hlimit. unfold AfterSolve.
    destruct (Z.ltb_spec conflict_limit 0); [done | lia].
  - intros Hlimit. rewrite AfterSolve_model_sat by done.
    set (ob := {| nodes_ := nodes_ o;
                  stratified_lower_bound_ := stratified_lower_bound_ o;
                  assumptions_already_added_ := true |}).
    destruct (OnModelSat_contract ob)
      as (status & o' & Hrun & Hnodes & Hsome & Hnone & Hfound & Hopt).
    exists status, o'. rewrite Hrun.
    exact (conj eq_refl (conj Hnodes (conj Hsome (conj Hnone
             (conj Hfound Hopt))))).
Qed.

Example AfterSolve_on_model_sat_example :
  let o := {| nodes_ := [mkNode 1 5 1; mkNode 3 9 1; mkNode 5 7 1;
                         mkNode 7 2 1];
              stratified_lower_bound_ := 9;
              assumptions_already_added_ := false |} in
  AfterSolve MODEL_SAT 10 true [] ([] : list SolverCall) o
  = Some (Return SOLUTION_FOUND,
          {| nodes_ := nodes_ o;
             stratified_lower_bound_ := 7;
             assumptions_already_added_ := false |}, [])
  /\ AfterSolve MODEL_SAT 10 true [] ([] : list SolverCall)
       {| nodes_ := nodes_ o;
          stratified_lower_bound_ := 2;
          assumptions_already_added_ := false |}
     = Some (Return OPTIMAL_SOLUTION_FOUND,
             {| nodes_ := nodes_ o;
                stratified_lower_bound_ := 2;
                assumptions_already_added_ := true |}, [])
  /\ AfterSolve MODEL_SAT (-1) true [] ([] : list SolverCall) o
     = Some (Return CONTINUE,
             {| nodes_ := nodes_ o;
                stratified_lower_bound_ := 9;
                assumptions_already_added_ := true |}, []).
Proof. by repeat split. Qed.

Example OnModelSat_example :
  OnModelSat {| nodes_ := [mkNode 1 5 1; mkNode 3 9 1; mkNode 5 7 1; mkNode 7 2 1];
                stratified_lower_bound_ := 9;
                assumptions_already_added_ := true |}
  = (SOLUTION_FOUND,
     {| nodes_ := [mkNode 1 5 1; mkNode 3 9 1; mkNode 5 7 1; mkNode 7 2 1];
        stratified_lower_bound_ := 7;
        assumptions_already_added_ := false |}).
Proof. reflexivity. Qed.

(** ** Processing a core *)

Lemma skip_to_assumption_spec c nodes skipped rest :
  skip_to_assumption c nodes = (skipped, rest) ->
  nodes = skipped ++ rest
  /\ match rest with
     | [] => True
     | n :: _ => Negated (literal0 n) = c
     end.
Proof.
  revert skipped rest. induction nodes as [|n nodes IH]; intros sk rest H.
  { inversion H. done. }
  simpl in H. destruct (N.eqb_spec (Negated (literal0 n)) c) as [Heq|Hne].
  - inversion H. done.
  - destruct (skip_to_assumption c nodes) as [sk' rest'].
    inversion H; subst. destruct (IH sk' rest eq_refl) as [-> Hrest]. done.
Qed.

(** The first scan does not advance [index] past a match; as the next
    literal of the core is a different one, this makes no difference. *)
Lemma core_min_weight_skip_head core n nodes min_weight :
  Negated (literal0 n) ∉ core ->
  core_min_weight core (n :: nodes) min_weight
  = core_min_weight core nodes min_weight.
Proof.
  intros Hnotin. destruct core as [|c core]; [done|]. simpl.
  destruct (N.eqb_spec (Negated (literal0 n)) c) as [Heq|Hne].
  - exfalso. apply Hnotin. rewrite Heq. left.
  - by destruct (skip_to_assumption c nodes) as [sk [|n' rest]].
Qed.

(** Both scans match the core against the same nodes. *)
Lemma core_scans_agree core :
  forall nodes min_weight w,
    NoDup core ->
    core_min_weight core nodes min_weight = Some w ->
    exists segs tail,
      nodes = segments_nodes segs tail
      /\ map (fun s => Negated (literal0 s.2)) segs = core
      /\ w = foldr Z.min min_weight (map (fun s => weight s.2) segs)
      /\ forall w',
           merge_scan w' core nodes
           = Some (segments_residual w' segs tail,
                   map (fun s => reduce w' s.2) segs).
Proof.
  induction core as [|c core IH]; intros nodes mw w Hnd Hmin.
  { exists [], nodes. inversion Hmin. done. }
  apply NoDup_cons in Hnd as [Hc Hnd]. simpl in Hmin.
  destruct (skip_to_assumption c nodes) as [sk rest] eqn:Hskip.
  destruct (skip_to_assumption_spec _ _ _ _ Hskip) as [Hnodes Hrest].
  destruct rest as [|n nodes']; [done|]. subst c.
  rewrite core_min_weight_skip_head in Hmin by done.
  destruct (IH nodes' _ w Hnd Hmin) as (segs & tail & Hn' & Hcore & Hw & Hscan).
  exists ((sk, n) :: segs), tail. split; [|split; [|split]].
  - rewrite Hnodes, Hn'. unfold segments_nodes. simpl.
    by rewrite <- !app_assoc.
  - simpl. by rewrite Hcore.
  - rewrite Hw. simpl. clear. induction segs as [|s segs IH]; simpl; lia.
  - intros w'. simpl. rewrite Hskip, Hscan.
    unfold segments_residual, residual, reduce. simpl.
    destruct (weight n >? w'); simpl; by rewrite <- !app_assoc.
Qed.


Lemma total_weight_app (l1 l2 : list EncodingNode) :
  total_weight (l1 ++ l2) = total_weight l1 + total_weight l2.
Proof.
  unfold total_weight. induction l1 as [|n l1 IH]; simpl; [done|].
  rewrite IH. lia.
Qed.

Lemma residual_total_weight w n :
  w <= weight n -> total_weight (residual w n) = weight n - w.
Proof.
  intros Hle. unfold residual, total_weight.
  destruct (Z.gtb_spec (weight n) w); simpl; lia.
Qed.

(** Dropping the nodes whose residual weight is zero does not change the
    total: each cored node accounts for its weight minus [w]. *)
Lemma segments_residual_total_weight w segs tail :
  (forall s, s ∈ segs -> w <= weight s.2) ->
  total_weight (segments_residual w segs tail)
  = total_weight (segments_nodes segs tail) - Z.of_nat (length segs) * w.
Proof.
  unfold segments_residual, segments_nodes. intros Hle.
  rewrite !total_weight_app.
  enough (total_weight (flat_map (fun s => s.1 ++ residual w s.2) segs)
          = total_weight (flat_map (fun s => s.1 ++ [s.2]) segs)
            - Z.of_nat (length segs) * w) by lia.
  induction segs as [|s segs IH]; [done|].
  cbn [flat_map length]. rewrite !total_weight_app, IH.
  - rewrite residual_total_weight by (apply Hle; left).
    unfold total_weight at 4. simpl. lia.
  - intros s' Hs'. apply Hle. by right.
Qed.

Lemma foldr_min_lower_bound (bound : Z) (ws : list Z) :
  foldr Z.min bound ws <= bound /\ forall w, w ∈ ws -> foldr Z.min bound ws <= w.
Proof.
  induction ws as [|w0 ws [IH1 IH2]]; simpl.
  - split; [lia|]. intros w Hw. inversion Hw.
  - split; [lia|]. intros w [->|Hw]%elem_of_cons; [lia|].
    specialize (IH2 w Hw). lia.
Qed.

Lemma foldr_min_attained (bound : Z) (ws : list Z) :
  ws <> [] -> (forall w, w ∈ ws -> w <= bound) -> foldr Z.min bound ws ∈ ws.
Proof.
  induction ws as [|w0 ws IH]; intros Hne Hall; [done|]. simpl.
  destruct ws as [|w1 ws].
  - simpl. rewrite Z.min_l; [left|]. apply Hall. left.
  - destruct (Z.min_spec w0 (foldr Z.min bound (w1 :: ws))) as [[_ ->]|[_ ->]].
    + left.
    + right. apply IH; [done|]. intros w Hw. apply Hall. by right.
Qed.

(** C6. Core weight accounting.  A core of [k >= 2] distinct literals that
    is matched by the first scan, with minimum matched weight [w], cuts the
    node list into segments around the [k] cored nodes.  Processing it
    replaces the node list by the same list in which every cored node has
    its weight decreased by [w] and is dropped when nothing is left, followed
    by one new merged node of weight [w] whose output literal is asserted
    as a unit clause.  The total weight of the list decreases by exactly
    [(k - 1) * w]. *)
Theorem ProcessCore_weight_accounting `{SolverOps Solver}
    (core : list Literal) (solver : Solver) (o : Optimizer) (w : Coefficient) :
  (2 <= length core)%nat ->
  NoDup core ->
  (forall n, n ∈ nodes_ o -> weight n <= kCoefficientMax) ->
  core_min_weight core (nodes_ o) kCoefficientMax = Some w ->
  exists (segs : list (list EncodingNode * EncodingNode))
         (tail : list EncodingNode)
         (merged grown : EncodingNode) (s1 s2 s3 : Solver) (accepted : bool),
    let new_node := set_weight grown w in
    let nodes' := segments_residual w segs tail ++ [new_node] in
    nodes_ o = segments_nodes segs tail
    /\ map (fun s => Negated (literal0 s.2)) segs = core
    /\ (forall s, s ∈ segs -> w <= weight s.2)
    /\ (exists s, s ∈ segs /\ weight s.2 = w)
    /\ LazyMergeAllNodeWithPQ (map (fun s => reduce w s.2) segs)
         (Backtrack 0 solver) = (merged, s1)
    /\ IncreaseNodeSize merged s1 = (grown, s2)
    /\ AddUnitClause (literal0 new_node) s2 = (accepted, s3)
    /\ ProcessCore core solver o =
         (if accepted then
            Some ({| nodes_ := nodes';
                     stratified_lower_bound_ := stratified_lower_bound_ o;
                     assumptions_already_added_ := false |}, s3)
          else None)
    /\ weight new_node = w
    /\ total_weight nodes'
       = total_weight (nodes_ o) - (Z.of_nat (length core) - 1) * w.
Proof.
  intros Hk Hnd Hmax Hmin.
  destruct (core_scans_agree core _ _ _ Hnd Hmin)
    as (segs & tail & Hnodes & Hcore & Hw & Hscan).
  assert (length segs = length core) as Hlen.
  { by rewrite <- Hcore, length_map. }
  pose proof (foldr_min_lower_bound kCoefficientMax
                (map (fun s => weight s.2) segs)) as [_ Hlow].
  assert (forall s, s ∈ segs -> w <= weight s.2) as Hle.
  { intros s Hs. rewrite Hw. apply Hlow, list_elem_of_fmap. by exists s. }
  assert (exists s, s ∈ segs /\ weight s.2 = w) as Hatt.
  { assert (w ∈ map (fun s => weight s.2) segs) as Hin.
    { rewrite Hw. apply foldr_min_attained.
      - destruct segs; [simpl in Hlen; lia | done].
      - intros w0 (s & -> & Hs)%list_elem_of_fmap. apply Hmax.
        rewrite Hnodes. unfold segments_nodes.
        apply elem_of_app. left. apply list_elem_of_In, in_flat_map.
        exists s. split; [by apply list_elem_of_In|].
        apply list_elem_of_In, elem_of_app. right. left. }
    apply list_elem_of_fmap in Hin as (s & Hs1 & Hs2). by exists s. }
  destruct (LazyMergeAllNodeWithPQ (map (fun s => reduce w s.2) segs)
              (Backtrack 0 solver)) as [merged s1] eqn:Hmerge.
  destruct (IncreaseNodeSize merged s1) as [grown s2] eqn:Hgrow.
  destruct (AddUnitClause (literal0 (set_weight grown w)) s2)
    as [accepted s3] eqn:Hunit.
  exists segs, tail, merged, grown, s1, s2, s3, accepted. simpl.
  repeat (split; [done|]). split; [|split; [done|]].
  - unfold ProcessCore. rewrite Hmin, Hscan.
    destruct (Nat.eqb_spec (length core) 1) as [?|_]; [lia|].
    rewrite Hmerge, Hgrow. simpl in Hunit |- *. by rewrite Hunit.
  - rewrite total_weight_app, segments_residual_total_weight by done.
    rewrite Hnodes, Hlen. unfold total_weight at 2. simpl. lia.
Qed.

Lemma ProcessCore_weight_accounting_witness :
  let o := {| nodes_ := [mkNode 0 5 1; mkNode 2 3 1; mkNode 4 3 1; mkNode 6 8 1];
              stratified_lower_bound_ := 3;
              assumptions_already_added_ := true |} in
  let core := [1; 5; 7]%N in
  let w := 3 in
  exists (segs : list (list EncodingNode * EncodingNode))
         (tail : list EncodingNode)
         (merged grown : EncodingNode) (s1 s2 s3 : list SolverCall)
         (accepted : bool),
    let new_node := set_weight grown w in
    let nodes' := segments_residual w segs tail ++ [new_node] in
    nodes_ o = segments_nodes segs tail
    /\ map (fun s => Negated (literal0 s.2)) segs = core
    /\ (forall s, s ∈ segs -> w <= weight s.2)
    /\ (exists s, s ∈ segs /\ weight s.2 = w)
    /\ LazyMergeAllNodeWithPQ (map (fun s => reduce w s.2) segs)
         (Backtrack 0 []) = (merged, s1)
    /\ IncreaseNodeSize merged s1 = (grown, s2)
    /\ AddUnitClause (literal0 new_node) s2 = (accepted, s3)
    /\ ProcessCore core [] o =
         (if accepted then
            Some ({| nodes_ := nodes';
                     stratified_lower_bound_ := stratified_lower_bound_ o;
                     assumptions_already_added_ := false |}, s3)
          else None)
    /\ weight new_node = w
    /\ total_weight nodes'
       = total_weight (nodes_ o) - (Z.of_nat (length core) - 1) * w.
Proof.
  intros o core w. apply ProcessCore_weight_accounting.
  - simpl. lia.
  - decide_by_compute.
  - intros n Hn. simpl in Hn.
    repeat (apply elem_of_cons in Hn as [->|Hn]); [..|inversion Hn];
      vm_compute; discriminate.
  - reflexivity.
Defined.

Example ProcessCore_example :
  ProcessCore [1; 5; 7]%N ([] : list SolverCall)
    {| nodes_ := [mkNode 0 5 1; mkNode 2 3 1; mkNode 4 3 1; mkNode 6 8 1];
       stratified_lower_bound_ := 3;
       assumptions_already_added_ := true |}
  = Some ({| nodes_ := [mkNode 0 2 1; mkNode 2 3 1; mkNode 6 5 1;
                        mkNode 1002 3 1];
             stratified_lower_bound_ := 3;
             assumptions_already_added_ := false |},
          [CallBacktrack 0;
           CallLazyMerge [mkNode 0 2 1; mkNode 4 3 1; mkNode 6 5 1];
           CallIncreaseNodeSize (mkNode 1002 0 0);
           CallAddUnitClause 1002%N]).
Proof. reflexivity. Qed.

(** * Variables and polarities *)

Lemma literal_decompose (l : Literal) :
  exists k : N,
    (l = 2 * k /\ LiteralVariable l = k /\ IsPositive l = true
     /\ Negated l = 2 * k + 1)%N
    \/ (l = 2 * k + 1 /\ LiteralVariable l = k /\ IsPositive l = false
        /\ Negated l = 2 * k)%N.
Proof.
  unfold LiteralVariable, IsPositive.
  rewrite N.shiftr_div_pow2, N.bit0_odd. change (2 ^ 1)%N with 2%N.
  destruct (Negated_cases l) as [k [[-> Hn]|[-> Hn]]]; exists k; [left|right].
  - assert ((2 * k) / 2 = k)%N as -> by (symmetry; apply (N.div_unique _ 2 k 0); lia).
    rewrite N.odd_mul. done.
  - assert ((2 * k + 1) / 2 = k)%N as ->
      by (symmetry; apply (N.div_unique _ 2 k 1); lia).
    rewrite N.add_comm, N.odd_add_mul_2, N.add_comm. done.
Qed.

Lemma LiteralVariable_Negated (l : Literal) :
  LiteralVariable (Negated l) = LiteralVariable l.
Proof.
  destruct (literal_decompose l) as [k [(_ & -> & _ & Hn)|(_ & -> & _ & Hn)]],
    (literal_decompose (Negated l))
      as [k' [(Hl' & -> & _ & _)|(Hl' & -> & _ & _)]]; lia.
Qed.

Lemma IsPositive_Negated (l : Literal) :
  IsPositive (Negated l) = negb (IsPositive l).
Proof.
  destruct (literal_decompose l) as [k [(_ & _ & -> & Hn)|(_ & _ & -> & Hn)]],
    (literal_decompose (Negated l))
      as [k' [(Hl' & _ & -> & _)|(Hl' & _ & -> & _)]]; simpl; try done; lia.
Qed.

Lemma literal_eq (l l' : Literal) :
  LiteralVariable l = LiteralVariable l' -> IsPositive l = IsPositive l' ->
  l = l'.
Proof.
  destruct (literal_decompose l) as [k [(-> & -> & -> & _)|(-> & -> & -> & _)]],
    (literal_decompose l') as [k' [(-> & -> & -> & _)|(-> & -> & -> & _)]];
    intros; try done; lia.
Qed.

Lemma same_variable (l l' : Literal) :
  LiteralVariable l = LiteralVariable l' -> l' = l \/ l' = Negated l.
Proof.
  intros Hv. destruct (bool_decide (IsPositive l = IsPositive l')) eqn:Hp.
  - left. symmetry. apply literal_eq; [done|]. by apply bool_decide_eq_true in Hp.
  - right. apply bool_decide_eq_false in Hp. apply literal_eq.
    + by rewrite LiteralVariable_Negated.
    + rewrite IsPositive_Negated. destruct (IsPositive l), (IsPositive l'); done.
Qed.

Lemma LiteralVariable_MakeLiteral (v : VariableIndex) (b : bool) :
  LiteralVariable (MakeLiteral v b) = v.
Proof.
  assert (LiteralVariable (N.shiftl v 1) = v) as Hpos.
  { unfold LiteralVariable. rewrite N.shiftr_shiftl_l by lia. apply N.shiftl_0_r. }
  destruct b; simpl; [done|].
  change (N.lxor (N.shiftl v 1) 1) with (Negated (N.shiftl v 1)).
  by rewrite LiteralVariable_Negated.
Qed.

Lemma IsPositive_MakeLiteral (v : VariableIndex) (b : bool) :
  IsPositive (MakeLiteral v b) = b.
Proof.
  assert (IsPositive (N.shiftl v 1) = true) as Hpos.
  { unfold IsPositive. rewrite N.shiftl_spec_low by lia. done. }
  destruct b; simpl; [done|].
  change (N.lxor (N.shiftl v 1) 1) with (Negated (N.shiftl v 1)).
  by rewrite IsPositive_Negated, Hpos.
Qed.

Lemma MakeLiteral_eta (l : Literal) :
  MakeLiteral (LiteralVariable l) (IsPositive l) = l.
Proof.
  apply literal_eq.
  - apply LiteralVariable_MakeLiteral.
  - apply IsPositive_MakeLiteral.
Qed.

(** * The postsolver *)

(** ** Assignments *)

Lemma LiteralIsTrue_spec a l :
  LiteralIsTrue a l = true <->
  values a !! LiteralVariable l = Some (IsPositive l).
Proof. unfold LiteralIsTrue. apply bool_decide_eq_true. Qed.

Lemma VariableIsAssigned_spec a v :
  VariableIsAssigned a v = true <-> is_Some (values a !! v).
Proof. unfold VariableIsAssigned. apply bool_decide_eq_true. Qed.

Lemma clause_satisfied_spec a c :
  clause_satisfied a c = true <-> exists l, l ∈ c /\ LiteralIsTrue a l = true.
Proof.
  unfold clause_satisfied. rewrite existsb_exists.
  split; intros (l & Hl & Ht); exists l; (split; [|done]);
    by apply list_elem_of_In.
Qed.


(** Forcing a literal: unassign its variable, then assign the literal. *)
Lemma force_values a x :
  values (AssignFromTrueLiteral (UnassignLiteral a x) x)
  = <[LiteralVariable x := IsPositive x]> (values a).
Proof. simpl. apply insert_delete_eq. Qed.

Lemma force_true a x :
  LiteralIsTrue (AssignFromTrueLiteral (UnassignLiteral a x) x) x = true.
Proof.
  apply LiteralIsTrue_spec. rewrite force_values. apply lookup_insert_eq.
Qed.

(** Forcing [x] keeps true every literal but the negation of [x]. *)
Lemma force_keeps_true a x l :
  LiteralIsTrue a l = true -> l <> Negated x ->
  LiteralIsTrue (AssignFromTrueLiteral (UnassignLiteral a x) x) l = true.
Proof.
  rewrite !LiteralIsTrue_spec, force_values. intros Hl Hne.
  destruct (decide (LiteralVariable x = LiteralVariable l)) as [Heq|Hvar].
  - destruct (same_variable x l Heq) as [-> | ->]; [|done].
    apply lookup_insert_eq.
  - by rewrite lookup_insert_ne.
Qed.

Lemma force_keeps_satisfied a x c :
  clause_satisfied a c = true -> Negated x ∉ c ->
  clause_satisfied (AssignFromTrueLiteral (UnassignLiteral a x) x) c = true.
Proof.
  rewrite !clause_satisfied_spec. intros (l & Hl & Ht) Hn. exists l.
  split; [done|]. apply force_keeps_true; [done|]. by intros ->.
Qed.

Lemma force_assigned a x v :
  is_Some (values a !! v) ->
  is_Some (values (AssignFromTrueLiteral (UnassignLiteral a x) x) !! v).
Proof.
  rewrite force_values. intros H.
  destruct (decide (LiteralVariable x = v)) as [->|Hne].
  - rewrite lookup_insert_eq. by eexists.
  - by rewrite lookup_insert_ne.
Qed.

(** What the first loop of [Postsolve] does. *)
Lemma assign_unassigned_loop vars :
  forall a,
    NumberOfVariables (foldl assign_if_unassigned a vars) = NumberOfVariables a
    /\ forall v, values (foldl assign_if_unassigned a vars) !! v =
         match values a !! v with
         | Some b => Some b
         | None => if bool_decide (v ∈ vars) then Some true else None
         end.
Proof.
  induction vars as [|var vars IH]; intros a; simpl.
  { split; [done|]. intros v. by destruct (values a !! v). }
  destruct (IH (assign_if_unassigned a var)) as [Hn Hv].
  split.
  { rewrite Hn. unfold assign_if_unassigned.
    by destruct (VariableIsAssigned a var). }
  intros v. rewrite Hv. clear IH Hn Hv. unfold assign_if_unassigned.
  destruct (VariableIsAssigned a var) eqn:Hvar.
  - apply VariableIsAssigned_spec in Hvar as [b Hb].
    destruct (values a !! v) eqn:Hlook; [done|].
    assert (v <> var) by congruence.
    rewrite (bool_decide_ext (v ∈ var :: vars) (v ∈ vars)); [done|].
    rewrite elem_of_cons. tauto.
  - assert (values a !! var = None) as Hnone.
    { apply eq_None_not_Some. intros Hs.
      apply VariableIsAssigned_spec in Hs. congruence. }
    unfold AssignFromTrueLiteral. cbn [values].
    rewrite LiteralVariable_MakeLiteral, IsPositive_MakeLiteral.
    destruct (decide (v = var)) as [->|Hne].
    + rewrite lookup_insert_eq, Hnone, bool_decide_eq_true_2; [done|left].
    + rewrite lookup_insert_ne by done.
      destruct (values a !! v); [done|].
      rewrite (bool_decide_ext (v ∈ var :: vars) (v ∈ vars)); [done|].
      rewrite elem_of_cons. tauto.
Qed.

Lemma assign_unassigned_NumberOfVariables a :
  NumberOfVariables (assign_unassigned a) = NumberOfVariables a.
Proof. apply (assign_unassigned_loop _ a). Qed.

Lemma assign_unassigned_assigned a v :
  (v < NumberOfVariables a)%nat ->
  is_Some (values (assign_unassigned a) !! N.of_nat v).
Proof.
  intros Hv. unfold assign_unassigned.
  destruct (assign_unassigned_loop
              (map N.of_nat (seq 0 (NumberOfVariables a))) a) as [_ H].
  rewrite H. destruct (values a !! N.of_nat v); [by eexists|].
  rewrite bool_decide_eq_true_2; [by eexists|].
  apply list_elem_of_fmap. exists v. split; [done|].
  apply list_elem_of_In, in_seq. lia.
Qed.

Lemma assign_unassigned_keeps a v b :
  values a !! v = Some b -> values (assign_unassigned a) !! v = Some b.
Proof.
  intros Hv. unfold assign_unassigned.
  destruct (assign_unassigned_loop
              (map N.of_nat (seq 0 (NumberOfVariables a))) a) as [_ H].
  by rewrite H, Hv.
Qed.

(** ** The flat log and its entries *)

Lemma entry_starts_app start (es1 es2 : list LogEntry) :
  entry_starts start (es1 ++ es2)
  = entry_starts start es1
    ++ entry_starts (start + length (concat (map snd es1))) es2.
Proof.
  revert start. induction es1 as [|e es1 IH]; intros start; simpl.
  - by rewrite Nat.add_0_r.
  - rewrite IH, length_app. do 3 f_equal. lia.
Qed.

Lemma entry_starts_length start (es : list LogEntry) :
  length (entry_starts start es) = length es.
Proof.
  revert start. induction es as [|e es IH]; intros start; simpl; [done|].
  by rewrite IH.
Qed.

Lemma Postsolve_step_entry (before : list Literal) (e : LogEntry)
    (after : list Literal) a :
  Postsolve_step (before ++ e.2 ++ after) e.1 (length before)
    (length before + length e.2) a
  = replay_entry a e.
Proof.
  unfold Postsolve_step, replay_entry, clause_satisfied.
  rewrite drop_app_length.
  replace (length before + length e.2 - length before)%nat
    with (length e.2) by lia.
  rewrite take_app_length. by destruct (existsb (LiteralIsTrue a) e.2).
Qed.

(** The loop over the flat log replays the entries from the last one to the
    first. *)
Lemma Postsolve_loop_replay (es : list LogEntry) :
  forall (after : list Literal) a,
    Postsolve_loop (concat (map snd es) ++ after)
      (rev (zip (map fst es) (entry_starts 0 es)))
      (length (concat (map snd es))) a
    = replay es a.
Proof.
  induction es as [|e es IH] using rev_ind; intros after a; [done|].
  rewrite !map_app, entry_starts_app. simpl.
  rewrite zip_with_app by (by rewrite entry_starts_length, length_map).
  rewrite concat_app, rev_app_distr. simpl.
  rewrite app_nil_r, <- app_assoc, length_app.
  rewrite Postsolve_step_entry, IH.
  unfold replay. by rewrite rev_app_distr.
Qed.

Lemma Postsolve_replay_entries p es a :
  log_is p es -> Postsolve p a = replay es (assign_unassigned a).
Proof.
  intros (Hx & Hs & Hl). unfold Postsolve. rewrite Hx, Hs, Hl.
  rewrite <- (app_nil_r (concat (map snd es))) at 1.
  apply Postsolve_loop_replay.
Qed.

(** [Add] appends one entry, mapped to the external variables. *)
Lemma Add_log_is p es x clause p' :
  log_is p es -> Add p x clause = Some p' ->
  exists x' clause',
    ApplyReverseMapping p x = Some x'
    /\ mapM (ApplyReverseMapping p) clause = Some clause'
    /\ log_is p' (es ++ [(x', clause')])
    /\ reverse_mapping_ p' = reverse_mapping_ p
    /\ assignment_ p' = assignment_ p.
Proof.
  intros (Hx & Hs & Hl) Hadd. unfold Add in Hadd.
  destruct clause as [|l clause]; [done|].
  destruct (ApplyReverseMapping p x) as [x'|]; [|done].
  destruct (mapM (ApplyReverseMapping p) (l :: clause)) as [clause'|]; [|done].
  inversion Hadd; subst p'; clear Hadd. exists x', clause'.
  split; [done|]. split; [done|]. split; [|done].
  unfold log_is. simpl. rewrite Hx, Hs, Hl, !map_app, entry_starts_app.
  simpl. rewrite concat_app. simpl. by rewrite app_nil_r.
Qed.

(** ** Replaying the log *)

Lemma replay_cons e es a : replay (e :: es) a = replay_entry (replay es a) e.
Proof. unfold replay. simpl. by rewrite foldl_app. Qed.

Lemma replay_app es1 es2 a : replay (es1 ++ es2) a = replay es1 (replay es2 a).
Proof. unfold replay. by rewrite rev_app_distr, foldl_app. Qed.

Lemma replay_entry_NumberOfVariables a e :
  NumberOfVariables (replay_entry a e) = NumberOfVariables a.
Proof. unfold replay_entry. by destruct (clause_satisfied a e.2). Qed.

Lemma replay_entry_assigned a e v :
  is_Some (values a !! v) -> is_Some (values (replay_entry a e) !! v).
Proof.
  unfold replay_entry. destruct (clause_satisfied a e.2); [done|].
  apply force_assigned.
Qed.

Lemma replay_assigned es a v :
  is_Some (values a !! v) -> is_Some (values (replay es a) !! v).
Proof.
  induction es as [|e es IH]; intros H; [done|].
  rewrite replay_cons. by apply replay_entry_assigned, IH.
Qed.

(** Once its entry is replayed, a logged clause that contains its
    associated literal is satisfied. *)
Lemma replay_entry_satisfied a (e : LogEntry) :
  e.1 ∈ e.2 -> clause_satisfied (replay_entry a e) e.2 = true.
Proof.
  intros Hin. unfold replay_entry.
  destruct (clause_satisfied a e.2) eqn:Hsat; [done|].
  apply clause_satisfied_spec. exists e.1. split; [done|]. apply force_true.
Qed.

(** A satisfied clause stays satisfied while no replayed entry forces the
    negation of one of its literals. *)
Lemma replay_keeps_satisfied es a c :
  clause_satisfied a c = true ->
  (forall e, e ∈ es -> Negated e.1 ∉ c) ->
  clause_satisfied (replay es a) c = true.
Proof.
  induction es as [|e es IH]; intros Hsat Hno; [done|].
  rewrite replay_cons. unfold replay_entry.
  assert (clause_satisfied (replay es a) c = true) as Hsat'.
  { apply IH; [done|]. intros e' He'. apply Hno. by right. }
  destruct (clause_satisfied (replay es a) e.2); [done|].
  apply force_keeps_satisfied; [done|]. apply Hno. left.
Qed.

Lemma assign_unassigned_values a (v : VariableIndex) :
  values (assign_unassigned a) !! v =
    match values a !! v with
    | Some b => Some b
    | None =>
      if bool_decide (v < N.of_nat (NumberOfVariables a))%N then Some true
      else None
    end.
Proof.
  unfold assign_unassigned.
  destruct (assign_unassigned_loop
              (map N.of_nat (seq 0 (NumberOfVariables a))) a) as [_ H].
  rewrite H. destruct (values a !! v); [done|].
  rewrite (bool_decide_ext _ (v < N.of_nat (NumberOfVariables a))%N); [done|].
  rewrite list_elem_of_fmap. split.
  - intros (n & -> & Hn%list_elem_of_In%in_seq). lia.
  - intros Hlt. exists (N.to_nat v). split; [lia|].
    apply list_elem_of_In, in_seq. lia.
Qed.

(** C7, as stated, fails: replaying the log does not by itself leave every
    logged clause satisfied.  The log is the one of the elimination of [x]
    from [{x, a}], [{not x, b}]; on the assignment [a = b = false] the
    clause [{not x, b}] is first satisfied by forcing [not x], then broken
    again when [x] is forced for [{x, a}]. *)
Lemma Postsolve_logged_clause_counterexample :
  let entries : list LogEntry := [(0, [0; 2]); (1, [1; 4])]%N in
  let a := {| NumberOfVariables := 3;
              values := {[ 1%N := false; 2%N := false ]} |} in
  exists p,
    (Add (SatPostsolver_new 3) 0 [0; 2] ≫= fun p => Add p 1 [1; 4])%N = Some p
    /\ log_is p entries
    /\ (forall e, e ∈ entries -> e.1 ∈ e.2)
    /\ ~ (forall e, e ∈ entries ->
            clause_satisfied (Postsolve p a) e.2 = true).
Proof.
  intros entries a. eexists. split; [vm_compute; reflexivity|].
  split; [by repeat split|]. split.
  - intros e He. subst entries.
    repeat (apply elem_of_cons in He as [->|He]); [..|inversion He];
      decide_by_compute.
  - intros H. specialize (H (1, [1; 4])%N ltac:(right; left)).
    vm_compute in H. discriminate.
Qed.

(** C7, amended.  [Postsolve(A)] first sets every variable unassigned in [A]
    to true, then walks the log entries [(x_i, C_i)] in reverse append
    order; for each entry, if some literal of [C_i] is already true then
    the assignment is left unchanged, otherwise [x_i] is forced to true.
    Consequently, after [Postsolve] every variable is assigned; every logged
    clause [C_i] is satisfied once its entry has been replayed, and it is
    still satisfied at the end when no entry logged before it has an
    associated literal whose negation occurs in [C_i]. *)
Theorem Postsolve_replay_rule (p : SatPostsolver) (entries : list LogEntry)
    (a : VariablesAssignment) :
  log_is p entries ->
  (forall e, e ∈ entries -> e.1 ∈ e.2) ->
  Postsolve p a = replay entries (assign_unassigned a)
  /\ (forall v : VariableIndex,
        values (assign_unassigned a) !! v =
          match values a !! v with
          | Some b => Some b
          | None =>
            if bool_decide (v < N.of_nat (NumberOfVariables a))%N
            then Some true else None
          end)
  /\ (forall before e after,
        entries = before ++ e :: after ->
        let a_e := replay after (assign_unassigned a) in
        replay (e :: after) (assign_unassigned a)
        = (if clause_satisfied a_e e.2 then a_e
           else AssignFromTrueLiteral (UnassignLiteral a_e e.1) e.1)
        /\ (clause_satisfied a_e e.2 = false ->
            LiteralIsTrue (replay (e :: after) (assign_unassigned a)) e.1
            = true)
        /\ clause_satisfied (replay (e :: after) (assign_unassigned a)) e.2
           = true
        /\ ((forall e', e' ∈ before -> Negated e'.1 ∉ e.2) ->
            clause_satisfied (Postsolve p a) e.2 = true))
  /\ (forall v : nat,
        (v < NumberOfVariables a)%nat ->
        VariableIsAssigned (Postsolve p a) (N.of_nat v) = true).
Proof.
  intros Hlog Hin. pose proof (Postsolve_replay_entries p entries a Hlog) as Hp.
  split; [done|]. split; [apply assign_unassigned_values|]. split.
  - intros before e after Hsplit a_e.
    assert (e.1 ∈ e.2) as He.
    { apply Hin. rewrite Hsplit. apply elem_of_app. right. left. }
    rewrite replay_cons. fold a_e. split; [done|]. split; [|split].
    + intros Hsat. unfold replay_entry. rewrite Hsat. apply force_true.
    + by apply replay_entry_satisfied.
    + intros Hno. rewrite Hp, Hsplit, replay_app.
      apply replay_keeps_satisfied; [|done].
      rewrite replay_cons. by apply replay_entry_satisfied.
  - intros v Hv. apply VariableIsAssigned_spec. rewrite Hp.
    by apply replay_assigned, assign_unassigned_assigned.
Qed.

Lemma Postsolve_replay_rule_witness :
  let entries : list LogEntry := [(0, [0; 2]); (1, [1; 4])]%N in
  let p := {| reverse_mapping_ := [0; 1; 2];
              associated_literal_ := [0; 1]%N;
              clauses_start_ := [0; 2]%nat;
              clauses_literals_ := [0; 2; 1; 4]%N;
              assignment_ := empty_assignment 3 |} in
  let a := {| NumberOfVariables := 3;
              values := {[ 1%N := true; 2%N := false ]} |} in
  Postsolve p a = replay entries (assign_unassigned a)
  /\ (forall v : VariableIndex,
        values (assign_unassigned a) !! v =
          match values a !! v with
          | Some b => Some b
          | None =>
            if bool_decide (v < N.of_nat (NumberOfVariables a))%N
            then Some true else None
          end)
  /\ (forall before e after,
        entries = before ++ e :: after ->
        let a_e := replay after (assign_unassigned a) in
        replay (e :: after) (assign_unassigned a)
        = (if clause_satisfied a_e e.2 then a_e
           else AssignFromTrueLiteral (UnassignLiteral a_e e.1) e.1)
        /\ (clause_satisfied a_e e.2 = false ->
            LiteralIsTrue (replay (e :: after) (assign_unassigned a)) e.1
            = true)
        /\ clause_satisfied (replay (e :: after) (assign_unassigned a)) e.2
           = true
        /\ ((forall e', e' ∈ before -> Negated e'.1 ∉ e.2) ->
            clause_satisfied (Postsolve p a) e.2 = true))
  /\ (forall v : nat,
        (v < NumberOfVariables a)%nat ->
        VariableIsAssigned (Postsolve p a) (N.of_nat v) = true).
Proof.
  intros entries p a. apply Postsolve_replay_rule.
  - by repeat split.
  - intros e He. subst entries.
    repeat (apply elem_of_cons in He as [->|He]); [..|inversion He];
      decide_by_compute.
Defined.

Example Postsolve_example :
  values (Postsolve
            {| reverse_mapping_ := [0; 1; 2];
               associated_literal_ := [0; 1]%N;
               clauses_start_ := [0; 2]%nat;
               clauses_literals_ := [0; 2; 1; 4]%N;
               assignment_ := empty_assignment 3 |}
            {| NumberOfVariables := 3;
               values := {[ 1%N := true; 2%N := false ]} |})
  = {[ 0%N := false; 1%N := true; 2%N := false ]}.
Proof. vm_compute. reflexivity. Qed.

(** * Equivalent-literal probing *)

Lemma union_by_size_mirror_symmetric : mirror_symmetric union_by_size.
Proof.
  intros r1 s1 r2 s2 Hvar. unfold keep_first, union_by_size. do 3 f_equal.
  destruct (literal_decompose r1) as [k1 [(? & Hv1 & _ & ?)|(? & Hv1 & _ & ?)]],
    (literal_decompose r2) as [k2 [(? & Hv2 & _ & ?)|(? & Hv2 & _ & ?)]];
    rewrite Hv1, Hv2 in Hvar;
    destruct (N.ltb_spec (Negated r2) (Negated r1)), (N.ltb_spec r2 r1);
    try done; lia.
Qed.

Lemma MergePartsOf_same_root `{MergePolicy} p node1 node2 :
  root_of p node1 = root_of p node2 -> MergePartsOf p node1 node2 = p.
Proof. intros Heq. unfold MergePartsOf. by rewrite Heq, N.eqb_refl. Qed.

Lemma MergePartsOf_other_root `{MergePolicy} p node1 node2 :
  root_of p node1 <> root_of p node2 ->
  MergePartsOf p node1 node2 =
    let root1 := root_of p node1 in
    let root2 := root_of p node2 in
    let s1 := part_size_ p root1 in
    let s2 := part_size_ p root2 in
    let kept := if keep_first root1 s1 root2 s2 then root1 else root2 in
    let dropped := if keep_first root1 s1 root2 s2 then root2 else root1 in
    {| root_of := fun n =>
         if (root_of p n =? dropped)%N then kept else root_of p n;
       part_size_ := fun r =>
         if (r =? kept)%N then (s1 + s2)%nat else part_size_ p r |}.
Proof.
  intros Hne. unfold MergePartsOf. by rewrite (proj2 (N.eqb_neq _ _) Hne).
Qed.

(** Two nodes of the same part stay in the same part. *)
Lemma MergePartsOf_same_part `{MergePolicy} p node1 node2 a b :
  root_of p a = root_of p b ->
  root_of (MergePartsOf p node1 node2) a
  = root_of (MergePartsOf p node1 node2) b.
Proof.
  intros Hab. unfold MergePartsOf.
  destruct (root_of p node1 =? root_of p node2)%N; simpl; by rewrite Hab.
Qed.

Lemma merge_component_same_part `{MergePolicy} representative component :
  forall p a b,
    root_of p a = root_of p b ->
    root_of (merge_component representative component p) a
    = root_of (merge_component representative component p) b.
Proof.
  induction component as [|l component IH]; intros p a b Hab; [done|].
  simpl. by apply IH, MergePartsOf_same_part, MergePartsOf_same_part.
Qed.

Lemma different_variable (l l' : Literal) :
  l' <> l -> l' <> Negated l -> LiteralVariable l <> LiteralVariable l'.
Proof. intros H1 H2 Hv. by destruct (same_variable l l' Hv). Qed.

(** Merging [l] into the part of [r], then the negation of [l] into the part
    of the negation of [r], keeps the partition mirrored, unless it puts [r]
    and its negation in the same part. *)
Lemma merge_pair_mirrored `{policy : MergePolicy} p r l :
  mirror_symmetric policy ->
  partition_wf p -> partition_mirrored p ->
  let p' := MergePartsOf (MergePartsOf p r l) (Negated r) (Negated l) in
  (partition_wf p' /\ partition_mirrored p')
  \/ root_of p' r = root_of p' (Negated r).
Proof.
  intros Hpolicy Hwf [Hroot Hsize] p'.
  destruct (decide (root_of p r = root_of p l)) as [Hsame|Hdiff].
  { left. subst p'. rewrite (MergePartsOf_same_root p r l) by done.
    rewrite MergePartsOf_same_root; [done|]. by rewrite !Hroot, Hsame. }
  destruct (decide (root_of p l = Negated (root_of p r))) as [Hmirror|Hnm].
  { right. subst p'. apply MergePartsOf_same_part.
    rewrite MergePartsOf_other_root by done.
    simpl. rewrite Hroot, <- Hmirror.
    destruct (keep_first _ _ _ _); rewrite !N.eqb_refl;
      by repeat destruct (_ =? _)%N. }
  left.
  set (r1 := root_of p r) in *. set (r2 := root_of p l) in *.
  assert (LiteralVariable r1 <> LiteralVariable r2) as Hvar.
  { apply different_variable; congruence. }
  assert (root_of p r1 = r1 /\ root_of p r2 = r2) as [Hr1 Hr2].
  { split; apply Hwf. }
  assert (Negated r1 <> r1 /\ Negated r2 <> r2) as [Hn1 Hn2].
  { split; apply Negated_neq. }
  assert (Negated r1 <> r2 /\ Negated r2 <> r1) as [Hn12 Hn21].
  { split; [congruence|]. intros Heq. apply Hnm. rewrite <- Heq.
    symmetry. apply Negated_involutive. }
  assert (Negated r1 <> Negated r2) as Hnn.
  { intros Heq%Negated_inj. done. }
  subst p'. rewrite (MergePartsOf_other_root p r l) by done.
  cbv zeta. fold r1 r2.
  set (s1 := part_size_ p r1). set (s2 := part_size_ p r2).
  set (kept := if keep_first r1 s1 r2 s2 then r1 else r2).
  set (dropped := if keep_first r1 s1 r2 s2 then r2 else r1).
  set (p1 := {| root_of := _; part_size_ := _ |}).
  assert (root_of p1 (Negated r) = Negated r1
          /\ root_of p1 (Negated l) = Negated r2) as [Hp1r Hp1l].
  { subst p1 dropped. simpl. rewrite !Hroot. fold r1 r2.
    destruct (keep_first r1 s1 r2 s2);
      split; by rewrite (proj2 (N.eqb_neq _ _)). }
  assert (part_size_ p1 (Negated r1) = s1
          /\ part_size_ p1 (Negated r2) = s2) as [Hs1 Hs2].
  { subst p1 kept s1 s2. simpl. rewrite !Hsize.
    destruct (keep_first r1 _ r2 _);
      split; by rewrite (proj2 (N.eqb_neq _ _)). }
  rewrite MergePartsOf_other_root by (by rewrite Hp1r, Hp1l).
  cbv zeta. rewrite Hp1r, Hp1l, Hs1, Hs2.
  rewrite (Hpolicy r1 s1 r2 s2 Hvar).
  assert ((if keep_first r1 s1 r2 s2 then Negated r1 else Negated r2)
          = Negated kept) as -> by (subst kept; by destruct (keep_first _ _ _ _)).
  assert ((if keep_first r1 s1 r2 s2 then Negated r2 else Negated r1)
          = Negated dropped) as ->
    by (subst dropped; by destruct (keep_first _ _ _ _)).
  assert ((kept = r1 /\ dropped = r2) \/ (kept = r2 /\ dropped = r1))
    as Hkd by (subst kept dropped; destruct (keep_first _ _ _ _); tauto).
  assert (kept <> dropped /\ kept <> Negated dropped
          /\ Negated kept <> dropped /\ Negated kept <> kept
          /\ Negated dropped <> dropped /\ Negated kept <> Negated dropped
          /\ root_of p kept = kept /\ root_of p dropped = dropped)
    as (K1 & K2 & K3 & K4 & K5 & K6 & K7 & K8).
  { destruct Hkd as [[-> ->]|[-> ->]]; repeat split; congruence. }
  clearbody kept dropped s1 s2. subst p1. simpl.
  assert (forall n,
            (if ((if (root_of p n =? dropped)%N then kept else root_of p n)
                 =? Negated dropped)%N
             then Negated kept
             else if (root_of p n =? dropped)%N then kept else root_of p n)
            = if (root_of p n =? dropped)%N then kept
              else if (root_of p n =? Negated dropped)%N then Negated kept
              else root_of p n) as Hshape.
  { intros n. destruct (N.eqb_spec (root_of p n) dropped) as [_|?].
    - by rewrite (proj2 (N.eqb_neq _ _)).
    - done. }
  split; [|split].
  - intros n. simpl. rewrite !Hshape.
    destruct (N.eqb_spec (root_of p n) dropped) as [Hd|Hd].
    { rewrite K7, (proj2 (N.eqb_neq _ _) K1).
      by rewrite (proj2 (N.eqb_neq _ _) K2). }
    destruct (N.eqb_spec (root_of p n) (Negated dropped)) as [Hnd|Hnd].
    { rewrite Hroot, K7, (proj2 (N.eqb_neq _ _) K3).
      by rewrite (proj2 (N.eqb_neq _ _) K6). }
    rewrite Hwf, (proj2 (N.eqb_neq _ _) Hd).
    by rewrite (proj2 (N.eqb_neq _ _) Hnd).
  - intros n. simpl. rewrite !Hshape, Hroot.
    destruct (N.eqb_spec (root_of p n) dropped) as [Hd|Hd].
    { rewrite Hd, (proj2 (N.eqb_neq _ _) K5), N.eqb_refl. done. }
    destruct (N.eqb_spec (root_of p n) (Negated dropped)) as [Hnd|Hnd].
    { rewrite Hnd, Negated_involutive, N.eqb_refl.
      by rewrite Negated_involutive. }
    destruct (N.eqb_spec (Negated (root_of p n)) dropped) as [Heq|_].
    { exfalso. apply Hnd. rewrite <- Heq. symmetry.
      apply Negated_involutive. }
    destruct (N.eqb_spec (Negated (root_of p n)) (Negated dropped))
      as [Heq%Negated_inj|_]; done.
  - intros n. simpl.
    destruct (N.eqb_spec (Negated n) (Negated kept)) as [Heq%Negated_inj|Hne].
    { subst n. rewrite (proj2 (N.eqb_neq _ _) (not_eq_sym K4)).
      by rewrite N.eqb_refl. }
    destruct (N.eqb_spec (Negated n) kept) as [Heq|Hne'].
    { assert (n = Negated kept) as ->
        by (rewrite <- Heq; symmetry; apply Negated_involutive).
      by rewrite N.eqb_refl. }
    destruct (N.eqb_spec n (Negated kept)) as [->|_].
    { exfalso. apply Hne'. apply Negated_involutive. }
    destruct (N.eqb_spec n kept) as [->|_]; [done|]. apply Hsize.
Qed.

Lemma merge_component_mirrored `{policy : MergePolicy} representative
    component :
  mirror_symmetric policy ->
  forall p,
    partition_wf p -> partition_mirrored p ->
    let p' := merge_component representative component p in
    (partition_wf p' /\ partition_mirrored p')
    \/ root_of p' representative = root_of p' (Negated representative).
Proof.
  intros Hpolicy. induction component as [|l component IH]; intros p Hwf Hm.
  { by left. }
  simpl.
  destruct (merge_pair_mirrored p representative l Hpolicy Hwf Hm)
    as [[Hwf' Hm']|Hdoomed].
  - by apply IH.
  - right. by apply merge_component_same_part.
Qed.

(** The [CHECK_EQ] on the representative of each component is enough: when
    the loop goes through, the whole partition is mirrored. *)
Lemma merge_components_mirrored `{policy : MergePolicy} scc :
  mirror_symmetric policy ->
  forall p p',
    partition_wf p -> partition_mirrored p ->
    merge_components scc p = Some p' ->
    partition_wf p' /\ partition_mirrored p'.
Proof.
  intros Hpolicy. induction scc as [|component scc IH]; intros p p' Hwf Hm Hrun.
  { inversion Hrun. by subst. }
  simpl in Hrun. destruct component as [|representative [|l others]];
    [by apply (IH p)..|].
  unfold GetRootAndCompressPath in Hrun.
  destruct (N.eqb_spec
              (root_of (merge_component representative (l :: others) p)
                 representative)
              (Negated (root_of (merge_component representative (l :: others) p)
                          (Negated representative)))) as [Hcheck|_]; [|done].
  destruct (merge_component_mirrored representative (l :: others) Hpolicy
              p Hwf Hm) as [[Hwf' Hm']|Hdoomed].
  - by apply (IH _ _ Hwf' Hm').
  - exfalso. rewrite <- Hdoomed in Hcheck. symmetry in Hcheck.
    by apply Negated_neq in Hcheck.
Qed.

Lemma MergingPartition_new_mirrored :
  partition_wf MergingPartition_new /\ partition_mirrored MergingPartition_new.
Proof. by repeat split. Qed.

(** C8. Probing equivalence invariant: once [ProbeAndFindEquivalentLiteral]
    has built the merging partition, the representative of every literal
    and the representative of its negation are complementary, and the
    emitted mapping sends complementary literals to complementary
    representatives.  (The union policy of the partition is assumed to be
    mirror symmetric, as union by size is.) *)
Theorem probing_representatives_complementary `{policy : MergePolicy}
    (size : nat) (scc : list (list Literal)) (p : MergingPartition) :
  mirror_symmetric policy ->
  merge_components scc MergingPartition_new = Some p ->
  (forall l : Literal,
     GetRootAndCompressPath p (Negated l)
     = Negated (GetRootAndCompressPath p l))
  /\ (exists mapping, equivalence_mapping size scc = Some mapping)
  /\ (forall mapping (l : Literal),
        equivalence_mapping size scc = Some mapping ->
        (N.to_nat l < length mapping)%nat ->
        (N.to_nat (Negated l) < length mapping)%nat ->
        exists rep : Literal,
          mapping !! N.to_nat l = Some (Index rep)
          /\ mapping !! N.to_nat (Negated l) = Some (Index (Negated rep))).
Proof.
  intros Hpolicy Hrun.
  destruct (merge_components_mirrored scc Hpolicy _ _
              (proj1 MergingPartition_new_mirrored)
              (proj2 MergingPartition_new_mirrored) Hrun) as [_ [Hroot _]].
  split; [done|]. unfold equivalence_mapping. rewrite Hrun.
  split; [destruct (existsb _ scc); by eexists|].
  intros mapping l Hmap Hl Hnl.
  destruct (existsb _ scc); inversion Hmap; subst mapping; clear Hmap;
    [|simpl in Hl; lia].
  rewrite length_map, length_seq in Hl, Hnl.
  exists (root_of p l). unfold GetRootAndCompressPath.
  rewrite !list_lookup_fmap, !lookup_seq_lt by done. simpl.
  by rewrite !N2Nat.id, Hroot.
Qed.

Lemma probing_representatives_complementary_witness :
  exists p,
    merge_components (H := union_by_size) [[2; 0]; [4]; [1; 3; 6]]%N
      MergingPartition_new = Some p
    /\ (forall l : Literal,
          GetRootAndCompressPath p (Negated l)
          = Negated (GetRootAndCompressPath p l))
    /\ (exists mapping,
          equivalence_mapping (H := union_by_size) 8
            [[2; 0]; [4]; [1; 3; 6]]%N = Some mapping)
    /\ (forall mapping (l : Literal),
          equivalence_mapping (H := union_by_size) 8
            [[2; 0]; [4]; [1; 3; 6]]%N = Some mapping ->
          (N.to_nat l < length mapping)%nat ->
          (N.to_nat (Negated l) < length mapping)%nat ->
          exists rep : Literal,
            mapping !! N.to_nat l = Some (Index rep)
            /\ mapping !! N.to_nat (Negated l) = Some (Index (Negated rep))).
Proof.
  eexists. split; [vm_compute; reflexivity|].
  apply (probing_representatives_complementary (policy := union_by_size)).
  - apply union_by_size_mirror_symmetric.
  - vm_compute. reflexivity.
Defined.

Example equivalence_mapping_example :
  equivalence_mapping (H := union_by_size) 8 [[2; 0]; [4]; [1; 3; 6]]%N
  = Some [0; 1; 0; 1; 4; 5; 1; 0]
  /\ equivalence_mapping (H := union_by_size) 4 [[0; 1]]%N = None
  /\ equivalence_mapping (H := union_by_size) 4 [[0]; [1]; [2]; [3]]%N
     = Some [].
Proof. repeat split; reflexivity. Qed.

(** * The presolver *)

(** ** What the elementary operations leave unchanged *)

Lemma UpdatePriorityQueue_frame s var :
  clauses_ (UpdatePriorityQueue s var) = clauses_ s
  /\ literal_to_clauses_ (UpdatePriorityQueue s var) = literal_to_clauses_ s
  /\ literal_to_clause_sizes_ (UpdatePriorityQueue s var)
     = literal_to_clause_sizes_ s
  /\ postsolver_ (UpdatePriorityQueue s var) = postsolver_ s.
Proof. unfold UpdatePriorityQueue. by destruct (var_pq_elements_ s). Qed.

Lemma forget_occurrence_frame s e :
  clauses_ (forget_occurrence s e) = clauses_ s
  /\ literal_to_clauses_ (forget_occurrence s e) = literal_to_clauses_ s
  /\ postsolver_ (forget_occurrence s e) = postsolver_ s.
Proof.
  unfold forget_occurrence.
  destruct (UpdatePriorityQueue_frame
              (set_literal_to_clause_sizes s
                 (alter (fun n => n - 1) (N.to_nat e)
                    (literal_to_clause_sizes_ s)))
              (LiteralVariable e)) as (-> & -> & _ & ->).
  done.
Qed.

Lemma forget_occurrences_frame c :
  forall s,
    clauses_ (foldl forget_occurrence s c) = clauses_ s
    /\ literal_to_clauses_ (foldl forget_occurrence s c)
       = literal_to_clauses_ s
    /\ postsolver_ (foldl forget_occurrence s c) = postsolver_ s.
Proof.
  induction c as [|e c IH]; intros s; [done|]. simpl.
  destruct (IH (forget_occurrence s e)) as (-> & -> & ->).
  apply forget_occurrence_frame.
Qed.

(** [RemoveAndRegisterForPostsolve] empties the clause, appends one entry to
    the log and leaves the occurrence lists alone. *)
Lemma RemoveAndRegisterForPostsolve_spec s ci x s' :
  RemoveAndRegisterForPostsolve s ci x = Some s' ->
  clauses_ s' = <[ci := []]> (clauses_ s)
  /\ literal_to_clauses_ s' = literal_to_clauses_ s
  /\ Add (postsolver_ s) x (clause_at s ci) = Some (postsolver_ s').
Proof.
  unfold RemoveAndRegisterForPostsolve. intros H.
  destruct (forget_occurrences_frame (clause_at s ci) s) as (Hc & Hl & Hp).
  rewrite Hp in H.
  destruct (Add (postsolver_ s) x (clause_at s ci)) as [p|]; [|done].
  inversion H; subst s'; clear H. simpl. by rewrite Hc, Hl.
Qed.

Lemma Add_log_length p x clause p' :
  Add p x clause = Some p' ->
  length (associated_literal_ p') = S (length (associated_literal_ p)).
Proof.
  unfold Add. intros H. destruct clause; [done|].
  destruct (ApplyReverseMapping p x); [|done].
  destruct (mapM _ _); [|done]. inversion H. simpl.
  rewrite length_app. simpl. lia.
Qed.

Lemma clause_at_insert s ci c i (s' : SatPresolver) :
  clauses_ s' = <[ci := c]> (clauses_ s) ->
  clause_at s' i = if decide (ci = i /\ (ci < length (clauses_ s))%nat)
                   then c else clause_at s i.
Proof.
  intros H. unfold clause_at. rewrite H. apply list_lookup_total_insert.
Qed.

Lemma clause_at_out_of_range s i :
  (length (clauses_ s) <= i)%nat -> clause_at s i = [].
Proof.
  intros H. unfold clause_at. rewrite list_lookup_total_alt.
  by rewrite lookup_ge_None_2.
Qed.

Lemma clause_at_cleared s ci i (s' : SatPresolver) :
  clauses_ s' = <[ci := []]> (clauses_ s) ->
  clause_at s' i = if decide (ci = i) then [] else clause_at s i.
Proof.
  intros H. rewrite (clause_at_insert s ci [] i s' H).
  destruct (decide (ci = i)) as [->|Hne].
  - destruct (decide (i < length (clauses_ s))%nat).
    + by rewrite decide_True.
    + rewrite decide_False by tauto. apply clause_at_out_of_range. lia.
  - by rewrite decide_False by tauto.
Qed.

Lemma occurrences_same s s' l :
  literal_to_clauses_ s' = literal_to_clauses_ s ->
  occurrences s' l = occurrences s l.
Proof. unfold occurrences. by intros ->. Qed.

(** ** The test loop of [CrossProduct] *)

Lemma resolvent_sizes_false s x clause_i js threshold size :
  (resolvent_sizes s x clause_i js threshold false size).1.2 = false.
Proof.
  revert size. induction js as [|j js IH]; intros size; simpl; [done|].
  destruct (is_empty_clause (clause_at s j)); [apply IH|].
  destruct (ComputeResolvantSize x clause_i (clause_at s j) >=? 0); [|apply IH].
  destruct (_ >? threshold); [done | apply IH].
Qed.

(** The inner loop ends with [no_resolvant] only if every resolvent is
    trivially true. *)
Lemma resolvent_sizes_no_resolvant s x clause_i js threshold :
  forall no_resolvant size,
    (resolvent_sizes s x clause_i js threshold no_resolvant size).1.2 = true ->
    forall j, j ∈ js -> clause_at s j <> [] ->
      ComputeResolvantSize x clause_i (clause_at s j) < 0.
Proof.
  induction js as [|j0 js IH]; intros nr size Hres j Hj Hlive.
  { inversion Hj. }
  simpl in Hres. destruct (clause_at s j0) as [|l0 c0] eqn:Hc0; simpl in Hres.
  { apply elem_of_cons in Hj as [->|Hj]; [done|]. by eapply IH. }
  rewrite <- Hc0 in Hres.
  destruct (Z.geb_spec (ComputeResolvantSize x clause_i (clause_at s j0)) 0)
    as [Hge|Hlt].
  - exfalso. destruct (_ >? threshold); [done|].
    by rewrite resolvent_sizes_false in Hres.
  - apply elem_of_cons in Hj as [->|Hj]; [lia|]. by eapply IH.
Qed.

Lemma is_empty_clause_false c : is_empty_clause c = false <-> c <> [].
Proof. by destruct c. Qed.

Lemma is_empty_clause_true c : is_empty_clause c = true <-> c = [].
Proof. by destruct c. Qed.

(** Whether it runs to the end or stops on the budget, the test loop only
    removes blocked clauses. *)
Lemma eliminate_blocked_removals x threshold ids :
  forall s size exceeded size' s',
    (forall i, i ∈ ids -> i ∈ occurrences s x) ->
    eliminate_blocked s x ids threshold size = Some (exceeded, size', s') ->
    blocked_removals x s s'.
Proof.
  induction ids as [|i ids IH]; intros s size exceeded size' s' Hids Hrun.
  { inversion Hrun. constructor. }
  simpl in Hrun.
  assert (forall i', i' ∈ ids -> i' ∈ occurrences s x) as Hids'.
  { intros i' Hi'. apply Hids. by right. }
  destruct (is_empty_clause (clause_at s i)) eqn:Hempty.
  { by eapply IH. }
  apply is_empty_clause_false in Hempty.
  destruct (resolvent_sizes s x (clause_at s i) (occurrences s (Negated x))
              threshold true size) as [[ex nr] sz] eqn:Hsizes.
  destruct ex.
  { inversion Hrun. constructor. }
  destruct nr; [|by eapply IH].
  destruct (RemoveAndRegisterForPostsolve s i x) as [s1|] eqn:Hrem; [|done].
  apply (blocked_removals_step x s i s1 s'); try done.
  - apply Hids. left.
  - intros j Hj Hlive.
    eapply (resolvent_sizes_no_resolvant s x _ _ threshold true size);
      [by rewrite Hsizes|done..].
  - eapply IH; [|done]. intros i' Hi'.
    apply RemoveAndRegisterForPostsolve_spec in Hrem as (_ & Hocc & _).
    rewrite (occurrences_same s s1) by done. by apply Hids'.
Qed.

(** ** Deleted clauses and the length of the log *)

Lemma only_deletes_refl s : only_deletes s s.
Proof. repeat split; [lia..|]. intros i _. by left. Qed.

Lemma only_deletes_trans s1 s2 s3 :
  only_deletes s1 s2 -> only_deletes s2 s3 -> only_deletes s1 s3.
Proof.
  intros (L1 & N1 & C1) (L2 & N2 & C2). split; [lia|]. split; [lia|].
  intros i Hi. destruct (C1 i Hi) as [E1|[E1 G1]], (C2 i ltac:(lia))
    as [E2|[E2 G2]].
  - left. congruence.
  - right. split; [done|lia].
  - right. split; [congruence|lia].
  - right. split; [done|lia].
Qed.

Lemma only_deletes_same s s' :
  clauses_ s' = clauses_ s -> postsolver_ s' = postsolver_ s ->
  only_deletes s s'.
Proof.
  intros Hc Hp. unfold only_deletes, log_length, clause_at. rewrite Hc, Hp.
  repeat split; [lia..|]. intros i _. by left.
Qed.

Lemma RemoveAndRegisterForPostsolve_only_deletes s ci x s' :
  RemoveAndRegisterForPostsolve s ci x = Some s' ->
  only_deletes s s' /\ (log_length s < log_length s')%nat.
Proof.
  intros (Hc & _ & Hadd%Add_log_length)%RemoveAndRegisterForPostsolve_spec.
  assert (log_length s < log_length s')%nat as Hlog.
  { unfold log_length. lia. }
  split; [|done]. split; [lia|]. split.
  { rewrite Hc, length_insert. lia. }
  intros i _. rewrite (clause_at_cleared s ci i s' Hc).
  destruct (decide (ci = i)); [by right | by left].
Qed.


(** ** Adding the resolvents *)

Lemma add_occurrence_frame ci s e :
  clauses_ (add_occurrence ci s e) = clauses_ s
  /\ postsolver_ (add_occurrence ci s e) = postsolver_ s
  /\ forall l i, i ∈ occurrences s l -> i ∈ occurrences (add_occurrence ci s e) l.
Proof.
  split; [done|]. split; [done|]. intros l i Hi.
  unfold occurrences, add_occurrence. simpl.
  rewrite list_lookup_total_alter.
  destruct (decide _) as [[-> _]|_]; [|done].
  apply elem_of_app. by left.
Qed.

Lemma add_occurrences_frame ci c :
  forall s,
    clauses_ (foldl (add_occurrence ci) s c) = clauses_ s
    /\ postsolver_ (foldl (add_occurrence ci) s c) = postsolver_ s
    /\ forall l i, i ∈ occurrences s l ->
         i ∈ occurrences (foldl (add_occurrence ci) s c) l.
Proof.
  induction c as [|e c IH]; intros s; [done|]. simpl.
  destruct (IH (add_occurrence ci s e)) as (-> & -> & Hocc).
  destruct (add_occurrence_frame ci s e) as (-> & -> & Hocc').
  split; [done|]. split; [done|]. intros l i Hi. by apply Hocc, Hocc'.
Qed.

Lemma AddClauseInternal_spec s clause s' :
  AddClauseInternal s clause = Some s' ->
  clauses_ s' = clauses_ s ++ [clause]
  /\ postsolver_ s' = postsolver_ s
  /\ forall l i, i ∈ occurrences s l -> i ∈ occurrences s' l.
Proof.
  unfold AddClauseInternal. intros H. destruct clause as [|l0 c]; [done|].
  injection H as <-.
  set (s1 := set_clause_queue _ _ _).
  destruct (add_occurrences_frame (length (clauses_ s)) (l0 :: c) s1)
    as (Hc & Hp & Hocc).
  cbn [foldl] in *. rewrite Hc, Hp. split; [done|]. split; [done|].
  intros l i Hi. by apply Hocc.
Qed.




(** ** Deleting the clauses of an occurrence list *)

Lemma RemoveAndRegisterForPostsolve_stays_deleted s ci x s' i :
  RemoveAndRegisterForPostsolve s ci x = Some s' ->
  clause_at s i = [] -> clause_at s' i = [].
Proof.
  intros (Hc & _ & _)%RemoveAndRegisterForPostsolve_spec Hi.
  rewrite (clause_at_cleared s ci i s' Hc). by destruct (decide (ci = i)).
Qed.

Lemma remove_and_register_all_spec x ids :
  forall s s',
    remove_and_register_all s x ids = Some s' ->
    only_deletes s s'
    /\ literal_to_clauses_ s' = literal_to_clauses_ s
    /\ (forall i, i ∈ ids -> clause_at s' i = [])
    /\ (forall i, clause_at s i = [] -> clause_at s' i = []).
Proof.
  induction ids as [|i0 ids IH]; intros s s' Hrun; simpl in Hrun.
  { inversion Hrun; subst. split; [apply only_deletes_refl|].
    split; [done|]. split; [|done]. intros i Hi. inversion Hi. }
  destruct (is_empty_clause (clause_at s i0)) eqn:Hempty.
  - apply is_empty_clause_true in Hempty.
    destruct (IH _ _ Hrun) as (Hd & Hocc & Hids & Hstay).
    split; [done|]. split; [done|]. split; [|done].
    intros i [->|Hi]%elem_of_cons; [by apply Hstay | by apply Hids].
  - destruct (RemoveAndRegisterForPostsolve s i0 x) as [s1|] eqn:Hrem; [|done].
    destruct (IH _ _ Hrun) as (Hd & Hocc & Hids & Hstay).
    destruct (RemoveAndRegisterForPostsolve_only_deletes _ _ _ _ Hrem)
      as [Hd1 _].
    pose proof (RemoveAndRegisterForPostsolve_spec _ _ _ _ Hrem)
      as (Hc1 & Hocc1 & _).
    split; [by eapply only_deletes_trans|]. split; [congruence|]. split.
    + intros i [->|Hi]%elem_of_cons; [|by apply Hids].
      apply Hstay. rewrite (clause_at_cleared s i0 i0 s1 Hc1).
      by rewrite decide_True.
    + intros i Hi. apply Hstay.
      by eapply RemoveAndRegisterForPostsolve_stays_deleted.
Qed.

Lemma lookup_total_insert_nil {A} (l : list (list A)) (i : nat) :
  <[i := []]> l !!! i = [].
Proof.
  rewrite list_lookup_total_insert. destruct (decide _) as [_|Hn]; [done|].
  rewrite list_lookup_total_alt, lookup_ge_None_2; [done|].
  destruct (decide (i < length l)%nat); [tauto | lia].
Qed.

Lemma RemoveAndRegisterForPostsolveAllClauseContaining_spec s x s' :
  RemoveAndRegisterForPostsolveAllClauseContaining s x = Some s' ->
  only_deletes s s'
  /\ occurrences s' x = []
  /\ (forall l, l <> x -> occurrences s' l = occurrences s l)
  /\ (forall i, i ∈ occurrences s x -> clause_at s' i = [])
  /\ (forall i, clause_at s i = [] -> clause_at s' i = []).
Proof.
  unfold RemoveAndRegisterForPostsolveAllClauseContaining. intros H.
  destruct (remove_and_register_all s x (occurrences s x)) as [s1|] eqn:Hrun;
    [|done].
  injection H as <-.
  destruct (remove_and_register_all_spec _ _ _ _ Hrun)
    as (Hd & Hocc & Hids & Hstay).
  split; [|split; [|split; [|split]]].
  - eapply only_deletes_trans; [done|]. by apply only_deletes_same.
  - unfold occurrences. simpl. apply lookup_total_insert_nil.
  - intros l Hl. unfold occurrences. simpl.
    rewrite list_lookup_total_insert_ne by lia. by rewrite Hocc.
  - done.
  - done.
Qed.

(** ** [CrossProduct] *)


Lemma live_occurrence_exists s l :
  live_occurrences s l <> 0 ->
  exists i, i ∈ occurrences s l /\ clause_at s i <> []
            /\ (i < length (clauses_ s))%nat.
Proof.
  unfold live_occurrences. intros Hlive.
  destruct (filter (fun i => clause_at s i <> []) (occurrences s l))
    as [|i rest] eqn:Hfilter; [done|].
  assert (i ∈ filter (fun i => clause_at s i <> []) (occurrences s l))
    as [Hne Hin]%list_elem_of_filter by (rewrite Hfilter; left).
  exists i. split; [done|]. split; [done|].
  destruct (decide (i < length (clauses_ s))%nat); [done|].
  exfalso. apply Hne, clause_at_out_of_range. lia.
Qed.











(** A pure literal: its only clause is blocked, the variable is eliminated
    and [CrossProduct] returns true. *)
Example CrossProduct_pure_literal_example :
  (presolver_of_clauses (SatPostsolver_new 2) 500 3 [[0; 2]]%N
     ≫= fun s => CrossProduct s 0%N
     ≫= fun '(r, s') =>
          Some (r, clauses_ s', associated_literal_ (postsolver_ s'),
                clauses_literals_ (postsolver_ s')))
  = Some (true, [[]]%N, [0]%N, [0; 2]%N).
Proof. vm_compute. reflexivity. Qed.

Example CrossProduct_example :
  (presolver_of_clauses (SatPostsolver_new 3) 500 3 [[0; 2]; [1; 4]]%N
     ≫= fun s => CrossProduct s 0%N
     ≫= fun '(r, s') =>
          Some (r, clauses_ s', associated_literal_ (postsolver_ s'),
                clauses_start_ (postsolver_ s'),
                clauses_literals_ (postsolver_ s')))
  = Some (true, [[]; []; [2; 4]]%N, [0; 1]%N, [0; 2]%nat, [0; 2; 1; 4]%N).
Proof. vm_compute. reflexivity. Qed.

(** * Postsolve soundness *)

(** ** The log of a postsolver without mapping *)

Lemma ApplyReverseMapping_identity n p l l' :
  identity_mapping n p ->
  ApplyReverseMapping p l = Some l' ->
  l' = l /\ (LiteralVariable l < N.of_nat n)%N.
Proof.
  unfold identity_mapping, ApplyReverseMapping. intros -> H.
  rewrite list_lookup_fmap in H.
  destruct (seq 0 n !! N.to_nat (LiteralVariable l)) as [v|] eqn:Hv;
    simpl in H; [|done].
  apply lookup_seq in Hv as [-> Hlt]. simpl in H.
  destruct (Z.eqb_spec (Z.of_nat (N.to_nat (LiteralVariable l))) (-1));
    [lia|].
  injection H as <-. split; [|lia].
  replace (Z.to_N (Z.of_nat (N.to_nat (LiteralVariable l))))
    with (LiteralVariable l) by lia.
  apply MakeLiteral_eta.
Qed.

Lemma mapM_ApplyReverseMapping_identity n p c c' :
  identity_mapping n p ->
  mapM (ApplyReverseMapping p) c = Some c' ->
  c' = c /\ forall l, l ∈ c -> (LiteralVariable l < N.of_nat n)%N.
Proof.
  intros Hid H. apply mapM_Some in H.
  induction H as [|l l' c c' Hl _ [IH1 IH2]].
  { split; [done|]. intros l Hl. inversion Hl. }
  destruct (ApplyReverseMapping_identity n p l l' Hid Hl) as [-> Hlt].
  subst c'. split; [done|].
  intros l0 [->|Hl0]%elem_of_cons; [done | by apply IH2].
Qed.

(** With the identity mapping, [Add] logs the entry as it is, and only
    accepts literals over the [n] variables. *)
Lemma Add_identity n p es x clause p' :
  identity_mapping n p -> log_is p es -> Add p x clause = Some p' ->
  identity_mapping n p'
  /\ log_is p' (es ++ [(x, clause)])
  /\ forall l, l ∈ clause -> (LiteralVariable l < N.of_nat n)%N.
Proof.
  intros Hid Hlog Hadd.
  destruct (Add_log_is p es x clause p' Hlog Hadd)
    as (x' & clause' & Hx & Hc & Hlog' & Hmap & _).
  apply (ApplyReverseMapping_identity n) in Hx as [-> _]; [|done].
  apply (mapM_ApplyReverseMapping_identity n) in Hc as [-> Hrange]; [|done].
  split; [|done]. unfold identity_mapping. by rewrite Hmap.
Qed.

(** ** Removing one clause *)

Lemma clause_unsatisfied_spec m c :
  clause_satisfied m c = false <-> forall l, l ∈ c -> LiteralIsTrue m l = false.
Proof.
  split.
  - intros Hc l Hl. destruct (LiteralIsTrue m l) eqn:Ht; [|done].
    assert (clause_satisfied m c = true) as Hs; [|congruence].
    apply clause_satisfied_spec. by exists l.
  - intros Hall. destruct (clause_satisfied m c) eqn:Hs; [|done].
    apply clause_satisfied_spec in Hs as (l & Hl & Ht).
    rewrite (Hall l Hl) in Ht. done.
Qed.

Lemma false_literal_negation_true m l :
  is_Some (values m !! LiteralVariable l) ->
  LiteralIsTrue m l = false -> LiteralIsTrue m (Negated l) = true.
Proof.
  intros [b Hb] Hfalse. apply bool_decide_eq_false in Hfalse.
  apply LiteralIsTrue_spec.
  rewrite LiteralVariable_Negated, IsPositive_Negated, Hb. f_equal.
  rewrite Hb in Hfalse. destruct b, (IsPositive l); simpl; congruence.
Qed.

(** The reconstruction step for one removed clause: when its entry is
    replayed, the clause is satisfied again and no other clause is broken. *)
Lemma removal_reconstructs n s ci x s' :
  RemoveAndRegisterForPostsolve s ci x = Some s' ->
  identity_mapping n (postsolver_ s) ->
  x ∈ clause_at s ci -> removable s ci x ->
  reconstructs n s s' [(x, clause_at s ci)].
Proof.
  intros Hrem Hid Hx Hremovable m Htotal Hsat.
  pose proof (RemoveAndRegisterForPostsolve_spec _ _ _ _ Hrem)
    as (Hclauses & _ & Hadd).
  assert (forall l, l ∈ clause_at s ci -> (LiteralVariable l < N.of_nat n)%N)
    as Hrange.
  { destruct (Add (postsolver_ s) x (clause_at s ci)) as [p|] eqn:Hp; [|done].
    unfold Add in Hp. destruct (clause_at s ci) as [|l0 c0]; [done|].
    destruct (ApplyReverseMapping (postsolver_ s) x); [|done].
    destruct (mapM _ (l0 :: c0)) as [c'|] eqn:Hm; [|done].
    by apply (mapM_ApplyReverseMapping_identity n) in Hm as [_ ?]. }
  assert (forall j, j <> ci -> clause_at s j <> [] ->
            clause_satisfied m (clause_at s j) = true) as Hothers.
  { intros j Hj Hlive. specialize (Hsat j).
    rewrite (clause_at_cleared s ci j s' Hclauses) in Hsat.
    rewrite decide_False in Hsat by done. by apply Hsat. }
  change (replay [(x, clause_at s ci)] m)
    with (replay_entry m (x, clause_at s ci)).
  split.
  { intros v Hv. by apply replay_entry_assigned, Htotal. }
  intros j Hlive. unfold replay_entry. simpl.
  destruct (clause_satisfied m (clause_at s ci)) eqn:Hc.
  { destruct (decide (j = ci)) as [->|Hj]; [done | by apply Hothers]. }
  destruct (decide (j = ci)) as [->|Hj].
  { apply clause_satisfied_spec. exists x. split; [done | apply force_true]. }
  destruct (decide (Negated x ∈ clause_at s j)) as [Hneg|Hneg].
  2:{ apply force_keeps_satisfied; [by apply Hothers | done]. }
  pose proof (proj1 (clause_unsatisfied_spec _ _) Hc) as Hfalse.
  apply clause_satisfied_spec.
  destruct (Hremovable j Hj Hneg) as [(l & Hl & Hnl & Hlx)|(k & Hk & Hklive & Hres)].
  - exists (Negated l). split; [done|]. apply force_keeps_true.
    + apply false_literal_negation_true; [|by apply Hfalse].
      by apply Htotal, Hrange.
    + intros Heq%Negated_inj. done.
  - specialize (Hothers k Hk Hklive).
    apply clause_satisfied_spec in Hothers as (l & Hl & Ht).
    destruct (Hres l Hl) as [[Hlc _]|[Hlj Hlx]].
    + rewrite (Hfalse l Hlc) in Ht. done.
    + exists l. split; [done|]. by apply force_keeps_true.
Qed.

Lemma reconstructs_refl n s : reconstructs n s s [].
Proof. by intros m Ht Hs. Qed.

Lemma reconstructs_trans n s1 s2 s3 new1 new2 :
  reconstructs n s1 s2 new1 -> reconstructs n s2 s3 new2 ->
  reconstructs n s1 s3 (new1 ++ new2).
Proof.
  intros H12 H23 m Ht Hs. rewrite replay_app.
  destruct (H23 m Ht Hs) as [Ht2 Hs2]. by apply H12.
Qed.

(** ** The invariants under deletion *)

Lemma canonical_nil : canonical [] = true.
Proof. done. Qed.

(** Deleting a clause keeps the invariants of the database. *)
Lemma presolver_inv_delete n s ci s' :
  presolver_inv n s ->
  clauses_ s' = <[ci := []]> (clauses_ s) ->
  literal_to_clauses_ s' = literal_to_clauses_ s ->
  identity_mapping n (postsolver_ s') ->
  presolver_inv n s'.
Proof.
  intros [Hcan Hcomp Hacc Hnd Hrange _] Hc Hocc Hid.
  assert (forall j, clause_at s' j = if decide (ci = j) then []
                                     else clause_at s j) as Hat.
  { intros j. by apply clause_at_cleared. }
  assert (forall l, occurrences s' l = occurrences s l) as Hoccs.
  { intros l. by apply occurrences_same. }
  split; [| | | | |done].
  - intros j. rewrite Hat. destruct (decide (ci = j)); [done | apply Hcan].
  - intros j l. rewrite Hat, Hoccs. destruct (decide (ci = j)).
    + intros H. inversion H.
    + apply Hcomp.
  - intros l j. rewrite Hat, Hoccs. destruct (decide (ci = j)); [by left|].
    apply Hacc.
  - intros l. rewrite Hoccs. apply Hnd.
  - intros l j. rewrite Hoccs, Hc, length_insert. apply Hrange.
Qed.

Lemma RemoveAndRegisterForPostsolve_inv n s ci x s' es :
  presolver_inv n s -> log_is (postsolver_ s) es ->
  RemoveAndRegisterForPostsolve s ci x = Some s' ->
  presolver_inv n s'
  /\ log_is (postsolver_ s') (es ++ [(x, clause_at s ci)]).
Proof.
  intros Hinv Hlog Hrem.
  pose proof (RemoveAndRegisterForPostsolve_spec _ _ _ _ Hrem)
    as (Hc & Hocc & Hadd).
  destruct (Add_identity n _ es _ _ _ (inv_mapping _ _ Hinv) Hlog Hadd)
    as (Hid & Hlog' & _).
  split; [|done]. by eapply presolver_inv_delete.
Qed.

Lemma Remove_spec s ci :
  clauses_ (Remove s ci) = <[ci := []]> (clauses_ s)
  /\ literal_to_clauses_ (Remove s ci) = literal_to_clauses_ s
  /\ postsolver_ (Remove s ci) = postsolver_ s.
Proof.
  unfold Remove.
  destruct (forget_occurrences_frame (clause_at s ci) s) as (Hc & Hl & Hp).
  simpl. by rewrite Hc, Hl, Hp.
Qed.

Lemma Remove_inv n s ci :
  presolver_inv n s -> presolver_inv n (Remove s ci).
Proof.
  intros Hinv. destruct (Remove_spec s ci) as (Hc & Hl & Hp).
  eapply presolver_inv_delete; [done..|].
  unfold identity_mapping. rewrite Hp. apply (inv_mapping _ _ Hinv).
Qed.

(** ** Blocked clauses *)

Lemma clash_decidable x (a b : list Literal) : clash x a b \/ ~ clash x a b.
Proof.
  destruct (decide (Exists (fun l => Negated l ∈ b /\ l <> x) a)) as [H|H].
  - left. apply Exists_exists in H as (l & Hl & Hn & Hx). by exists l.
  - right. intros (l & Hl & Hn & Hx). apply H, Exists_exists. by exists l.
Qed.

Lemma filter_length_lt {A} (P : A -> Prop) `{forall x, Decision (P x)}
    (l : list A) (x : A) :
  x ∈ l -> ~ P x -> (length (filter P l) < length l)%nat.
Proof.
  induction l as [|y l IH]; intros Hx Hp; [inversion Hx|].
  rewrite filter_cons. pose proof (length_filter P l) as Hle.
  apply elem_of_cons in Hx as [->|Hx].
  - rewrite decide_False by done. simpl. lia.
  - specialize (IH Hx Hp). destruct (decide (P y)); simpl; lia.
Qed.

(** A negative resolvent size means a trivially true resolvent. *)
Lemma ComputeResolvantSize_negative x (a b : list Literal) :
  canonical a = true -> canonical b = true ->
  x ∈ a -> Negated x ∈ b ->
  ComputeResolvantSize x a b < 0 -> clash x a b.
Proof.
  intros [Hsa Hca]%canonical_spec [Hsb Hcb]%canonical_spec Hxa Hxb Hneg.
  destruct (clash_decidable x a b) as [?|Hno]; [done|]. exfalso.
  destruct (ComputeResolvantSize_loop_spec x a b
              (Z.of_nat (length a) + Z.of_nat (length b) - 2)
              Hsa Hsb Hca Hcb) as [_ Hsize].
  unfold ComputeResolvantSize in Hneg. rewrite (Hsize Hno) in Hneg.
  assert (length (filter (fun l => l ∈ b) a) < length a)%nat.
  { apply (filter_length_lt _ a x); [done|]. intros Hin. by apply (Hcb x). }
  assert (0 < length b)%nat by (destruct b; [inversion Hxb | simpl; lia]).
  lia.
Qed.

Lemma sound_step_refl n s : sound_step n s s.
Proof.
  intros es Hinv Hlog. split; [done|]. exists [].
  rewrite app_nil_r. split; [done | apply reconstructs_refl].
Qed.

Lemma sound_step_trans n s1 s2 s3 :
  sound_step n s1 s2 -> sound_step n s2 s3 -> sound_step n s1 s3.
Proof.
  intros H12 H23 es Hinv Hlog.
  destruct (H12 es Hinv Hlog) as (Hinv2 & new1 & Hlog2 & Hrec1).
  destruct (H23 _ Hinv2 Hlog2) as (Hinv3 & new2 & Hlog3 & Hrec2).
  split; [done|]. exists (new1 ++ new2). rewrite app_assoc.
  split; [done|]. by eapply reconstructs_trans.
Qed.

Lemma RemoveAndRegisterForPostsolve_sound n s ci x s' :
  RemoveAndRegisterForPostsolve s ci x = Some s' ->
  x ∈ clause_at s ci -> removable s ci x ->
  sound_step n s s'.
Proof.
  intros Hrem Hx Hremovable es Hinv Hlog.
  destruct (RemoveAndRegisterForPostsolve_inv n s ci x s' es Hinv Hlog Hrem)
    as [Hinv' Hlog'].
  split; [done|]. exists [(x, clause_at s ci)]. split; [done|].
  eapply removal_reconstructs; [done| |done..]. apply (inv_mapping _ _ Hinv).
Qed.

Lemma live_clause_in_range s ci :
  clause_at s ci <> [] -> (ci < length (clauses_ s))%nat.
Proof.
  intros Hne. destruct (decide (ci < length (clauses_ s))%nat); [done|].
  destruct Hne. apply clause_at_out_of_range. lia.
Qed.

Lemma elem_of_clause_live s ci (l : Literal) :
  l ∈ clause_at s ci -> clause_at s ci <> [].
Proof. intros Hl Hnil. rewrite Hnil in Hl. inversion Hl. Qed.

Lemma blocked_removable n s x i :
  presolver_inv n s -> i ∈ occurrences s x -> clause_at s i <> [] ->
  blocked s x i ->
  x ∈ clause_at s i /\ removable s i x.
Proof.
  intros Hinv Hi Hne Hblocked.
  assert (x ∈ clause_at s i) as Hx.
  { by destruct (inv_accurate _ _ Hinv x i Hi). }
  split; [done|]. intros j _ Hn. left.
  apply ComputeResolvantSize_negative;
    [apply (inv_canonical _ _ Hinv)..|done|done|].
  apply Hblocked.
  - by apply (inv_complete _ _ Hinv).
  - by eapply elem_of_clause_live.
Qed.

Lemma blocked_removals_sound n x s s' :
  blocked_removals x s s' -> sound_step n s s'.
Proof.
  induction 1 as [s|s i s1 s' Hi Hne Hblocked Hrem _ IH].
  - apply sound_step_refl.
  - eapply sound_step_trans; [|exact IH].
    intros es Hinv Hlog.
    destruct (blocked_removable n s x i Hinv Hi Hne Hblocked).
    by eapply RemoveAndRegisterForPostsolve_sound.
Qed.

(** ** The invariants under addition *)

Lemma occurrences_add_occurrence ci s e l :
  (N.to_nat e < length (literal_to_clauses_ s))%nat ->
  occurrences (add_occurrence ci s e) l
  = if decide (l = e) then occurrences s l ++ [ci] else occurrences s l.
Proof.
  intros Hrange. unfold occurrences, add_occurrence. simpl.
  rewrite list_lookup_total_alter.
  destruct (decide (l = e)) as [->|Hne].
  - by rewrite decide_True.
  - rewrite decide_False; [done|]. intros [Heq _]. apply Hne. lia.
Qed.

Lemma add_occurrence_length ci s e :
  length (literal_to_clauses_ (add_occurrence ci s e))
  = length (literal_to_clauses_ s).
Proof. unfold add_occurrence. simpl. apply length_alter. Qed.

Lemma occurrences_add_occurrences ci c :
  forall s, NoDup c ->
    (forall l, l ∈ c -> (N.to_nat l < length (literal_to_clauses_ s))%nat) ->
    forall l, occurrences (foldl (add_occurrence ci) s c) l
              = if decide (l ∈ c) then occurrences s l ++ [ci]
                else occurrences s l.
Proof.
  induction c as [|e c IH]; intros s Hnd Hrange l.
  { cbn [foldl]. destruct (decide (l ∈ [])) as [H|_]; [inversion H | done]. }
  apply NoDup_cons in Hnd as [Hnotin Hnd]. cbn [foldl].
  rewrite IH; [|done|].
  2:{ intros l' Hl'. rewrite add_occurrence_length. apply Hrange.
      by apply elem_of_cons; right. }
  rewrite !occurrences_add_occurrence
    by (apply Hrange; apply elem_of_cons; by left).
  destruct (decide (l = e)) as [->|Hne].
  - rewrite (decide_False (P := e ∈ c)) by done.
    rewrite decide_True; [done|]. apply elem_of_cons. by left.
  - destruct (decide (l ∈ c)) as [Hin|Hnin].
    + rewrite decide_True; [done|]. apply elem_of_cons. by right.
    + rewrite decide_False; [done|]. intros [?|?]%elem_of_cons; done.
Qed.

Lemma clause_at_snoc s c i (s' : SatPresolver) :
  clauses_ s' = clauses_ s ++ [c] ->
  clause_at s' i
  = if decide (i < length (clauses_ s))%nat then clause_at s i
    else if decide (i = length (clauses_ s)) then c else [].
Proof.
  intros Hc. unfold clause_at. rewrite Hc.
  destruct (decide (i < length (clauses_ s))%nat).
  - by apply lookup_total_app_l.
  - destruct (decide (i = length (clauses_ s))) as [->|].
    + by apply list_lookup_total_middle.
    + rewrite lookup_total_app_r by lia.
      destruct (i - length (clauses_ s))%nat as [|k] eqn:Hk; [lia|].
      done.
Qed.

Lemma occurrences_in_literal_range s l ci :
  ci ∈ occurrences s l -> (N.to_nat l < length (literal_to_clauses_ s))%nat.
Proof.
  intros Hci.
  destruct (decide (N.to_nat l < length (literal_to_clauses_ s))%nat);
    [done|].
  unfold occurrences in Hci.
  rewrite list_lookup_total_alt, lookup_ge_None_2 in Hci by lia.
  inversion Hci.
Qed.

Lemma AddClauseInternal_unfold s c s' :
  AddClauseInternal s c = Some s' ->
  s' = foldl (add_occurrence (length (clauses_ s)))
         (set_clause_queue (set_clauses s (clauses_ s ++ [c]))
            (in_clause_to_process_ s ++ [true])
            (clause_to_process_ s ++ [length (clauses_ s)])) c.
Proof.
  unfold AddClauseInternal. destruct c; [done|]. intros [= <-]. reflexivity.
Qed.

Lemma AddClauseInternal_inv n s c s' :
  presolver_inv n s -> canonical c = true ->
  (forall l, l ∈ c -> (N.to_nat l < length (literal_to_clauses_ s))%nat) ->
  AddClauseInternal s c = Some s' ->
  presolver_inv n s'
  /\ clauses_ s' = clauses_ s ++ [c]
  /\ postsolver_ s' = postsolver_ s
  /\ forall l, occurrences s' l
       = if decide (l ∈ c) then occurrences s l ++ [length (clauses_ s)]
         else occurrences s l.
Proof.
  intros [Hcan Hcomp Hacc Hnd Hrange Hid] Hc Hlits Hadd.
  pose proof (AddClauseInternal_spec _ _ _ Hadd) as (Hcl & Hp & _).
  assert (forall l, occurrences s' l
       = if decide (l ∈ c) then occurrences s l ++ [length (clauses_ s)]
         else occurrences s l) as Hocc.
  { intros l. rewrite (AddClauseInternal_unfold _ _ _ Hadd).
    apply canonical_spec in Hc as [Hs _].
    rewrite occurrences_add_occurrences; [done| |done].
    by apply is_sorted_NoDup. }
  split; [|done].
  pose proof (clause_at_snoc s c) as Hat.
  split.
  - intros j. rewrite (Hat j s' Hcl). repeat case_decide; [apply Hcan|done..].
  - intros j l. rewrite (Hat j s' Hcl), Hocc. repeat case_decide;
      intros Hl; try (by inversion Hl); try done.
    + apply elem_of_app. left. by apply Hcomp.
    + by apply Hcomp.
    + subst j. apply elem_of_app. right. by apply list_elem_of_singleton.
  - intros l j. rewrite (Hat j s' Hcl), Hocc.
    destruct (decide (l ∈ c)) as [Hl|Hl].
    + intros [Hj|Hj%list_elem_of_singleton]%elem_of_app.
      * rewrite decide_True by (by eapply Hrange). by apply Hacc.
      * subst j. rewrite decide_False by lia. rewrite decide_True by done.
        by right.
    + intros Hj. rewrite decide_True by (by eapply Hrange). by apply Hacc.
  - intros l. rewrite Hocc. destruct (decide (l ∈ c)); [|apply Hnd].
    apply NoDup_app. split; [apply Hnd|]. split; [|apply NoDup_singleton].
    intros j Hj ->%list_elem_of_singleton. apply Hrange in Hj. lia.
  - intros l j. rewrite Hocc, Hcl, length_app. simpl.
    destruct (decide (l ∈ c)).
    + intros [Hj|Hj%list_elem_of_singleton]%elem_of_app.
      * apply Hrange in Hj. lia.
      * lia.
    + intros Hj. apply Hrange in Hj. lia.
  - unfold identity_mapping. by rewrite Hp.
Qed.

(** ** Resolution *)

Lemma resolvents_added_refl x s : resolvents_added x s s.
Proof.
  repeat split; try done.
  - rewrite clause_at_out_of_range by done. intros Hx. inversion Hx.
  - rewrite clause_at_out_of_range by done. intros Hx. inversion Hx.
Qed.

Lemma resolvents_added_trans x s1 s2 s3 :
  resolvents_added x s1 s2 -> resolvents_added x s2 s3 ->
  resolvents_added x s1 s3.
Proof.
  intros (Hp1 & Hlen1 & Hold1 & Hnew1 & Hx1 & Hn1)
         (Hp2 & Hlen2 & Hold2 & Hnew2 & Hx2 & Hn2).
  split; [congruence|]. split; [lia|]. split; [|split; [|split]].
  - intros k Hk. rewrite Hold2 by lia. by apply Hold1.
  - intros k Hk. destruct (decide (k < length (clauses_ s2))%nat).
    + rewrite Hold2 by done. by apply Hnew1.
    + apply Hnew2. lia.
  - congruence.
  - congruence.
Qed.

(** The resolvent of two clauses of the database, when it is not trivially
    true, can be added to the database. *)
Lemma resolvent_facts n s x i j :
  presolver_inv n s ->
  x ∈ clause_at s i -> Negated x ∈ clause_at s j ->
  (clash x (clause_at s i) (clause_at s j)
   /\ (ComputeResolvant x (clause_at s i) (clause_at s j)).1 = false)
  \/ exists out,
       ComputeResolvant x (clause_at s i) (clause_at s j) = (true, out)
       /\ canonical out = true
       /\ (forall l, l ∈ out <->
             (l ∈ clause_at s i /\ l <> x)
             \/ (l ∈ clause_at s j /\ l <> Negated x))
       /\ (forall l, l ∈ out ->
             (N.to_nat l < length (literal_to_clauses_ s))%nat).
Proof.
  intros Hinv Hx Hn.
  pose proof (inv_canonical _ _ Hinv i) as [Hsa Hca]%canonical_spec.
  pose proof (inv_canonical _ _ Hinv j) as [Hsb Hcb]%canonical_spec.
  destruct (ComputeResolvant_spec x (clause_at s i) (clause_at s j)
              Hsa Hsb Hca Hcb) as [Hclash Hnoclash].
  { by apply Hca. }
  { intros Hxb. apply (Hcb _ Hxb Hn). }
  { done. }
  destruct (clash_decidable x (clause_at s i) (clause_at s j)) as [Hc|Hc].
  { left. split; [done | by apply Hclash]. }
  right. destruct (Hnoclash Hc) as (out & Hout & Hsorted & Hmem).
  exists out. split; [done|]. split; [|split; [done|]].
  - apply canonical_spec. split; [done|].
    intros l [[Hl Hlx]|[Hl Hlx]]%Hmem [[Hnl Hnlx]|[Hnl Hnlx]]%Hmem.
    + by apply (Hca l).
    + apply Hc. by exists l.
    + apply Hc. exists (Negated l). by rewrite Negated_involutive.
    + by apply (Hcb l).
  - intros l [[Hl _]|[Hl _]]%Hmem;
      eapply occurrences_in_literal_range, (inv_complete _ _ Hinv), Hl.
Qed.

Lemma resolvent_without_pivot x (a b out : list Literal) :
  complement_free a -> complement_free b ->
  x ∈ a -> Negated x ∈ b ->
  (forall l, l ∈ out <-> (l ∈ a /\ l <> x) \/ (l ∈ b /\ l <> Negated x)) ->
  (x ∉ out) /\ (Negated x ∉ out).
Proof.
  intros Hca Hcb Hx Hn Hmem. split.
  - intros [[_ ?]|[Hxb _]]%Hmem; [done|]. apply (Hcb _ Hxb Hn).
  - intros [[Hna _]|[_ ?]]%Hmem; [|done]. apply (Hca _ Hx Hna).
Qed.

Lemma add_resolvents_of_sound n x i js :
  forall s s',
    presolver_inv n s -> x ∈ clause_at s i ->
    (forall j, j ∈ js -> j ∈ occurrences s (Negated x)) ->
    add_resolvents_of s x i js = Some s' ->
    presolver_inv n s' /\ resolvents_added x s s'
    /\ forall j, j ∈ js -> clause_at s j <> [] ->
         clash x (clause_at s i) (clause_at s j)
         \/ exists k, clause_at s' k <> [] /\ (x ∉ clause_at s' k)
              /\ forall l, l ∈ clause_at s' k ->
                   (l ∈ clause_at s i /\ l <> x)
                   \/ (l ∈ clause_at s j /\ l <> Negated x).
Proof.
  induction js as [|j js IH]; intros s s' Hinv Hx Hjs Hrun.
  { injection Hrun as <-. split; [done|].
    split; [apply resolvents_added_refl|]. intros j Hj. inversion Hj. }
  cbn [add_resolvents_of] in Hrun.
  assert (forall j', j' ∈ js -> j' ∈ occurrences s (Negated x)) as Hjs'.
  { intros j' Hj'. apply Hjs, elem_of_cons. by right. }
  destruct (is_empty_clause (clause_at s j)) eqn:Hempty.
  { apply is_empty_clause_true in Hempty.
    destruct (IH s s' Hinv Hx Hjs' Hrun) as (Hinv' & Hadded & Hpairs).
    split; [done|]. split; [done|].
    intros j' [->|Hj']%elem_of_cons Hlive; [done | by apply Hpairs]. }
  apply is_empty_clause_false in Hempty.
  assert (Negated x ∈ clause_at s j) as Hn.
  { destruct (inv_accurate _ _ Hinv (Negated x) j); [|done..].
    apply Hjs, elem_of_cons. by left. }
  destruct (resolvent_facts n s x i j Hinv Hx Hn)
    as [[Hclash Hfalse]|(out & Hout & Hcanon & Hmem & Hrange)].
  { destruct (ComputeResolvant x (clause_at s i) (clause_at s j))
      as [[|] temp]; [done|].
    destruct (IH s s' Hinv Hx Hjs' Hrun) as (Hinv' & Hadded & Hpairs).
    split; [done|]. split; [done|].
    intros j' [->|Hj']%elem_of_cons Hlive; [by left | by apply Hpairs]. }
  rewrite Hout in Hrun.
  destruct (AddClauseInternal s out) as [s1|] eqn:Hadd; [|done].
  destruct (AddClauseInternal_inv n s out s1 Hinv Hcanon Hrange Hadd)
    as (Hinv1 & Hcl1 & Hp1 & Hocc1).
  pose proof (inv_canonical _ _ Hinv i) as [_ Hca]%canonical_spec.
  pose proof (inv_canonical _ _ Hinv j) as [_ Hcb]%canonical_spec.
  destruct (resolvent_without_pivot x _ _ out Hca Hcb Hx Hn Hmem)
    as [Hxout Hnout].
  assert (out <> []) as Hne by (intros ->; done).
  assert (resolvents_added x s s1) as Hadded1.
  { split; [done|]. split; [rewrite Hcl1, length_app; lia|].
    split; [|split; [|split]].
    - intros k Hk. rewrite (clause_at_snoc s out k s1 Hcl1).
      by rewrite decide_True.
    - intros k Hk. rewrite (clause_at_snoc s out k s1 Hcl1).
      rewrite decide_False by lia.
      destruct (decide _); [done|]. split; intros H; inversion H.
    - rewrite Hocc1. by rewrite decide_False.
    - rewrite Hocc1. by rewrite decide_False. }
  destruct Hadded1 as (Hp & Hlen & Hold & Hnew & Hox & Hon).
  assert (clause_at s1 i = clause_at s i) as Hi1.
  { apply Hold, live_clause_in_range. by eapply elem_of_clause_live. }
  destruct (IH s1 s') as (Hinv' & Hadded' & Hpairs); [done| | |done|].
  { by rewrite Hi1. }
  { intros j' Hj'. rewrite Hon. by apply Hjs'. }
  split; [done|].
  split; [by eapply resolvents_added_trans|].
  destruct Hadded' as (Hp' & Hlen' & Hold' & Hnew' & Hox' & Hon').
  intros j' [->|Hj']%elem_of_cons Hlive.
  - right. exists (length (clauses_ s)).
    assert (clause_at s' (length (clauses_ s)) = out) as ->.
    { rewrite Hold' by (rewrite Hcl1, length_app; simpl; lia).
      rewrite (clause_at_snoc s out _ s1 Hcl1).
      rewrite decide_False by lia. by rewrite decide_True. }
    split; [done|]. split; [done|]. intros l Hl. by apply Hmem.
  - assert (clause_at s1 j' = clause_at s j') as Hj1.
    { by apply Hold, live_clause_in_range. }
    specialize (Hpairs j' Hj'). rewrite Hi1, Hj1 in Hpairs.
    by apply Hpairs.
Qed.

Lemma add_resolvents_sound n x ids :
  forall s s',
    presolver_inv n s ->
    (forall i, i ∈ ids -> i ∈ occurrences s x) ->
    add_resolvents s x ids = Some s' ->
    presolver_inv n s' /\ resolvents_added x s s'
    /\ forall i j, i ∈ ids -> j ∈ occurrences s (Negated x) ->
         clause_at s i <> [] -> clause_at s j <> [] ->
         clash x (clause_at s i) (clause_at s j)
         \/ exists k, clause_at s' k <> [] /\ (x ∉ clause_at s' k)
              /\ forall l, l ∈ clause_at s' k ->
                   (l ∈ clause_at s i /\ l <> x)
                   \/ (l ∈ clause_at s j /\ l <> Negated x).
Proof.
  induction ids as [|i ids IH]; intros s s' Hinv Hids Hrun.
  { injection Hrun as <-. split; [done|].
    split; [apply resolvents_added_refl|]. intros i j Hi. inversion Hi. }
  cbn [add_resolvents] in Hrun.
  assert (forall i', i' ∈ ids -> i' ∈ occurrences s x) as Hids'.
  { intros i' Hi'. apply Hids, elem_of_cons. by right. }
  destruct (is_empty_clause (clause_at s i)) eqn:Hempty.
  { apply is_empty_clause_true in Hempty.
    destruct (IH s s' Hinv Hids' Hrun) as (Hinv' & Hadded & Hpairs).
    split; [done|]. split; [done|].
    intros i' j [->|Hi']%elem_of_cons Hj Hlive; [done | by apply Hpairs]. }
  apply is_empty_clause_false in Hempty.
  assert (x ∈ clause_at s i) as Hx.
  { destruct (inv_accurate _ _ Hinv x i); [|done..].
    apply Hids, elem_of_cons. by left. }
  destruct (add_resolvents_of s x i (occurrences s (Negated x)))
    as [s1|] eqn:Hinner; [|done].
  destruct (add_resolvents_of_sound n x i _ s s1 Hinv Hx (fun j H => H) Hinner)
    as (Hinv1 & Hadded1 & Hpairs1).
  pose proof Hadded1 as (Hp & Hlen & Hold & Hnew & Hox & Hon).
  destruct (IH s1 s') as (Hinv' & Hadded' & Hpairs); [done| |done|].
  { intros i' Hi'. rewrite Hox. by apply Hids'. }
  split; [done|].
  split; [by eapply resolvents_added_trans|].
  destruct Hadded' as (Hp' & Hlen' & Hold' & Hnew' & Hox' & Hon').
  intros i' j [->|Hi']%elem_of_cons Hj Hlivei Hlivej.
  - destruct (Hpairs1 j Hj Hlivej) as [?|(k & Hk & Hxk & Hmem)]; [by left|].
    right. exists k.
    by rewrite Hold' by (by apply live_clause_in_range).
  - specialize (Hpairs i' j Hi').
    rewrite !Hold, Hon in Hpairs by (by apply live_clause_in_range).
    by apply Hpairs.
Qed.

(** After the resolvents on [x] have been added, every pair of clauses to
    resolve on [x] has its resolvent in the database. *)
Lemma add_resolvents_resolved n x s s' :
  presolver_inv n s ->
  add_resolvents s x (occurrences s x) = Some s' ->
  presolver_inv n s' /\ postsolver_ s' = postsolver_ s
  /\ resolved s' x /\ reconstructs n s s' [].
Proof.
  intros Hinv Hrun.
  destruct (add_resolvents_sound n x _ s s' Hinv (fun i H => H) Hrun)
    as (Hinv' & (Hp & Hlen & Hold & Hnew & Hox & Hon) & Hpairs).
  split; [done|]. split; [done|]. split.
  - intros i j Hi Hj.
    assert (i < length (clauses_ s))%nat as Hri.
    { destruct (decide (i < length (clauses_ s))%nat); [done|].
      destruct (Hnew i); [lia|done]. }
    assert (j < length (clauses_ s))%nat as Hrj.
    { destruct (decide (j < length (clauses_ s))%nat); [done|].
      destruct (Hnew j); [lia|done]. }
    rewrite (Hold i Hri), (Hold j Hrj) in *.
    apply Hpairs.
    + by apply (inv_complete _ _ Hinv).
    + by apply (inv_complete _ _ Hinv).
    + by eapply elem_of_clause_live.
    + by eapply elem_of_clause_live.
  - intros m Htotal Hsat. split; [done|]. intros ci Hlive.
    rewrite <- Hold by (by apply live_clause_in_range).
    apply Hsat. by rewrite Hold by (by apply live_clause_in_range).
Qed.

(** ** Removing the clauses of an eliminated literal *)

Lemma resolved_removable s i x :
  resolved s x -> x ∈ clause_at s i -> removable s i x.
Proof.
  intros Hres Hx j Hj Hn.
  destruct (Hres i j Hx Hn) as [?|(k & Hk & Hxk & Hmem)]; [by left|].
  right. exists k. split; [|done]. intros ->. done.
Qed.

Lemma resolved_delete s s' i0 x :
  resolved s x -> x ∈ clause_at s i0 ->
  clauses_ s' = <[i0 := []]> (clauses_ s) ->
  resolved s' x.
Proof.
  intros Hres Hx Hc i j.
  rewrite !(clause_at_cleared s i0 _ s' Hc).
  destruct (decide (i0 = i)); [intros H; inversion H|].
  destruct (decide (i0 = j)); [intros _ H; inversion H|].
  intros Hi Hj.
  destruct (Hres i j Hi Hj) as [?|(k & Hk & Hxk & Hmem)]; [by left|].
  right. exists k. rewrite (clause_at_cleared s i0 _ s' Hc).
  destruct (decide (i0 = k)) as [->|]; done.
Qed.

Lemma remove_and_register_all_sound n x ids :
  forall s s' es,
    presolver_inv n s -> log_is (postsolver_ s) es -> resolved s x ->
    (forall i, i ∈ ids -> i ∈ occurrences s x) ->
    remove_and_register_all s x ids = Some s' ->
    presolver_inv n s' /\ resolved s' x
    /\ exists new, log_is (postsolver_ s') (es ++ new)
         /\ reconstructs n s s' new.
Proof.
  induction ids as [|i ids IH]; intros s s' es Hinv Hlog Hres Hids Hrun.
  { injection Hrun as <-. split; [done|]. split; [done|]. exists [].
    rewrite app_nil_r. split; [done | apply reconstructs_refl]. }
  cbn [remove_and_register_all] in Hrun.
  assert (forall i', i' ∈ ids -> i' ∈ occurrences s x) as Hids'.
  { intros i' Hi'. apply Hids, elem_of_cons. by right. }
  destruct (is_empty_clause (clause_at s i)) eqn:Hempty; [by eapply IH|].
  apply is_empty_clause_false in Hempty.
  assert (x ∈ clause_at s i) as Hx.
  { destruct (inv_accurate _ _ Hinv x i); [|done..].
    apply Hids, elem_of_cons. by left. }
  destruct (RemoveAndRegisterForPostsolve s i x) as [s1|] eqn:Hrem; [|done].
  destruct (RemoveAndRegisterForPostsolve_sound n s i x s1 Hrem Hx
              (resolved_removable s i x Hres Hx) es Hinv Hlog)
    as (Hinv1 & new1 & Hlog1 & Hrec1).
  pose proof (RemoveAndRegisterForPostsolve_spec _ _ _ _ Hrem)
    as (Hc & Hocc & _).
  destruct (IH s1 s' (es ++ new1)) as (Hinv' & Hres' & new2 & Hlog' & Hrec2);
    [done|done| | |done|].
  { by eapply resolved_delete. }
  { intros i' Hi'. rewrite (occurrences_same s s1) by done. by apply Hids'. }
  split; [done|]. split; [done|]. exists (new1 ++ new2).
  rewrite app_assoc. split; [done|]. by eapply reconstructs_trans.
Qed.

Lemma reconstructs_same_clauses n s s1 s' new :
  (forall ci, clause_at s' ci = clause_at s1 ci) ->
  reconstructs n s s1 new -> reconstructs n s s' new.
Proof.
  intros Hsame Hrec m Htotal Hsat. apply Hrec; [done|].
  intros ci Hlive. rewrite <- Hsame. apply Hsat. by rewrite Hsame.
Qed.

Lemma RemoveAndRegisterForPostsolveAllClauseContaining_sound n s x s' es :
  presolver_inv n s -> log_is (postsolver_ s) es -> resolved s x ->
  RemoveAndRegisterForPostsolveAllClauseContaining s x = Some s' ->
  presolver_inv n s' /\ (forall ci, x ∉ clause_at s' ci)
  /\ exists new, log_is (postsolver_ s') (es ++ new)
       /\ reconstructs n s s' new.
Proof.
  intros Hinv Hlog Hres Hall.
  pose proof (RemoveAndRegisterForPostsolveAllClauseContaining_spec _ _ _ Hall)
    as (_ & Hoccx & Hoccl & Hgone & _).
  unfold RemoveAndRegisterForPostsolveAllClauseContaining in Hall.
  destruct (remove_and_register_all s x (occurrences s x)) as [s1|] eqn:Hrun;
    [|done].
  injection Hall as Hs'.
  destruct (remove_and_register_all_sound n x _ s s1 es Hinv Hlog Hres
              (fun i H => H) Hrun) as (Hinv1 & _ & new & Hlog1 & Hrec).
  pose proof (remove_and_register_all_spec _ _ _ _ Hrun) as (_ & Hlc & _).
  assert (clauses_ s' = clauses_ s1) as Hcl by (by rewrite <- Hs').
  assert (postsolver_ s' = postsolver_ s1) as Hp by (by rewrite <- Hs').
  assert (forall ci, clause_at s' ci = clause_at s1 ci) as Hat.
  { intros ci. unfold clause_at. by rewrite Hcl. }
  assert (forall l, l <> x -> occurrences s' l = occurrences s1 l) as Hoccl1.
  { intros l Hl. rewrite Hoccl by done. symmetry. by apply occurrences_same. }
  destruct Hinv1 as [Hcan Hcomp Hacc Hnd Hrange Hid].
  assert (occurrences_complete s') as Hcomp'.
  { intros ci l Hl. destruct (decide (l = x)) as [->|Hne].
    - rewrite Hgone in Hl; [inversion Hl|].
      rewrite <- (occurrences_same s s1) by done.
      apply Hcomp. by rewrite <- Hat.
    - rewrite Hoccl1 by done. apply Hcomp. by rewrite <- Hat. }
  split; [split|split].
  - intros ci. rewrite Hat. apply Hcan.
  - done.
  - intros l ci. rewrite Hat. destruct (decide (l = x)) as [->|Hne].
    + rewrite Hoccx. intros H. inversion H.
    + rewrite Hoccl1 by done. apply Hacc.
  - intros l. destruct (decide (l = x)) as [->|Hne].
    + rewrite Hoccx. apply NoDup_nil_2.
    + rewrite Hoccl1 by done. apply Hnd.
  - intros l ci. rewrite Hcl. destruct (decide (l = x)) as [->|Hne].
    + rewrite Hoccx. intros H. inversion H.
    + rewrite Hoccl1 by done. apply Hrange.
  - unfold identity_mapping. by rewrite Hp.
  - intros ci Hx. apply Hcomp' in Hx. rewrite Hoccx in Hx. inversion Hx.
  - exists new. rewrite Hp. split; [done|].
    by eapply reconstructs_same_clauses.
Qed.

(** ** Bounded variable elimination is sound *)

Lemma CrossProduct_sound n s x r s' :
  CrossProduct s x = Some (r, s') -> sound_step n s s'.
Proof.
  unfold CrossProduct. intros Hrun.
  destruct (_ && _); [injection Hrun as _ <-; apply sound_step_refl|].
  destruct (_ && _); [injection Hrun as _ <-; apply sound_step_refl|].
  set (y := if occurrence_size s x <? occurrence_size s (Negated x)
            then Negated x else x) in *.
  destruct (eliminate_blocked s y (occurrences s y) (bve_threshold s x) 0)
    as [[[exceeded size] sa]|] eqn:Hblocked; [|done].
  pose proof (eliminate_blocked_removals y _ _ s 0 exceeded size sa
                (fun i H => H) Hblocked) as Hremovals.
  apply (blocked_removals_sound n) in Hremovals.
  destruct exceeded; [by injection Hrun as _ <-|].
  eapply sound_step_trans; [exact Hremovals|]. clear Hremovals Hblocked.
  intros es Hinv Hlog.
  destruct (add_resolvents sa y (occurrences sa y)) as [sb|] eqn:Hadd;
    [|done].
  destruct (add_resolvents_resolved n y sa sb Hinv Hadd)
    as (Hinvb & Hpb & Hresb & Hrecb).
  destruct (RemoveAndRegisterForPostsolveAllClauseContaining sb y)
    as [sc|] eqn:Hfirst; [|done].
  rewrite <- Hpb in Hlog.
  destruct (RemoveAndRegisterForPostsolveAllClauseContaining_sound
              n sb y sc es Hinvb Hlog Hresb Hfirst)
    as (Hinvc & Hnone & new1 & Hlogc & Hrecc).
  destruct (RemoveAndRegisterForPostsolveAllClauseContaining sc (Negated y))
    as [sd|] eqn:Hsecond; [|done].
  injection Hrun as _ <-.
  destruct (RemoveAndRegisterForPostsolveAllClauseContaining_sound
              n sc (Negated y) sd (es ++ new1) Hinvc Hlogc)
    as (Hinvd & _ & new2 & Hlogd & Hrecd); [|done|].
  { intros i j _ Hj. rewrite Negated_involutive in Hj. by destruct (Hnone j). }
  split; [done|]. exists (new1 ++ new2). rewrite app_assoc. split; [done|].
  change (new1 ++ new2) with ([] ++ (new1 ++ new2)).
  eapply reconstructs_trans; [exact Hrecb|].
  by eapply reconstructs_trans.
Qed.

(** ** Subsumption and strengthening are sound *)

(** What [SimplifyClause] returns, with no assumption on the clauses. *)
Lemma SimplifyClause_result a b opp0 r b' opp :
  SimplifyClause a b opp0 = Some (r, b', opp) ->
  (r = false -> b' = b)
  /\ (r = true -> opp = -1 -> b' = b /\ a ⊆ b)
  /\ (r = true -> opp <> -1 ->
      exists (x : Literal) (b1 b2 : list Literal),
        opp = Index x /\ b = b1 ++ x :: b2 /\ b' = b1 ++ b2).
Proof.
  unfold SimplifyClause. intros Hrun.
  destruct (length b <? length a)%nat.
  { injection Hrun as <- <- <-. by repeat split. }
  destruct (SimplifyClause_loop a b 0 0 0 _) as [|nd tr|] eqn:Hloop;
    [injection Hrun as <- <- <-; by repeat split| |done].
  destruct (SimplifyClause_loop_sound b a 0 0 0 _ nd tr Hloop)
    as [(-> & -> & Hsub)|(_ & -> & _ & x & Hx & _)]; [lia| |].
  - simpl in Hrun. injection Hrun as <- <- <-. by repeat split.
  - simpl in Hrun. rewrite Nat.sub_0_r in Hx. rewrite Hx in Hrun.
    injection Hrun as <- <- <-. split; [done|]. split.
    + intros _ Hopp. pose proof (Index_nonneg x). lia.
    + intros _ _. exists x, (take tr b), (drop (S tr) b).
      split; [done|]. split; [by rewrite take_drop_middle|].
      apply delete_take_drop.
Qed.

Lemma set_clauses_id s ci :
  set_clauses s (<[ci := clause_at s ci]> (clauses_ s)) = s.
Proof.
  assert (<[ci := clause_at s ci]> (clauses_ s) = clauses_ s) as ->.
  { destruct (decide (ci < length (clauses_ s))%nat).
    - apply list_insert_id. by apply list_lookup_lookup_total_lt.
    - apply list_insert_ge. lia. }
  by destruct s.
Qed.

Lemma occurrences_write s l kept l' :
  (N.to_nat l < length (literal_to_clauses_ s))%nat ->
  occurrences (write_occurrences s l kept true) l'
  = if decide (l' = l) then kept else occurrences s l'.
Proof.
  intros Hrange. unfold occurrences, write_occurrences. simpl.
  rewrite list_lookup_total_insert.
  destruct (decide (l' = l)) as [->|Hne].
  - by rewrite decide_True.
  - rewrite decide_False; [done|]. intros [Heq _]. apply Hne. lia.
Qed.

Lemma write_occurrences_length s l kept completed :
  length (literal_to_clauses_ (write_occurrences s l kept completed))
  = length (literal_to_clauses_ s).
Proof. unfold write_occurrences. simpl. apply length_insert. Qed.

Lemma elem_of_remove_first ci occ cj :
  NoDup occ -> cj ∈ remove_first ci occ <-> cj ∈ occ /\ cj <> ci.
Proof.
  induction occ as [|c occ IH]; intros Hnd; simpl.
  { split; [intros H; inversion H | by intros [H _]]. }
  apply NoDup_cons in Hnd as [Hnotin Hnd].
  destruct (c =? ci)%nat eqn:Heq.
  - apply Nat.eqb_eq in Heq as ->. rewrite elem_of_cons. split.
    + intros Hin. split; [by right|]. by intros ->.
    + by intros [[->|?] ?].
  - apply Nat.eqb_neq in Heq. rewrite !elem_of_cons, (IH Hnd). split.
    + intros [->|[? ?]]; (split; [|done]); [by left | by right].
    + intros [[->|?] ?]; [by left | by right].
Qed.

Lemma NoDup_remove_first ci occ : NoDup occ -> NoDup (remove_first ci occ).
Proof.
  induction occ as [|c occ IH]; intros Hnd; [done|]. simpl.
  pose proof Hnd as [Hnotin Hnd']%NoDup_cons.
  destruct (c =? ci)%nat; [done|]. apply NoDup_cons. split; [|by apply IH].
  intros [? _]%elem_of_remove_first; done.
Qed.

Lemma enqueue_clause_frame s ci :
  clauses_ (enqueue_clause s ci) = clauses_ s
  /\ literal_to_clauses_ (enqueue_clause s ci) = literal_to_clauses_ s
  /\ postsolver_ (enqueue_clause s ci) = postsolver_ s.
Proof. unfold enqueue_clause. by destruct (_ !!! _). Qed.

Lemma unregister_literal_frame s ci opp :
  clauses_ (unregister_literal s ci opp) = clauses_ s
  /\ postsolver_ (unregister_literal s ci opp) = postsolver_ s
  /\ length (literal_to_clauses_ (unregister_literal s ci opp))
     = length (literal_to_clauses_ s)
  /\ forall l, occurrences (unregister_literal s ci opp) l
       = if decide (l = Z.to_N opp) then remove_first ci (occurrences s l)
         else occurrences s l.
Proof.
  unfold unregister_literal.
  set (s1 := set_literal_to_clause_sizes _ _).
  destruct (enqueue_clause_frame
              (UpdatePriorityQueue s1 (LiteralVariable (Z.to_N opp))) ci)
    as (Hc & Hl & Hp).
  destruct (UpdatePriorityQueue_frame s1 (LiteralVariable (Z.to_N opp)))
    as (Hc' & Hl' & _ & Hp').
  rewrite Hc, Hc', Hp, Hp'. split; [done|]. split; [done|].
  unfold occurrences. rewrite Hl, Hl'. simpl. split; [apply length_alter|].
  intros l. rewrite list_lookup_total_alter.
  destruct (decide (l = Z.to_N opp)) as [->|Hne].
  - destruct (decide (_ /\ _)) as [_|Hout]; [done|].
    rewrite (list_lookup_total_alt (literal_to_clauses_ s)).
    rewrite lookup_ge_None_2; [done|].
    destruct (decide (length (literal_to_clauses_ s)
                      <= N.to_nat (Z.to_N opp))%nat); [done|].
    destruct Hout. split; [done | lia].
  - rewrite decide_False; [done|]. intros [Heq _]. apply Hne. lia.
Qed.

(** The invariants when one clause is replaced and the occurrence lists
    shrink accordingly. *)
Lemma presolver_inv_update n s s' ci b' :
  presolver_inv n s ->
  canonical b' = true ->
  (forall j, clause_at s' j = if decide (j = ci) then b' else clause_at s j) ->
  length (clauses_ s') = length (clauses_ s) ->
  postsolver_ s' = postsolver_ s ->
  (forall l cj, cj ∈ occurrences s' l -> cj ∈ occurrences s l) ->
  (forall l cj, cj ∈ occurrences s l -> cj <> ci -> cj ∈ occurrences s' l) ->
  (forall l, l ∈ b' -> ci ∈ occurrences s' l) ->
  (forall l, ci ∈ occurrences s' l -> b' = [] \/ l ∈ b') ->
  (forall l, NoDup (occurrences s' l)) ->
  presolver_inv n s'.
Proof.
  intros [Hcan Hcomp Hacc Hnd Hrange Hid] Hb' Hat Hlen Hp H1 H2 H3 H4 H5.
  split.
  - intros j. rewrite Hat. destruct (decide (j = ci)); [done | apply Hcan].
  - intros j l. rewrite Hat. destruct (decide (j = ci)) as [->|Hne].
    + apply H3.
    + intros Hl. apply H2; [by apply Hcomp | done].
  - intros l j Hj. rewrite Hat. destruct (decide (j = ci)) as [->|Hne].
    + by apply H4.
    + by apply Hacc, H1.
  - done.
  - intros l j Hj. rewrite Hlen. eapply Hrange, H1, Hj.
  - unfold identity_mapping. by rewrite Hp.
Qed.

Lemma insert_clause_at_id s ci :
  <[ci := clause_at s ci]> (clauses_ s) = clauses_ s.
Proof.
  destruct (decide (ci < length (clauses_ s))%nat).
  - apply list_insert_id. by apply list_lookup_lookup_total_lt.
  - apply list_insert_ge. lia.
Qed.

Lemma NoDup_middle (kept todo : list ClauseIndex) ci :
  NoDup (kept ++ ci :: todo) -> NoDup (kept ++ todo) /\ ci ∉ kept ++ todo.
Proof.
  rewrite <- Permutation_middle. intros [? ?]%NoDup_cons. done.
Qed.

Lemma elem_of_middle (kept todo : list ClauseIndex) ci cj :
  cj ∈ kept ++ ci :: todo <-> cj = ci \/ cj ∈ kept ++ todo.
Proof. rewrite <- Permutation_middle. apply elem_of_cons. Qed.

(** A scan of the occurrence list of [lit] drops the clause [ci], which is
    deleted. *)
Lemma scan_drop n s s1 lit kept ci todo :
  presolver_inv n (write_occurrences s lit (kept ++ ci :: todo) true) ->
  (N.to_nat lit < length (literal_to_clauses_ s))%nat ->
  clauses_ s1 = <[ci := []]> (clauses_ s) ->
  literal_to_clauses_ s1 = literal_to_clauses_ s ->
  postsolver_ s1 = postsolver_ s ->
  presolver_inv n (write_occurrences s1 lit (kept ++ todo) true).
Proof.
  intros Hinv Hrange Hc Hl Hp.
  assert (N.to_nat lit < length (literal_to_clauses_ s1))%nat as Hrange1
    by (by rewrite Hl).
  assert (forall l, occurrences s1 l = occurrences s l) as Hocc
    by (intros l; by apply occurrences_same).
  apply (presolver_inv_update n _ _ ci [] Hinv); try done.
  - intros j. change (clause_at s1 j = if decide (j = ci) then []
                                       else clause_at s j).
    rewrite (clause_at_cleared s ci j s1 Hc).
    destruct (decide (ci = j)), (decide (j = ci)); congruence.
  - change (length (clauses_ s1) = length (clauses_ s)).
    by rewrite Hc, length_insert.
  - intros l cj. rewrite !occurrences_write, Hocc by done.
    destruct (decide (l = lit)); [|done].
    rewrite elem_of_middle. by right.
  - intros l cj. rewrite !occurrences_write, Hocc by done.
    destruct (decide (l = lit)); [|done].
    rewrite elem_of_middle. by intros [?|?].
  - intros l H. inversion H.
  - intros l _. by left.
  - intros l. pose proof (inv_nodup _ _ Hinv l) as Hnd.
    rewrite occurrences_write in Hnd |- * by done. rewrite Hocc.
    destruct (decide (l = lit)); [|done].
    by apply NoDup_middle in Hnd as [? _].
Qed.

Lemma is_sorted_remove_middle (b1 b2 : list Literal) o :
  is_sorted (b1 ++ o :: b2) = true -> is_sorted (b1 ++ b2) = true.
Proof.
  induction b1 as [|l b1 IH]; simpl app.
  - apply is_sorted_tail.
  - rewrite !is_sorted_cons. intros [Hlt Hs]. split; [|by apply IH].
    intros l' Hl'. apply Hlt.
    apply elem_of_app in Hl' as [?|?]; apply elem_of_app;
      [by left | right; apply elem_of_cons; by right].
Qed.

Lemma canonical_remove_middle (b1 b2 : list Literal) o :
  canonical (b1 ++ o :: b2) = true ->
  canonical (b1 ++ b2) = true /\ o ∉ b1 ++ b2.
Proof.
  intros [Hs Hc]%canonical_spec.
  assert (forall l, l ∈ b1 ++ b2 -> l ∈ b1 ++ o :: b2) as Hsub.
  { intros l [?|?]%elem_of_app; apply elem_of_app;
      [by left | right; apply elem_of_cons; by right]. }
  split.
  - apply canonical_spec. split; [by eapply is_sorted_remove_middle|].
    intros l Hl Hn. apply (Hc l); by apply Hsub.
  - apply is_sorted_NoDup in Hs. rewrite <- Permutation_middle in Hs.
    by apply NoDup_cons in Hs as [? _].
Qed.

Lemma elem_of_remove_middle (b1 b2 : list Literal) o l :
  o ∉ b1 ++ b2 -> l ∈ b1 ++ b2 <-> l ∈ b1 ++ o :: b2 /\ l <> o.
Proof.
  intros Ho. rewrite <- Permutation_middle, elem_of_cons. split.
  - intros Hl. split; [by right|]. by intros ->.
  - by intros [[->|?] ?].
Qed.

Lemma clause_at_replaced s ci c j (s' : SatPresolver) :
  clauses_ s' = <[ci := c]> (clauses_ s) -> clause_at s ci <> [] ->
  clause_at s' j = if decide (j = ci) then c else clause_at s j.
Proof.
  intros Hc Hlive. rewrite (clause_at_insert s ci c j s' Hc).
  apply live_clause_in_range in Hlive.
  destruct (decide (j = ci)) as [->|Hne].
  - by rewrite decide_True.
  - rewrite decide_False; [done|]. by intros [-> _].
Qed.

(** A scan of the occurrence list of [lit] strengthens the clause [ci]: the
    literal [o], which is not [lit], is removed from it, the clause leaves
    the occurrence list of [o] and stays in the one of [lit]. *)
Lemma scan_strengthen n s lit kept ci todo o b1 b2 :
  presolver_inv n (write_occurrences s lit (kept ++ ci :: todo) true) ->
  (N.to_nat lit < length (literal_to_clauses_ s))%nat ->
  clause_at s ci = b1 ++ o :: b2 -> o <> lit ->
  presolver_inv n
    (write_occurrences
       (unregister_literal
          (set_clauses s (<[ci := b1 ++ b2]> (clauses_ s))) ci (Index o))
       lit ((kept ++ [ci]) ++ todo) true).
Proof.
  intros Hinv Hrange Hb Ho.
  set (s0 := set_clauses s (<[ci := b1 ++ b2]> (clauses_ s))).
  destruct (unregister_literal_frame s0 ci (Index o))
    as (Hc & Hp & Hlen & Hocc).
  set (s1 := unregister_literal s0 ci (Index o)) in *.
  assert (Z.to_N (Index o) = o) as Hid by apply N2Z.id.
  rewrite Hid in Hocc. rewrite <- app_assoc. simpl app.
  assert (clause_at s ci <> []) as Hlive by (rewrite Hb; by destruct b1).
  pose proof (inv_canonical _ _ Hinv ci) as Hcanon.
  change (canonical (clause_at s ci) = true) in Hcanon. rewrite Hb in Hcanon.
  apply canonical_remove_middle in Hcanon as [Hcanon Hnotin].
  pose proof (inv_nodup _ _ Hinv o) as Hndo.
  rewrite occurrences_write, decide_False in Hndo by done.
  apply (presolver_inv_update n _ _ ci (b1 ++ b2) Hinv); try done.
  - intros j. by apply (clause_at_replaced s ci (b1 ++ b2) j s1).
  - change (length (clauses_ s1) = length (clauses_ s)).
    rewrite Hc. apply length_insert.
  - intros l cj. rewrite !occurrences_write, Hocc by (done || by rewrite Hlen).
    destruct (decide (l = lit)); [done|].
    destruct (decide (l = o)) as [->|]; [|done].
    by intros [? _]%elem_of_remove_first.
  - intros l cj. rewrite !occurrences_write, Hocc by (done || by rewrite Hlen).
    destruct (decide (l = lit)); [done|].
    destruct (decide (l = o)) as [->|]; [|done].
    intros ? ?. by apply elem_of_remove_first.
  - intros l Hl.
    apply (elem_of_remove_middle b1 b2 o l Hnotin) in Hl as [Hl Hlo].
    assert (ci ∈ occurrences
                   (write_occurrences s lit (kept ++ ci :: todo) true) l)
      as Hcomp.
    { apply (inv_complete _ _ Hinv). change (l ∈ clause_at s ci).
      by rewrite Hb. }
    rewrite occurrences_write in Hcomp by done.
    rewrite occurrences_write, Hocc by (by rewrite Hlen).
    destruct (decide (l = lit)); [done|]. by rewrite decide_False.
  - intros l Hci. right.
    rewrite occurrences_write, Hocc in Hci by (by rewrite Hlen).
    assert (l <> o) as Hlo.
    { intros ->. rewrite decide_False, decide_True in Hci by done.
      by apply elem_of_remove_first in Hci as [_ ?]. }
    rewrite (decide_False (P := l = o)) in Hci by done.
    apply (elem_of_remove_middle b1 b2 o l Hnotin). split; [|done].
    rewrite <- Hb.
    destruct (inv_accurate _ _ Hinv l ci) as [?|?]; [|done..].
    by rewrite occurrences_write.
  - intros l. pose proof (inv_nodup _ _ Hinv l) as Hnd.
    rewrite occurrences_write in Hnd by done.
    rewrite occurrences_write, Hocc by (by rewrite Hlen).
    destruct (decide (l = lit)); [done|].
    destruct (decide (l = o)); [by apply NoDup_remove_first | done].
Qed.

(** A scan of the occurrence list of [lit] strengthens the clause [ci] by
    removing [lit] from it: the clause leaves the occurrence list. *)
Lemma scan_strengthen_scanned n s lit kept ci todo b1 b2 :
  presolver_inv n (write_occurrences s lit (kept ++ ci :: todo) true) ->
  (N.to_nat lit < length (literal_to_clauses_ s))%nat ->
  clause_at s ci = b1 ++ lit :: b2 ->
  presolver_inv n
    (write_occurrences
       (enqueue_clause (set_clauses s (<[ci := b1 ++ b2]> (clauses_ s))) ci)
       lit (kept ++ todo) true).
Proof.
  intros Hinv Hrange Hb.
  set (s0 := set_clauses s (<[ci := b1 ++ b2]> (clauses_ s))).
  destruct (enqueue_clause_frame s0 ci) as (Hc & Hlc & Hp).
  set (s1 := enqueue_clause s0 ci) in *.
  assert (forall l, occurrences s1 l = occurrences s l) as Hocc
    by (intros l; by apply occurrences_same).
  assert (N.to_nat lit < length (literal_to_clauses_ s1))%nat as Hrange1
    by (by rewrite Hlc).
  assert (clause_at s ci <> []) as Hlive by (rewrite Hb; by destruct b1).
  pose proof (inv_canonical _ _ Hinv ci) as Hcanon.
  change (canonical (clause_at s ci) = true) in Hcanon. rewrite Hb in Hcanon.
  apply canonical_remove_middle in Hcanon as [Hcanon Hnotin].
  pose proof (inv_nodup _ _ Hinv lit) as Hndl.
  rewrite occurrences_write, decide_True in Hndl by done.
  apply NoDup_middle in Hndl as [Hndl Hci].
  apply (presolver_inv_update n _ _ ci (b1 ++ b2) Hinv); try done.
  - intros j. by apply (clause_at_replaced s ci (b1 ++ b2) j s1).
  - change (length (clauses_ s1) = length (clauses_ s)).
    rewrite Hc. apply length_insert.
  - intros l cj. rewrite !occurrences_write, Hocc by done.
    destruct (decide (l = lit)); [|done].
    rewrite elem_of_middle. by right.
  - intros l cj. rewrite !occurrences_write, Hocc by done.
    destruct (decide (l = lit)); [|done].
    rewrite elem_of_middle. by intros [?|?].
  - intros l Hl.
    apply (elem_of_remove_middle b1 b2 lit l Hnotin) in Hl as [Hl Hlo].
    assert (ci ∈ occurrences
                   (write_occurrences s lit (kept ++ ci :: todo) true) l)
      as Hcomp.
    { apply (inv_complete _ _ Hinv). change (l ∈ clause_at s ci).
      by rewrite Hb. }
    rewrite occurrences_write in Hcomp by done.
    rewrite occurrences_write, Hocc by done.
    by rewrite decide_False in Hcomp |- * by done.
  - intros l Hin. right.
    rewrite occurrences_write, Hocc in Hin by done.
    assert (l <> lit) as Hlo.
    { intros ->. by rewrite decide_True in Hin. }
    rewrite decide_False in Hin by done.
    apply (elem_of_remove_middle b1 b2 lit l Hnotin). split; [|done].
    rewrite <- Hb.
    destruct (inv_accurate _ _ Hinv l ci) as [?|?]; [|done..].
    by rewrite occurrences_write, decide_False.
  - intros l. pose proof (inv_nodup _ _ Hinv l) as Hnd.
    rewrite occurrences_write in Hnd by done.
    rewrite occurrences_write, Hocc by done.
    destruct (decide (l = lit)); [done|]. done.
Qed.

Lemma satisfies_db_shrink m s s1 ci b' :
  (forall j, clause_at s1 j = if decide (j = ci) then b' else clause_at s j) ->
  b' <> [] -> (forall l, l ∈ b' -> l ∈ clause_at s ci) ->
  satisfies_db m s1 -> satisfies_db m s.
Proof.
  intros Hat Hne Hsub Hsat j Hlive.
  specialize (Hsat j). rewrite Hat in Hsat.
  destruct (decide (j = ci)) as [->|]; [|by apply Hsat].
  apply clause_satisfied_spec in Hsat as (l & Hl & Htrue); [|done].
  apply clause_satisfied_spec. exists l. split; [by apply Hsub | done].
Qed.

Lemma satisfies_db_subsumed m s s1 ci k :
  (forall j, clause_at s1 j = if decide (j = ci) then [] else clause_at s j) ->
  k <> ci -> clause_at s k <> [] -> clause_at s k ⊆ clause_at s ci ->
  satisfies_db m s1 -> satisfies_db m s.
Proof.
  intros Hat Hk Hlive Hsub Hsat j Hj.
  destruct (decide (j = ci)) as [->|Hne].
  - specialize (Hsat k). rewrite Hat, decide_False in Hsat by done.
    apply clause_satisfied_spec in Hsat as (l & Hl & Htrue); [|done].
    apply clause_satisfied_spec. exists l. split; [by apply Hsub | done].
  - specialize (Hsat j). rewrite Hat, decide_False in Hsat by done.
    by apply Hsat.
Qed.

(** The scan of the occurrence list of [lit] by
    [ProcessClauseToSimplifyOthers], when it goes through. *)
Lemma simplify_occurrences_sound n clause_index clause lit todo :
  forall kept opp s kept' opp' s',
    presolver_inv n (write_occurrences s lit (kept ++ todo) true) ->
    (N.to_nat lit < length (literal_to_clauses_ s))%nat ->
    clause_at s clause_index = clause -> clause <> [] ->
    simplify_occurrences clause_index clause lit todo kept opp s
      = Some (true, kept', opp', s') ->
    presolver_inv n (write_occurrences s' lit kept' true)
    /\ (N.to_nat lit < length (literal_to_clauses_ s'))%nat
    /\ clause_at s' clause_index = clause
    /\ postsolver_ s' = postsolver_ s
    /\ forall m, satisfies_db m s' -> satisfies_db m s.
Proof.
  induction todo as [|ci todo IH];
    intros kept opp s kept' opp' s' Hinv Hrange Hclause Hne Hrun.
  { injection Hrun as <- <- <-. rewrite app_nil_r in Hinv. done. }
  assert (forall kept1 opp1 s1,
    presolver_inv n (write_occurrences s1 lit (kept1 ++ todo) true) ->
    (N.to_nat lit < length (literal_to_clauses_ s1))%nat ->
    clause_at s1 clause_index = clause ->
    postsolver_ s1 = postsolver_ s ->
    (forall m, satisfies_db m s1 -> satisfies_db m s) ->
    simplify_occurrences clause_index clause lit todo kept1 opp1 s1
      = Some (true, kept', opp', s') ->
    presolver_inv n (write_occurrences s' lit kept' true)
    /\ (N.to_nat lit < length (literal_to_clauses_ s'))%nat
    /\ clause_at s' clause_index = clause
    /\ postsolver_ s' = postsolver_ s
    /\ forall m, satisfies_db m s' -> satisfies_db m s) as Hnext.
  { intros kept1 opp1 s1 Hinv1 Hrange1 Hcl1 Hp1 Hent1 Hrun1.
    destruct (IH _ _ _ _ _ _ Hinv1 Hrange1 Hcl1 Hne Hrun1)
      as (? & ? & ? & Hp' & Hent').
    split; [done|]. split; [done|]. split; [done|].
    split; [congruence|]. intros m Hm. by apply Hent1, Hent'. }
  cbn [simplify_occurrences] in Hrun.
  destruct (is_empty_clause (clause_at s ci)) eqn:Hempty.
  { apply is_empty_clause_true in Hempty.
    eapply Hnext; [| | | | |exact Hrun]; try done.
    eapply scan_drop; [exact Hinv|done| |done|done].
    rewrite <- Hempty. symmetry. apply insert_clause_at_id. }
  apply is_empty_clause_false in Hempty.
  destruct (ci =? clause_index)%nat eqn:Heq.
  { eapply Hnext; [| | | | |exact Hrun]; try done.
    by rewrite <- app_assoc. }
  apply Nat.eqb_neq in Heq.
  destruct (SimplifyClause clause (clause_at s ci) opp)
    as [[[subsumed b'] opp1]|] eqn:Hsimp; [|done].
  destruct (SimplifyClause_result _ _ _ _ _ _ Hsimp) as (Hfalse & Hsub & Hstr).
  cbv zeta in Hrun.
  destruct subsumed.
  2:{ rewrite (Hfalse eq_refl), set_clauses_id in Hrun.
      eapply Hnext; [| | | | |exact Hrun]; try done.
      by rewrite <- app_assoc. }
  destruct (opp1 =? -1) eqn:Hopp.
  { apply Z.eqb_eq in Hopp. destruct (Hsub eq_refl Hopp) as [-> Hsubset].
    rewrite set_clauses_id in Hrun.
    destruct (Remove_spec s ci) as (Hc & Hl & Hp).
    pose proof (clause_at_cleared s ci) as Hat.
    eapply Hnext; [| | | | |exact Hrun].
    - by eapply scan_drop.
    - by rewrite Hl.
    - rewrite (Hat clause_index _ Hc). by rewrite decide_False.
    - done.
    - intros m. apply (satisfies_db_subsumed m s _ ci clause_index).
      + intros j. rewrite (Hat j _ Hc).
        destruct (decide (ci = j)), (decide (j = ci)); congruence.
      + done.
      + by rewrite Hclause.
      + by rewrite Hclause. }
  apply Z.eqb_neq in Hopp.
  destruct (Hstr eq_refl Hopp) as (x & b1 & b2 & -> & Hb & ->).
  destruct (Index x =? Index lit) eqn:Hlit; [done|].
  apply Z.eqb_neq in Hlit.
  destruct (is_empty_clause (b1 ++ b2)) eqn:Hemp'; [done|].
  apply is_empty_clause_false in Hemp'.
  set (s0 := set_clauses s (<[ci := b1 ++ b2]> (clauses_ s))) in *.
  destruct (unregister_literal_frame s0 ci (Index x))
    as (Hc & Hp & Hlen & Hocc).
  assert (forall j, clause_at (unregister_literal s0 ci (Index x)) j
                    = if decide (j = ci) then b1 ++ b2 else clause_at s j)
    as Hat.
  { intros j. by apply clause_at_replaced. }
  eapply Hnext; [| | | | |exact Hrun].
  - apply scan_strengthen; try done. by intros ->.
  - by rewrite Hlen.
  - rewrite Hat. by rewrite decide_False.
  - done.
  - intros m. apply (satisfies_db_shrink m s _ ci (b1 ++ b2)); [done..|].
    rewrite Hb. intros l [?|?]%elem_of_app; apply elem_of_app;
      [by left | right; apply elem_of_cons; by right].
Qed.

(** The scan of the occurrence list of the negation of [lit], when it goes
    through. *)
Lemma simplify_negated_occurrences_sound n clause lit todo :
  forall kept removed opp s kept' removed' s',
    presolver_inv n (write_occurrences s (Negated lit) (kept ++ todo) true) ->
    (N.to_nat (Negated lit) < length (literal_to_clauses_ s))%nat ->
    simplify_negated_occurrences clause lit todo kept removed opp s
      = Some (true, kept', removed', s') ->
    presolver_inv n (write_occurrences s' (Negated lit) kept' true)
    /\ (N.to_nat (Negated lit) < length (literal_to_clauses_ s'))%nat
    /\ postsolver_ s' = postsolver_ s
    /\ forall m, satisfies_db m s' -> satisfies_db m s.
Proof.
  induction todo as [|ci todo IH];
    intros kept removed opp s kept' removed' s' Hinv Hrange Hrun.
  { injection Hrun as <- <- <-. rewrite app_nil_r in Hinv. done. }
  assert (forall kept1 removed1 opp1 s1,
    presolver_inv n (write_occurrences s1 (Negated lit) (kept1 ++ todo) true) ->
    (N.to_nat (Negated lit) < length (literal_to_clauses_ s1))%nat ->
    postsolver_ s1 = postsolver_ s ->
    (forall m, satisfies_db m s1 -> satisfies_db m s) ->
    simplify_negated_occurrences clause lit todo kept1 removed1 opp1 s1
      = Some (true, kept', removed', s') ->
    presolver_inv n (write_occurrences s' (Negated lit) kept' true)
    /\ (N.to_nat (Negated lit) < length (literal_to_clauses_ s'))%nat
    /\ postsolver_ s' = postsolver_ s
    /\ forall m, satisfies_db m s' -> satisfies_db m s) as Hnext.
  { intros kept1 removed1 opp1 s1 Hinv1 Hrange1 Hp1 Hent1 Hrun1.
    destruct (IH _ _ _ _ _ _ _ Hinv1 Hrange1 Hrun1) as (? & ? & Hp' & Hent').
    split; [done|]. split; [done|].
    split; [congruence|]. intros m Hm. by apply Hent1, Hent'. }
  cbn [simplify_negated_occurrences] in Hrun.
  destruct (is_empty_clause (clause_at s ci)) eqn:Hempty.
  { apply is_empty_clause_true in Hempty.
    eapply Hnext; [| | | |exact Hrun]; try done.
    eapply scan_drop; [exact Hinv|done| |done|done].
    rewrite <- Hempty. symmetry. apply insert_clause_at_id. }
  apply is_empty_clause_false in Hempty.
  destruct (SimplifyClause clause (clause_at s ci) opp)
    as [[[subsumed b'] opp1]|] eqn:Hsimp; [|done].
  destruct (SimplifyClause_result _ _ _ _ _ _ Hsimp) as (Hfalse & Hsub & Hstr).
  cbv zeta in Hrun.
  destruct subsumed.
  2:{ rewrite (Hfalse eq_refl), set_clauses_id in Hrun.
      eapply Hnext; [| | | |exact Hrun]; try done.
      by rewrite <- app_assoc. }
  destruct (opp1 =? NegatedIndex lit) eqn:Hopp; [|done].
  apply Z.eqb_eq in Hopp. simpl negb in Hrun. cbv iota in Hrun.
  destruct Hstr as (x & b1 & b2 & Hx & Hb & ->); [done| |].
  { rewrite Hopp. pose proof (Index_nonneg (Negated lit)).
    unfold NegatedIndex. lia. }
  assert (x = Negated lit) as ->.
  { apply Index_inj. unfold NegatedIndex in Hopp. congruence. }
  destruct (is_empty_clause (b1 ++ b2)) eqn:Hemp'; [done|].
  apply is_empty_clause_false in Hemp'.
  set (s0 := set_clauses s (<[ci := b1 ++ b2]> (clauses_ s))) in *.
  destruct (enqueue_clause_frame s0 ci) as (Hc & Hl & Hp).
  eapply Hnext; [| | | |exact Hrun].
  - by apply scan_strengthen_scanned.
  - by rewrite Hl.
  - done.
  - intros m. apply (satisfies_db_shrink m s _ ci (b1 ++ b2)); [|done|].
    + intros j. by apply clause_at_replaced.
    + rewrite Hb. intros l [?|?]%elem_of_app; apply elem_of_app;
        [by left | right; apply elem_of_cons; by right].
Qed.

Lemma FindLiteralWithShortestOccurenceList_elem s clause lit :
  FindLiteralWithShortestOccurenceList s clause = Some lit -> lit ∈ clause.
Proof.
  unfold FindLiteralWithShortestOccurenceList.
  destruct clause as [|front clause']; [done|]. intros [= <-].
  set (f := fun result l => if occurrence_size s l <? occurrence_size s result
                            then l else result).
  assert (forall c r, foldl f r c = r \/ foldl f r c ∈ c) as Hfold.
  { induction c as [|l c IH]; intros r; [by left|]. simpl.
    destruct (IH (f r l)) as [->|?].
    - unfold f. destruct (_ <? _); [right; apply elem_of_cons|]; by left.
    - right. apply elem_of_cons. by right. }
  change (foldl f front (front :: clause') ∈ front :: clause').
  destruct (Hfold (front :: clause') front) as [Heq|?]; [|done].
  rewrite Heq. apply elem_of_cons. by left.
Qed.

Lemma write_occurrences_id s l :
  write_occurrences s l (occurrences s l) true = s.
Proof.
  unfold write_occurrences, occurrences.
  assert (<[N.to_nat l := literal_to_clauses_ s !!! N.to_nat l]>
            (literal_to_clauses_ s) = literal_to_clauses_ s) as ->.
  { destruct (decide (N.to_nat l < length (literal_to_clauses_ s))%nat).
    - apply list_insert_id. by apply list_lookup_lookup_total_lt.
    - apply list_insert_ge. lia. }
  by destruct s.
Qed.

Lemma presolver_inv_same n s s' :
  clauses_ s' = clauses_ s ->
  literal_to_clauses_ s' = literal_to_clauses_ s ->
  postsolver_ s' = postsolver_ s ->
  presolver_inv n s -> presolver_inv n s'.
Proof.
  intros Hc Hl Hp [Hcan Hcomp Hacc Hnd Hrange Hid].
  assert (forall j, clause_at s' j = clause_at s j) as Hat
    by (intros j; unfold clause_at; by rewrite Hc).
  assert (forall l, occurrences s' l = occurrences s l) as Hocc
    by (intros l; by apply occurrences_same).
  split.
  - intros j. rewrite Hat. apply Hcan.
  - intros j l. rewrite Hat, Hocc. apply Hcomp.
  - intros l j. rewrite Hat, Hocc. apply Hacc.
  - intros l. rewrite Hocc. apply Hnd.
  - intros l j. rewrite Hocc, Hc. apply Hrange.
  - unfold identity_mapping. by rewrite Hp.
Qed.

Lemma satisfies_db_same m s s' :
  clauses_ s' = clauses_ s -> satisfies_db m s -> satisfies_db m s'.
Proof.
  intros Hc Hsat j. unfold clause_at. rewrite Hc. apply Hsat.
Qed.

(** [ProcessClauseToSimplifyOthers] is sound when it does not find the
    problem unsatisfiable: it logs nothing, and every model of the new
    database is a model of the old one. *)
Lemma ProcessClauseToSimplifyOthers_sound n s clause_index s' :
  ProcessClauseToSimplifyOthers s clause_index = Some (true, s') ->
  sound_step n s s'.
Proof.
  unfold ProcessClauseToSimplifyOthers. intros Hrun es Hinv Hlog.
  destruct (FindLiteralWithShortestOccurenceList s (clause_at s clause_index))
    as [lit|] eqn:Hfind.
  2:{ injection Hrun as <-. by apply sound_step_refl. }
  apply FindLiteralWithShortestOccurenceList_elem in Hfind.
  assert (N.to_nat lit < length (literal_to_clauses_ s))%nat as Hrange.
  { eapply occurrences_in_literal_range, (inv_complete _ _ Hinv), Hfind. }
  destruct (simplify_occurrences clause_index (clause_at s clause_index) lit
              (occurrences s lit) [] 0 s)
    as [[[[[|] kept1] opp1] s1]|] eqn:Hfirst; [|done..].
  destruct (simplify_occurrences_sound n clause_index
              (clause_at s clause_index) lit (occurrences s lit) [] 0 s
              kept1 opp1 s1)
    as (Hinv1 & Hrange1 & Hclause1 & Hp1 & Hent1); [| |done| |done|].
  { simpl app. by rewrite write_occurrences_id. }
  { done. }
  { by eapply elem_of_clause_live. }
  set (sa := write_occurrences s1 lit kept1 true) in *.
  destruct (negb (occurrence_size sa lit =? Z.of_nat (length kept1)));
    [done|].
  destruct (simplify_negated_occurrences (clause_at s clause_index) lit
              (occurrences sa (Negated lit)) [] false opp1 sa)
    as [[[[[|] kept2] removed2] s2]|] eqn:Hsecond; [|done..].
  injection Hrun as <-.
  assert (presolver_inv n (write_occurrences s2 (Negated lit) kept2 true)
          /\ postsolver_ s2 = postsolver_ sa
          /\ forall m, satisfies_db m s2 -> satisfies_db m sa)
    as (Hinv2 & Hp2 & Hent2).
  { destruct (decide (N.to_nat (Negated lit)
                      < length (literal_to_clauses_ sa))%nat) as [Hin|Hout].
    - destruct (simplify_negated_occurrences_sound n
                  (clause_at s clause_index) lit
                  (occurrences sa (Negated lit)) [] false opp1
                  sa kept2 removed2 s2) as (? & ? & ? & ?); try done.
      simpl app. by rewrite write_occurrences_id.
    - assert (occurrences sa (Negated lit) = []) as Hnil.
      { unfold occurrences. rewrite list_lookup_total_alt.
        rewrite lookup_ge_None_2; [done | lia]. }
      rewrite Hnil in Hsecond. injection Hsecond as <- <- <-.
      rewrite <- Hnil, write_occurrences_id. done. }
  set (sb := write_occurrences s2 (Negated lit) kept2 true) in *.
  set (sc := set_literal_to_clause_sizes sb _).
  assert (clauses_ (if removed2
                    then UpdatePriorityQueue sc
                           (LiteralVariable (Negated lit))
                    else sc) = clauses_ s2
          /\ literal_to_clauses_ (if removed2
                    then UpdatePriorityQueue sc
                           (LiteralVariable (Negated lit))
                    else sc) = literal_to_clauses_ sb
          /\ postsolver_ (if removed2
                    then UpdatePriorityQueue sc
                           (LiteralVariable (Negated lit))
                    else sc) = postsolver_ s2) as (Hc & Hl & Hp).
  { destruct removed2; [|done].
    by destruct (UpdatePriorityQueue_frame sc (LiteralVariable (Negated lit)))
      as (-> & -> & _ & ->). }
  split.
  { apply (presolver_inv_same n sb);
      [exact Hc | exact Hl | exact Hp | exact Hinv2]. }
  exists []. rewrite app_nil_r, Hp, Hp2. split.
  { change (log_is (postsolver_ s1) es). by rewrite Hp1. }
  intros m Htotal Hsat. split; [done|].
  apply Hent1, (satisfies_db_same m sa); [done|].
  apply Hent2. eapply satisfies_db_same; [|exact Hsat]. by rewrite Hc.
Qed.

(** ** Loading the formula *)

Lemma elem_of_insert_sorted (l l' : Literal) c :
  l' ∈ insert_sorted l c <-> l' = l \/ l' ∈ c.
Proof.
  induction c as [|l0 c IH]; simpl.
  - rewrite elem_of_cons. done.
  - destruct (l <? l0)%N eqn:Hlt; [by rewrite elem_of_cons|].
    destruct (l =? l0)%N eqn:Heq.
    + apply N.eqb_eq in Heq as ->. rewrite elem_of_cons. tauto.
    + rewrite !elem_of_cons, IH. tauto.
Qed.

Lemma is_sorted_insert_sorted (l : Literal) c :
  is_sorted c = true -> is_sorted (insert_sorted l c) = true.
Proof.
  induction c as [|l0 c IH]; [done|]. intros Hs. simpl.
  destruct (l <? l0)%N eqn:Hlt.
  { apply N.ltb_lt in Hlt. apply is_sorted_cons. split; [|done].
    apply is_sorted_cons in Hs as [Hall _].
    intros l' [->|Hl']%elem_of_cons; [done|]. specialize (Hall l' Hl'). lia. }
  destruct (l =? l0)%N eqn:Heq; [done|].
  apply N.ltb_ge in Hlt. apply N.eqb_neq in Heq.
  apply is_sorted_cons in Hs as [Hall Hs]. apply is_sorted_cons.
  split; [|by apply IH].
  intros l' [->|Hl']%elem_of_insert_sorted; [lia | by apply Hall].
Qed.

Lemma sort_unique_spec c :
  is_sorted (sort_unique c) = true /\ forall l, l ∈ sort_unique c <-> l ∈ c.
Proof.
  induction c as [|l0 c [IHs IHe]]; [done|]. simpl. split.
  - by apply is_sorted_insert_sorted.
  - intros l. rewrite elem_of_insert_sorted, elem_of_cons, IHe. done.
Qed.

Lemma has_trivial_pair_true c :
  has_trivial_pair c = true -> exists l, l ∈ c /\ Negated l ∈ c.
Proof.
  induction c as [|l c IH]; [done|]. simpl. destruct c as [|l' c']; [done|].
  intros [Heq|Hrec]%orb_true_iff.
  - apply N.eqb_eq in Heq as ->. exists l.
    split; [|apply elem_of_cons; right]; apply elem_of_cons; by left.
  - destruct (IH Hrec) as (x & ? & ?). exists x.
    split; apply elem_of_cons; by right.
Qed.

Lemma has_trivial_pair_false c :
  is_sorted c = true -> has_trivial_pair c = false -> complement_free c.
Proof.
  induction c as [|l0 c IH]; intros Hs Hpair.
  { intros l Hl. inversion Hl. }
  pose proof Hs as [Hall Hs']%is_sorted_cons.
  assert (has_trivial_pair c = false /\ Negated l0 ∉ c) as [Hpair' Hn0].
  { simpl in Hpair. destruct c as [|l1 c'].
    - split; [done|]. intros H. inversion H.
    - apply orb_false_iff in Hpair as [Hne Hpair']. split; [done|].
      apply N.eqb_neq in Hne.
      apply is_sorted_cons in Hs' as [Hall' _].
      intros [Heq|Hin]%elem_of_cons; [done|].
      specialize (Hall' _ Hin).
      assert (l0 < l1)%N by (apply Hall, elem_of_cons; by left).
      destruct (Negated_cases l0) as (k & [[? ?]|[? ?]]); lia. }
  specialize (IH Hs' Hpair').
  intros l [->|Hl]%elem_of_cons [Heq|Hn]%elem_of_cons.
  - by apply (Negated_neq l0).
  - done.
  - apply Hn0. by rewrite <- Heq, Negated_involutive.
  - by apply (IH l).
Qed.

Lemma is_sorted_last (c : list Literal) l :
  is_sorted c = true -> l ∈ c -> (l <= default 0 (last c))%N.
Proof.
  revert l. induction c as [|l0 c IH]; intros l Hs Hl; [inversion Hl|].
  apply is_sorted_cons in Hs as [Hall Hs].
  destruct c as [|l1 c'].
  { apply elem_of_cons in Hl as [->|Hl]; [simpl; lia | inversion Hl]. }
  rewrite last_cons_cons.
  apply elem_of_cons in Hl as [->|Hl]; [|by apply IH].
  assert (l1 < default 0 (last (l1 :: c')) \/ l1 = default 0 (last (l1 :: c')))%N
    as Hl1.
  { assert (l1 <= default 0 (last (l1 :: c')))%N; [|lia].
    apply IH; [done|]. apply elem_of_cons. by left. }
  assert (l0 < l1)%N by (apply Hall, elem_of_cons; by left). lia.
Qed.

Lemma occurrences_resize (lists : list (list ClauseIndex)) (size i : nat) :
  (length lists < size)%nat -> resize size [] lists !!! i = lists !!! i.
Proof.
  intros Hlt. destruct (decide (i < length lists)%nat).
  { apply lookup_total_resize; lia. }
  rewrite (list_lookup_total_alt lists), lookup_ge_None_2 by lia.
  destruct (decide (i < size)%nat).
  - apply lookup_total_resize_new; lia.
  - apply lookup_total_resize_old. lia.
Qed.

(** [AddClause] of a clause that is not trivially true is
    [AddClauseInternal] of the sorted clause, once the occurrence lists have
    been extended to its literals. *)
Lemma AddClause_as_internal s clause :
  clause <> [] -> equiv_mapping_ s = [] ->
  has_trivial_pair (sort_unique clause) = false ->
  exists s0,
    AddClause s clause = AddClauseInternal s0 (sort_unique clause)
    /\ clauses_ s0 = clauses_ s /\ postsolver_ s0 = postsolver_ s
    /\ equiv_mapping_ s0 = []
    /\ (forall l, occurrences s0 l = occurrences s l)
    /\ forall l, l ∈ sort_unique clause ->
         (N.to_nat l < length (literal_to_clauses_ s0))%nat.
Proof.
  intros Hne Hequiv Hpair.
  destruct (sort_unique_spec clause) as [Hsorted Helem].
  set (cr := sort_unique clause) in *.
  set (required := Z.to_nat (Z.max (Index (default 0%N (last cr)))
                               (NegatedIndex (default 0%N (last cr))) + 1)).
  exists (if (length (literal_to_clauses_ s) <? required)%nat
          then set_literal_to_clause_sizes
                 (set_literal_to_clauses s
                    (resize required [] (literal_to_clauses_ s)))
                 (resize required 0 (literal_to_clause_sizes_ s))
          else s).
  assert (cr <> []) as Hcr.
  { destruct clause as [|l0 c0]; [done|]. intros Hnil.
    assert (l0 ∈ cr) as Hin by (apply Helem, elem_of_cons; by left).
    rewrite Hnil in Hin. inversion Hin. }
  split.
  { unfold AddClause, AddClauseInternal, apply_equiv_mapping.
    rewrite Hequiv. fold cr. rewrite Hpair.
    destruct clause as [|l0 c0]; [done|]. destruct cr as [|l1 c1]; [done|].
    fold required. simpl literal_to_clauses_.
    by destruct (length (literal_to_clauses_ s) <? required)%nat. }
  destruct (length (literal_to_clauses_ s) <? required)%nat eqn:Hlen.
  - apply Nat.ltb_lt in Hlen. simpl.
    split; [done|]. split; [done|]. split; [done|]. split.
    + intros l. unfold occurrences. simpl. by apply occurrences_resize.
    + intros l Hl. rewrite length_resize.
      pose proof (is_sorted_last cr l Hsorted Hl). unfold required, Index.
      lia.
  - apply Nat.ltb_ge in Hlen.
    split; [done|]. split; [done|]. split; [done|]. split; [done|].
    intros l Hl.
    pose proof (is_sorted_last cr l Hsorted Hl). unfold required, Index in *.
    lia.
Qed.

Lemma add_occurrences_equiv_mapping ci c :
  forall s, equiv_mapping_ (foldl (add_occurrence ci) s c) = equiv_mapping_ s.
Proof. induction c as [|e c IH]; intros s; [done|]. simpl. by rewrite IH. Qed.

Lemma presolver_inv_view n s s' :
  clauses_ s' = clauses_ s ->
  (forall l, occurrences s' l = occurrences s l) ->
  postsolver_ s' = postsolver_ s ->
  presolver_inv n s -> presolver_inv n s'.
Proof.
  intros Hc Hocc Hp [Hcan Hcomp Hacc Hnd Hrange Hid].
  assert (forall j, clause_at s' j = clause_at s j) as Hat
    by (intros j; unfold clause_at; by rewrite Hc).
  split.
  - intros j. rewrite Hat. apply Hcan.
  - intros j l. rewrite Hat, Hocc. apply Hcomp.
  - intros l j. rewrite Hat, Hocc. apply Hacc.
  - intros l. rewrite Hocc. apply Hnd.
  - intros l j. rewrite Hocc, Hc. apply Hrange.
  - unfold identity_mapping. by rewrite Hp.
Qed.

(** A clause with a complementary pair is true in every assignment of its
    variables. *)
Lemma trivial_clause_satisfied n m clause l :
  total_on n m -> (LiteralVariable l < N.of_nat n)%N ->
  l ∈ clause -> Negated l ∈ clause ->
  clause_satisfied m clause = true.
Proof.
  intros Htotal Hvar Hl Hn. apply clause_satisfied_spec.
  destruct (LiteralIsTrue m l) eqn:Htrue; [by exists l|].
  exists (Negated l). split; [done|].
  apply false_literal_negation_true; [|done]. by apply Htotal.
Qed.

(** [AddClause] keeps the invariants, and the models of the new database
    satisfy the added clause. *)
Lemma AddClause_sound n s clause s' :
  presolver_inv n s -> equiv_mapping_ s = [] ->
  AddClause s clause = Some s' ->
  presolver_inv n s' /\ equiv_mapping_ s' = []
  /\ postsolver_ s' = postsolver_ s
  /\ (forall m, satisfies_db m s' -> satisfies_db m s)
  /\ forall m, total_on n m ->
       (forall l, l ∈ clause -> (LiteralVariable l < N.of_nat n)%N) ->
       satisfies_db m s' -> clause_satisfied m clause = true.
Proof.
  intros Hinv Hequiv Hadd.
  assert (clause <> []) as Hne by (by intros ->).
  destruct (sort_unique_spec clause) as [Hsorted Helem].
  destruct (has_trivial_pair (sort_unique clause)) eqn:Hpair.
  - assert (s' = set_num_trivial_clauses s (num_trivial_clauses_ s + 1))
      as ->.
    { unfold AddClause, apply_equiv_mapping in Hadd.
      rewrite Hequiv, Hpair in Hadd. destruct clause; [done|].
      by injection Hadd as <-. }
    split; [by apply (presolver_inv_same n s)|].
    split; [done|]. split; [done|]. split; [done|].
    intros m Htotal Hvars _.
    apply has_trivial_pair_true in Hpair as (l & Hl & Hn).
    apply Helem in Hl, Hn.
    apply (trivial_clause_satisfied n m clause l); [done| |done..].
    by apply Hvars.
  - destruct (AddClause_as_internal s clause Hne Hequiv Hpair)
      as (s0 & Heq & Hc0 & Hp0 & Hequiv0 & Hocc0 & Hrange0).
    rewrite Heq in Hadd.
    assert (presolver_inv n s0) as Hinv0 by (by eapply presolver_inv_view).
    assert (canonical (sort_unique clause) = true) as Hcanon.
    { apply canonical_spec. split; [done|].
      by apply has_trivial_pair_false. }
    destruct (AddClauseInternal_inv n s0 _ s' Hinv0 Hcanon Hrange0 Hadd)
      as (Hinv' & Hc' & Hp' & _).
    pose proof (clause_at_snoc s0 (sort_unique clause)) as Hat.
    split; [done|]. split.
    { rewrite (AddClauseInternal_unfold _ _ _ Hadd).
      by rewrite add_occurrences_equiv_mapping. }
    split; [congruence|]. split.
    + intros m Hsat j Hlive.
      assert (clause_at s j = clause_at s0 j) as Hj0
        by (unfold clause_at; by rewrite Hc0).
      rewrite Hj0 in Hlive |- *.
      specialize (Hsat j). rewrite (Hat j s' Hc') in Hsat.
      apply live_clause_in_range in Hlive as Hlt.
      rewrite decide_True in Hsat by done. by apply Hsat.
    + intros m _ _ Hsat.
      specialize (Hsat (length (clauses_ s0))).
      rewrite (Hat _ s' Hc'), decide_False, decide_True in Hsat by (done || lia).
      apply clause_satisfied_spec in Hsat as (l & Hl & Htrue).
      * apply clause_satisfied_spec. exists l. split; [by apply Helem|done].
      * intros Hnil. destruct clause as [|l0 c0]; [done|].
        assert (l0 ∈ sort_unique (l0 :: c0)) as Hin
          by (apply Helem, elem_of_cons; by left).
        rewrite Hnil in Hin. inversion Hin.
Qed.

(** ** Any sequence of presolve operations is sound *)

Lemma presolve_step_sound n s s' : presolve_step s s' -> sound_step n s s'.
Proof.
  intros [s0 ci s1 Hrun|s0 x r s1 Hrun|s0 flags queue elements pq].
  - by eapply ProcessClauseToSimplifyOthers_sound.
  - by eapply CrossProduct_sound.
  - intros es Hinv Hlog. split; [by apply (presolver_inv_same n s0)|].
    exists []. rewrite app_nil_r. split; [done|].
    intros m Htotal Hsat. split; [done|]. exact Hsat.
Qed.

Lemma presolve_steps_sound n s s' : presolve_steps s s' -> sound_step n s s'.
Proof.
  induction 1 as [s|s s1 s' Hstep _ IH]; [apply sound_step_refl|].
  eapply sound_step_trans; [|exact IH]. by apply presolve_step_sound.
Qed.

(** A run of [ProcessAllClauses] that does not find the problem
    unsatisfiable is a sequence of presolve operations. *)
Lemma ProcessAllClauses_steps fuel :
  forall s s', ProcessAllClauses fuel s = Some (true, s') ->
    presolve_steps s s'.
Proof.
  induction fuel as [|fuel IH]; intros s s' Hrun; [done|].
  cbn [ProcessAllClauses] in Hrun.
  destruct (clause_to_process_ s) as [|ci queue] eqn:Hqueue.
  { injection Hrun as <-. apply presolve_steps_done. }
  cbv zeta in Hrun.
  set (s0 := set_clause_queue s _ queue) in *.
  destruct (ProcessClauseToSimplifyOthers s0 ci) as [[[|] s1]|] eqn:Hstep;
    [|done..].
  apply (presolve_steps_next s s0).
  { pose proof (step_schedule s (<[ci := false]> (in_clause_to_process_ s))
                  queue (var_pq_elements_ s) (var_pq_ s)) as Hs.
    by destruct s. }
  apply (presolve_steps_next s0 s1); [by eapply step_process | by apply IH].
Qed.

Lemma presolve_steps_trans s1 s2 s3 :
  presolve_steps s1 s2 -> presolve_steps s2 s3 -> presolve_steps s1 s3.
Proof.
  induction 1 as [s|s sa sb Hstep _ IH]; [done|].
  intros Hrest. eapply presolve_steps_next; [exact Hstep | by apply IH].
Qed.

Lemma SatPresolver_new_inv n t w :
  presolver_inv n (SatPresolver_new (SatPostsolver_new n) t w).
Proof.
  split; try done.
  - intros ci l H. inversion H.
  - intros l ci H. inversion H.
  - intros l. apply NoDup_nil_2.
  - intros l ci H. inversion H.
Qed.

Lemma foldl_AddClause_None formula :
  foldl (fun state clause => state ≫= fun s => AddClause s clause)
    None formula = None.
Proof. induction formula as [|c formula IH]; [done|]. simpl. exact IH. Qed.

(** Loading a formula keeps the invariants, logs nothing, and the models of
    the database satisfy every clause of the formula. *)
Lemma load_clauses_sound n formula :
  forall s sF,
    presolver_inv n s -> equiv_mapping_ s = [] ->
    foldl (fun state clause => state ≫= fun s => AddClause s clause)
      (Some s) formula = Some sF ->
    presolver_inv n sF /\ postsolver_ sF = postsolver_ s
    /\ forall m, total_on n m ->
         satisfies_db m sF ->
         forall c, c ∈ formula ->
           (forall l, l ∈ c -> (LiteralVariable l < N.of_nat n)%N) ->
           clause_satisfied m c = true.
Proof.
  induction formula as [|c0 formula IH]; intros s sF Hinv Hequiv Hload.
  { injection Hload as <-. split; [done|]. split; [done|].
    intros m _ _ c Hc. inversion Hc. }
  cbn [foldl] in Hload. simpl mbind in Hload.
  destruct (AddClause s c0) as [s1|] eqn:Hadd.
  2:{ by rewrite foldl_AddClause_None in Hload. }
  destruct (AddClause_sound n s c0 s1 Hinv Hequiv Hadd)
    as (Hinv1 & Hequiv1 & Hp1 & Hent1 & Hsat1).
  destruct (IH s1 sF Hinv1 Hequiv1 Hload) as (HinvF & HpF & Hall).
  split; [done|]. split; [congruence|].
  intros m Htotal Hsat c [->|Hc]%elem_of_cons Hvars; [|by eapply Hall].
  apply Hsat1; [done..|].
  clear -Hload Hinv1 Hequiv1 Hsat.
  revert s1 Hinv1 Hequiv1 Hload.
  induction formula as [|c1 formula IH]; intros s1 Hinv1 Hequiv1 Hload.
  { by injection Hload as <-. }
  cbn [foldl] in Hload. simpl mbind in Hload.
  destruct (AddClause s1 c1) as [s2|] eqn:Hadd.
  2:{ by rewrite foldl_AddClause_None in Hload. }
  destruct (AddClause_sound n s1 c1 s2 Hinv1 Hequiv1 Hadd)
    as (Hinv2 & Hequiv2 & _ & Hent2 & _).
  apply Hent2. by eapply IH.
Qed.

Lemma assign_unassigned_total a :
  total_on (NumberOfVariables a) (assign_unassigned a).
Proof.
  intros v Hv. rewrite <- (N2Nat.id v).
  apply assign_unassigned_assigned. lia.
Qed.

Lemma assign_unassigned_satisfies a s :
  satisfies_db a s -> satisfies_db (assign_unassigned a) s.
Proof.
  intros Hsat ci Hlive.
  destruct (proj1 (clause_satisfied_spec _ _) (Hsat ci Hlive))
    as (l & Hl & Htrue).
  apply clause_satisfied_spec. exists l. split; [done|].
  apply LiteralIsTrue_spec in Htrue. apply LiteralIsTrue_spec.
  by apply assign_unassigned_keeps.
Qed.

(** Postsolve soundness without the prober.  A formula [F] over [n]
    variables is added to
    a new presolver, whose postsolver is new; any sequence of presolve
    operations (subsumption and strengthening by
    [ProcessClauseToSimplifyOthers], blocked clause and variable elimination
    by [CrossProduct], in any order and on any clause and literal) turns the
    database into [F'] and fills the log.  Then for every assignment [A] of
    the [n] variables that satisfies every clause of [F'], [Postsolve] turns
    [A] into an assignment that satisfies every clause of [F]. *)
Lemma presolve_round_trip (n : nat) (threshold weight : Z)
    (F : list (list Literal)) (sF s' : SatPresolver)
    (A : VariablesAssignment) :
  presolver_of_clauses (SatPostsolver_new n) threshold weight F = Some sF ->
  (forall c l, c ∈ F -> l ∈ c -> (LiteralVariable l < N.of_nat n)%N) ->
  presolve_steps sF s' ->
  NumberOfVariables A = n ->
  satisfies_db A s' ->
  forall c, c ∈ F ->
    clause_satisfied (Postsolve (postsolver_ s') A) c = true.
Proof.
  intros Hload Hvars Hsteps HA Hmodel c Hc.
  destruct (load_clauses_sound n F _ sF (SatPresolver_new_inv n threshold weight)
              eq_refl Hload) as (HinvF & HpF & HsatF).
  assert (log_is (postsolver_ sF) []) as HlogF by (by rewrite HpF).
  destruct (presolve_steps_sound n sF s' Hsteps [] HinvF HlogF)
    as (_ & new & Hlog & Hrec).
  rewrite (Postsolve_replay_entries _ _ A Hlog).
  destruct (Hrec (assign_unassigned A)) as [Htotal Hsat].
  { rewrite <- HA. apply assign_unassigned_total. }
  { by apply assign_unassigned_satisfies. }
  apply (HsatF _ Htotal Hsat c Hc). intros l Hl. by eapply Hvars.
Qed.

Example presolve_round_trip_example :
  let F : list (list Literal) := [[0; 2]; [1; 4]; [0; 2; 4]]%N in
  let A := {| NumberOfVariables := 3;
              values := {[ 1%N := false; 2%N := true ]} |} in
  exists sF s1 s',
    presolver_of_clauses (SatPostsolver_new 3) 500 3 F = Some sF
    /\ ProcessAllClauses 4 sF = Some (true, s1)
    /\ clauses_ s1 = [[0; 2]; [1; 4]; []]%N
    /\ CrossProduct s1 0%N = Some (true, s')
    /\ clauses_ s' = [[]; []; []; [2; 4]]%N
    /\ log_is (postsolver_ s') [(0, [0; 2]); (1, [1; 4])]%N
    /\ satisfies_db A s'
    /\ forall c, c ∈ F ->
         clause_satisfied (Postsolve (postsolver_ s') A) c = true.
Proof.
  intros F A. eexists _, _, _.
  split; [vm_compute; reflexivity|].
  split; [vm_compute; reflexivity|].
  split; [vm_compute; reflexivity|].
  split; [vm_compute; reflexivity|].
  split; [vm_compute; reflexivity|].
  split; [vm_compute; done|].
  match goal with
  | |- satisfies_db A ?s /\ _ => assert (satisfies_db A s) as Hmodel
  end.
  { intros [|[|[|[|ci]]]] Hlive; vm_compute in Hlive |- *; done. }
  split; [exact Hmodel|].
  eapply (presolve_round_trip 3 500 3 F _ _ A).
  - vm_compute. reflexivity.
  - intros c l Hc. revert l. apply Forall_forall. revert c Hc.
    apply Forall_forall. decide_by_compute.
  - eapply presolve_steps_trans.
    { apply (ProcessAllClauses_steps 4). vm_compute. reflexivity. }
    eapply presolve_steps_next; [|apply presolve_steps_done].
    eapply (step_eliminate _ 0%N). vm_compute. reflexivity.
  - reflexivity.
  - exact Hmodel.
Defined.

(** * The other entry points of the postsolver *)

(** ** [ApplyMapping] *)

Lemma ApplyMapping_loop_sound R :
  forall m v nm nm',
    ApplyMapping_loop R v m nm = Some nm' ->
    length nm' = length nm
    /\ (forall k image, m !! k = Some image -> image <> -1 ->
          0 <= image /\ nm !! Z.to_nat image = Some (-1)
          /\ exists orig, R !! (v + k)%nat = Some orig /\ orig <> -1
               /\ nm' !! Z.to_nat image = Some orig)
    /\ (forall i, (forall k, m !! k <> Some (Z.of_nat i)) ->
          nm' !! i = nm !! i)
    /\ (forall k k' image, m !! k = Some image -> m !! k' = Some image ->
          image <> -1 -> k = k').
Proof.
  induction m as [|image m IH]; intros v nm nm' Hrun.
  { injection Hrun as <-. split; [done|]. split; [|split; [done|]].
    - intros k image Hk. by rewrite lookup_nil in Hk.
    - intros k k' image Hk. by rewrite lookup_nil in Hk. }
  cbn [ApplyMapping_loop] in Hrun.
  destruct (image =? -1) eqn:Hdead.
  { apply Z.eqb_eq in Hdead as ->.
    destruct (IH _ _ _ Hrun) as (Hlen & Hkept & Hother & Hinj).
    split; [done|]. split; [|split].
    - intros [|k] image Hk Himage.
      + by injection Hk as <-.
      + replace (v + S k)%nat with (S v + k)%nat by lia. by apply Hkept.
    - intros i Hi. apply Hother. intros k. apply (Hi (S k)).
    - intros [|k] [|k'] image Hk Hk' Hne; try done.
      + by injection Hk as <-.
      + by injection Hk' as <-.
      + f_equal. by eapply Hinj. }
  apply Z.eqb_neq in Hdead.
  destruct (image <? 0) eqn:Hneg; [done|]. apply Z.ltb_ge in Hneg.
  destruct (nm !! Z.to_nat image) as [current|] eqn:Hcurrent; [|done].
  destruct (R !! v) as [original|] eqn:Horiginal; [|done].
  destruct (current =? -1) eqn:Hfree; [|done]. apply Z.eqb_eq in Hfree as ->.
  destruct (original =? -1) eqn:Hlive; [done|]. apply Z.eqb_neq in Hlive.
  simpl in Hrun.
  destruct (IH _ _ _ Hrun) as (Hlen & Hkept & Hother & Hinj).
  rewrite length_insert in Hlen.
  assert (Z.to_nat image < length nm)%nat as Hrange
    by (by eapply lookup_lt_Some).
  assert (forall k, m !! k <> Some image) as Hfresh.
  { intros k Hk. destruct (Hkept k image Hk Hdead) as (_ & Hslot & _).
    rewrite list_lookup_insert_eq in Hslot by done. congruence. }
  split; [done|]. split; [|split].
  - intros [|k] image' Hk Himage'.
    + injection Hk as <-. split; [done|]. split; [done|].
      exists original. rewrite Nat.add_0_r. split; [done|]. split; [done|].
      rewrite Hother.
      * by apply list_lookup_insert_eq.
      * intros k. rewrite Z2Nat.id by done. apply Hfresh.
    + change (m !! k = Some image') in Hk.
      destruct (Hkept k image' Hk Himage')
        as (Hpos & Hslot & orig & Horig & Hne & Hset).
      split; [done|]. split.
      * rewrite list_lookup_insert_ne in Hslot; [done|].
        intros Heq. apply (Hfresh k). rewrite Hk. f_equal. lia.
      * exists orig. by replace (v + S k)%nat with (S v + k)%nat by lia.
  - intros i Hi. rewrite Hother by (intros k; apply (Hi (S k))).
    apply list_lookup_insert_ne. intros <-. apply (Hi 0%nat). simpl.
    by rewrite Z2Nat.id.
  - intros [|k] [|k'] image' Hk Hk' Hne; try done.
    + injection Hk as <-. by destruct (Hfresh k').
    + injection Hk' as <-. by destruct (Hfresh k).
    + f_equal. by eapply Hinj.
Qed.

Lemma ApplyMapping_loop_complete R :
  forall m v nm,
    (forall k image, m !! k = Some image -> image <> -1 ->
       0 <= image /\ nm !! Z.to_nat image = Some (-1)
       /\ exists orig, R !! (v + k)%nat = Some orig /\ orig <> -1) ->
    (forall k k' image, m !! k = Some image -> m !! k' = Some image ->
       image <> -1 -> k = k') ->
    exists nm', ApplyMapping_loop R v m nm = Some nm'.
Proof.
  induction m as [|image m IH]; intros v nm Hkept Hinj; [by eexists|].
  cbn [ApplyMapping_loop].
  assert (forall k k' image', m !! k = Some image' -> m !! k' = Some image' ->
            image' <> -1 -> k = k') as Hinj'.
  { intros k k' image' Hk Hk' Hne.
    assert (S k = S k') by (by eapply Hinj). lia. }
  destruct (image =? -1) eqn:Hdead.
  { apply IH; [|done]. intros k image' Hk Hne.
    replace (S v + k)%nat with (v + S k)%nat by lia. by apply Hkept. }
  apply Z.eqb_neq in Hdead.
  destruct (Hkept 0%nat image eq_refl Hdead)
    as (Hpos & Hslot & orig & Horig & Hlive).
  rewrite Nat.add_0_r in Horig.
  destruct (image <? 0) eqn:Hneg; [apply Z.ltb_lt in Hneg; lia|].
  rewrite Hslot, Horig. simpl.
  destruct (orig =? -1) eqn:Heq; [apply Z.eqb_eq in Heq; done|]. simpl.
  apply IH; [|done]. intros k image' Hk Hne.
  destruct (Hkept (S k) image' Hk Hne) as (Hpos' & Hslot' & Horig').
  split; [done|]. split.
  - rewrite list_lookup_insert_ne; [done|]. intros Heq'.
    assert (image' = image) as -> by lia.
    assert (S k = 0)%nat by (by eapply Hinj). lia.
  - by replace (S v + k)%nat with (v + S k)%nat by lia.
Qed.

(** For a mapping [M] whose images are [-1] or indices of the reverse
    mapping (the only ones for which the accesses to [new_mapping] are
    defined), [ApplyMapping(M)] passes its three [CHECK]s exactly when the
    variables that [M] does not send to [-1] are variables that the reverse
    mapping still knows, and no two of them are sent to the same index.
    Variables sent to [-1] are not looked at. *)
Theorem ApplyMapping_checks (p : SatPostsolver) (mapping : list Z) :
  (forall v image, mapping !! v = Some image -> image <> -1 ->
     0 <= image < Z.of_nat (length (reverse_mapping_ p))) ->
  is_Some (ApplyMapping p mapping) <->
  (forall v image, mapping !! v = Some image -> image <> -1 ->
     exists orig, reverse_mapping_ p !! v = Some orig /\ orig <> -1)
  /\ (forall v v' image, mapping !! v = Some image ->
        mapping !! v' = Some image -> image <> -1 -> v = v').
Proof.
  intros Hrange. unfold ApplyMapping. split.
  - intros [p' Hrun].
    destruct (ApplyMapping_loop _ 0 mapping _) as [nm|] eqn:Hloop; [|done].
    destruct (ApplyMapping_loop_sound _ _ _ _ _ Hloop)
      as (_ & Hkept & _ & Hinj).
    split; [|done]. intros v image Hv Hne.
    destruct (Hkept v image Hv Hne) as (_ & _ & orig & Horig & Hlive & _).
    by exists orig.
  - intros [Hkept Hinj].
    destruct (ApplyMapping_loop_complete (reverse_mapping_ p) mapping 0
                (replicate (length (reverse_mapping_ p)) (-1)))
      as [nm ->]; [|done|by eexists].
    intros k image Hk Hne. specialize (Hrange k image Hk Hne).
    split; [lia|]. split; [|exact (Hkept k image Hk Hne)].
    apply lookup_replicate_2. lia.
Qed.

Lemma ApplyMapping_checks_witness :
  let p := SatPostsolver_new 3 in
  let mapping := [1; -1; 0] in
  is_Some (ApplyMapping p mapping) <->
  (forall v image, mapping !! v = Some image -> image <> -1 ->
     exists orig, reverse_mapping_ p !! v = Some orig /\ orig <> -1)
  /\ (forall v v' image, mapping !! v = Some image ->
        mapping !! v' = Some image -> image <> -1 -> v = v').
Proof.
  intros p mapping. apply ApplyMapping_checks.
  intros [|[|[|v]]] image Hv Hne; vm_compute in Hv; [..|done];
    injection Hv as <-; vm_compute; split; congruence.
Defined.

(** After [ApplyMapping(M)], the postsolver translates the new name of a
    variable to what it translated the old name to; the indices that are
    not a new name translate to nothing.  The size of the reverse mapping,
    the log and the assignment are not changed. *)
Theorem ApplyMapping_translation (p p' : SatPostsolver) (mapping : list Z) :
  ApplyMapping p mapping = Some p' ->
  length (reverse_mapping_ p') = length (reverse_mapping_ p)
  /\ associated_literal_ p' = associated_literal_ p
  /\ clauses_start_ p' = clauses_start_ p
  /\ clauses_literals_ p' = clauses_literals_ p
  /\ assignment_ p' = assignment_ p
  /\ (forall v image b, mapping !! v = Some image -> image <> -1 ->
        is_Some (ApplyReverseMapping p (MakeLiteral (N.of_nat v) b))
        /\ ApplyReverseMapping p' (MakeLiteral (Z.to_N image) b)
           = ApplyReverseMapping p (MakeLiteral (N.of_nat v) b))
  /\ (forall i b, (forall v, mapping !! v <> Some (Z.of_nat i)) ->
        ApplyReverseMapping p' (MakeLiteral (N.of_nat i) b) = None).
Proof.
  unfold ApplyMapping. intros Hrun.
  destruct (ApplyMapping_loop _ 0 mapping _) as [nm|] eqn:Hloop; [|done].
  injection Hrun as <-. simpl.
  destruct (ApplyMapping_loop_sound _ _ _ _ _ Hloop)
    as (Hlen & Hkept & Hother & _).
  rewrite length_replicate in Hlen.
  repeat (split; [done|]). split.
  - intros v image b Hv Hne.
    destruct (Hkept v image Hv Hne) as (Hpos & _ & orig & Horig & Hlive & Hset).
    change (reverse_mapping_ p !! v = Some orig) in Horig.
    unfold ApplyReverseMapping. simpl.
    rewrite !LiteralVariable_MakeLiteral, !IsPositive_MakeLiteral.
    rewrite Nat2N.id, Z_N_nat, Hset, Horig.
    apply Z.eqb_neq in Hlive. rewrite Hlive. by split; [eexists|].
  - intros i b Hi. unfold ApplyReverseMapping. simpl.
    rewrite LiteralVariable_MakeLiteral, Nat2N.id, (Hother i Hi).
    destruct (decide (i < length (reverse_mapping_ p))%nat).
    + by rewrite lookup_replicate_2.
    + rewrite lookup_ge_None_2; [done|]. rewrite length_replicate. lia.
Qed.

Lemma ApplyMapping_translation_witness :
  let p := SatPostsolver_new 3 in
  exists p',
    ApplyMapping p [-1; 0; 1] = Some p'
    /\ reverse_mapping_ p' = [1; 2; -1]
    /\ ApplyReverseMapping p' (MakeLiteral (Z.to_N 1) false)
       = ApplyReverseMapping p (MakeLiteral (N.of_nat 2) false)
    /\ ApplyReverseMapping p' (MakeLiteral (N.of_nat 2) true) = None.
Proof.
  intros p. eexists. split; [vm_compute; reflexivity|].
  split; [reflexivity|].
  match goal with
  | |- ApplyReverseMapping ?q _ = _ /\ _ =>
    destruct (ApplyMapping_translation p q [-1; 0; 1])
      as (_ & _ & _ & _ & _ & Hkept & Hdead); [vm_compute; reflexivity|]
  end.
  split.
  - apply (Hkept 2%nat 1 false); [reflexivity | lia].
  - apply (Hdead 2%nat true).
    intros [|[|[|v]]]; vm_compute; congruence.
Defined.

(** ** What [Postsolve] leaves alone *)

Lemma Postsolve_step_frame cl x new_start previous_start a v :
  LiteralVariable x <> v ->
  values (Postsolve_step cl x new_start previous_start a) !! v
  = values a !! v.
Proof.
  intros Hne. unfold Postsolve_step. destruct (negb _); [|done].
  unfold AssignFromTrueLiteral, UnassignLiteral. cbn [values].
  by rewrite lookup_insert_ne, lookup_delete_ne.
Qed.

Lemma Postsolve_step_assigned cl x new_start previous_start a v :
  is_Some (values a !! v) ->
  is_Some (values (Postsolve_step cl x new_start previous_start a) !! v).
Proof.
  intros Hv. unfold Postsolve_step. destruct (negb _); [|done].
  unfold AssignFromTrueLiteral, UnassignLiteral. cbn [values].
  destruct (decide (LiteralVariable x = v)) as [->|Hne].
  - rewrite lookup_insert_eq. by eexists.
  - by rewrite lookup_insert_ne, lookup_delete_ne.
Qed.

Lemma Postsolve_loop_frame cl entries :
  forall previous_start a v,
    (forall e, e ∈ entries -> LiteralVariable e.1 <> v) ->
    values (Postsolve_loop cl entries previous_start a) !! v = values a !! v.
Proof.
  induction entries as [|[x start] entries IH]; intros previous_start a v Hv;
    [done|].
  cbn [Postsolve_loop]. rewrite IH.
  - apply Postsolve_step_frame. apply (Hv (x, start)), elem_of_cons. by left.
  - intros e He. apply Hv, elem_of_cons. by right.
Qed.

Lemma Postsolve_loop_assigned cl entries :
  forall previous_start a v,
    is_Some (values a !! v) ->
    is_Some (values (Postsolve_loop cl entries previous_start a) !! v).
Proof.
  induction entries as [|[x start] entries IH]; intros previous_start a v Hv;
    [done|].
  cbn [Postsolve_loop]. by apply IH, Postsolve_step_assigned.
Qed.

Lemma Postsolve_keeps_assigned p a v :
  is_Some (values a !! v) -> is_Some (values (Postsolve p a) !! v).
Proof.
  intros [b Hb]. apply Postsolve_loop_assigned.
  exists b. by apply assign_unassigned_keeps.
Qed.

Lemma Postsolve_frame p a v :
  (forall x, x ∈ associated_literal_ p -> LiteralVariable x <> v) ->
  values (Postsolve p a) !! v = values (assign_unassigned a) !! v.
Proof.
  intros Hv. apply Postsolve_loop_frame. intros [x start] He. simpl.
  apply Hv. apply list_elem_of_In, in_rev, list_elem_of_In in He.
  apply elem_of_zip_l in He. exact He.
Qed.

(** [Postsolve] only changes the variables of the associated literals of
    the log.  Every other variable keeps the value it has in the given
    assignment, or becomes true when it has none and is one of the
    variables of the assignment. *)
Theorem Postsolve_untouched_variables (p : SatPostsolver)
    (a : VariablesAssignment) (v : VariableIndex) :
  (forall x, x ∈ associated_literal_ p -> LiteralVariable x <> v) ->
  values (Postsolve p a) !! v
  = match values a !! v with
    | Some b => Some b
    | None =>
      if bool_decide (v < N.of_nat (NumberOfVariables a))%N then Some true
      else None
    end.
Proof.
  intros Hv. rewrite (Postsolve_frame p a v Hv).
  apply assign_unassigned_values.
Qed.

Lemma Postsolve_untouched_variables_witness :
  let p := {| reverse_mapping_ := [0; 1; 2];
              associated_literal_ := [0; 1]%N;
              clauses_start_ := [0; 2]%nat;
              clauses_literals_ := [0; 2; 1; 4]%N;
              assignment_ := empty_assignment 3 |} in
  let a := {| NumberOfVariables := 3; values := {[ 1%N := false ]} |} in
  values (Postsolve p a) !! 1%N = Some false
  /\ values (Postsolve p a) !! 2%N = Some true.
Proof.
  intros p a. split.
  - apply (Postsolve_untouched_variables p a 1%N).
    intros x Hx. revert x Hx. apply Forall_forall. decide_by_compute.
  - apply (Postsolve_untouched_variables p a 2%N).
    intros x Hx. revert x Hx. apply Forall_forall. decide_by_compute.
Defined.

(** ** [PostsolveSolution] *)

Lemma VariableIsAssigned_false a v :
  VariableIsAssigned a v = false <-> values a !! v = None.
Proof.
  unfold VariableIsAssigned. rewrite bool_decide_eq_false.
  rewrite <- eq_None_not_Some. done.
Qed.

Lemma seed_solution_sound R :
  forall solution var a a',
    seed_solution R var solution a = Some a' ->
    NumberOfVariables a' = NumberOfVariables a
    /\ (forall k b, solution !! k = Some b ->
          exists orig, R !! (var + k)%nat = Some orig /\ 0 <= orig
            /\ values a !! Z.to_N orig = None
            /\ values a' !! Z.to_N orig = Some b)
    /\ (forall k k' orig, (k < length solution)%nat ->
          (k' < length solution)%nat ->
          R !! (var + k)%nat = Some orig -> R !! (var + k')%nat = Some orig ->
          k = k')
    /\ (forall u,
          (forall k orig, (k < length solution)%nat ->
             R !! (var + k)%nat = Some orig -> Z.to_N orig <> u) ->
          values a' !! u = values a !! u).
Proof.
  induction solution as [|value solution IH]; intros var a a' Hrun.
  { injection Hrun as <-. split; [done|]. split; [|split; [|done]].
    - intros k b Hk. by rewrite lookup_nil in Hk.
    - intros k k' orig Hk. simpl in Hk. lia. }
  cbn [seed_solution] in Hrun.
  destruct (R !! var) as [original|] eqn:Horiginal; [|done].
  destruct (original <? 0) eqn:Hneg; [done|]. apply Z.ltb_ge in Hneg.
  destruct (VariableIsAssigned a (Z.to_N original)) eqn:Hfree; [done|].
  apply VariableIsAssigned_false in Hfree.
  destruct (IH _ _ _ Hrun) as (Hnum & Hseeded & Hinj & Hframe).
  unfold AssignFromTrueLiteral in Hseeded, Hframe. cbn [values] in *.
  rewrite LiteralVariable_MakeLiteral, IsPositive_MakeLiteral in *.
  assert (forall k orig, (k < length solution)%nat ->
            R !! (S var + k)%nat = Some orig -> Z.to_N orig <> Z.to_N original)
    as Hfresh.
  { intros k orig Hk Horig Heq.
    destruct (lookup_lt_is_Some_2 solution k Hk) as [b Hb].
    destruct (Hseeded k b Hb) as (orig' & Horig' & _ & Hnone & _).
    assert (orig' = orig) as -> by congruence.
    by rewrite Heq, lookup_insert_eq in Hnone. }
  split; [done|]. split; [|split].
  - intros [|k] b Hk.
    + injection Hk as <-. exists original. rewrite Nat.add_0_r.
      split; [done|]. split; [done|]. split; [done|].
      rewrite Hframe by done. apply lookup_insert_eq.
    + change (solution !! k = Some b) in Hk.
      destruct (Hseeded k b Hk) as (orig & Horig & Hpos & Hnone & Hset).
      exists orig. replace (var + S k)%nat with (S var + k)%nat by lia.
      split; [done|]. split; [done|]. split; [|done].
      apply lookup_insert_None in Hnone as [? _]. done.
  - intros [|k] [|k'] orig Hk Hk' Horig Horig'; cbn [length] in *.
    + done.
    + rewrite Nat.add_0_r in Horig.
      replace (var + S k')%nat with (S var + k')%nat in Horig' by lia.
      destruct (Hfresh k' orig); [lia|done|congruence].
    + rewrite Nat.add_0_r in Horig'.
      replace (var + S k)%nat with (S var + k)%nat in Horig by lia.
      destruct (Hfresh k orig); [lia|done|congruence].
    + f_equal. apply (Hinj k k' orig); [lia|lia| |].
      * by replace (S var + k)%nat with (var + S k)%nat by lia.
      * by replace (S var + k')%nat with (var + S k')%nat by lia.
  - intros u Hu. rewrite Hframe.
    + apply lookup_insert_ne. apply (Hu 0%nat original).
      * cbn [length]. lia.
      * by rewrite Nat.add_0_r.
    + intros k orig Hk Horig. apply (Hu (S k) orig).
      * cbn [length]. lia.
      * by replace (var + S k)%nat with (S var + k)%nat by lia.
Qed.

Lemma seed_solution_complete R :
  forall solution var a,
    (forall k, (k < length solution)%nat ->
       exists orig, R !! (var + k)%nat = Some orig /\ 0 <= orig
         /\ values a !! Z.to_N orig = None) ->
    (forall k k' orig, (k < length solution)%nat ->
       (k' < length solution)%nat ->
       R !! (var + k)%nat = Some orig -> R !! (var + k')%nat = Some orig ->
       k = k') ->
    exists a', seed_solution R var solution a = Some a'.
Proof.
  induction solution as [|value solution IH]; intros var a Hfree Hinj;
    [by eexists|].
  cbn [seed_solution].
  destruct (Hfree 0%nat) as (original & Horiginal & Hpos & Hnone);
    [cbn [length]; lia|].
  rewrite Nat.add_0_r in Horiginal. rewrite Horiginal.
  destruct (original <? 0) eqn:Hneg; [apply Z.ltb_lt in Hneg; lia|].
  apply VariableIsAssigned_false in Hnone as Hunassigned.
  rewrite Hunassigned. apply IH.
  - intros k Hk.
    destruct (Hfree (S k)) as (orig & Horig & Hpos' & Hnone');
      [cbn [length]; lia|].
    exists orig. replace (S var + k)%nat with (var + S k)%nat by lia.
    split; [done|]. split; [done|].
    unfold AssignFromTrueLiteral. cbn [values].
    rewrite LiteralVariable_MakeLiteral. apply lookup_insert_None.
    split; [done|]. intros Heq.
    assert (orig = original) as -> by lia.
    assert (S k = 0)%nat; [|lia].
    apply (Hinj (S k) 0%nat original); cbn [length]; try lia; [done|].
    by rewrite Nat.add_0_r.
  - intros k k' orig Hk Hk' Horig Horig'.
    assert (S k = S k'); [|lia].
    apply (Hinj (S k) (S k') orig); cbn [length]; try lia.
    + by replace (var + S k)%nat with (S var + k)%nat by lia.
    + by replace (var + S k')%nat with (S var + k')%nat by lia.
Qed.

(** [PostsolveSolution] passes its checks exactly when the reverse mapping
    sends the variables of the solution to variables that are pairwise
    distinct and not yet assigned in the postsolver. *)
Theorem PostsolveSolution_checks (p : SatPostsolver) (solution : list bool) :
  is_Some (PostsolveSolution p solution) <->
  (forall k, (k < length solution)%nat ->
     exists orig, reverse_mapping_ p !! k = Some orig /\ 0 <= orig
       /\ VariableIsAssigned (assignment_ p) (Z.to_N orig) = false)
  /\ (forall k k' orig, (k < length solution)%nat ->
        (k' < length solution)%nat ->
        reverse_mapping_ p !! k = Some orig ->
        reverse_mapping_ p !! k' = Some orig -> k = k').
Proof.
  unfold PostsolveSolution. split.
  - intros [r Hrun].
    destruct (seed_solution _ 0 solution _) as [seeded|] eqn:Hseed; [|done].
    destruct (seed_solution_sound _ _ _ _ _ Hseed) as (_ & Hset & Hinj & _).
    split; [|exact Hinj]. intros k Hk.
    destruct (lookup_lt_is_Some_2 solution k Hk) as [b Hb].
    destruct (Hset k b Hb) as (orig & Horig & Hpos & Hnone & _).
    exists orig. split; [done|]. split; [done|].
    by apply VariableIsAssigned_false.
  - intros [Hfree Hinj].
    destruct (seed_solution_complete (reverse_mapping_ p) solution 0
                (assignment_ p)) as [seeded ->]; [|exact Hinj|by eexists].
    intros k Hk. destruct (Hfree k Hk) as (orig & Horig & Hpos & Hnone).
    exists orig. split; [done|]. split; [done|].
    by apply VariableIsAssigned_false.
Qed.

Lemma LiteralIsTrue_positive a (v : VariableIndex) (b : bool) :
  values a !! v = Some b -> LiteralIsTrue a (MakeLiteral v true) = b.
Proof.
  intros Hv. unfold LiteralIsTrue.
  rewrite LiteralVariable_MakeLiteral, IsPositive_MakeLiteral, Hv.
  by destruct b.
Qed.

Lemma PostsolveSolution_lookup p solution out p' (v : VariableIndex) b :
  PostsolveSolution p solution = Some (out, p') ->
  (N.to_nat v < length (reverse_mapping_ p))%nat ->
  values (assignment_ p') !! v = Some b ->
  out !! N.to_nat v = Some b.
Proof.
  unfold PostsolveSolution. intros Hrun Hrange Hv.
  destruct (seed_solution _ 0 solution _) as [seeded|]; [|done].
  injection Hrun as <- <-. cbn [assignment_] in Hv.
  rewrite list_lookup_fmap, lookup_seq_lt by done. simpl.
  rewrite N2Nat.id. f_equal. by apply LiteralIsTrue_positive.
Qed.

(** With no remapping and nothing logged, [PostsolveSolution] returns the
    solution it is given, completed with [true] for the variables that the
    solution does not cover. *)
Theorem PostsolveSolution_without_log (n : nat) (solution : list bool) :
  (length solution <= n)%nat ->
  exists p',
    PostsolveSolution (SatPostsolver_new n) solution
    = Some (solution ++ replicate (n - length solution) true, p').
Proof.
  intros Hlen.
  assert (forall k, (k < n)%nat ->
            reverse_mapping_ (SatPostsolver_new n) !! k = Some (Z.of_nat k))
    as Hid.
  { intros k Hk. simpl. by rewrite list_lookup_fmap, lookup_seq_lt. }
  destruct (seed_solution_complete
              (reverse_mapping_ (SatPostsolver_new n)) solution 0
              (assignment_ (SatPostsolver_new n))) as [seeded Hseed].
  { intros k Hk. exists (Z.of_nat k). split; [apply Hid; lia|].
    split; [lia | done]. }
  { intros k k' orig Hk Hk'. rewrite !Hid by lia.
    intros [= <-] [= Heq]. lia. }
  destruct (PostsolveSolution (SatPostsolver_new n) solution)
    as [[out p']|] eqn:Hrun.
  2:{ unfold PostsolveSolution in Hrun. by rewrite Hseed in Hrun. }
  exists p'. f_equal. f_equal.
  pose proof Hrun as Hvalues. unfold PostsolveSolution in Hvalues.
  rewrite Hseed in Hvalues.
  destruct (seed_solution_sound _ _ _ _ _ Hseed)
    as (Hnum & Hset & _ & Hframe).
  injection Hvalues as Hout Hp'.
  assert (length out = n) as Hlen_out.
  { rewrite <- Hout. rewrite length_map, length_seq. simpl.
    by rewrite length_map, length_seq. }
  apply list_eq. intros i.
  destruct (decide (i < n)%nat) as [Hi|Hi].
  2:{ rewrite !lookup_ge_None_2; [done| |lia].
      rewrite length_app, length_replicate. lia. }
  rewrite <- (Nat2N.id i).
  rewrite (PostsolveSolution_lookup _ _ _ _ (N.of_nat i)
             (default true (solution !! i)) Hrun).
  - rewrite Nat2N.id. destruct (solution !! i) as [b|] eqn:Hb.
    + by rewrite lookup_app_l_Some with (x := b).
    + apply lookup_ge_None in Hb. rewrite lookup_app_r by done.
      simpl. symmetry. apply lookup_replicate_2. lia.
  - rewrite Nat2N.id. simpl. by rewrite length_map, length_seq.
  - rewrite <- Hp'. cbn [assignment_].
    change (Postsolve (SatPostsolver_new n) seeded)
      with (assign_unassigned seeded).
    rewrite assign_unassigned_values.
    destruct (solution !! i) as [b|] eqn:Hb.
    + destruct (Hset i b Hb) as (orig & Horig & _ & _ & Hseeded).
      rewrite Hid in Horig by done. injection Horig as <-.
      replace (Z.to_N (Z.of_nat i)) with (N.of_nat i) in Hseeded by lia.
      by rewrite Hseeded.
    + apply lookup_ge_None in Hb. rewrite Hframe.
      * simpl. rewrite lookup_empty, Hnum. simpl.
        rewrite bool_decide_eq_true_2; [done | lia].
      * intros k orig Hk. rewrite Hid by lia. intros [= <-]. lia.
Qed.

Lemma PostsolveSolution_without_log_witness :
  exists p',
    PostsolveSolution (SatPostsolver_new 4) [false; true]
    = Some ([false; true] ++ replicate (4 - length [false; true]) true, p').
Proof.
  apply (PostsolveSolution_without_log 4 [false; true]). simpl. lia.
Defined.

(** [PostsolveSolution] leaves the variables it has assigned in the
    postsolver, so that it can be called once: after a call on a solution
    that is not empty, any call on a solution that is not empty fails the
    check that the variables of the solution are unassigned. *)
Theorem PostsolveSolution_only_once (p p' : SatPostsolver)
    (solution solution' out : list bool) :
  PostsolveSolution p solution = Some (out, p') ->
  solution <> [] -> solution' <> [] ->
  PostsolveSolution p' solution' = None.
Proof.
  unfold PostsolveSolution. intros Hrun Hne Hne'.
  destruct (seed_solution _ 0 solution _) as [seeded|] eqn:Hseed; [|done].
  injection Hrun as _ <-. cbn [reverse_mapping_ assignment_].
  destruct solution as [|b solution]; [done|].
  destruct solution' as [|b' solution']; [done|].
  destruct (seed_solution_sound _ _ _ _ _ Hseed) as (_ & Hset & _).
  destruct (Hset 0%nat b eq_refl) as (orig & Horig & Hpos & _ & Hseeded).
  simpl in Horig. cbn [seed_solution]. rewrite Horig.
  destruct (orig <? 0); [done|].
  assert (VariableIsAssigned (Postsolve p seeded) (Z.to_N orig) = true) as ->.
  { apply bool_decide_eq_true_2, Postsolve_keeps_assigned. by eexists. }
  done.
Qed.

Lemma PostsolveSolution_only_once_witness :
  exists out p',
    PostsolveSolution (SatPostsolver_new 2) [true; false] = Some (out, p')
    /\ PostsolveSolution p' [true] = None.
Proof.
  eexists _, _. split; [vm_compute; reflexivity|].
  eapply (PostsolveSolution_only_once (SatPostsolver_new 2) _ [true; false]);
    [vm_compute; reflexivity | done | done].
Defined.

(** ** [FixVariable] *)

(** Once [FixVariable(x)] has passed its checks, fixing [x] again fails,
    and the literal that [x] translates to is true in every solution that
    [PostsolveSolution] returns, as long as no logged clause has a literal
    of this variable as its associated literal. *)
Theorem FixVariable_fixes (p p1 : SatPostsolver) (x : Literal) :
  FixVariable p x = Some p1 ->
  exists l,
    ApplyReverseMapping p x = Some l
    /\ FixVariable p1 x = None
    /\ forall solution out p2,
         PostsolveSolution p1 solution = Some (out, p2) ->
         (forall y, y ∈ associated_literal_ p ->
            LiteralVariable y <> LiteralVariable l) ->
         (N.to_nat (LiteralVariable l) < length (reverse_mapping_ p))%nat ->
         out !! N.to_nat (LiteralVariable l) = Some (IsPositive l).
Proof.
  unfold FixVariable. intros Hfix.
  destruct (ApplyReverseMapping p x) as [l|] eqn:Hl; [|done].
  destruct (VariableIsAssigned (assignment_ p) (LiteralVariable l)) eqn:Hfree;
    [done|].
  injection Hfix as <-. exists l. split; [done|].
  assert (values (AssignFromTrueLiteral (assignment_ p) l) !! LiteralVariable l
          = Some (IsPositive l)) as Hfixed.
  { unfold AssignFromTrueLiteral. cbn [values]. apply lookup_insert_eq. }
  split.
  { unfold ApplyReverseMapping in *. cbn [reverse_mapping_ assignment_].
    rewrite Hl. unfold VariableIsAssigned.
    rewrite bool_decide_eq_true_2; [done|]. by eexists. }
  intros solution out p2 Hrun Hlog Hrange.
  apply (PostsolveSolution_lookup _ _ _ _ _ _ Hrun); [done|].
  unfold PostsolveSolution in Hrun. cbn [reverse_mapping_ assignment_] in Hrun.
  destruct (seed_solution _ 0 solution _) as [seeded|] eqn:Hseed; [|done].
  injection Hrun as _ <-. cbn [assignment_].
  destruct (seed_solution_sound _ _ _ _ _ Hseed) as (_ & Hset & _ & Hframe).
  rewrite Postsolve_frame by done.
  apply assign_unassigned_keeps. rewrite Hframe; [done|].
  intros k orig Hk Horig Heq.
  destruct (lookup_lt_is_Some_2 solution k Hk) as [b Hb].
  destruct (Hset k b Hb) as (orig' & Horig' & _ & Hnone & _).
  assert (orig' = orig) as -> by congruence.
  rewrite Heq in Hnone. congruence.
Qed.

Lemma FixVariable_fixes_witness :
  exists p1 out p2,
    FixVariable (SatPostsolver_new 3) 5%N = Some p1
    /\ FixVariable p1 5%N = None
    /\ PostsolveSolution p1 [true; false] = Some (out, p2)
    /\ out !! 2%nat = Some false.
Proof.
  eexists _, _, _. split; [vm_compute; reflexivity|].
  match goal with
  | |- FixVariable ?q _ = None /\ _ =>
    destruct (FixVariable_fixes (SatPostsolver_new 3) q 5%N)
      as (l & Hl & Htwice & Hsolution); [vm_compute; reflexivity|]
  end.
  split; [exact Htwice|]. split; [vm_compute; reflexivity|].
  assert (l = 5%N) as -> by (vm_compute in Hl; congruence).
  eapply (Hsolution [true; false]).
  - vm_compute. reflexivity.
  - intros y Hy. inversion Hy.
  - vm_compute. lia.
Defined.

(** * What the presolver does to the models *)

Lemma SimplifyClause_strengthens a b opp0 b' opp :
  SimplifyClause a b opp0 = Some (true, b', opp) -> opp <> -1 ->
  exists (x : Literal) (b1 b2 : list Literal),
    opp = Index x /\ b = b1 ++ x :: b2 /\ b' = b1 ++ b2
    /\ Negated x ∈ a /\ forall l, l ∈ a -> l = Negated x \/ l ∈ b.
Proof.
  unfold SimplifyClause. intros Hrun Hopp.
  destruct (length b <? length a)%nat; [done|].
  destruct (SimplifyClause_loop a b 0 0 0 _) as [|nd tr|] eqn:Hloop;
    [done| |done].
  destruct (SimplifyClause_loop_sound b a 0 0 0 _ nd tr Hloop)
    as [(-> & -> & Hsub)|(_ & -> & _ & x & Hx & Hn & Hrest)]; [lia| |].
  { simpl in Hrun. by injection Hrun as <- <-. }
  simpl in Hrun. rewrite Nat.sub_0_r in Hx. rewrite Hx in Hrun.
  injection Hrun as <- <-.
  exists x, (take tr b), (drop (S tr) b).
  split; [done|]. split; [by rewrite take_drop_middle|].
  split; [apply delete_take_drop|]. done.
Qed.

Lemma LiteralIsTrue_Negated_false m l :
  LiteralIsTrue m l = true -> LiteralIsTrue m (Negated l) = false.
Proof.
  rewrite LiteralIsTrue_spec. intros Hl. apply not_true_is_false.
  rewrite LiteralIsTrue_spec.
  rewrite LiteralVariable_Negated, IsPositive_Negated, Hl.
  by destruct (IsPositive l).
Qed.

(** Self-subsuming resolution: what is left of [b] once [x] is removed is
    implied by [a] and [b], when [a] is [b] with [x] negated and some
    literals missing. *)
Lemma strengthened_clause_satisfied m (a b1 b2 : list Literal) x :
  complement_free a -> Negated x ∈ a ->
  (forall l, l ∈ a -> l = Negated x \/ l ∈ b1 ++ x :: b2) ->
  clause_satisfied m a = true ->
  clause_satisfied m (b1 ++ x :: b2) = true ->
  clause_satisfied m (b1 ++ b2) = true.
Proof.
  intros Hfree Hn Hrest [la [Hla Htrue_a]]%clause_satisfied_spec
         [lb [Hlb Htrue_b]]%clause_satisfied_spec.
  apply clause_satisfied_spec.
  assert (forall l, l ∈ b1 ++ x :: b2 -> l <> x -> l ∈ b1 ++ b2) as Hkeep.
  { intros l Hl Hne. rewrite <- Permutation_middle in Hl.
    by apply elem_of_cons in Hl as [?|?]. }
  destruct (decide (lb = x)) as [->|Hne]; [|exists lb; by auto].
  exists la. split; [|done]. destruct (Hrest la Hla) as [->|Hin].
  - apply LiteralIsTrue_Negated_false in Htrue_b. congruence.
  - apply Hkeep; [done|]. intros ->. apply (Hfree _ Hn).
    by rewrite Negated_involutive.
Qed.

Lemma satisfies_db_delete m s s1 ci :
  (forall j, clause_at s1 j = if decide (j = ci) then [] else clause_at s j) ->
  satisfies_db m s -> satisfies_db m s1.
Proof.
  intros Hat Hsat j. rewrite Hat. destruct (decide (j = ci)); [done|].
  apply Hsat.
Qed.

Lemma satisfies_db_strengthen m s s1 ci k x b1 b2 :
  (forall j, clause_at s1 j
             = if decide (j = ci) then b1 ++ b2 else clause_at s j) ->
  clause_at s ci = b1 ++ x :: b2 ->
  clause_at s k <> [] -> complement_free (clause_at s k) ->
  Negated x ∈ clause_at s k ->
  (forall l, l ∈ clause_at s k -> l = Negated x \/ l ∈ b1 ++ x :: b2) ->
  satisfies_db m s ->
  clause_satisfied m (b1 ++ b2) = true /\ satisfies_db m s1.
Proof.
  intros Hat Hb Hlive Hfree Hn Hrest Hsat.
  assert (clause_satisfied m (b1 ++ b2) = true) as Hnew.
  { eapply strengthened_clause_satisfied; [done..| |].
    - by apply Hsat.
    - rewrite <- Hb. apply Hsat. rewrite Hb. by destruct b1. }
  split; [done|]. intros j. rewrite Hat.
  destruct (decide (j = ci)); [done | apply Hsat].
Qed.

Lemma canonical_nonempty_live s k (c : list Literal) :
  clause_at s k = c -> c <> [] -> clause_at s k <> [].
Proof. by intros ->. Qed.

(** The scan of the occurrence list of [lit]: the models are kept, and a
    scan that is left by [return false] has met an unsatisfiable pair. *)
Lemma simplify_occurrences_models clause_index clause lit todo :
  forall kept opp s r kept' opp' s',
    complement_free clause -> clause <> [] ->
    clause_at s clause_index = clause ->
    simplify_occurrences clause_index clause lit todo kept opp s
      = Some (r, kept', opp', s') ->
    postsolver_ s' = postsolver_ s
    /\ (forall m, satisfies_db m s ->
          if r then satisfies_db m s' else False)
    /\ (r = true ->
        clause_at s' clause_index = clause
        /\ forall m, satisfies_db m s' -> satisfies_db m s).
Proof.
  induction todo as [|ci todo IH];
    intros kept opp s r kept' opp' s' Hfree Hne Hclause Hrun.
  { injection Hrun as <- <- <- <-. done. }
  assert (forall kept1 opp1 s1,
    clause_at s1 clause_index = clause ->
    postsolver_ s1 = postsolver_ s ->
    (forall m, satisfies_db m s -> satisfies_db m s1) ->
    (forall m, satisfies_db m s1 -> satisfies_db m s) ->
    simplify_occurrences clause_index clause lit todo kept1 opp1 s1
      = Some (r, kept', opp', s') ->
    postsolver_ s' = postsolver_ s
    /\ (forall m, satisfies_db m s ->
          if r then satisfies_db m s' else False)
    /\ (r = true ->
        clause_at s' clause_index = clause
        /\ forall m, satisfies_db m s' -> satisfies_db m s)) as Hnext.
  { intros kept1 opp1 s1 Hcl1 Hp1 Hto Hfrom Hrun1.
    destruct (IH _ _ _ _ _ _ _ Hfree Hne Hcl1 Hrun1) as (Hp' & Hto' & Hfrom').
    split; [congruence|]. split.
    - intros m Hm. by apply Hto', Hto.
    - intros Hr. destruct (Hfrom' Hr) as [? Hback]. split; [done|].
      intros m Hm. by apply Hfrom, Hback. }
  cbn [simplify_occurrences] in Hrun.
  destruct (is_empty_clause (clause_at s ci)) eqn:Hempty;
    [by eapply Hnext; [| | | |exact Hrun]|].
  apply is_empty_clause_false in Hempty.
  destruct (ci =? clause_index)%nat eqn:Heq;
    [by eapply Hnext; [| | | |exact Hrun]|].
  apply Nat.eqb_neq in Heq.
  destruct (SimplifyClause clause (clause_at s ci) opp)
    as [[[subsumed b'] opp1]|] eqn:Hsimp; [|done].
  destruct (SimplifyClause_result _ _ _ _ _ _ Hsimp) as (Hfalse & Hsub & _).
  cbv zeta in Hrun.
  destruct subsumed.
  2:{ rewrite (Hfalse eq_refl), set_clauses_id in Hrun.
      by eapply Hnext; [| | | |exact Hrun]. }
  destruct (opp1 =? -1) eqn:Hopp.
  { apply Z.eqb_eq in Hopp. destruct (Hsub eq_refl Hopp) as [-> Hsubset].
    rewrite set_clauses_id in Hrun.
    destruct (Remove_spec s ci) as (Hc & Hl & Hp).
    assert (forall j, clause_at (Remove s ci) j
                      = if decide (j = ci) then [] else clause_at s j) as Hat.
    { intros j. rewrite (clause_at_cleared s ci j _ Hc).
      destruct (decide (ci = j)), (decide (j = ci)); congruence. }
    eapply Hnext; [| | | |exact Hrun].
    - rewrite Hat. by rewrite decide_False.
    - done.
    - intros m. by apply satisfies_db_delete with (ci := ci).
    - intros m. apply (satisfies_db_subsumed m s _ ci clause_index);
        [done|done| |]; by rewrite Hclause. }
  apply Z.eqb_neq in Hopp.
  destruct (SimplifyClause_strengthens _ _ _ _ _ Hsimp Hopp)
    as (x & b1 & b2 & -> & Hb & -> & Hn & Hrest).
  destruct (Index x =? Index lit) eqn:Hlit; [done|].
  set (s0 := set_clauses s (<[ci := b1 ++ b2]> (clauses_ s))) in *.
  assert (forall j, clause_at s0 j
                    = if decide (j = ci) then b1 ++ b2 else clause_at s j)
    as Hat0.
  { intros j. by apply clause_at_replaced. }
  assert (forall m, satisfies_db m s ->
            clause_satisfied m (b1 ++ b2) = true /\ satisfies_db m s0)
    as Hstrengthen.
  { intros m. apply (satisfies_db_strengthen m s s0 ci clause_index x);
      rewrite ?Hclause; try done. by rewrite <- Hb. }
  destruct (is_empty_clause (b1 ++ b2)) eqn:Hemp'.
  { apply is_empty_clause_true in Hemp'.
    injection Hrun as <- <- <- <-. split; [done|]. split; [|done].
    intros m Hm. destruct (Hstrengthen m Hm) as [Hsat _].
    by rewrite Hemp' in Hsat. }
  apply is_empty_clause_false in Hemp'.
  destruct (unregister_literal_frame s0 ci (Index x))
    as (Hc & Hp & _ & _).
  assert (forall j, clause_at (unregister_literal s0 ci (Index x)) j
                    = if decide (j = ci) then b1 ++ b2 else clause_at s j)
    as Hat.
  { intros j. unfold clause_at at 1. rewrite Hc. apply Hat0. }
  eapply Hnext; [| | | |exact Hrun].
  - rewrite Hat. by rewrite decide_False.
  - done.
  - intros m Hm. destruct (Hstrengthen m Hm) as [_ Hsat0].
    intros j. rewrite Hat, <- Hat0. apply Hsat0.
  - intros m. apply (satisfies_db_shrink m s _ ci (b1 ++ b2)); [done..|].
    rewrite Hb. intros l [?|?]%elem_of_app; apply elem_of_app;
      [by left | right; apply elem_of_cons; by right].
Qed.

(** The scan of the occurrence list of the negation of [lit]. *)
Lemma simplify_negated_occurrences_models clause_index clause lit todo :
  forall kept removed opp s r kept' removed' s',
    complement_free clause -> clause <> [] ->
    clause_at s clause_index = clause ->
    simplify_negated_occurrences clause lit todo kept removed opp s
      = Some (r, kept', removed', s') ->
    postsolver_ s' = postsolver_ s
    /\ (forall m, satisfies_db m s ->
          if r then satisfies_db m s' else False)
    /\ (r = true -> forall m, satisfies_db m s' -> satisfies_db m s).
Proof.
  induction todo as [|ci todo IH];
    intros kept removed opp s r kept' removed' s' Hfree Hne Hclause Hrun.
  { injection Hrun as <- <- <- <-. done. }
  assert (forall kept1 removed1 opp1 s1,
    clause_at s1 clause_index = clause ->
    postsolver_ s1 = postsolver_ s ->
    (forall m, satisfies_db m s -> satisfies_db m s1) ->
    (forall m, satisfies_db m s1 -> satisfies_db m s) ->
    simplify_negated_occurrences clause lit todo kept1 removed1 opp1 s1
      = Some (r, kept', removed', s') ->
    postsolver_ s' = postsolver_ s
    /\ (forall m, satisfies_db m s ->
          if r then satisfies_db m s' else False)
    /\ (r = true -> forall m, satisfies_db m s' -> satisfies_db m s))
    as Hnext.
  { intros kept1 removed1 opp1 s1 Hcl1 Hp1 Hto Hfrom Hrun1.
    destruct (IH _ _ _ _ _ _ _ _ Hfree Hne Hcl1 Hrun1)
      as (Hp' & Hto' & Hfrom').
    split; [congruence|]. split.
    - intros m Hm. by apply Hto', Hto.
    - intros Hr m Hm. by apply Hfrom, Hfrom'. }
  cbn [simplify_negated_occurrences] in Hrun.
  destruct (is_empty_clause (clause_at s ci)) eqn:Hempty;
    [by eapply Hnext; [| | | |exact Hrun]|].
  apply is_empty_clause_false in Hempty.
  destruct (SimplifyClause clause (clause_at s ci) opp)
    as [[[subsumed b'] opp1]|] eqn:Hsimp; [|done].
  destruct (SimplifyClause_result _ _ _ _ _ _ Hsimp) as (Hfalse & _ & _).
  cbv zeta in Hrun.
  destruct subsumed.
  2:{ rewrite (Hfalse eq_refl), set_clauses_id in Hrun.
      by eapply Hnext; [| | | |exact Hrun]. }
  destruct (opp1 =? NegatedIndex lit) eqn:Hopp; [|done].
  apply Z.eqb_eq in Hopp. simpl negb in Hrun. cbv iota in Hrun.
  assert (opp1 <> -1) as Hopp1.
  { rewrite Hopp. pose proof (Index_nonneg (Negated lit)).
    unfold NegatedIndex. lia. }
  destruct (SimplifyClause_strengthens _ _ _ _ _ Hsimp Hopp1)
    as (x & b1 & b2 & Hx & Hb & -> & Hn & Hrest).
  assert (ci <> clause_index) as Hci.
  { intros ->. rewrite Hclause in Hb. apply (Hfree _ Hn).
    rewrite Negated_involutive, Hb. apply elem_of_app. right.
    apply elem_of_cons. by left. }
  set (s0 := set_clauses s (<[ci := b1 ++ b2]> (clauses_ s))) in *.
  assert (forall j, clause_at s0 j
                    = if decide (j = ci) then b1 ++ b2 else clause_at s j)
    as Hat0.
  { intros j. by apply clause_at_replaced. }
  assert (forall m, satisfies_db m s ->
            clause_satisfied m (b1 ++ b2) = true /\ satisfies_db m s0)
    as Hstrengthen.
  { intros m. apply (satisfies_db_strengthen m s s0 ci clause_index x);
      rewrite ?Hclause; try done. by rewrite <- Hb. }
  destruct (is_empty_clause (b1 ++ b2)) eqn:Hemp'.
  { apply is_empty_clause_true in Hemp'.
    injection Hrun as <- <- <- <-. split; [done|]. split; [|done].
    intros m Hm. destruct (Hstrengthen m Hm) as [Hsat _].
    by rewrite Hemp' in Hsat. }
  apply is_empty_clause_false in Hemp'.
  destruct (enqueue_clause_frame s0 ci) as (Hc & _ & Hp).
  assert (forall j, clause_at (enqueue_clause s0 ci) j
                    = if decide (j = ci) then b1 ++ b2 else clause_at s j)
    as Hat.
  { intros j. unfold clause_at at 1. rewrite Hc. apply Hat0. }
  eapply Hnext; [| | | |exact Hrun].
  - rewrite Hat. by rewrite decide_False.
  - done.
  - intros m Hm. destruct (Hstrengthen m Hm) as [_ Hsat0].
    intros j. rewrite Hat, <- Hat0. apply Hsat0.
  - intros m. apply (satisfies_db_shrink m s _ ci (b1 ++ b2)); [done..|].
    rewrite Hb. intros l [?|?]%elem_of_app; apply elem_of_app;
      [by left | right; apply elem_of_cons; by right].
Qed.

Lemma ProcessClauseToSimplifyOthers_models s clause_index r s' :
  complement_free (clause_at s clause_index) ->
  ProcessClauseToSimplifyOthers s clause_index = Some (r, s') ->
  postsolver_ s' = postsolver_ s
  /\ (forall m, satisfies_db m s -> if r then satisfies_db m s' else False)
  /\ (r = true -> forall m, satisfies_db m s' -> satisfies_db m s).
Proof.
  unfold ProcessClauseToSimplifyOthers. intros Hfree Hrun.
  destruct (FindLiteralWithShortestOccurenceList s (clause_at s clause_index))
    as [lit|] eqn:Hfind.
  2:{ by injection Hrun as <- <-. }
  apply FindLiteralWithShortestOccurenceList_elem in Hfind.
  apply elem_of_clause_live in Hfind as Hlive.
  destruct (simplify_occurrences clause_index (clause_at s clause_index) lit
              (occurrences s lit) [] 0 s)
    as [[[[r1 kept1] opp1] s1]|] eqn:Hfirst; [|done].
  destruct (simplify_occurrences_models _ _ _ _ _ _ _ _ _ _ _
              Hfree Hlive eq_refl Hfirst) as (Hp1 & Hto1 & Hfrom1).
  destruct r1.
  2:{ injection Hrun as <- <-. split; [done|]. split; [|done].
      intros m Hm. apply (Hto1 m Hm). }
  destruct (Hfrom1 eq_refl) as [Hclause1 Hback1].
  set (sa := write_occurrences s1 lit kept1 true) in *.
  destruct (negb (occurrence_size sa lit =? Z.of_nat (length kept1)));
    [done|].
  destruct (simplify_negated_occurrences (clause_at s clause_index) lit
              (occurrences sa (Negated lit)) [] false opp1 sa)
    as [[[[r2 kept2] removed2] s2]|] eqn:Hsecond; [|done].
  destruct (simplify_negated_occurrences_models clause_index
              (clause_at s clause_index) lit (occurrences sa (Negated lit))
              [] false opp1 sa r2 kept2 removed2 s2
              Hfree Hlive Hclause1 Hsecond) as (Hp2 & Hto2 & Hfrom2).
  destruct r2.
  2:{ injection Hrun as <- <-. split; [by rewrite <- Hp1|].
      split; [|done]. intros m Hm. apply (Hto2 m), (Hto1 m Hm). }
  injection Hrun as <- <-.
  set (sb := write_occurrences s2 (Negated lit) kept2 true) in *.
  set (sc := set_literal_to_clause_sizes sb _).
  assert (clauses_ (if removed2
                    then UpdatePriorityQueue sc
                           (LiteralVariable (Negated lit))
                    else sc) = clauses_ s2
          /\ postsolver_ (if removed2
                    then UpdatePriorityQueue sc
                           (LiteralVariable (Negated lit))
                    else sc) = postsolver_ s2) as (Hc & Hp).
  { destruct removed2; [|done].
    by destruct (UpdatePriorityQueue_frame sc (LiteralVariable (Negated lit)))
      as (-> & _ & _ & ->). }
  split; [rewrite Hp, Hp2; exact Hp1|]. split.
  - intros m Hm. eapply satisfies_db_same; [exact Hc|].
    apply (Hto2 m), (Hto1 m Hm).
  - intros _ m Hm. apply Hback1, (Hfrom2 eq_refl m).
    eapply satisfies_db_same; [|exact Hm]. by rewrite Hc.
Qed.

(** [ProcessClauseToSimplifyOthers], when it returns true, has kept the
    models: an assignment satisfies the clauses before the call exactly
    when it satisfies the clauses after it; and nothing is logged.  The
    clause that is processed is assumed to have no complementary pair, as
    the clauses of the database have. *)
Theorem ProcessClauseToSimplifyOthers_keeps_models (s s' : SatPresolver)
    (clause_index : ClauseIndex) :
  complement_free (clause_at s clause_index) ->
  ProcessClauseToSimplifyOthers s clause_index = Some (true, s') ->
  postsolver_ s' = postsolver_ s
  /\ forall m, satisfies_db m s <-> satisfies_db m s'.
Proof.
  intros Hfree Hrun.
  destruct (ProcessClauseToSimplifyOthers_models s _ _ _ Hfree Hrun)
    as (Hp & Hto & Hfrom).
  split; [done|]. intros m. split; [apply Hto | by apply Hfrom].
Qed.

(** [ProcessClauseToSimplifyOthers] returns false only on an unsatisfiable
    database: no assignment satisfies the clauses it was called on. *)
Theorem ProcessClauseToSimplifyOthers_false_unsat (s s' : SatPresolver)
    (clause_index : ClauseIndex) :
  complement_free (clause_at s clause_index) ->
  ProcessClauseToSimplifyOthers s clause_index = Some (false, s') ->
  forall m, ~ satisfies_db m s.
Proof.
  intros Hfree Hrun m Hm.
  destruct (ProcessClauseToSimplifyOthers_models s _ _ _ Hfree Hrun)
    as (_ & Hto & _).
  apply (Hto m Hm).
Qed.

Lemma complement_free_decide (c : list Literal) :
  tautology_free c = true -> complement_free c.
Proof. apply tautology_free_spec. Qed.

Lemma ProcessClauseToSimplifyOthers_keeps_models_witness :
  exists s s',
    presolver_of_clauses (SatPostsolver_new 3) 500 3
      [[0; 2]; [0; 2; 4]; [1; 2; 4]]%N = Some s
    /\ ProcessClauseToSimplifyOthers s 0 = Some (true, s')
    /\ clauses_ s' = [[0; 2]; []; [2; 4]]%N
    /\ postsolver_ s' = postsolver_ s
    /\ forall m, satisfies_db m s <-> satisfies_db m s'.
Proof.
  eexists _, _. split; [vm_compute; reflexivity|].
  split; [vm_compute; reflexivity|]. split; [reflexivity|].
  apply ProcessClauseToSimplifyOthers_keeps_models with (clause_index := 0%nat).
  - apply complement_free_decide. vm_compute. reflexivity.
  - vm_compute. reflexivity.
Defined.

Lemma ProcessClauseToSimplifyOthers_false_unsat_witness :
  exists s s',
    presolver_of_clauses (SatPostsolver_new 3) 500 3 [[2; 4]; [0]; [1]]%N
    = Some s
    /\ ProcessClauseToSimplifyOthers s 1 = Some (false, s')
    /\ forall m, ~ satisfies_db m s.
Proof.
  eexists _, _. split; [vm_compute; reflexivity|].
  split; [vm_compute; reflexivity|].
  eapply (ProcessClauseToSimplifyOthers_false_unsat _ _ 1%nat).
  - apply complement_free_decide. vm_compute. reflexivity.
  - vm_compute. reflexivity.
Defined.

(** ** Variable elimination keeps the models *)

Lemma resolvent_satisfied m (a b out : list Literal) x :
  (forall l, l ∈ out <-> (l ∈ a /\ l <> x) \/ (l ∈ b /\ l <> Negated x)) ->
  clause_satisfied m a = true -> clause_satisfied m b = true ->
  clause_satisfied m out = true.
Proof.
  intros Hmem [la [Hla Htrue_a]]%clause_satisfied_spec
         [lb [Hlb Htrue_b]]%clause_satisfied_spec.
  apply clause_satisfied_spec.
  destruct (decide (la = x)) as [->|Hne].
  - exists lb. split; [|done]. apply Hmem. right. split; [done|].
    intros ->. apply LiteralIsTrue_Negated_false in Htrue_a. congruence.
  - exists la. split; [|done]. apply Hmem. by left.
Qed.

Lemma RemoveAndRegisterForPostsolve_models s ci x s' m :
  RemoveAndRegisterForPostsolve s ci x = Some s' ->
  satisfies_db m s -> satisfies_db m s'.
Proof.
  intros Hrem. destruct (RemoveAndRegisterForPostsolve_spec _ _ _ _ Hrem)
    as (Hc & _ & _).
  apply satisfies_db_delete with (ci := ci). intros j.
  rewrite (clause_at_cleared s ci j _ Hc).
  destruct (decide (ci = j)), (decide (j = ci)); congruence.
Qed.

Lemma blocked_removals_models x s s' m :
  blocked_removals x s s' -> satisfies_db m s -> satisfies_db m s'.
Proof.
  induction 1 as [s|s i s1 s' _ _ _ Hrem _ IH]; [done|].
  intros Hm. by eapply IH, RemoveAndRegisterForPostsolve_models.
Qed.

Lemma remove_and_register_all_models x ids m :
  forall s s',
    remove_and_register_all s x ids = Some s' ->
    satisfies_db m s -> satisfies_db m s'.
Proof.
  induction ids as [|i ids IH]; intros s s' Hrun Hm.
  { by injection Hrun as <-. }
  cbn [remove_and_register_all] in Hrun.
  destruct (is_empty_clause (clause_at s i)); [by eapply IH|].
  destruct (RemoveAndRegisterForPostsolve s i x) as [s1|] eqn:Hrem; [|done].
  eapply IH; [done|]. by eapply RemoveAndRegisterForPostsolve_models.
Qed.

Lemma RemoveAndRegisterForPostsolveAllClauseContaining_models s x s' m :
  RemoveAndRegisterForPostsolveAllClauseContaining s x = Some s' ->
  satisfies_db m s -> satisfies_db m s'.
Proof.
  unfold RemoveAndRegisterForPostsolveAllClauseContaining. intros Hrun Hm.
  destruct (remove_and_register_all s x (occurrences s x)) as [s1|] eqn:Hall;
    [|done].
  injection Hrun as <-.
  apply (satisfies_db_same m s1); [done|].
  by eapply remove_and_register_all_models.
Qed.

Lemma add_resolvents_of_models n x i js m :
  forall s s',
    presolver_inv n s -> x ∈ clause_at s i ->
    (forall j, j ∈ js -> j ∈ occurrences s (Negated x)) ->
    add_resolvents_of s x i js = Some s' ->
    satisfies_db m s -> satisfies_db m s'.
Proof.
  induction js as [|j js IH]; intros s s' Hinv Hx Hjs Hrun Hm.
  { by injection Hrun as <-. }
  cbn [add_resolvents_of] in Hrun.
  assert (forall j', j' ∈ js -> j' ∈ occurrences s (Negated x)) as Hjs'.
  { intros j' Hj'. apply Hjs, elem_of_cons. by right. }
  destruct (is_empty_clause (clause_at s j)) eqn:Hempty; [by eapply IH|].
  apply is_empty_clause_false in Hempty.
  assert (Negated x ∈ clause_at s j) as Hn.
  { destruct (inv_accurate _ _ Hinv (Negated x) j); [|done..].
    apply Hjs, elem_of_cons. by left. }
  destruct (resolvent_facts n s x i j Hinv Hx Hn)
    as [[Hclash Hfalse]|(out & Hout & Hcanon & Hmem & Hrange)].
  { destruct (ComputeResolvant x (clause_at s i) (clause_at s j))
      as [[|] temp]; [done|]. by eapply IH. }
  rewrite Hout in Hrun.
  destruct (AddClauseInternal s out) as [s1|] eqn:Hadd; [|done].
  destruct (AddClauseInternal_inv n s out s1 Hinv Hcanon Hrange Hadd)
    as (Hinv1 & Hcl1 & Hp1 & Hocc1).
  pose proof (inv_canonical _ _ Hinv i) as [_ Hca]%canonical_spec.
  pose proof (inv_canonical _ _ Hinv j) as [_ Hcb]%canonical_spec.
  destruct (resolvent_without_pivot x _ _ out Hca Hcb Hx Hn Hmem)
    as [Hxout Hnout].
  pose proof (clause_at_snoc s out) as Hat.
  eapply (IH s1 s'); [done| | |done|].
  - rewrite (Hat i s1 Hcl1). rewrite decide_True; [done|].
    apply live_clause_in_range. by eapply elem_of_clause_live.
  - intros j' Hj'. rewrite Hocc1. rewrite decide_False by done.
    by apply Hjs'.
  - intros k. rewrite (Hat k s1 Hcl1).
    destruct (decide (k < length (clauses_ s))%nat); [apply Hm|].
    destruct (decide (k = length (clauses_ s))); [|done]. intros _.
    eapply resolvent_satisfied; [exact Hmem| |]; apply Hm.
    + by eapply elem_of_clause_live.
    + done.
Qed.

Lemma add_resolvents_models n x ids m :
  forall s s',
    presolver_inv n s ->
    (forall i, i ∈ ids -> i ∈ occurrences s x) ->
    add_resolvents s x ids = Some s' ->
    satisfies_db m s -> satisfies_db m s'.
Proof.
  induction ids as [|i ids IH]; intros s s' Hinv Hids Hrun Hm.
  { by injection Hrun as <-. }
  cbn [add_resolvents] in Hrun.
  assert (forall i', i' ∈ ids -> i' ∈ occurrences s x) as Hids'.
  { intros i' Hi'. apply Hids, elem_of_cons. by right. }
  destruct (is_empty_clause (clause_at s i)) eqn:Hempty; [by eapply IH|].
  apply is_empty_clause_false in Hempty.
  assert (x ∈ clause_at s i) as Hx.
  { destruct (inv_accurate _ _ Hinv x i); [|done..].
    apply Hids, elem_of_cons. by left. }
  destruct (add_resolvents_of s x i (occurrences s (Negated x)))
    as [s1|] eqn:Hinner; [|done].
  destruct (add_resolvents_of_sound n x i _ s s1 Hinv Hx (fun j H => H) Hinner)
    as (Hinv1 & (_ & _ & _ & _ & Hox & _) & _).
  eapply (IH s1 s'); [done| |done|].
  - intros i' Hi'. rewrite Hox. by apply Hids'.
  - eapply (add_resolvents_of_models n x i _ m s s1 Hinv Hx (fun j H => H));
      done.
Qed.

Lemma CrossProduct_models n s x r s' es m :
  presolver_inv n s -> log_is (postsolver_ s) es ->
  CrossProduct s x = Some (r, s') ->
  satisfies_db m s -> satisfies_db m s'.
Proof.
  unfold CrossProduct. intros Hinv Hlog Hrun Hm.
  destruct (_ && _); [by injection Hrun as _ <-|].
  destruct (_ && _); [by injection Hrun as _ <-|].
  set (y := if occurrence_size s x <? occurrence_size s (Negated x)
            then Negated x else x) in *.
  destruct (eliminate_blocked s y (occurrences s y) (bve_threshold s x) 0)
    as [[[exceeded size] sa]|] eqn:Hblocked; [|done].
  pose proof (eliminate_blocked_removals y _ _ s 0 exceeded size sa
                (fun i H => H) Hblocked) as Hremovals.
  pose proof (blocked_removals_models y s sa m Hremovals Hm) as Hma.
  destruct (blocked_removals_sound n y s sa Hremovals es Hinv Hlog)
    as (Hinva & _).
  destruct exceeded; [by injection Hrun as _ <-|].
  destruct (add_resolvents sa y (occurrences sa y)) as [sb|] eqn:Hadd;
    [|done].
  pose proof (add_resolvents_models n y _ m sa sb Hinva (fun i H => H) Hadd Hma)
    as Hmb.
  destruct (RemoveAndRegisterForPostsolveAllClauseContaining sb y)
    as [sc|] eqn:Hfirst; [|done].
  destruct (RemoveAndRegisterForPostsolveAllClauseContaining sc (Negated y))
    as [sd|] eqn:Hsecond; [|done].
  injection Hrun as _ <-.
  eapply RemoveAndRegisterForPostsolveAllClauseContaining_models; [done|].
  by eapply RemoveAndRegisterForPostsolveAllClauseContaining_models.
Qed.

(** ** Presolve keeps the models of the formula *)

Lemma presolve_step_models n s s' es m :
  presolve_step s s' -> presolver_inv n s -> log_is (postsolver_ s) es ->
  satisfies_db m s -> satisfies_db m s'.
Proof.
  intros [s0 ci s1 Hrun|s0 x r s1 Hrun|s0 flags queue elements pq] Hinv Hlog Hm.
  - pose proof (inv_canonical _ _ Hinv ci) as [_ Hfree]%canonical_spec.
    destruct (ProcessClauseToSimplifyOthers_models s0 ci true s1 Hfree Hrun)
      as (_ & Hto & _).
    apply (Hto m Hm).
  - by eapply CrossProduct_models.
  - exact Hm.
Qed.

Lemma presolve_steps_models n s s' m :
  presolve_steps s s' ->
  forall es, presolver_inv n s -> log_is (postsolver_ s) es ->
    satisfies_db m s -> satisfies_db m s'.
Proof.
  induction 1 as [s|s s1 s' Hstep _ IH]; intros es Hinv Hlog Hm; [done|].
  destruct (presolve_step_sound n s s1 Hstep es Hinv Hlog)
    as (Hinv1 & new & Hlog1 & _).
  apply (IH _ Hinv1 Hlog1). by eapply presolve_step_models.
Qed.

Lemma AddClause_models s clause s' m :
  equiv_mapping_ s = [] ->
  AddClause s clause = Some s' ->
  satisfies_db m s -> clause_satisfied m clause = true ->
  satisfies_db m s'.
Proof.
  intros Hequiv Hadd Hm Hsat.
  assert (clause <> []) as Hne by (by intros ->).
  destruct (sort_unique_spec clause) as [_ Helem].
  destruct (has_trivial_pair (sort_unique clause)) eqn:Hpair.
  - unfold AddClause, apply_equiv_mapping in Hadd.
    rewrite Hequiv, Hpair in Hadd. destruct clause; [done|].
    by injection Hadd as <-.
  - destruct (AddClause_as_internal s clause Hne Hequiv Hpair)
      as (s0 & Heq & Hc0 & _).
    rewrite Heq in Hadd.
    destruct (AddClauseInternal_spec _ _ _ Hadd) as (Hc' & _).
    intros j. rewrite (clause_at_snoc s0 (sort_unique clause) j s' Hc').
    destruct (decide (j < length (clauses_ s0))%nat).
    + assert (clause_at s0 j = clause_at s j) as ->
        by (unfold clause_at; by rewrite Hc0).
      apply Hm.
    + destruct (decide (j = length (clauses_ s0))); [|done]. intros _.
      apply clause_satisfied_spec in Hsat as (l & Hl & Htrue).
      apply clause_satisfied_spec. exists l. split; [by apply Helem|done].
Qed.

Lemma load_clauses_models n formula m :
  forall s sF,
    presolver_inv n s -> equiv_mapping_ s = [] ->
    foldl (fun state clause => state ≫= fun s => AddClause s clause)
      (Some s) formula = Some sF ->
    satisfies_db m s ->
    (forall c, c ∈ formula -> clause_satisfied m c = true) ->
    satisfies_db m sF.
Proof.
  induction formula as [|c0 formula IH]; intros s sF Hinv Hequiv Hload Hm Hall.
  { by injection Hload as <-. }
  cbn [foldl] in Hload. simpl mbind in Hload.
  destruct (AddClause s c0) as [s1|] eqn:Hadd.
  2:{ by rewrite foldl_AddClause_None in Hload. }
  destruct (AddClause_sound n s c0 s1 Hinv Hequiv Hadd)
    as (Hinv1 & Hequiv1 & _).
  apply (IH s1 sF Hinv1 Hequiv1 Hload).
  - apply (AddClause_models s c0 s1 m Hequiv Hadd Hm).
    apply Hall, elem_of_cons. by left.
  - intros c Hc. apply Hall, elem_of_cons. by right.
Qed.

Lemma loaded_formula_models n threshold weight F sF s' m :
  presolver_of_clauses (SatPostsolver_new n) threshold weight F = Some sF ->
  presolve_steps sF s' ->
  (forall c, c ∈ F -> clause_satisfied m c = true) ->
  presolver_inv n s' /\ satisfies_db m s'.
Proof.
  intros Hload Hsteps Hall.
  pose proof (SatPresolver_new_inv n threshold weight) as Hinv0.
  destruct (load_clauses_sound n F _ sF Hinv0 eq_refl Hload)
    as (HinvF & HpF & _).
  assert (log_is (postsolver_ sF) []) as HlogF by (by rewrite HpF).
  split.
  - by destruct (presolve_steps_sound n sF s' Hsteps [] HinvF HlogF).
  - apply (presolve_steps_models n sF s' m Hsteps [] HinvF HlogF).
    apply (load_clauses_models n F m _ sF Hinv0 eq_refl Hload); [|done].
    intros j Hj. by destruct Hj.
Qed.

(** Presolve loses no model: a formula is added to a new presolver and any
    sequence of presolve operations is run; every assignment that satisfies
    all the clauses of the formula satisfies all the clauses that are
    left. *)
Theorem presolve_keeps_models (n : nat) (threshold weight : Z)
    (F : list (list Literal)) (sF s' : SatPresolver)
    (m : VariablesAssignment) :
  presolver_of_clauses (SatPostsolver_new n) threshold weight F = Some sF ->
  presolve_steps sF s' ->
  (forall c, c ∈ F -> clause_satisfied m c = true) ->
  satisfies_db m s'.
Proof.
  intros Hload Hsteps Hall.
  by destruct (loaded_formula_models n threshold weight F sF s' m
                 Hload Hsteps Hall).
Qed.

Lemma ProcessAllClauses_false fuel :
  forall s s', ProcessAllClauses fuel s = Some (false, s') ->
    exists s1 ci,
      presolve_steps s s1
      /\ ProcessClauseToSimplifyOthers s1 ci = Some (false, s').
Proof.
  induction fuel as [|fuel IH]; intros s s' Hrun; [done|].
  cbn [ProcessAllClauses] in Hrun.
  destruct (clause_to_process_ s) as [|ci queue] eqn:Hqueue; [done|].
  cbv zeta in Hrun.
  set (s0 := set_clause_queue s _ queue) in *.
  assert (presolve_step s s0) as Hschedule.
  { pose proof (step_schedule s (<[ci := false]> (in_clause_to_process_ s))
                  queue (var_pq_elements_ s) (var_pq_ s)) as Hs.
    by destruct s. }
  destruct (ProcessClauseToSimplifyOthers s0 ci) as [[[|] s1]|] eqn:Hstep;
    [| |done].
  - destruct (IH _ _ Hrun) as (s2 & cj & Hsteps & Hfalse).
    exists s2, cj. split; [|done].
    apply (presolve_steps_next s s0); [done|].
    apply (presolve_steps_next s0 s1); [by eapply step_process | done].
  - injection Hrun as <-. exists s0, ci. split; [|done].
    apply (presolve_steps_next s s0); [done | apply presolve_steps_done].
Qed.

(** Presolve reports unsatisfiability soundly: when [ProcessAllClauses]
    returns false, at any point of a sequence of presolve operations on a
    formula, no assignment satisfies all the clauses of the formula. *)
Theorem ProcessAllClauses_false_unsat (n : nat) (threshold weight : Z)
    (F : list (list Literal)) (sF s1 s2 : SatPresolver) (fuel : nat) :
  presolver_of_clauses (SatPostsolver_new n) threshold weight F = Some sF ->
  presolve_steps sF s1 ->
  ProcessAllClauses fuel s1 = Some (false, s2) ->
  forall m, ~ (forall c, c ∈ F -> clause_satisfied m c = true).
Proof.
  intros Hload Hsteps Hrun m Hall.
  destruct (ProcessAllClauses_false fuel s1 s2 Hrun)
    as (s3 & ci & Hsteps' & Hfalse).
  destruct (loaded_formula_models n threshold weight F sF s3 m Hload
              (presolve_steps_trans _ _ _ Hsteps Hsteps') Hall)
    as [Hinv Hm].
  pose proof (inv_canonical _ _ Hinv ci) as [_ Hfree]%canonical_spec.
  destruct (ProcessClauseToSimplifyOthers_models s3 ci false s2 Hfree Hfalse)
    as (_ & Hto & _).
  apply (Hto m Hm).
Qed.

Lemma presolve_keeps_models_witness :
  let F : list (list Literal) := [[0; 2]; [1; 4]; [0; 2; 4]]%N in
  let m := {| NumberOfVariables := 3;
              values := {[ 0%N := true; 2%N := true ]} |} in
  exists sF s1 s',
    presolver_of_clauses (SatPostsolver_new 3) 500 3 F = Some sF
    /\ ProcessAllClauses 4 sF = Some (true, s1)
    /\ CrossProduct s1 0%N = Some (true, s')
    /\ clauses_ s' = [[]; []; []; [2; 4]]%N
    /\ satisfies_db m s'.
Proof.
  intros F m. eexists _, _, _.
  split; [vm_compute; reflexivity|].
  split; [vm_compute; reflexivity|].
  split; [vm_compute; reflexivity|].
  split; [vm_compute; reflexivity|].
  eapply (presolve_keeps_models 3 500 3 F _ _ m).
  - vm_compute. reflexivity.
  - eapply presolve_steps_trans.
    { apply (ProcessAllClauses_steps 4). vm_compute. reflexivity. }
    eapply presolve_steps_next; [|apply presolve_steps_done].
    eapply (step_eliminate _ 0%N). vm_compute. reflexivity.
  - apply Forall_forall. decide_by_compute.
Defined.

Lemma ProcessAllClauses_false_unsat_witness :
  let F : list (list Literal) := [[2; 4]; [0]; [1]]%N in
  exists sF s2,
    presolver_of_clauses (SatPostsolver_new 3) 500 3 F = Some sF
    /\ ProcessAllClauses 3 sF = Some (false, s2)
    /\ forall m, ~ (forall c, c ∈ F -> clause_satisfied m c = true).
Proof.
  intros F. eexists _, _.
  split; [vm_compute; reflexivity|].
  split; [vm_compute; reflexivity|].
  eapply (ProcessAllClauses_false_unsat 3 500 3 F _ _ _ 3).
  - vm_compute. reflexivity.
  - apply presolve_steps_done.
  - vm_compute. reflexivity.
Defined.

(** * The contract of [AddClause] *)

Lemma add_occurrences_queue ci c :
  forall s,
    clause_to_process_ (foldl (add_occurrence ci) s c) = clause_to_process_ s
    /\ length (literal_to_clauses_ (foldl (add_occurrence ci) s c))
       = length (literal_to_clauses_ s).
Proof.
  induction c as [|e c IH]; intros s; [done|]. cbn [foldl].
  destruct (IH (add_occurrence ci s e)) as [-> ->].
  split; [done | apply add_occurrence_length].
Qed.

Lemma Negated_le_max (l top : Literal) :
  (l <= top)%N -> (Negated l <= N.max top (Negated top))%N.
Proof.
  intros Hle. destruct (decide (l = top)) as [->|Hne]; [lia|].
  literal_parity l; lia.
Qed.

(** [AddClause] fails on an empty clause.  Otherwise it stores the clause
    sorted and without duplicates, with the literals it was given (once
    they are replaced by their representatives, if a mapping is set), and
    registers it in the occurrence list of each of its literals, which then
    exists for both literals of each of its variables; unless the clause
    holds a literal and its negation, in which case it is only counted. *)
Theorem AddClause_contract (s : SatPresolver) (clause : list Literal) :
  AddClause s [] = None
  /\ (clause <> [] ->
      exists s', AddClause s clause = Some s'
        /\ ((exists l, l ∈ apply_equiv_mapping s clause
                       /\ Negated l ∈ apply_equiv_mapping s clause) ->
            s' = set_num_trivial_clauses s (num_trivial_clauses_ s + 1))
        /\ (~ (exists l, l ∈ apply_equiv_mapping s clause
                         /\ Negated l ∈ apply_equiv_mapping s clause) ->
            exists c,
              clauses_ s' = clauses_ s ++ [c]
              /\ is_sorted c = true
              /\ (forall l, l ∈ c <-> l ∈ apply_equiv_mapping s clause)
              /\ clause_to_process_ s'
                 = clause_to_process_ s ++ [length (clauses_ s)]
              /\ num_trivial_clauses_ s' = num_trivial_clauses_ s
              /\ (forall l, occurrences s' l
                    = if decide (l ∈ c)
                      then occurrences s l ++ [length (clauses_ s)]
                      else occurrences s l)
              /\ (forall l, l ∈ c ->
                    (N.to_nat l < length (literal_to_clauses_ s'))%nat
                    /\ (N.to_nat (Negated l)
                        < length (literal_to_clauses_ s'))%nat))).
Proof.
  split; [done|]. intros Hne.
  destruct (sort_unique_spec (apply_equiv_mapping s clause))
    as [Hsorted Helem].
  unfold AddClause. destruct clause as [|l0 c0]; [done|].
  set (mapped := apply_equiv_mapping s (l0 :: c0)) in *.
  set (cr := sort_unique mapped) in *.
  destruct (has_trivial_pair cr) eqn:Hpair.
  { eexists. split; [done|]. split; [done|]. intros Hno. destruct Hno.
    apply has_trivial_pair_true in Hpair as (l & Hl & Hn).
    exists l. by split; apply Helem. }
  pose proof (has_trivial_pair_false cr Hsorted Hpair) as Hfree.
  eexists. split; [done|]. split.
  { intros (l & Hl & Hn). exfalso. apply (Hfree l); by apply Helem. }
  intros _. exists cr.
  set (required := Z.to_nat (Z.max (Index (default 0%N (last cr)))
                               (NegatedIndex (default 0%N (last cr))) + 1)).
  set (s1 := set_clause_queue (set_clauses s (clauses_ s ++ [cr])) _ _).
  set (s2 := if (length (literal_to_clauses_ s1) <? required)%nat
             then _ else s1).
  assert (clauses_ s2 = clauses_ s ++ [cr]
          /\ clause_to_process_ s2
             = clause_to_process_ s ++ [length (clauses_ s)]
          /\ num_trivial_clauses_ s2 = num_trivial_clauses_ s
          /\ (forall l, occurrences s2 l = occurrences s l)
          /\ (required <= length (literal_to_clauses_ s2))%nat)
    as (Hc2 & Hq2 & Ht2 & Hocc2 & Hlen2).
  { unfold s2. destruct (length (literal_to_clauses_ s1) <? required)%nat
      eqn:Hlt.
    - apply Nat.ltb_lt in Hlt. repeat (split; [done|]). split.
      + intros l. unfold occurrences. simpl. by apply occurrences_resize.
      + simpl. by rewrite length_resize.
    - apply Nat.ltb_ge in Hlt. done. }
  assert (forall l, l ∈ cr ->
            (N.to_nat l < required)%nat /\ (N.to_nat (Negated l) < required)%nat)
    as Hrange.
  { intros l Hl. pose proof (is_sorted_last cr l Hsorted Hl) as Hle.
    pose proof (Negated_le_max _ _ Hle).
    unfold required, NegatedIndex, Index. lia. }
  destruct (add_occurrences_frame (length (clauses_ s)) cr s2) as (Hc & _ & _).
  destruct (add_occurrences_queue (length (clauses_ s)) cr s2) as (Hq & Hlen).
  split; [by rewrite Hc|]. split; [done|]. split; [done|].
  split; [by rewrite Hq|]. split.
  { etransitivity; [|exact Ht2]. clear. generalize s2.
    induction cr as [|e cr IH]; intros s0; [done|]. cbn [foldl].
    by rewrite IH. }
  split.
  - intros l. rewrite occurrences_add_occurrences.
    + by rewrite Hocc2.
    + by apply is_sorted_NoDup.
    + intros l' Hl'. destruct (Hrange l' Hl'). lia.
  - intros l Hl. rewrite Hlen. destruct (Hrange l Hl). lia.
Qed.

Lemma AddClause_contract_witness :
  let s := SatPresolver_new (SatPostsolver_new 3) 500 3 in
  exists s',
    AddClause s [4; 0; 4]%N = Some s'
    /\ clauses_ s' = [[0; 4]]%N
    /\ literal_to_clauses_ s' = [[0]; []; []; []; [0]; []]%nat
    /\ exists c,
         clauses_ s' = clauses_ s ++ [c]
         /\ is_sorted c = true
         /\ (forall l, l ∈ c <-> l ∈ apply_equiv_mapping s [4; 0; 4]%N)
         /\ clause_to_process_ s'
            = clause_to_process_ s ++ [length (clauses_ s)]
         /\ num_trivial_clauses_ s' = num_trivial_clauses_ s
         /\ (forall l, occurrences s' l
               = if decide (l ∈ c)
                 then occurrences s l ++ [length (clauses_ s)]
                 else occurrences s l)
         /\ (forall l, l ∈ c ->
               (N.to_nat l < length (literal_to_clauses_ s'))%nat
               /\ (N.to_nat (Negated l)
                   < length (literal_to_clauses_ s'))%nat).
Proof.
  intros s.
  destruct (AddClause_contract s [4; 0; 4]%N) as (_ & Hadd).
  destruct Hadd as (s' & Hrun & _ & Hstored); [done|].
  exists s'. assert (Some s' = AddClause s [4; 0; 4]%N) as Heq by done.
  vm_compute in Heq. injection Heq as ->.
  split; [vm_compute; reflexivity|]. split; [reflexivity|].
  split; [reflexivity|]. apply Hstored.
  intros (l & Hl & Hn). revert l Hl Hn.
  apply (proj1 (Forall_forall
                  (fun l => Negated l ∉ apply_equiv_mapping s [4; 0; 4]%N)
                  (apply_equiv_mapping s [4; 0; 4]%N))).
  decide_by_compute.
Defined.

(** * The size counters *)

(** ** Counting the clauses of a list that are not deleted *)

Lemma live_occurrences_same_liveness s s' l :
  (forall i, clause_at s' i = [] <-> clause_at s i = []) ->
  occurrences s' l = occurrences s l ->
  live_occurrences s' l = live_occurrences s l.
Proof.
  intros Hlive Hocc. unfold live_occurrences. rewrite Hocc.
  f_equal. f_equal. apply filter_ext_elem. intros i _.
  by rewrite (Hlive i).
Qed.

Lemma live_count_drop (P : ClauseIndex -> Prop) `{forall i, Decision (P i)}
    (kept todo : list ClauseIndex) ci :
  ~ P ci -> filter P (kept ++ ci :: todo) = filter P (kept ++ todo).
Proof.
  intros Hdead. rewrite !filter_app, filter_cons.
  by rewrite decide_False.
Qed.

Lemma live_count_remove_first (P : ClauseIndex -> Prop)
    `{forall i, Decision (P i)} ci (occ : list ClauseIndex) :
  ci ∈ occ -> P ci ->
  S (length (filter P (remove_first ci occ))) = length (filter P occ).
Proof.
  intros Hin Hlive. induction occ as [|c occ IH]; [inversion Hin|].
  simpl remove_first. destruct (c =? ci)%nat eqn:Heq.
  - apply Nat.eqb_eq in Heq as ->. rewrite filter_cons.
    by rewrite decide_True.
  - apply Nat.eqb_neq in Heq. apply elem_of_cons in Hin as [->|Hin]; [done|].
    rewrite !filter_cons. destruct (decide (P c)); simpl; rewrite IH; done.
Qed.

Lemma live_count_delete (P P' : ClauseIndex -> Prop)
    `{forall i, Decision (P i)} `{forall i, Decision (P' i)}
    ci (occ : list ClauseIndex) :
  (forall i, P' i <-> P i /\ i <> ci) -> P ci -> NoDup occ ->
  (length (filter P' occ) + (if decide (ci ∈ occ) then 1 else 0))%nat
  = length (filter P occ).
Proof.
  intros Hiff Hlive. induction occ as [|c occ IH]; intros Hnd.
  { by rewrite decide_False by (by intros Hin; inversion Hin). }
  apply NoDup_cons in Hnd as [Hnotin Hnd]. specialize (IH Hnd).
  rewrite !filter_cons. destruct (decide (c = ci)) as [->|Hne].
  - rewrite (decide_True (P := ci ∈ ci :: occ)) by (by left).
    rewrite decide_False in IH by done.
    rewrite (decide_False (P := P' ci)) by (rewrite Hiff; tauto).
    rewrite (decide_True (P := P ci)) by done. simpl. lia.
  - assert (P' c <-> P c) as Hc by (rewrite Hiff; tauto).
    assert ((if decide (ci ∈ c :: occ) then 1 else 0)%nat
            = (if decide (ci ∈ occ) then 1 else 0)%nat) as ->.
    { destruct (decide (ci ∈ occ)) as [Hin|Hout].
      - rewrite decide_True; [done | by right].
      - rewrite decide_False; [done|].
        intros [?|?]%elem_of_cons; [congruence | done]. }
    destruct (decide (P' c)) as [Hp'|Hp'], (decide (P c)) as [Hp|Hp];
      try tauto; simpl; lia.
Qed.

(** ** The counters under the elementary operations *)

Lemma forget_occurrence_sizes s e :
  literal_to_clause_sizes_ (forget_occurrence s e)
  = alter (fun k => k - 1) (N.to_nat e) (literal_to_clause_sizes_ s).
Proof.
  unfold forget_occurrence.
  by destruct (UpdatePriorityQueue_frame
              (set_literal_to_clause_sizes s
                 (alter (fun k => k - 1) (N.to_nat e)
                    (literal_to_clause_sizes_ s)))
              (LiteralVariable e)) as (_ & _ & -> & _).
Qed.

Lemma forget_occurrences_sizes c :
  forall s, NoDup c ->
    length (literal_to_clause_sizes_ (foldl forget_occurrence s c))
    = length (literal_to_clause_sizes_ s)
    /\ forall l : Literal,
         literal_to_clause_sizes_ (foldl forget_occurrence s c) !! N.to_nat l
         = (fun k => if decide (l ∈ c) then k - 1 else k)
             <$> literal_to_clause_sizes_ s !! N.to_nat l.
Proof.
  induction c as [|e c IH]; intros s Hnd.
  { split; [done|]. intros l. cbn [foldl].
    destruct (_ !! _) as [k|]; [|done]. cbn [fmap option_fmap option_map].
    destruct (decide (l ∈ [])) as [Hin|_]; [inversion Hin | done]. }
  apply NoDup_cons in Hnd as [Hnotin Hnd]. cbn [foldl].
  destruct (IH (forget_occurrence s e) Hnd) as [Hlen Hlook].
  rewrite Hlen, forget_occurrence_sizes, length_alter. split; [done|].
  intros l. rewrite Hlook, forget_occurrence_sizes.
  destruct (decide (l = e)) as [->|Hne].
  - rewrite list_lookup_alter_eq. destruct (_ !! _) as [k|]; [|done].
    cbn [fmap option_fmap option_map].
    rewrite decide_False by done. rewrite decide_True; [done | by left].
  - rewrite list_lookup_alter_ne by (intros Heq; apply Hne; lia).
    destruct (_ !! _) as [k|]; [|done]. cbn [fmap option_fmap option_map].
    destruct (decide (l ∈ c)) as [Hin|Hout].
    + rewrite decide_True; [done | by right].
    + rewrite decide_False; [done|].
      intros [?|?]%elem_of_cons; done.
Qed.

Lemma add_occurrences_sizes ci c :
  forall s, NoDup c ->
    length (literal_to_clause_sizes_ (foldl (add_occurrence ci) s c))
    = length (literal_to_clause_sizes_ s)
    /\ forall l : Literal,
         literal_to_clause_sizes_ (foldl (add_occurrence ci) s c)
           !! N.to_nat l
         = (fun k => if decide (l ∈ c) then k + 1 else k)
             <$> literal_to_clause_sizes_ s !! N.to_nat l.
Proof.
  induction c as [|e c IH]; intros s Hnd.
  { split; [done|]. intros l. cbn [foldl].
    destruct (_ !! _) as [k|]; [|done]. cbn [fmap option_fmap option_map].
    destruct (decide (l ∈ [])) as [Hin|_]; [inversion Hin | done]. }
  apply NoDup_cons in Hnd as [Hnotin Hnd]. cbn [foldl].
  destruct (IH (add_occurrence ci s e) Hnd) as [Hlen Hlook].
  rewrite Hlen. unfold add_occurrence at 1 3. simpl.
  rewrite length_alter. split; [done|].
  intros l. rewrite Hlook. unfold add_occurrence. simpl.
  destruct (decide (l = e)) as [->|Hne].
  - rewrite list_lookup_alter_eq. destruct (_ !! _) as [k|]; [|done].
    cbn [fmap option_fmap option_map].
    rewrite decide_False by done. rewrite decide_True; [done | by left].
  - rewrite list_lookup_alter_ne by (intros Heq; apply Hne; lia).
    destruct (_ !! _) as [k|]; [|done]. cbn [fmap option_fmap option_map].
    destruct (decide (l ∈ c)) as [Hin|Hout].
    + rewrite decide_True; [done | by right].
    + rewrite decide_False; [done|].
      intros [?|?]%elem_of_cons; done.
Qed.

Lemma live_occurrences_membership n s l ci :
  presolver_inv n s -> clause_at s ci <> [] ->
  ci ∈ occurrences s l <-> l ∈ clause_at s ci.
Proof.
  intros Hinv Hlive. split.
  - intros Hin. by destruct (inv_accurate _ _ Hinv l ci Hin).
  - apply (inv_complete _ _ Hinv).
Qed.

(** Deleting a clause, with the counter of each of its literals
    decremented, keeps the counters exact. *)
Lemma sizes_exact_delete n s ci s' :
  presolver_inv n s -> sizes_exact s ->
  clauses_ s' = <[ci := []]> (clauses_ s) ->
  literal_to_clauses_ s' = literal_to_clauses_ s ->
  length (literal_to_clause_sizes_ s') = length (literal_to_clause_sizes_ s) ->
  (forall l : Literal,
     literal_to_clause_sizes_ s' !! N.to_nat l
     = (fun k => if decide (l ∈ clause_at s ci) then k - 1 else k)
         <$> literal_to_clause_sizes_ s !! N.to_nat l) ->
  sizes_exact s'.
Proof.
  intros Hinv [Hlen Hexact] Hc Hl Hlen' Hlook.
  split; [by rewrite Hlen', Hl|].
  intros l Hrange. rewrite Hl in Hrange.
  rewrite Hlook, (Hexact l Hrange). cbn [fmap option_fmap option_map].
  f_equal. unfold live_occurrences.
  rewrite (occurrences_same s s' l Hl).
  pose proof (clause_at_cleared s ci) as Hat.
  destruct (decide (clause_at s ci = [])) as [Hdead|Hlive].
  { rewrite Hdead.
    destruct (decide (l ∈ [])) as [Hin|_]; [inversion Hin|].
    f_equal. f_equal. apply filter_ext_elem. intros i _.
    rewrite (Hat i s' Hc). destruct (decide (ci = i)) as [<-|]; [|done].
    by rewrite Hdead. }
  pose proof (live_count_delete (fun i => clause_at s i <> [])
                (fun i => clause_at s' i <> []) ci (occurrences s l)) as Hcount.
  rewrite <- Hcount; [|clear Hcount..].
  - destruct (decide (l ∈ clause_at s ci)) as [Hin|Hout].
    + rewrite decide_True by (by eapply live_occurrences_membership). lia.
    + rewrite decide_False; [lia|].
      intros Hci. apply Hout. by eapply live_occurrences_membership.
  - intros i. rewrite (Hat i s' Hc).
    destruct (decide (ci = i)) as [<-|Hne]; [tauto|].
    split; [intros ?; split; [done | congruence] | tauto].
  - done.
  - apply (inv_nodup _ _ Hinv).
Qed.

Lemma sizes_exact_drop s lit (kept : list ClauseIndex) ci todo :
  (N.to_nat lit < length (literal_to_clauses_ s))%nat ->
  clause_at s ci = [] ->
  sizes_exact (write_occurrences s lit (kept ++ ci :: todo) true) ->
  sizes_exact (write_occurrences s lit (kept ++ todo) true).
Proof.
  intros Hrange Hdead [Hlen Hexact].
  rewrite write_occurrences_length in Hlen, Hexact.
  split; [by rewrite write_occurrences_length|].
  rewrite write_occurrences_length.
  intros l Hl. specialize (Hexact l Hl).
  change (literal_to_clause_sizes_ s !! N.to_nat l
          = Some (live_occurrences
                    (write_occurrences s lit (kept ++ ci :: todo) true) l))
    in Hexact.
  change (literal_to_clause_sizes_ s !! N.to_nat l
          = Some (live_occurrences
                    (write_occurrences s lit (kept ++ todo) true) l)).
  rewrite Hexact. f_equal. unfold live_occurrences.
  rewrite !occurrences_write by done.
  destruct (decide (l = lit)); [|done].
  change (Z.of_nat (length (filter (fun i => clause_at s i <> [])
                              (kept ++ ci :: todo)))
          = Z.of_nat (length (filter (fun i => clause_at s i <> [])
                                (kept ++ todo)))).
  rewrite live_count_drop; [done|]. by intros Hlive.
Qed.

Lemma enqueue_clause_sizes s ci :
  literal_to_clause_sizes_ (enqueue_clause s ci) = literal_to_clause_sizes_ s.
Proof. unfold enqueue_clause. by destruct (_ !!! _). Qed.

Lemma unregister_literal_sizes s ci opp :
  literal_to_clause_sizes_ (unregister_literal s ci opp)
  = alter (fun k => k - 1) (N.to_nat (Z.to_N opp))
      (literal_to_clause_sizes_ s).
Proof.
  unfold unregister_literal. rewrite enqueue_clause_sizes.
  set (s1 := set_literal_to_clause_sizes _ _).
  by destruct (UpdatePriorityQueue_frame s1 (LiteralVariable (Z.to_N opp)))
    as (_ & _ & -> & _).
Qed.

(** Strengthening the clause [ci] by removing its literal [o] keeps the
    counters exact. *)
Lemma sizes_exact_strengthen n s lit kept ci todo o b1 b2 :
  presolver_inv n (write_occurrences s lit (kept ++ ci :: todo) true) ->
  sizes_exact (write_occurrences s lit (kept ++ ci :: todo) true) ->
  (N.to_nat lit < length (literal_to_clauses_ s))%nat ->
  clause_at s ci = b1 ++ o :: b2 -> o <> lit -> b1 ++ b2 <> [] ->
  sizes_exact
    (write_occurrences
       (unregister_literal
          (set_clauses s (<[ci := b1 ++ b2]> (clauses_ s))) ci (Index o))
       lit ((kept ++ [ci]) ++ todo) true).
Proof.
  intros Hinv [Hlen Hexact] Hrange Hb Ho Hne.
  set (s0 := set_clauses s (<[ci := b1 ++ b2]> (clauses_ s))).
  destruct (unregister_literal_frame s0 ci (Index o))
    as (Hc & Hp & Hlen1 & Hocc).
  pose proof (unregister_literal_sizes s0 ci (Index o)) as Hsizes.
  set (s1 := unregister_literal s0 ci (Index o)) in *.
  assert (Z.to_N (Index o) = o) as Hid by apply N2Z.id.
  rewrite Hid in Hocc, Hsizes. rewrite <- app_assoc. simpl app.
  change (literal_to_clause_sizes_ s0) with (literal_to_clause_sizes_ s)
    in Hsizes.
  change (occurrences s0) with (occurrences s) in Hocc.
  rewrite write_occurrences_length in Hlen, Hexact.
  assert (clause_at s ci <> []) as Hlive by (rewrite Hb; by destruct b1).
  assert (forall j, clause_at s1 j = if decide (j = ci) then b1 ++ b2
                                     else clause_at s j) as Hat.
  { intros j. by apply (clause_at_replaced s ci (b1 ++ b2) j s1). }
  assert (forall i, clause_at s1 i <> [] <-> clause_at s i <> []) as Hsame.
  { intros i. rewrite Hat. destruct (decide (i = ci)) as [->|]; tauto. }
  split.
  { rewrite write_occurrences_length, Hlen1.
    change (length (literal_to_clause_sizes_ s1)
            = length (literal_to_clauses_ s)).
    rewrite Hsizes, length_alter. exact Hlen. }
  rewrite write_occurrences_length, Hlen1.
  intros l Hl. specialize (Hexact l Hl).
  change (literal_to_clause_sizes_ s !! N.to_nat l
          = Some (live_occurrences
                    (write_occurrences s lit (kept ++ ci :: todo) true) l))
    in Hexact.
  change (literal_to_clause_sizes_ s1 !! N.to_nat l
          = Some (live_occurrences
                    (write_occurrences s1 lit (kept ++ ci :: todo) true) l)).
  rewrite Hsizes. unfold live_occurrences in *.
  rewrite occurrences_write in Hexact |- * by (done || by rewrite Hlen1).
  change (clause_at (write_occurrences s lit (kept ++ ci :: todo) true))
    with (clause_at s) in Hexact.
  change (clause_at (write_occurrences s1 lit (kept ++ ci :: todo) true))
    with (clause_at s1).
  rewrite (filter_ext_elem (fun i => clause_at s1 i <> [])
             (fun i => clause_at s i <> [])) by (intros i _; apply Hsame).
  destruct (decide (l = lit)) as [->|Hllit].
  { rewrite list_lookup_alter_ne by (intros Heq; apply Ho; lia). done. }
  rewrite Hocc. destruct (decide (l = o)) as [->|Hlo].
  - rewrite list_lookup_alter_eq, Hexact. cbn [fmap option_fmap option_map].
    f_equal.
    assert (ci ∈ occurrences s o) as Hci.
    { pose proof (inv_complete _ _ Hinv ci o) as Hcomp.
      rewrite occurrences_write, decide_False in Hcomp by done.
      apply Hcomp. change (o ∈ clause_at s ci). rewrite Hb.
      apply elem_of_app. right. by left. }
    pose proof (live_count_remove_first (fun i => clause_at s i <> []) ci
                  (occurrences s o) Hci Hlive). lia.
  - rewrite list_lookup_alter_ne by (intros Heq; apply Hlo; lia). done.
Qed.

(** ** The first scan of [ProcessClauseToSimplifyOthers] *)

Lemma SimplifyClause_returns (a b : list Literal) (opp0 : LiteralIndex) :
  exists r b' opp, SimplifyClause a b opp0 = Some (r, b', opp).
Proof.
  unfold SimplifyClause.
  destruct (Nat.ltb_spec (length b) (length a)) as [Hlt|Hge];
    [by eexists _, _, _|].
  destruct (SimplifyClause_loop a b 0 0 0
              (Z.of_nat (length b) - Z.of_nat (length a)))
    as [|nd tr|] eqn:Hloop; [by eexists _, _, _| |].
  - apply SimplifyClause_loop_exit in Hloop as Hexit.
    destruct (Z.eqb_spec nd 1) as [->|Hnd]; [|by eexists _, _, _].
    destruct Hexit as [[? _]|[_ Hpos]]; [lia|].
    destruct (lookup_lt_is_Some_2 b tr) as [x Hx]; [lia|].
    rewrite Hx. by eexists _, _, _.
  - exfalso. revert Hloop. apply SimplifyClause_loop_in_bounds; lia.
Qed.

Lemma Remove_sizes s ci :
  literal_to_clause_sizes_ (Remove s ci)
  = literal_to_clause_sizes_ (foldl forget_occurrence s (clause_at s ci)).
Proof. reflexivity. Qed.

Lemma variables_below_subset n s s' :
  (forall ci l, l ∈ clause_at s' ci -> exists cj, l ∈ clause_at s cj) ->
  variables_below n s -> variables_below n s'.
Proof.
  intros Hsub Hvars ci l Hl. destruct (Hsub ci l Hl) as [cj Hcj].
  by apply (Hvars cj).
Qed.

Lemma elem_of_without_middle (b1 b2 : list Literal) o l :
  l ∈ b1 ++ b2 -> l ∈ b1 ++ o :: b2.
Proof.
  intros [?|?]%elem_of_app; apply elem_of_app;
    [by left | right; apply elem_of_cons; by right].
Qed.

(** The scan of the occurrence list of [lit] does not abort, and it keeps
    the counters exact. *)
Lemma simplify_occurrences_runs n clause_index clause lit todo :
  forall kept opp s,
    presolver_inv n (write_occurrences s lit (kept ++ todo) true) ->
    sizes_exact (write_occurrences s lit (kept ++ todo) true) ->
    (forall ci, ci ∈ kept -> clause_at s ci <> []) ->
    variables_below n s ->
    (N.to_nat lit < length (literal_to_clauses_ s))%nat ->
    clause_at s clause_index = clause -> lit ∈ clause ->
    assignment_ (postsolver_ s) = empty_assignment n ->
    exists r kept' opp' s',
      simplify_occurrences clause_index clause lit todo kept opp s
        = Some (r, kept', opp', s')
      /\ (r = true ->
          sizes_exact (write_occurrences s' lit kept' true)
          /\ (forall ci, ci ∈ kept' -> clause_at s' ci <> [])
          /\ variables_below n s'
          /\ assignment_ (postsolver_ s') = empty_assignment n).
Proof.
  induction todo as [|ci todo IH];
    intros kept opp s Hinv Hsizes Hkept Hvars Hrange Hclause Hlit Hassign.
  { exists true, kept, opp, s. split; [done|]. intros _.
    rewrite app_nil_r in Hsizes. done. }
  cbn [simplify_occurrences].
  pose proof (inv_nodup _ _ Hinv lit) as Hnd.
  rewrite occurrences_write, decide_True in Hnd by done.
  apply NoDup_middle in Hnd as [Hnd Hfresh].
  assert (ci ∉ kept) as Hcikept.
  { intros Hin. apply Hfresh, elem_of_app. by left. }
  destruct (is_empty_clause (clause_at s ci)) eqn:Hempty.
  { apply is_empty_clause_true in Hempty.
    apply IH; try done.
    - eapply scan_drop; [exact Hinv|done| |done|done].
      rewrite <- Hempty. symmetry. apply insert_clause_at_id.
    - by eapply sizes_exact_drop. }
  apply is_empty_clause_false in Hempty.
  assert (forall ck, ck ∈ kept ++ [ci] -> clause_at s ck <> []) as Hkept'.
  { intros ck [?| ->%list_elem_of_singleton]%elem_of_app; [by apply Hkept|done]. }
  destruct (ci =? clause_index)%nat eqn:Heq.
  { apply IH; try done; by rewrite <- app_assoc. }
  apply Nat.eqb_neq in Heq.
  destruct (SimplifyClause_returns clause (clause_at s ci) opp)
    as (subsumed & b' & opp1 & Hsimp).
  rewrite Hsimp.
  destruct (SimplifyClause_result _ _ _ _ _ _ Hsimp) as (Hfalse & Hsub & _).
  cbv zeta. destruct subsumed.
  2:{ rewrite (Hfalse eq_refl), set_clauses_id.
      apply IH; try done; by rewrite <- app_assoc. }
  destruct (opp1 =? -1) eqn:Hopp.
  { apply Z.eqb_eq in Hopp. destruct (Hsub eq_refl Hopp) as [-> _].
    rewrite set_clauses_id.
    destruct (Remove_spec s ci) as (Hc & Hl & Hp).
    pose proof (clause_at_cleared s ci) as Hat.
    pose proof (inv_canonical _ _ Hinv ci) as [Hsorted _]%canonical_spec.
    change (is_sorted (clause_at s ci) = true) in Hsorted.
    destruct (forget_occurrences_sizes (clause_at s ci) s
                (is_sorted_NoDup _ Hsorted)) as [Hlen' Hlook].
    apply IH.
    - by eapply scan_drop.
    - apply (sizes_exact_drop _ lit kept ci todo); [by rewrite Hl| |].
      { rewrite (Hat ci _ Hc). by rewrite decide_True. }
      apply (sizes_exact_delete n
               (write_occurrences s lit (kept ++ ci :: todo) true) ci);
        [done|done|exact Hc| | |].
      + exact (f_equal (fun lists : list (list ClauseIndex) =>
                          <[N.to_nat lit := kept ++ ci :: todo]> lists) Hl).
      + exact Hlen'.
      + exact Hlook.
    - intros ck Hck. rewrite (Hat ck _ Hc).
      rewrite decide_False by (by intros ->). by apply Hkept.
    - apply (variables_below_subset n s); [|done].
      intros cj l. rewrite (Hat cj _ Hc).
      destruct (decide (ci = cj)); [intros H; inversion H|]. by exists cj.
    - by rewrite Hl.
    - rewrite (Hat clause_index _ Hc). by rewrite decide_False.
    - done.
    - by rewrite Hp. }
  apply Z.eqb_neq in Hopp.
  destruct (SimplifyClause_strengthens _ _ _ _ _ Hsimp Hopp)
    as (x & b1 & b2 & -> & Hb & -> & Hnx & _).
  assert (x <> lit) as Hxlit.
  { intros ->.
    pose proof (inv_canonical _ _ Hinv clause_index) as [_ Hfree]%canonical_spec.
    change (complement_free (clause_at s clause_index)) in Hfree.
    rewrite Hclause in Hfree. by apply (Hfree lit). }
  destruct (Z.eqb_spec (Index x) (Index lit)) as [Heqx|_].
  { by apply Index_inj in Heqx. }
  destruct (is_empty_clause (b1 ++ b2)) eqn:Hemp'.
  { by exists false, kept, (Index x),
      (set_clauses s (<[ci := b1 ++ b2]> (clauses_ s))). }
  apply is_empty_clause_false in Hemp'.
  set (s0 := set_clauses s (<[ci := b1 ++ b2]> (clauses_ s))) in *.
  destruct (unregister_literal_frame s0 ci (Index x))
    as (Hc & Hp & Hlen & Hocc).
  assert (forall j, clause_at (unregister_literal s0 ci (Index x)) j
                    = if decide (j = ci) then b1 ++ b2 else clause_at s j)
    as Hat.
  { intros j. by apply clause_at_replaced. }
  apply IH.
  - by apply scan_strengthen.
  - by apply (sizes_exact_strengthen n).
  - intros ck Hck. rewrite Hat. destruct (decide (ck = ci)); [done|].
    by apply Hkept'.
  - apply (variables_below_subset n s); [|done].
    intros cj l. rewrite Hat. destruct (decide (cj = ci)) as [->|].
    + intros Hl. exists ci. rewrite Hb. by apply elem_of_without_middle.
    + by exists cj.
  - by rewrite Hlen.
  - rewrite Hat. by rewrite decide_False.
  - done.
  - by rewrite Hp.
Qed.

(** ** The second scan of [ProcessClauseToSimplifyOthers] *)

(** The scan of the occurrence list of the negation of [lit] does not
    abort; it deletes no clause and leaves the occurrence lists and the
    counters as they are. *)
Lemma simplify_negated_occurrences_runs n clause lit todo :
  forall kept removed opp s,
    presolver_inv n (write_occurrences s (Negated lit) (kept ++ todo) true) ->
    (N.to_nat (Negated lit) < length (literal_to_clauses_ s))%nat ->
    canonical clause = true -> lit ∈ clause ->
    (forall ci, ci ∈ kept -> clause_at s ci <> []) ->
    variables_below n s ->
    exists r kept' removed' s',
      simplify_negated_occurrences clause lit todo kept removed opp s
        = Some (r, kept', removed', s')
      /\ (r = true ->
          (forall ci, ci ∈ kept' -> clause_at s' ci <> [])
          /\ (forall i, clause_at s' i = [] <-> clause_at s i = [])
          /\ literal_to_clauses_ s' = literal_to_clauses_ s
          /\ literal_to_clause_sizes_ s' = literal_to_clause_sizes_ s
          /\ postsolver_ s' = postsolver_ s
          /\ variables_below n s').
Proof.
  induction todo as [|ci todo IH];
    intros kept removed opp s Hinv Hrange Hcanon Hlit Hkept Hvars.
  { exists true, kept, removed, s. split; [done|]. intros _. done. }
  cbn [simplify_negated_occurrences].
  destruct (is_empty_clause (clause_at s ci)) eqn:Hempty.
  { apply is_empty_clause_true in Hempty.
    apply IH; try done.
    eapply scan_drop; [exact Hinv|done| |done|done].
    rewrite <- Hempty. symmetry. apply insert_clause_at_id. }
  apply is_empty_clause_false in Hempty.
  destruct (SimplifyClause_returns clause (clause_at s ci) opp)
    as (subsumed & b' & opp1 & Hsimp).
  rewrite Hsimp.
  destruct (SimplifyClause_result _ _ _ _ _ _ Hsimp) as (Hfalse & Hsub & _).
  cbv zeta. destruct subsumed.
  2:{ rewrite (Hfalse eq_refl), set_clauses_id.
      apply IH; try done; [by rewrite <- app_assoc|].
      intros ck [?| ->%list_elem_of_singleton]%elem_of_app;
        [by apply Hkept | done]. }
  assert (Negated lit ∈ clause_at s ci) as Hnb.
  { destruct (inv_accurate _ _ Hinv (Negated lit) ci) as [Hnil|Hin].
    - rewrite occurrences_write, decide_True by done.
      apply elem_of_app. right. by left.
    - by destruct Hempty.
    - exact Hin. }
  pose proof (inv_canonical _ _ Hinv ci) as [_ Hfreeb]%canonical_spec.
  change (complement_free (clause_at s ci)) in Hfreeb.
  assert (lit ∉ clause_at s ci) as Hlitb.
  { intros Hin. by apply (Hfreeb lit). }
  assert (opp1 <> -1) as Hopp.
  { intros Hopp. destruct (Hsub eq_refl Hopp) as [_ Hsubset].
    by apply Hlitb, Hsubset. }
  destruct (SimplifyClause_strengthens _ _ _ _ _ Hsimp Hopp)
    as (x & b1 & b2 & -> & Hb & -> & Hnx & Hrest).
  assert (x = Negated lit) as ->.
  { destruct (Hrest lit Hlit) as [Heq|Hin]; [|done].
    by apply Negated_swap. }
  unfold NegatedIndex. rewrite Z.eqb_refl. cbn [negb].
  destruct (is_empty_clause (b1 ++ b2)) eqn:Hemp'.
  { by exists false, kept, removed,
      (set_clauses s (<[ci := b1 ++ b2]> (clauses_ s))). }
  apply is_empty_clause_false in Hemp'.
  set (s0 := set_clauses s (<[ci := b1 ++ b2]> (clauses_ s))) in *.
  destruct (enqueue_clause_frame s0 ci) as (Hc & Hl & Hp).
  pose proof (enqueue_clause_sizes s0 ci) as Hsz.
  assert (forall j, clause_at (enqueue_clause s0 ci) j
                    = if decide (j = ci) then b1 ++ b2 else clause_at s j)
    as Hat.
  { intros j. by apply clause_at_replaced. }
  destruct (IH kept true (Index (Negated lit)) (enqueue_clause s0 ci))
    as (r & kept' & removed' & s' & Hrun & Hgood); try done.
  - by apply scan_strengthen_scanned.
  - by rewrite Hl.
  - intros ck Hck. rewrite Hat. destruct (decide (ck = ci)); [done|].
    by apply Hkept.
  - apply (variables_below_subset n s); [|done].
    intros cj l. rewrite Hat. destruct (decide (cj = ci)) as [->|].
    + intros Hin. exists ci. rewrite Hb. by apply elem_of_without_middle.
    + by exists cj.
  - exists r, kept', removed', s'. split; [done|]. intros Hr.
    destruct (Hgood Hr) as (Hk & Hlive & Hl' & Hsz' & Hp' & Hv).
    split; [done|]. split; [|split; [|split; [|split; [|done]]]].
    + intros i. rewrite Hlive, Hat.
      destruct (decide (i = ci)) as [->|]; [|done]. tauto.
    + by rewrite Hl', Hl.
    + by rewrite Hsz', Hsz.
    + by rewrite Hp', Hp.
Qed.

(** ** [ProcessClauseToSimplifyOthers] never aborts *)

Lemma all_live_filter s (kept : list ClauseIndex) :
  (forall ci, ci ∈ kept -> clause_at s ci <> []) ->
  filter (fun i => clause_at s i <> []) kept = kept.
Proof.
  induction kept as [|ci kept IH]; intros Hlive; [done|].
  rewrite filter_cons, decide_True by (apply Hlive; by left).
  rewrite IH; [done|]. intros cj Hcj. apply Hlive. by right.
Qed.

(** An occurrence list is replaced by a list of clauses that are not
    deleted, and its counter by the length of that list. *)
Lemma sizes_exact_rewrite_list s s' l (kept : list ClauseIndex) :
  sizes_exact s ->
  (forall i, clause_at s' i = [] <-> clause_at s i = []) ->
  literal_to_clauses_ s' = <[N.to_nat l := kept]> (literal_to_clauses_ s) ->
  literal_to_clause_sizes_ s'
    = <[N.to_nat l := Z.of_nat (length kept)]> (literal_to_clause_sizes_ s) ->
  (forall ci, ci ∈ kept -> clause_at s' ci <> []) ->
  sizes_exact s'.
Proof.
  intros [Hlen Hexact] Hlive Hl Hs Hkept.
  split; [by rewrite Hl, Hs, !length_insert|].
  rewrite Hl, length_insert. intros l' Hrange.
  unfold live_occurrences, occurrences. rewrite Hs, Hl.
  rewrite list_lookup_total_insert.
  destruct (decide (l' = l)) as [->|Hne].
  - rewrite list_lookup_insert_eq by (by rewrite Hlen).
    rewrite decide_True by done. by rewrite all_live_filter.
  - rewrite list_lookup_insert_ne by (intros Heq; apply Hne; lia).
    rewrite decide_False by (intros [Heq _]; apply Hne; lia).
    rewrite (Hexact l' Hrange). unfold live_occurrences, occurrences.
    f_equal. f_equal. f_equal. apply filter_ext_elem. intros i _.
    by rewrite (Hlive i).
Qed.

(** On a database that keeps its invariants,
    [ProcessClauseToSimplifyOthers] passes all its [CHECK]s, and it keeps
    the counters exact. *)
Lemma ProcessClauseToSimplifyOthers_runs n s clause_index :
  presolver_inv n s -> counters_inv n s ->
  exists r s',
    ProcessClauseToSimplifyOthers s clause_index = Some (r, s')
    /\ (r = true -> counters_inv n s').
Proof.
  intros Hinv [Hsizes Hvars Hassign]. unfold ProcessClauseToSimplifyOthers.
  destruct (FindLiteralWithShortestOccurenceList s (clause_at s clause_index))
    as [lit|] eqn:Hfind.
  2:{ exists true, s. split; [done|]. by intros _. }
  apply FindLiteralWithShortestOccurenceList_elem in Hfind.
  assert (N.to_nat lit < length (literal_to_clauses_ s))%nat as Hrange.
  { eapply occurrences_in_literal_range, (inv_complete _ _ Hinv), Hfind. }
  destruct (simplify_occurrences_runs n clause_index
              (clause_at s clause_index) lit (occurrences s lit) [] 0 s)
    as (r1 & kept1 & opp1 & s1 & Hrun1 & Hgood1); try done.
  { simpl app. by rewrite write_occurrences_id. }
  { simpl app. by rewrite write_occurrences_id. }
  { intros ci Hci. inversion Hci. }
  rewrite Hrun1. destruct r1; [|by eexists false, _].
  destruct (Hgood1 eq_refl) as (Hsizes1 & Hkept1 & Hvars1 & Hassign1).
  destruct (simplify_occurrences_sound n clause_index
              (clause_at s clause_index) lit (occurrences s lit) [] 0 s
              kept1 opp1 s1)
    as (Hinv1 & Hrange1 & Hclause1 & Hp1 & _); [| |done| |done|].
  { simpl app. by rewrite write_occurrences_id. }
  { done. }
  { by eapply elem_of_clause_live. }
  set (sa := write_occurrences s1 lit kept1 true) in *.
  assert (occurrence_size sa lit = Z.of_nat (length kept1)) as Hcheck.
  { destruct Hsizes1 as [_ Hexact].
    assert (N.to_nat lit < length (literal_to_clauses_ sa))%nat as Hrange_a
      by (unfold sa; by rewrite write_occurrences_length).
    specialize (Hexact lit Hrange_a).
    unfold occurrence_size. rewrite (list_lookup_total_correct _ _ _ Hexact).
    unfold live_occurrences, sa.
    rewrite occurrences_write, decide_True by done.
    change (clause_at (write_occurrences s1 lit kept1 true))
      with (clause_at s1).
    by rewrite all_live_filter. }
  rewrite Hcheck, Z.eqb_refl. cbn [negb].
  assert (exists r2 kept2 removed2 s2,
            simplify_negated_occurrences (clause_at s clause_index) lit
              (occurrences sa (Negated lit)) [] false opp1 sa
              = Some (r2, kept2, removed2, s2)
            /\ (r2 = true ->
                (forall ci, ci ∈ kept2 -> clause_at s2 ci <> [])
                /\ (forall i, clause_at s2 i = [] <-> clause_at sa i = [])
                /\ literal_to_clauses_ s2 = literal_to_clauses_ sa
                /\ literal_to_clause_sizes_ s2 = literal_to_clause_sizes_ sa
                /\ postsolver_ s2 = postsolver_ sa
                /\ variables_below n s2))
    as (r2 & kept2 & removed2 & s2 & Hrun2 & Hgood2).
  { destruct (decide (N.to_nat (Negated lit)
                      < length (literal_to_clauses_ sa))%nat) as [Hin|Hout].
    - apply (simplify_negated_occurrences_runs n); try done.
      + simpl app. by rewrite write_occurrences_id.
      + apply (inv_canonical _ _ Hinv).
      + intros ci Hci. inversion Hci.
    - assert (occurrences sa (Negated lit) = []) as ->.
      { unfold occurrences. rewrite list_lookup_total_alt.
        rewrite lookup_ge_None_2; [done | lia]. }
      exists true, [], false, sa. split; [done|]. intros _.
      split; [intros ci Hci; inversion Hci|]. done. }
  rewrite Hrun2. destruct r2; [|by eexists false, _].
  destruct (Hgood2 eq_refl) as (Hkept2 & Hlive2 & Hl2 & Hsz2 & Hp2 & Hvars2).
  eexists true, _. split; [reflexivity|]. intros _.
  set (sb := write_occurrences s2 (Negated lit) kept2 true).
  set (sc := set_literal_to_clause_sizes sb _).
  set (sd := if removed2
             then UpdatePriorityQueue sc (LiteralVariable (Negated lit))
             else sc).
  assert (clauses_ sd = clauses_ s2
          /\ literal_to_clauses_ sd = literal_to_clauses_ sb
          /\ literal_to_clause_sizes_ sd = literal_to_clause_sizes_ sc
          /\ postsolver_ sd = postsolver_ s2) as (Hc & Hl & Hsz & Hp).
  { unfold sd. destruct removed2; [|done].
    by destruct (UpdatePriorityQueue_frame sc (LiteralVariable (Negated lit)))
      as (-> & -> & -> & ->). }
  assert (forall i, clause_at sd i = clause_at s2 i) as Hat.
  { intros i. unfold clause_at. by rewrite Hc. }
  split.
  - apply (sizes_exact_rewrite_list sa sd (Negated lit) kept2 Hsizes1).
    + intros i. by rewrite Hat.
    + rewrite Hl. unfold sb, write_occurrences. simpl. by rewrite Hl2.
    + rewrite Hsz. unfold sc. simpl. by rewrite Hsz2.
    + intros ci Hci. rewrite Hat. by apply Hkept2.
  - intros ci l. rewrite Hat. apply Hvars2.
  - rewrite Hp, Hp2. exact Hassign1.
Qed.

(** ** The counters under [CrossProduct] *)

Lemma ApplyReverseMapping_identity_Some n p l :
  identity_mapping n p -> (LiteralVariable l < N.of_nat n)%N ->
  ApplyReverseMapping p l = Some l.
Proof.
  unfold identity_mapping, ApplyReverseMapping. intros -> Hlt.
  rewrite list_lookup_fmap, lookup_seq_lt by lia. simpl.
  destruct (Z.eqb_spec (Z.of_nat (N.to_nat (LiteralVariable l))) (-1));
    [lia|].
  replace (Z.to_N (Z.of_nat (N.to_nat (LiteralVariable l))))
    with (LiteralVariable l) by lia.
  by rewrite MakeLiteral_eta.
Qed.

Lemma mapM_ApplyReverseMapping_identity_Some n p (c : list Literal) :
  identity_mapping n p ->
  (forall l, l ∈ c -> (LiteralVariable l < N.of_nat n)%N) ->
  mapM (ApplyReverseMapping p) c = Some c.
Proof.
  intros Hid Hvars. apply mapM_Some.
  induction c as [|l c IH]; constructor.
  - apply (ApplyReverseMapping_identity_Some n); [done|]. apply Hvars. by left.
  - apply IH. intros l' Hl'. apply Hvars. by right.
Qed.

(** With the identity mapping, [Add] accepts every clause over the [n]
    variables that is not empty; it leaves the mapping and the assignment
    alone. *)
Lemma Add_runs n p x (c : list Literal) :
  identity_mapping n p -> c <> [] ->
  (LiteralVariable x < N.of_nat n)%N ->
  (forall l, l ∈ c -> (LiteralVariable l < N.of_nat n)%N) ->
  exists p', Add p x c = Some p'
    /\ identity_mapping n p' /\ assignment_ p' = assignment_ p.
Proof.
  intros Hid Hne Hx Hvars. unfold Add. destruct c as [|l0 c0]; [done|].
  rewrite (ApplyReverseMapping_identity_Some n p x Hid Hx).
  rewrite (mapM_ApplyReverseMapping_identity_Some n p (l0 :: c0) Hid Hvars).
  by eexists.
Qed.

Lemma RemoveAndRegisterForPostsolve_runs n s ci x :
  presolver_inv n s -> counters_inv n s -> x ∈ clause_at s ci ->
  exists s', RemoveAndRegisterForPostsolve s ci x = Some s'
    /\ presolver_inv n s' /\ counters_inv n s'.
Proof.
  intros Hinv [Hsizes Hvars Hassign] Hx.
  unfold RemoveAndRegisterForPostsolve.
  destruct (forget_occurrences_frame (clause_at s ci) s) as (Hc & Hl & Hp).
  rewrite Hp.
  destruct (Add_runs n (postsolver_ s) x (clause_at s ci))
    as (p' & -> & Hid' & Hassign').
  { apply (inv_mapping _ _ Hinv). }
  { by eapply elem_of_clause_live. }
  { by apply (Hvars ci). }
  { apply (Hvars ci). }
  eexists. split; [reflexivity|].
  set (s' := set_clauses _ _).
  assert (clauses_ s' = <[ci := []]> (clauses_ s)) as Hc'
    by (unfold s'; simpl; by rewrite Hc).
  assert (literal_to_clauses_ s' = literal_to_clauses_ s) as Hl'
    by (unfold s'; simpl; by rewrite Hl).
  split; [by apply (presolver_inv_delete n s ci s')|].
  pose proof (inv_canonical _ _ Hinv ci) as [Hsorted _]%canonical_spec.
  destruct (forget_occurrences_sizes (clause_at s ci) s
              (is_sorted_NoDup _ Hsorted)) as [Hlen Hlook].
  split.
  - by apply (sizes_exact_delete n s ci s').
  - intros cj l. rewrite (clause_at_cleared s ci cj s' Hc').
    destruct (decide (ci = cj)); [intros H; inversion H | apply Hvars].
  - change (assignment_ p' = empty_assignment n). congruence.
Qed.

Lemma add_occurrences_length ci c :
  forall s, length (literal_to_clauses_ (foldl (add_occurrence ci) s c))
            = length (literal_to_clauses_ s).
Proof.
  induction c as [|e c IH]; intros s; [done|]. cbn [foldl].
  by rewrite IH, add_occurrence_length.
Qed.

(** Appending a clause, with the counter of each of its literals
    incremented, keeps the counters exact. *)
Lemma AddClauseInternal_counters n s c s' :
  presolver_inv n s -> counters_inv n s -> canonical c = true ->
  (forall l, l ∈ c -> (N.to_nat l < length (literal_to_clauses_ s))%nat) ->
  (forall l, l ∈ c -> (LiteralVariable l < N.of_nat n)%N) ->
  AddClauseInternal s c = Some s' ->
  counters_inv n s'.
Proof.
  intros Hinv [[Hlen Hexact] Hvars Hassign] Hcanon Hrange Hbelow Hadd.
  destruct (AddClauseInternal_inv n s c s' Hinv Hcanon Hrange Hadd)
    as (_ & Hcl & Hp & Hocc).
  pose proof (AddClauseInternal_unfold _ _ _ Hadd) as Hs'.
  assert (c <> []) as Hne by (intros ->; done).
  pose proof Hcanon as [Hsorted _]%canonical_spec.
  set (s0 := set_clause_queue _ _ _) in Hs'.
  destruct (add_occurrences_sizes (length (clauses_ s)) c s0
              (is_sorted_NoDup _ Hsorted)) as [Hlen' Hlook].
  pose proof (add_occurrences_length (length (clauses_ s)) c s0) as Hlists.
  rewrite <- Hs' in Hlen', Hlook, Hlists.
  change (literal_to_clause_sizes_ s0) with (literal_to_clause_sizes_ s)
    in Hlen', Hlook.
  change (literal_to_clauses_ s0) with (literal_to_clauses_ s) in Hlists.
  pose proof (clause_at_snoc s c) as Hat.
  split.
  - split; [by rewrite Hlen', Hlists|].
    rewrite Hlists. intros l Hl.
    rewrite Hlook, (Hexact l Hl). cbn [fmap option_fmap option_map].
    f_equal. unfold live_occurrences. rewrite Hocc.
    assert (filter (fun i => clause_at s' i <> []) (occurrences s l)
            = filter (fun i => clause_at s i <> []) (occurrences s l)) as Hold.
    { apply filter_ext_elem. intros i Hi.
      rewrite (Hat i s' Hcl), decide_True; [done|].
      by apply (inv_in_range _ _ Hinv l). }
    destruct (decide (l ∈ c)); [|by rewrite Hold].
    rewrite filter_app, Hold, length_app, filter_cons, filter_nil.
    rewrite decide_True.
    + simpl. lia.
    + rewrite (Hat _ s' Hcl), decide_False by lia. by rewrite decide_True.
  - intros cj l. rewrite (Hat cj s' Hcl).
    destruct (decide (cj < length (clauses_ s))%nat); [apply Hvars|].
    destruct (decide (cj = length (clauses_ s)));
      [apply Hbelow | intros H; inversion H].
  - by rewrite Hp.
Qed.

Lemma eliminate_blocked_runs n x threshold ids :
  forall s size,
    presolver_inv n s -> counters_inv n s ->
    (forall i, i ∈ ids -> i ∈ occurrences s x) ->
    exists exceeded size' s',
      eliminate_blocked s x ids threshold size = Some (exceeded, size', s')
      /\ counters_inv n s'
      /\ forall k, clause_at s' k = clause_at s k \/ clause_at s' k = [].
Proof.
  induction ids as [|i ids IH]; intros s size Hinv Hcount Hids.
  { exists false, size, s. split; [done|]. split; [done|]. by left. }
  cbn [eliminate_blocked].
  assert (forall i', i' ∈ ids -> i' ∈ occurrences s x) as Hids'.
  { intros i' Hi'. apply Hids. by right. }
  destruct (is_empty_clause (clause_at s i)) eqn:Hempty; [by apply IH|].
  apply is_empty_clause_false in Hempty.
  destruct (resolvent_sizes s x (clause_at s i) (occurrences s (Negated x))
              threshold true size) as [[ex nr] sz].
  destruct ex.
  { exists true, sz, s. split; [done|]. split; [done|]. by left. }
  destruct nr; [|by apply IH].
  assert (x ∈ clause_at s i) as Hx.
  { destruct (inv_accurate _ _ Hinv x i); [|done..]. apply Hids. by left. }
  destruct (RemoveAndRegisterForPostsolve_runs n s i x Hinv Hcount Hx)
    as (s1 & Hrem & Hinv1 & Hcount1).
  rewrite Hrem.
  apply RemoveAndRegisterForPostsolve_spec in Hrem as (Hc & Hocc & _).
  destruct (IH s1 sz Hinv1 Hcount1)
    as (exceeded & size' & s' & Hrun & Hcount' & Hdel).
  { intros i' Hi'. rewrite (occurrences_same s s1) by done. by apply Hids'. }
  exists exceeded, size', s'. split; [done|]. split; [done|].
  intros k. destruct (Hdel k) as [Hk|Hk]; [|by right].
  rewrite Hk, (clause_at_cleared s i k s1 Hc).
  destruct (decide (i = k)); [by right | by left].
Qed.

Lemma unit_clause (c : list Literal) x :
  NoDup c -> x ∈ c -> (forall l, l ∈ c -> l = x) -> c = [x].
Proof.
  intros Hnd Hx Hall. destruct c as [|l0 c]; [inversion Hx|].
  assert (l0 = x) as -> by (apply Hall; by left).
  destruct c as [|l1 c]; [done|].
  assert (l1 = x) as -> by (apply Hall; right; by left).
  apply NoDup_cons in Hnd as [Hnotin _]. destruct Hnotin. by left.
Qed.

(** Adding the resolvents of the clause [i] only aborts on an empty
    resolvent, that of two unit clauses. *)
Lemma add_resolvents_of_runs n x i js :
  forall s,
    presolver_inv n s -> counters_inv n s -> x ∈ clause_at s i ->
    (forall j, j ∈ js -> j ∈ occurrences s (Negated x)) ->
    (exists s', add_resolvents_of s x i js = Some s' /\ counters_inv n s')
    \/ (add_resolvents_of s x i js = None
        /\ exists j, clause_at s i = [x] /\ clause_at s j = [Negated x]).
Proof.
  induction js as [|j js IH]; intros s Hinv Hcount Hx Hjs.
  { left. by exists s. }
  cbn [add_resolvents_of].
  assert (forall j', j' ∈ js -> j' ∈ occurrences s (Negated x)) as Hjs'.
  { intros j' Hj'. apply Hjs, elem_of_cons. by right. }
  destruct (is_empty_clause (clause_at s j)) eqn:Hempty; [by apply IH|].
  apply is_empty_clause_false in Hempty.
  assert (Negated x ∈ clause_at s j) as Hn.
  { destruct (inv_accurate _ _ Hinv (Negated x) j); [|done..].
    apply Hjs, elem_of_cons. by left. }
  destruct (resolvent_facts n s x i j Hinv Hx Hn)
    as [[Hclash Hfalse]|(out & Hout & Hcanon & Hmem & Hrange)].
  { destruct (ComputeResolvant x (clause_at s i) (clause_at s j))
      as [[|] temp]; [done|]. by apply IH. }
  rewrite Hout.
  pose proof (inv_canonical _ _ Hinv i) as [Hsa Hca]%canonical_spec.
  pose proof (inv_canonical _ _ Hinv j) as [Hsb Hcb]%canonical_spec.
  destruct (AddClauseInternal s out) as [s1|] eqn:Hadd.
  2:{ right. split; [done|]. exists j.
      assert (out = []) as -> by (by destruct out).
      split; apply unit_clause; try done; try (by apply is_sorted_NoDup).
      - intros l Hl. destruct (decide (l = x)) as [|Hne]; [done|].
        assert (l ∈ []) as Hin by (apply Hmem; by left). inversion Hin.
      - intros l Hl. destruct (decide (l = Negated x)) as [|Hne]; [done|].
        assert (l ∈ []) as Hin by (apply Hmem; by right). inversion Hin. }
  destruct (AddClauseInternal_inv n s out s1 Hinv Hcanon Hrange Hadd)
    as (Hinv1 & Hcl1 & Hp1 & Hocc1).
  assert (counters_inv n s1) as Hcount1.
  { apply (AddClauseInternal_counters n s out s1); try done.
    intros l [[Hl _]|[Hl _]]%Hmem; eapply (inv_variables _ _ Hcount), Hl. }
  destruct (resolvent_without_pivot x _ _ out Hca Hcb Hx Hn Hmem)
    as [Hxout Hnout].
  pose proof (clause_at_snoc s out) as Hat.
  assert (clause_at s1 i = clause_at s i) as Hi1.
  { rewrite (Hat i s1 Hcl1), decide_True; [done|].
    apply live_clause_in_range. by eapply elem_of_clause_live. }
  destruct (IH s1) as [?|(Hnone & j' & Hui & Huj)];
    [done|done|by rewrite Hi1| |by left|].
  { intros j' Hj'. rewrite Hocc1, decide_False by done. by apply Hjs'. }
  right. split; [done|]. exists j'. rewrite <- Hi1. split; [done|].
  rewrite (Hat j' s1 Hcl1) in Huj.
  destruct (decide (j' < length (clauses_ s))%nat); [done|].
  destruct (decide (j' = length (clauses_ s))); [|done].
  destruct Hnout. rewrite Huj. by left.
Qed.

Lemma add_resolvents_runs n x ids :
  forall s,
    presolver_inv n s -> counters_inv n s ->
    (forall i, i ∈ ids -> i ∈ occurrences s x) ->
    (exists s', add_resolvents s x ids = Some s' /\ counters_inv n s')
    \/ (add_resolvents s x ids = None
        /\ exists i j, clause_at s i = [x] /\ clause_at s j = [Negated x]).
Proof.
  induction ids as [|i ids IH]; intros s Hinv Hcount Hids.
  { left. by exists s. }
  cbn [add_resolvents].
  assert (forall i', i' ∈ ids -> i' ∈ occurrences s x) as Hids'.
  { intros i' Hi'. apply Hids, elem_of_cons. by right. }
  destruct (is_empty_clause (clause_at s i)) eqn:Hempty; [by apply IH|].
  apply is_empty_clause_false in Hempty.
  assert (x ∈ clause_at s i) as Hx.
  { destruct (inv_accurate _ _ Hinv x i); [|done..].
    apply Hids, elem_of_cons. by left. }
  destruct (add_resolvents_of_runs n x i (occurrences s (Negated x)) s
              Hinv Hcount Hx (fun j H => H))
    as [(s1 & Hinner & Hcount1)|(Hnone & j & Hui & Huj)].
  2:{ right. rewrite Hnone. split; [done|]. by exists i, j. }
  rewrite Hinner.
  destruct (add_resolvents_of_sound n x i _ s s1 Hinv Hx (fun j H => H) Hinner)
    as (Hinv1 & (Hp & Hlen & Hold & Hnew & Hox & Hon) & _).
  destruct (IH s1 Hinv1 Hcount1) as [?|(Hnone & i' & j' & Hui & Huj)];
    [|by left|].
  { intros i' Hi'. rewrite Hox. by apply Hids'. }
  right. split; [done|]. exists i', j'.
  assert (forall k c, clause_at s1 k = c -> (x ∈ c \/ Negated x ∈ c) ->
                      clause_at s k = c) as Hback.
  { intros k c Hk Hc.
    destruct (decide (k < length (clauses_ s))%nat); [by rewrite <- Hold|].
    destruct (Hnew k) as [H1 H2]; [lia|]. rewrite Hk in H1, H2. tauto. }
  split; apply Hback; try done; [left | right]; by left.
Qed.

Lemma remove_and_register_all_runs n x ids :
  forall s,
    presolver_inv n s -> counters_inv n s ->
    (forall i, i ∈ ids -> i ∈ occurrences s x) ->
    exists s', remove_and_register_all s x ids = Some s'
      /\ counters_inv n s'.
Proof.
  induction ids as [|i ids IH]; intros s Hinv Hcount Hids.
  { by exists s. }
  cbn [remove_and_register_all].
  assert (forall i', i' ∈ ids -> i' ∈ occurrences s x) as Hids'.
  { intros i' Hi'. apply Hids, elem_of_cons. by right. }
  destruct (is_empty_clause (clause_at s i)) eqn:Hempty; [by apply IH|].
  apply is_empty_clause_false in Hempty.
  assert (x ∈ clause_at s i) as Hx.
  { destruct (inv_accurate _ _ Hinv x i); [|done..].
    apply Hids, elem_of_cons. by left. }
  destruct (RemoveAndRegisterForPostsolve_runs n s i x Hinv Hcount Hx)
    as (s1 & Hrem & Hinv1 & Hcount1).
  rewrite Hrem. apply IH; [done..|].
  intros i' Hi'.
  apply RemoveAndRegisterForPostsolve_spec in Hrem as (_ & Hocc & _).
  rewrite (occurrences_same s s1) by done. by apply Hids'.
Qed.

Lemma RemoveAndRegisterForPostsolveAllClauseContaining_runs n s x :
  presolver_inv n s -> counters_inv n s ->
  exists s', RemoveAndRegisterForPostsolveAllClauseContaining s x = Some s'
    /\ counters_inv n s'.
Proof.
  intros Hinv Hcount.
  unfold RemoveAndRegisterForPostsolveAllClauseContaining.
  destruct (remove_and_register_all_runs n x (occurrences s x) s Hinv Hcount
              (fun i H => H)) as (s1 & -> & [Hsizes Hvars Hassign]).
  eexists. split; [reflexivity|]. split; [|done..].
  apply (sizes_exact_rewrite_list s1 _ x []); [done| |reflexivity|reflexivity|].
  - intros i. reflexivity.
  - intros ci Hci. inversion Hci.
Qed.

(** [CrossProduct] keeps the counters exact; it only aborts when the
    database holds the two unit clauses of the variable to eliminate, whose
    resolvent is empty. *)
Lemma CrossProduct_runs n s x es :
  presolver_inv n s -> log_is (postsolver_ s) es -> counters_inv n s ->
  (exists r s', CrossProduct s x = Some (r, s') /\ counters_inv n s')
  \/ (CrossProduct s x = None
      /\ exists i j y, LiteralVariable y = LiteralVariable x
           /\ clause_at s i = [y] /\ clause_at s j = [Negated y]).
Proof.
  intros Hinv Hlog Hcount. unfold CrossProduct.
  destruct (_ && _); [left; by exists false, s|].
  destruct (_ && _); [left; by exists false, s|].
  set (y := if occurrence_size s x <? occurrence_size s (Negated x)
            then Negated x else x) in *.
  assert (LiteralVariable y = LiteralVariable x) as Hy.
  { unfold y. destruct (_ <? _); [apply LiteralVariable_Negated | done]. }
  destruct (eliminate_blocked_runs n y (bve_threshold s x) (occurrences s y)
              s 0 Hinv Hcount (fun i H => H))
    as (exceeded & size & sa & Hblocked & Hcounta & Hdel).
  rewrite Hblocked.
  pose proof (eliminate_blocked_removals y _ _ s 0 exceeded size sa
                (fun i H => H) Hblocked) as Hremovals.
  apply (blocked_removals_sound n) in Hremovals.
  destruct (Hremovals es Hinv Hlog) as (Hinva & new & Hloga & _).
  destruct exceeded; [left; by exists false, sa|].
  destruct (add_resolvents_runs n y (occurrences sa y) sa Hinva Hcounta
              (fun i H => H))
    as [(sb & Hadd & Hcountb)|(Hnone & i & j & Hui & Huj)].
  2:{ right. rewrite Hnone. split; [done|]. exists i, j, y. split; [done|].
      destruct (Hdel i) as [<-|Hi]; [|by rewrite Hi in Hui].
      destruct (Hdel j) as [<-|Hj]; [|by rewrite Hj in Huj]. done. }
  rewrite Hadd.
  destruct (add_resolvents_resolved n y sa sb Hinva Hadd)
    as (Hinvb & Hpb & Hresb & _).
  destruct (RemoveAndRegisterForPostsolveAllClauseContaining_runs n sb y
              Hinvb Hcountb) as (sc & Hfirst & Hcountc).
  rewrite Hfirst. rewrite <- Hpb in Hloga.
  destruct (RemoveAndRegisterForPostsolveAllClauseContaining_sound
              n sb y sc (es ++ new) Hinvb Hloga Hresb Hfirst)
    as (Hinvc & _).
  destruct (RemoveAndRegisterForPostsolveAllClauseContaining_runs n sc
              (Negated y) Hinvc Hcountc) as (sd & Hsecond & Hcountd).
  rewrite Hsecond. left. by exists true, sd.
Qed.

(** ** The counters when the formula is loaded *)

Lemma sizes_exact_resize s required :
  sizes_exact s -> (length (literal_to_clauses_ s) < required)%nat ->
  sizes_exact
    (set_literal_to_clause_sizes
       (set_literal_to_clauses s (resize required [] (literal_to_clauses_ s)))
       (resize required 0 (literal_to_clause_sizes_ s))).
Proof.
  intros [Hlen Hexact] Hlt. split; [simpl; by rewrite !length_resize|].
  simpl. rewrite length_resize. intros l Hl.
  unfold live_occurrences, occurrences. simpl.
  rewrite occurrences_resize by done.
  destruct (decide (N.to_nat l < length (literal_to_clauses_ s))%nat)
    as [Hin|Hout].
  - rewrite lookup_resize by lia. by rewrite (Hexact l Hin).
  - rewrite lookup_resize_new by lia.
    by rewrite list_lookup_total_alt, lookup_ge_None_2 by lia.
Qed.

(** [AddClause] of a clause that is not trivially true, seen as
    [AddClauseInternal] once the occurrence lists and the counters have
    been extended. *)
Lemma AddClause_resized s clause :
  clause <> [] -> equiv_mapping_ s = [] ->
  has_trivial_pair (sort_unique clause) = false ->
  exists s0,
    AddClause s clause = AddClauseInternal s0 (sort_unique clause)
    /\ clauses_ s0 = clauses_ s /\ postsolver_ s0 = postsolver_ s
    /\ (forall l, occurrences s0 l = occurrences s l)
    /\ (forall l, l ∈ sort_unique clause ->
          (N.to_nat l < length (literal_to_clauses_ s0))%nat)
    /\ (sizes_exact s -> sizes_exact s0).
Proof.
  intros Hne Hequiv Hpair.
  destruct (sort_unique_spec clause) as [Hsorted Helem].
  set (cr := sort_unique clause) in *.
  set (required := Z.to_nat (Z.max (Index (default 0%N (last cr)))
                               (NegatedIndex (default 0%N (last cr))) + 1)).
  exists (if (length (literal_to_clauses_ s) <? required)%nat
          then set_literal_to_clause_sizes
                 (set_literal_to_clauses s
                    (resize required [] (literal_to_clauses_ s)))
                 (resize required 0 (literal_to_clause_sizes_ s))
          else s).
  assert (cr <> []) as Hcr.
  { destruct clause as [|l0 c0]; [done|]. intros Hnil.
    assert (l0 ∈ cr) as Hin by (apply Helem, elem_of_cons; by left).
    rewrite Hnil in Hin. inversion Hin. }
  split.
  { unfold AddClause, AddClauseInternal, apply_equiv_mapping.
    rewrite Hequiv. fold cr. rewrite Hpair.
    destruct clause as [|l0 c0]; [done|]. destruct cr as [|l1 c1]; [done|].
    fold required. simpl literal_to_clauses_.
    by destruct (length (literal_to_clauses_ s) <? required)%nat. }
  destruct (length (literal_to_clauses_ s) <? required)%nat eqn:Hlen.
  - apply Nat.ltb_lt in Hlen. simpl.
    split; [done|]. split; [done|]. split; [|split].
    + intros l. unfold occurrences. simpl. by apply occurrences_resize.
    + intros l Hl. rewrite length_resize.
      pose proof (is_sorted_last cr l Hsorted Hl). unfold required, Index.
      lia.
    + intros Hsizes. by apply sizes_exact_resize.
  - apply Nat.ltb_ge in Hlen.
    split; [done|]. split; [done|]. split; [done|]. split; [|done].
    intros l Hl.
    pose proof (is_sorted_last cr l Hsorted Hl). unfold required, Index in *.
    lia.
Qed.

Lemma AddClause_counters n s clause s' :
  presolver_inv n s -> counters_inv n s -> equiv_mapping_ s = [] ->
  (forall l, l ∈ clause -> (LiteralVariable l < N.of_nat n)%N) ->
  AddClause s clause = Some s' ->
  counters_inv n s'.
Proof.
  intros Hinv Hcount Hequiv Hbelow Hadd.
  assert (clause <> []) as Hne by (by intros ->).
  destruct (sort_unique_spec clause) as [Hsorted Helem].
  destruct (has_trivial_pair (sort_unique clause)) eqn:Hpair.
  - assert (s' = set_num_trivial_clauses s (num_trivial_clauses_ s + 1))
      as ->.
    { unfold AddClause, apply_equiv_mapping in Hadd.
      rewrite Hequiv, Hpair in Hadd. destruct clause; [done|].
      by injection Hadd as <-. }
    by destruct Hcount.
  - destruct (AddClause_resized s clause Hne Hequiv Hpair)
      as (s0 & Heq & Hc0 & Hp0 & Hocc0 & Hrange0 & Hsizes0).
    rewrite Heq in Hadd.
    assert (presolver_inv n s0) as Hinv0 by (by eapply presolver_inv_view).
    assert (canonical (sort_unique clause) = true) as Hcanon.
    { apply canonical_spec. split; [done|].
      by apply has_trivial_pair_false. }
    apply (AddClauseInternal_counters n s0 (sort_unique clause) s');
      try done.
    + destruct Hcount as [Hsizes Hvars Hassign]. split.
      * by apply Hsizes0.
      * intros ci l. unfold clause_at. rewrite Hc0. apply Hvars.
      * by rewrite Hp0.
    + intros l Hl. by apply Hbelow, Helem.
Qed.

Lemma SatPresolver_new_counters n t w :
  counters_inv n (SatPresolver_new (SatPostsolver_new n) t w).
Proof.
  split; [|intros ci l H; inversion H|done].
  split; [done|]. simpl. intros l Hl. lia.
Qed.

Lemma load_clauses_counters n formula :
  forall s sF,
    presolver_inv n s -> counters_inv n s -> equiv_mapping_ s = [] ->
    (forall c l, c ∈ formula -> l ∈ c -> (LiteralVariable l < N.of_nat n)%N) ->
    foldl (fun state clause => state ≫= fun s => AddClause s clause)
      (Some s) formula = Some sF ->
    counters_inv n sF.
Proof.
  induction formula as [|c0 formula IH];
    intros s sF Hinv Hcount Hequiv Hbelow Hload.
  { by injection Hload as <-. }
  cbn [foldl] in Hload. simpl mbind in Hload.
  destruct (AddClause s c0) as [s1|] eqn:Hadd.
  2:{ by rewrite foldl_AddClause_None in Hload. }
  destruct (AddClause_sound n s c0 s1 Hinv Hequiv Hadd)
    as (Hinv1 & Hequiv1 & _).
  apply (IH s1 sF Hinv1); [|done| |done].
  - apply (AddClause_counters n s c0 s1); try done.
    intros l Hl. apply (Hbelow c0); [by left | done].
  - intros c l Hc. apply Hbelow. by right.
Qed.

(** ** The counters along the presolve operations *)

Lemma presolve_step_counters n s s' es :
  presolve_step s s' ->
  presolver_inv n s -> log_is (postsolver_ s) es -> counters_inv n s ->
  counters_inv n s'.
Proof.
  intros [s0 ci s1 Hrun|s0 x r s1 Hrun|s0 flags queue elements pq]
    Hinv Hlog Hcount.
  - destruct (ProcessClauseToSimplifyOthers_runs n s0 ci Hinv Hcount)
      as (r & s2 & Hrun' & Hgood).
    rewrite Hrun in Hrun'. injection Hrun' as <- <-. by apply Hgood.
  - destruct (CrossProduct_runs n s0 x es Hinv Hlog Hcount)
      as [(r' & s2 & Hrun' & Hgood)|[Hnone _]]; [|congruence].
    rewrite Hrun in Hrun'. by injection Hrun' as <- <-.
  - by destruct Hcount.
Qed.

Lemma presolve_steps_counters n s s' :
  presolve_steps s s' ->
  forall es, presolver_inv n s -> log_is (postsolver_ s) es ->
    counters_inv n s -> counters_inv n s'.
Proof.
  induction 1 as [s|s s1 s' Hstep _ IH]; intros es Hinv Hlog Hcount; [done|].
  destruct (presolve_step_sound n s s1 Hstep es Hinv Hlog)
    as (Hinv1 & new & Hlog1 & _).
  apply (IH (es ++ new)); [done..|].
  by apply (presolve_step_counters n s s1 es).
Qed.

(** What is known of the database after a formula over [n] variables has
    been added to a new presolver and presolve operations have been run. *)
Lemma presolved_invariants n threshold weight F sF s :
  presolver_of_clauses (SatPostsolver_new n) threshold weight F = Some sF ->
  (forall c l, c ∈ F -> l ∈ c -> (LiteralVariable l < N.of_nat n)%N) ->
  presolve_steps sF s ->
  presolver_inv n s /\ counters_inv n s
  /\ exists es, log_is (postsolver_ s) es /\ reconstructs n sF s es.
Proof.
  intros Hload Hvars Hsteps.
  pose proof (SatPresolver_new_inv n threshold weight) as Hinv0.
  destruct (load_clauses_sound n F _ sF Hinv0 eq_refl Hload)
    as (HinvF & HpF & _).
  assert (log_is (postsolver_ sF) []) as HlogF by (by rewrite HpF).
  assert (counters_inv n sF) as HcountF.
  { apply (load_clauses_counters n F _ sF Hinv0); try done.
    apply SatPresolver_new_counters. }
  destruct (presolve_steps_sound n sF s Hsteps [] HinvF HlogF)
    as (Hinv & new & Hlog & Hrec).
  split; [done|]. split; [by apply (presolve_steps_counters n sF s Hsteps [])|].
  by exists new.
Qed.

(** * What the presolver guarantees on its own state *)

Lemma live_occurrences_count n s l :
  presolver_inv n s ->
  live_occurrences s l
  = Z.of_nat (length (filter (fun ci => l ∈ clause_at s ci)
                        (seq 0 (length (clauses_ s))))).
Proof.
  intros Hinv. unfold live_occurrences. f_equal.
  apply Permutation_length, NoDup_Permutation.
  - apply NoDup_filter, (inv_nodup _ _ Hinv).
  - apply NoDup_filter, NoDup_seq.
  - intros ci. rewrite !list_elem_of_filter, elem_of_seq. split.
    + intros [Hlive Hci].
      destruct (inv_accurate _ _ Hinv l ci Hci) as [?|Hl]; [done|].
      split; [done|]. apply live_clause_in_range in Hlive. lia.
    + intros [Hl _]. split; [by eapply elem_of_clause_live|].
      by apply (inv_complete _ _ Hinv).
Qed.

(** The counters are exact.  After a formula over [n] variables has been
    added to a new presolver and any presolve operations have been run,
    [literal_to_clause_sizes_] has one entry per occurrence list, and the
    entry of a literal is the number of clauses of the database that
    contain the literal. *)
Theorem literal_to_clause_sizes_exact (n : nat) (threshold weight : Z)
    (F : list (list Literal)) (sF s : SatPresolver) :
  presolver_of_clauses (SatPostsolver_new n) threshold weight F = Some sF ->
  (forall c l, c ∈ F -> l ∈ c -> (LiteralVariable l < N.of_nat n)%N) ->
  presolve_steps sF s ->
  length (literal_to_clause_sizes_ s) = length (literal_to_clauses_ s)
  /\ forall l : Literal,
       (N.to_nat l < length (literal_to_clause_sizes_ s))%nat ->
       literal_to_clause_sizes_ s !! N.to_nat l
       = Some (Z.of_nat (length (filter (fun ci => l ∈ clause_at s ci)
                                   (seq 0 (length (clauses_ s)))))).
Proof.
  intros Hload Hvars Hsteps.
  destruct (presolved_invariants n threshold weight F sF s Hload Hvars Hsteps)
    as (Hinv & [[Hlen Hexact] _ _] & _).
  split; [done|]. intros l Hl. rewrite Hlen in Hl.
  by rewrite (Hexact l Hl), (live_occurrences_count n).
Qed.

Lemma literal_to_clause_sizes_exact_witness :
  let F : list (list Literal) := [[0; 2]; [1; 4]; [0; 2; 4]]%N in
  exists sF s1 s',
    presolver_of_clauses (SatPostsolver_new 3) 500 3 F = Some sF
    /\ ProcessAllClauses 4 sF = Some (true, s1)
    /\ CrossProduct s1 0%N = Some (true, s')
    /\ clauses_ s' = [[]; []; []; [2; 4]]%N
    /\ length (literal_to_clause_sizes_ s') = length (literal_to_clauses_ s')
    /\ forall l : Literal,
         (N.to_nat l < length (literal_to_clause_sizes_ s'))%nat ->
         literal_to_clause_sizes_ s' !! N.to_nat l
         = Some (Z.of_nat (length (filter (fun ci => l ∈ clause_at s' ci)
                                     (seq 0 (length (clauses_ s')))))).
Proof.
  intros F. eexists _, _, _.
  split; [vm_compute; reflexivity|].
  split; [vm_compute; reflexivity|].
  split; [vm_compute; reflexivity|].
  split; [vm_compute; reflexivity|].
  eapply (literal_to_clause_sizes_exact 3 500 3 F).
  - vm_compute. reflexivity.
  - intros c l Hc. revert l. apply Forall_forall. revert c Hc.
    apply Forall_forall. decide_by_compute.
  - eapply presolve_steps_trans.
    { apply (ProcessAllClauses_steps 4). vm_compute. reflexivity. }
    eapply presolve_steps_next; [|apply presolve_steps_done].
    eapply (step_eliminate _ 0%N). vm_compute. reflexivity.
Defined.

(** [ProcessClauseToSimplifyOthers] never aborts.  After a formula over [n]
    variables has been added to a new presolver and any presolve operations
    have been run, the call passes all its [CHECK]s on every clause of the
    database: the opposite literal found by the first scan is never [lit],
    the counter of [lit] is the length of its cleaned list, and the
    opposite literal found by the second scan is always the negation of
    [lit]. *)
Theorem ProcessClauseToSimplifyOthers_never_aborts (n : nat)
    (threshold weight : Z) (F : list (list Literal)) (sF s : SatPresolver)
    (ci : ClauseIndex) :
  presolver_of_clauses (SatPostsolver_new n) threshold weight F = Some sF ->
  (forall c l, c ∈ F -> l ∈ c -> (LiteralVariable l < N.of_nat n)%N) ->
  presolve_steps sF s ->
  (ci < length (clauses_ s))%nat ->
  exists r s', ProcessClauseToSimplifyOthers s ci = Some (r, s').
Proof.
  intros Hload Hvars Hsteps _.
  destruct (presolved_invariants n threshold weight F sF s Hload Hvars Hsteps)
    as (Hinv & Hcount & _).
  destruct (ProcessClauseToSimplifyOthers_runs n s ci Hinv Hcount)
    as (r & s' & Hrun & _).
  by exists r, s'.
Qed.

Lemma ProcessClauseToSimplifyOthers_never_aborts_witness :
  let F : list (list Literal) := [[0; 2]; [1; 4]; [0; 2; 4]]%N in
  exists sF s1 s2,
    presolver_of_clauses (SatPostsolver_new 3) 500 3 F = Some sF
    /\ ProcessAllClauses 4 sF = Some (true, s1)
    /\ CrossProduct s1 0%N = Some (true, s2)
    /\ clauses_ s2 = [[]; []; []; [2; 4]]%N
    /\ exists r s', ProcessClauseToSimplifyOthers s2 3 = Some (r, s').
Proof.
  intros F. eexists _, _, _.
  split; [vm_compute; reflexivity|].
  split; [vm_compute; reflexivity|].
  split; [vm_compute; reflexivity|].
  split; [vm_compute; reflexivity|].
  eapply (ProcessClauseToSimplifyOthers_never_aborts 3 500 3 F).
  - vm_compute. reflexivity.
  - intros c l Hc. revert l. apply Forall_forall. revert c Hc.
    apply Forall_forall. decide_by_compute.
  - eapply presolve_steps_trans.
    { apply (ProcessAllClauses_steps 4). vm_compute. reflexivity. }
    eapply presolve_steps_next; [|apply presolve_steps_done].
    eapply (step_eliminate _ 0%N). vm_compute. reflexivity.
  - vm_compute. lia.
Defined.

(** [CrossProduct] only aborts on an unsatisfiable problem.  After a
    formula over [n] variables has been added to a new presolver and any
    presolve operations have been run, [CrossProduct(x)] fails a [CHECK]
    only in [AddClauseInternal], on an empty resolvent: the database then
    holds the unit clause of a literal of the variable of [x] and the unit
    clause of its negation, and no assignment satisfies the formula. *)
Theorem CrossProduct_abort_unit_clauses (n : nat) (threshold weight : Z)
    (F : list (list Literal)) (sF s : SatPresolver) (x : Literal) :
  presolver_of_clauses (SatPostsolver_new n) threshold weight F = Some sF ->
  (forall c l, c ∈ F -> l ∈ c -> (LiteralVariable l < N.of_nat n)%N) ->
  presolve_steps sF s ->
  CrossProduct s x = None ->
  (exists i j y, LiteralVariable y = LiteralVariable x
     /\ clause_at s i = [y] /\ clause_at s j = [Negated y])
  /\ forall m, ~ (forall c, c ∈ F -> clause_satisfied m c = true).
Proof.
  intros Hload Hvars Hsteps Hnone.
  destruct (presolved_invariants n threshold weight F sF s Hload Hvars Hsteps)
    as (Hinv & Hcount & es & Hlog & _).
  destruct (CrossProduct_runs n s x es Hinv Hlog Hcount)
    as [(r & s' & Hrun & _)|[_ (i & j & y & Hy & Hi & Hj)]]; [congruence|].
  split; [by exists i, j, y|]. intros m Hall.
  destruct (loaded_formula_models n threshold weight F sF s m Hload Hsteps
              Hall) as [_ Hm].
  pose proof (Hm i) as Hmi. pose proof (Hm j) as Hmj.
  rewrite Hi in Hmi. rewrite Hj in Hmj.
  specialize (Hmi ltac:(done)). specialize (Hmj ltac:(done)).
  cbn [clause_satisfied existsb] in Hmi, Hmj.
  rewrite orb_false_r in Hmi, Hmj.
  apply LiteralIsTrue_Negated_false in Hmi. congruence.
Qed.

Lemma CrossProduct_abort_unit_clauses_witness :
  let F : list (list Literal) := [[0]; [1]]%N in
  exists sF,
    presolver_of_clauses (SatPostsolver_new 1) 500 3 F = Some sF
    /\ clauses_ sF = [[0]; [1]]%N
    /\ CrossProduct sF 0%N = None
    /\ (exists i j y, LiteralVariable y = LiteralVariable 0%N
          /\ clause_at sF i = [y] /\ clause_at sF j = [Negated y])
    /\ forall m, ~ (forall c, c ∈ F -> clause_satisfied m c = true).
Proof.
  intros F. eexists.
  split; [vm_compute; reflexivity|].
  split; [vm_compute; reflexivity|].
  split; [vm_compute; reflexivity|].
  eapply (CrossProduct_abort_unit_clauses 1 500 3 F).
  - vm_compute. reflexivity.
  - intros c l Hc. revert l. apply Forall_forall. revert c Hc.
    apply Forall_forall. decide_by_compute.
  - apply presolve_steps_done.
  - vm_compute. reflexivity.
Defined.

(** * Handing the problem over to the solver *)

(** ** [VariableMapping] *)

Lemma MakeLiteral_index (v : VariableIndex) (b : bool) :
  MakeLiteral v b = (2 * v + if b then 0 else 1)%N.
Proof.
  pose proof (LiteralVariable_MakeLiteral v b) as Hv.
  pose proof (IsPositive_MakeLiteral v b) as Hb.
  destruct (literal_decompose (MakeLiteral v b))
    as [k [(Hl & Hk & Hp & _)|(Hl & Hk & Hp & _)]];
    rewrite Hl; destruct b; try congruence; lia.
Qed.

Lemma variable_in_use_spec s var :
  variable_in_use s var = true <->
  exists b k, literal_to_clause_sizes_ s
                !! N.to_nat (MakeLiteral (N.of_nat var) b) = Some k
              /\ 0 < k
              /\ is_Some (literal_to_clause_sizes_ s
                            !! N.to_nat (MakeLiteral (N.of_nat var) true)).
Proof.
  unfold variable_in_use. split.
  - destruct (_ !! N.to_nat (MakeLiteral (N.of_nat var) true))
      as [p|] eqn:Hp; [|done].
    intros [Hpos|Hneg]%orb_true_iff.
    + exists true, p. rewrite Hp. split; [done|]. split; [lia | by eexists].
    + destruct (_ !! N.to_nat (MakeLiteral (N.of_nat var) false))
        as [q|] eqn:Hq; [|done].
      exists false, q. split; [done|]. split; [lia | by eexists].
  - intros ([|] & k & Hk & Hpos & [p Hp]); rewrite Hp.
    + assert (p = k) as -> by congruence. apply orb_true_iff. left. lia.
    + rewrite Hk. apply orb_true_iff. right. lia.
Qed.

(** The loop of [VariableMapping] numbers the variables in use, in
    increasing order, from [new_var] on. *)
Lemma VariableMapping_loop_closed s todo :
  forall var new_var,
    (2 * (var + todo) <= length (literal_to_clause_sizes_ s))%nat ->
    exists mapping,
      VariableMapping_loop (literal_to_clause_sizes_ s) todo var new_var
        = Some mapping
      /\ length mapping = todo
      /\ forall i, (i < todo)%nat ->
           mapping !! i
           = Some (if variable_in_use s (var + i)
                   then new_var
                        + Z.of_nat (length (filter
                                      (fun u => variable_in_use s u = true)
                                      (seq var i)))
                   else -1).
Proof.
  induction todo as [|todo IH]; intros var new_var Hrange.
  { exists []. split; [done|]. split; [done|]. intros i Hi. lia. }
  cbn [VariableMapping_loop].
  destruct (lookup_lt_is_Some_2 (literal_to_clause_sizes_ s)
              (N.to_nat (MakeLiteral (N.of_nat var) true))) as [p Hp].
  { rewrite MakeLiteral_index. lia. }
  destruct (lookup_lt_is_Some_2 (literal_to_clause_sizes_ s)
              (N.to_nat (MakeLiteral (N.of_nat var) false))) as [q Hq].
  { rewrite MakeLiteral_index. lia. }
  assert (variable_in_use s var = (p >? 0) || (q >? 0)) as Huse.
  { unfold variable_in_use. by rewrite Hp, Hq. }
  rewrite Hp, Hq.
  set (new_var' := if variable_in_use s var then new_var + 1 else new_var).
  destruct (IH (S var) new_var') as (mapping & Hrun & Hlen & Hlook); [lia|].
  exists ((if variable_in_use s var then new_var else -1) :: mapping).
  split; [|split].
  - unfold new_var' in Hrun. rewrite Huse in Hrun |- *. revert Hrun.
    destruct (p >? 0), (q >? 0); simpl; by intros ->.
  - simpl. by rewrite Hlen.
  - intros [|i] Hi.
    + rewrite Nat.add_0_r. simpl. destruct (variable_in_use s var); [|done].
      f_equal. lia.
    + cbn [lookup list_lookup]. rewrite Hlook by lia.
      replace (S var + i)%nat with (var + S i)%nat by lia.
      destruct (variable_in_use s (var + S i)); [|done].
      f_equal. cbn [seq]. rewrite filter_cons. unfold new_var'.
      destruct (decide (variable_in_use s var = true)) as [Hu|Hu].
      * rewrite Hu. simpl. lia.
      * apply not_true_is_false in Hu. rewrite Hu. lia.
Qed.

(** The mapping is dense.  When [NumVariables()] does not go past the
    counters, [VariableMapping] sends every variable whose two counters are
    zero to [-1], and the other ones to their rank among them: the
    variables in use are numbered [0, 1, 2, ...] in increasing order. *)
Theorem VariableMapping_dense (num_variables : nat) (s : SatPresolver) :
  (2 * num_variables <= length (literal_to_clause_sizes_ s))%nat ->
  exists mapping,
    VariableMapping num_variables s = Some mapping
    /\ length mapping = num_variables
    /\ forall var, (var < num_variables)%nat ->
         mapping !! var
         = Some (if variable_in_use s var
                 then Z.of_nat (variable_rank s var) else -1).
Proof.
  intros Hrange.
  destruct (VariableMapping_loop_closed s num_variables 0 0)
    as (mapping & Hrun & Hlen & Hlook); [lia|].
  exists mapping. split; [done|]. split; [done|].
  intros var Hvar. by rewrite (Hlook var Hvar).
Qed.

Lemma VariableMapping_dense_witness :
  let s := {| clauses_ := [[]; [2; 7]; []; [2; 6]]%N;
              literal_to_clauses_ :=
                [[0]; []; [1; 3]; []; []; []; [3]; [1]]%nat;
              literal_to_clause_sizes_ := [0; 0; 2; 0; 0; 0; 1; 1];
              in_clause_to_process_ := [false; false; false; false];
              clause_to_process_ := [];
              var_pq_elements_ := []; var_pq_ := [];
              equiv_mapping_ := []; num_trivial_clauses_ := 0;
              presolve_bve_threshold := 500;
              presolve_bve_clause_weight := 3;
              postsolver_ := SatPostsolver_new 4 |} in
  VariableMapping 4 s = Some [-1; 0; -1; 1]
  /\ exists mapping,
       VariableMapping 4 s = Some mapping
       /\ length mapping = 4%nat
       /\ forall var, (var < 4)%nat ->
            mapping !! var
            = Some (if variable_in_use s var
                    then Z.of_nat (variable_rank s var) else -1).
Proof.
  intros s. split; [vm_compute; reflexivity|].
  apply (VariableMapping_dense 4 s). vm_compute. lia.
Defined.

(** ** The rank of a variable *)

Lemma variable_rank_S s v :
  variable_rank s (S v)
  = (variable_rank s v + if variable_in_use s v then 1 else 0)%nat.
Proof.
  unfold variable_rank. rewrite seq_S, filter_app, length_app. f_equal.
  rewrite filter_cons, filter_nil. simpl.
  destruct (decide (variable_in_use s v = true)) as [->|Hu]; [done|].
  apply not_true_is_false in Hu. by rewrite Hu.
Qed.

Lemma variable_rank_mono s u v :
  (u <= v)%nat -> (variable_rank s u <= variable_rank s v)%nat.
Proof.
  induction 1 as [|v _ IH]; [done|]. rewrite variable_rank_S. lia.
Qed.

Lemma variable_rank_lt s u v :
  (u < v)%nat -> variable_in_use s u = true ->
  (variable_rank s u < variable_rank s v)%nat.
Proof.
  intros Hlt Hu. pose proof (variable_rank_mono s (S u) v Hlt) as Hle.
  rewrite variable_rank_S, Hu in Hle. lia.
Qed.

Lemma variable_rank_inj s u v :
  variable_in_use s u = true -> variable_in_use s v = true ->
  variable_rank s u = variable_rank s v -> u = v.
Proof.
  intros Hu Hv Heq.
  destruct (Nat.lt_trichotomy u v) as [Hlt|[?|Hlt]]; [|done|].
  - pose proof (variable_rank_lt s u v Hlt Hu). lia.
  - pose proof (variable_rank_lt s v u Hlt Hv). lia.
Qed.

Lemma variable_rank_surj s nv j :
  (j < variable_rank s nv)%nat ->
  exists v, (v < nv)%nat /\ variable_in_use s v = true
            /\ variable_rank s v = j.
Proof.
  induction nv as [|nv IH]; intros Hj; [unfold variable_rank in Hj; simpl in Hj; lia|].
  rewrite variable_rank_S in Hj.
  destruct (decide (j < variable_rank s nv)%nat) as [Hlt|Hge].
  { destruct (IH Hlt) as (v & Hv & Hu & Hr). exists v. split; [lia | done]. }
  destruct (variable_in_use s nv) eqn:Hu; [|lia].
  exists nv. split; [lia|]. split; [done | lia].
Qed.

(** The number of variables given to the solver is the number of variables
    in use. *)
Lemma VariableMapping_new_size s nv mapping :
  length mapping = nv ->
  (forall var, (var < nv)%nat ->
     mapping !! var
     = Some (if variable_in_use s var
             then Z.of_nat (variable_rank s var) else -1)) ->
  length (filter (fun index => index <> -1) mapping) = variable_rank s nv.
Proof.
  intros Hlen Hlook.
  assert (mapping
          = (fun var => if variable_in_use s var
                        then Z.of_nat (variable_rank s var) else -1)
              <$> seq 0 nv) as ->.
  { apply list_eq. intros i. rewrite list_lookup_fmap.
    destruct (decide (i < nv)%nat) as [Hi|Hi].
    - by rewrite (Hlook i Hi), lookup_seq_lt.
    - rewrite !lookup_ge_None_2; [done| |lia].
      rewrite length_seq. lia. }
  clear Hlen Hlook. unfold variable_rank.
  induction nv as [|nv IH]; [done|].
  rewrite seq_S, fmap_app, !filter_app, !length_app, IH. f_equal.
  simpl. rewrite !filter_cons, !filter_nil.
  destruct (variable_in_use s nv) eqn:Hu.
  - rewrite decide_True by lia. by rewrite decide_True.
  - rewrite decide_False by (intros H; by apply H).
    by rewrite decide_False.
Qed.

(** ** [LoadProblemIntoSatSolver] *)

Lemma mapM_pointwise {A B} (f : A -> option B) (g : A -> B) (l : list A) :
  (forall x, x ∈ l -> f x = Some (g x)) -> mapM f l = Some (g <$> l).
Proof.
  intros Hall. apply mapM_Some.
  induction l as [|x l IH]; constructor.
  - apply Hall. by left.
  - apply IH. intros y Hy. apply Hall. by right.
Qed.

Lemma live_literal_in_use n s ci l :
  presolver_inv n s -> sizes_exact s -> l ∈ clause_at s ci ->
  is_Some (literal_to_clause_sizes_ s
             !! N.to_nat (MakeLiteral (LiteralVariable l) true)) ->
  variable_in_use s (N.to_nat (LiteralVariable l)) = true.
Proof.
  intros Hinv [_ Hexact] Hl Hpos. apply variable_in_use_spec.
  rewrite N2Nat.id. exists (IsPositive l), (live_occurrences s l).
  rewrite MakeLiteral_eta.
  pose proof (inv_complete _ _ Hinv ci l Hl) as Hci.
  split; [|split; [|done]].
  - apply Hexact. by eapply occurrences_in_literal_range.
  - unfold live_occurrences.
    assert (ci ∈ filter (fun i => clause_at s i <> []) (occurrences s l))
      as Hin.
    { apply list_elem_of_filter. split; [by eapply elem_of_clause_live|done]. }
    destruct (filter _ _); [inversion Hin | simpl; lia].
Qed.

Lemma remap_literal_in_use s nv mapping l :
  (forall var, (var < nv)%nat ->
     mapping !! var
     = Some (if variable_in_use s var
             then Z.of_nat (variable_rank s var) else -1)) ->
  (N.to_nat (LiteralVariable l) < nv)%nat ->
  variable_in_use s (N.to_nat (LiteralVariable l)) = true ->
  remap_literal mapping l = Some (renamed_literal s l).
Proof.
  intros Hlook Hlt Huse. unfold remap_literal, renamed_literal.
  rewrite (Hlook _ Hlt), Huse.
  destruct (Z.eqb_spec (Z.of_nat (variable_rank s
                                    (N.to_nat (LiteralVariable l)))) (-1));
    [lia|].
  do 2 f_equal. lia.
Qed.

Lemma filter_nonempty_fmap {A B} (f : A -> B) (cls : list (list A)) :
  filter (fun temp => temp <> []) (map (map f) cls)
  = map (map f) (filter (fun c => c <> []) cls).
Proof.
  induction cls as [|c cls IH]; [done|].
  cbn [map]. rewrite !filter_cons, IH.
  by destruct c as [|x c].
Qed.

(** On a database that keeps its invariants, [LoadProblemIntoSatSolver]
    passes its [CHECK_NE]: the variables of the remaining clauses are in
    use. *)
Lemma LoadProblemIntoSatSolver_runs n nv s :
  presolver_inv n s -> sizes_exact s ->
  (2 * nv <= length (literal_to_clause_sizes_ s))%nat ->
  (forall ci l, l ∈ clause_at s ci ->
     (N.to_nat (LiteralVariable l) < nv)%nat) ->
  exists mapping s',
    VariableMapping nv s = Some mapping
    /\ length mapping = nv
    /\ (forall var, (var < nv)%nat ->
          mapping !! var
          = Some (if variable_in_use s var
                  then Z.of_nat (variable_rank s var) else -1))
    /\ LoadProblemIntoSatSolver nv s
       = Some (variable_rank s nv,
               map (map (renamed_literal s))
                 (filter (fun c => c <> []) (clauses_ s)),
               s')
    /\ clauses_ s' = map (fun _ => []) (clauses_ s)
    /\ postsolver_ s' = postsolver_ s.
Proof.
  intros Hinv Hsizes Hrange Hbelow.
  destruct (VariableMapping_loop_closed s nv 0 0)
    as (mapping & Hrun & Hlen & Hlook); [lia|].
  assert (forall var, (var < nv)%nat ->
            mapping !! var
            = Some (if variable_in_use s var
                    then Z.of_nat (variable_rank s var) else -1)) as Hlook'.
  { intros var Hvar. by rewrite (Hlook var Hvar). }
  exists mapping. eexists. split; [exact Hrun|]. split; [done|].
  split; [done|].
  unfold LoadProblemIntoSatSolver. cbv zeta.
  unfold VariableMapping in Hrun |- *. cbn [literal_to_clause_sizes_ clauses_].
  rewrite Hrun, (VariableMapping_new_size s nv mapping Hlen Hlook').
  rewrite (mapM_pointwise _ (map (renamed_literal s))).
  - change (fmap (map (renamed_literal s)) (clauses_ s))
      with (map (map (renamed_literal s)) (clauses_ s)).
    rewrite filter_nonempty_fmap. split; [reflexivity|]. done.
  - intros c Hc. apply mapM_pointwise. intros l Hl.
    apply list_elem_of_lookup in Hc as [ci Hci].
    assert (l ∈ clause_at s ci) as Hin.
    { unfold clause_at. by rewrite (list_lookup_total_correct _ _ _ Hci). }
    apply (remap_literal_in_use s nv); [done|by eapply Hbelow|].
    apply (live_literal_in_use n s ci); [done..|].
    apply lookup_lt_is_Some_2. rewrite MakeLiteral_index.
    specialize (Hbelow ci l Hin). lia.
Qed.

(** ** From a model of the loaded problem to a model of the formula *)

Lemma variable_rank_le s v : (variable_rank s v <= v)%nat.
Proof.
  unfold variable_rank.
  pose proof (length_filter (fun u => variable_in_use s u = true) (seq 0 v))
    as Hle.
  by rewrite length_seq in Hle.
Qed.

(** [ApplyMapping] accepts the mapping of [VariableMapping], and then
    translates the rank of a variable in use back to the variable. *)
Lemma ApplyMapping_dense n nv s p mapping :
  identity_mapping n p ->
  length mapping = nv ->
  (forall var, (var < nv)%nat ->
     mapping !! var
     = Some (if variable_in_use s var
             then Z.of_nat (variable_rank s var) else -1)) ->
  (forall var, (var < nv)%nat -> variable_in_use s var = true ->
     (var < n)%nat) ->
  exists p',
    ApplyMapping p mapping = Some p'
    /\ length (reverse_mapping_ p') = n
    /\ associated_literal_ p' = associated_literal_ p
    /\ clauses_start_ p' = clauses_start_ p
    /\ clauses_literals_ p' = clauses_literals_ p
    /\ assignment_ p' = assignment_ p
    /\ forall var, (var < nv)%nat -> variable_in_use s var = true ->
         reverse_mapping_ p' !! variable_rank s var = Some (Z.of_nat var).
Proof.
  intros Hid Hlen Hlook Hbelow. unfold identity_mapping in Hid.
  assert (forall k image, mapping !! k = Some image -> image <> -1 ->
            (k < nv)%nat /\ variable_in_use s k = true
            /\ image = Z.of_nat (variable_rank s k)) as Hkept.
  { intros k image Hk Hne.
    assert (k < nv)%nat as Hlt by (apply lookup_lt_Some in Hk; lia).
    rewrite (Hlook k Hlt) in Hk. injection Hk as <-.
    by destruct (variable_in_use s k). }
  unfold ApplyMapping.
  destruct (ApplyMapping_loop_complete (reverse_mapping_ p) mapping 0
              (replicate (length (reverse_mapping_ p)) (-1)))
    as [nm Hrun].
  { intros k image Hk Hne. destruct (Hkept k image Hk Hne) as (Hlt & Hu & ->).
    pose proof (Hbelow k Hlt Hu). pose proof (variable_rank_le s k).
    split; [lia|]. split.
    - apply lookup_replicate_2. rewrite Hid, length_fmap, length_seq. lia.
    - exists (Z.of_nat k). split; [|lia].
      rewrite Hid, list_lookup_fmap, lookup_seq_lt by lia. done. }
  { intros k k' image Hk Hk' Hne.
    destruct (Hkept k image Hk Hne) as (_ & Hu & ->).
    destruct (Hkept k' _ Hk' Hne) as (_ & Hu' & Heq).
    apply (variable_rank_inj s); [done..|lia]. }
  rewrite Hrun. eexists. split; [reflexivity|]. cbn.
  destruct (ApplyMapping_loop_sound _ _ _ _ _ Hrun)
    as (Hlen' & Hset & _ & _).
  split.
  { rewrite Hlen', length_replicate, Hid, length_fmap, length_seq. done. }
  repeat (split; [done|]).
  intros var Hvar Hu.
  destruct (Hset var (Z.of_nat (variable_rank s var)))
    as (_ & _ & orig & Horig & _ & Hnm); [|lia|].
  { by rewrite (Hlook var Hvar), Hu. }
  rewrite Nat2Z.id in Hnm. rewrite Hnm. f_equal.
  rewrite Hid, list_lookup_fmap, lookup_seq_lt in Horig
    by (by apply Hbelow).
  simpl in Horig. by injection Horig as <-.
Qed.

(** The values that the solver gives to the ranks are copied to the
    variables. *)
Lemma seed_renamed_solution n nv s (R : list Z) (A : VariablesAssignment) :
  (forall var, (var < nv)%nat -> variable_in_use s var = true ->
     R !! variable_rank s var = Some (Z.of_nat var)) ->
  exists seeded,
    seed_solution R 0
      (map (fun var => LiteralIsTrue A (MakeLiteral var true))
         (map N.of_nat (seq 0 (variable_rank s nv))))
      (empty_assignment n) = Some seeded
    /\ NumberOfVariables seeded = n
    /\ forall var b, (var < nv)%nat -> variable_in_use s var = true ->
         values A !! N.of_nat (variable_rank s var) = Some b ->
         values seeded !! N.of_nat var = Some b.
Proof.
  intros HR.
  set (sol := map (fun var => LiteralIsTrue A (MakeLiteral var true))
                (map N.of_nat (seq 0 (variable_rank s nv)))).
  assert (length sol = variable_rank s nv) as Hlen.
  { unfold sol. by rewrite !length_map, length_seq. }
  assert (forall j, (j < length sol)%nat ->
            exists v, (v < nv)%nat /\ variable_in_use s v = true
                      /\ variable_rank s v = j
                      /\ R !! (0 + j)%nat = Some (Z.of_nat v)) as Hslot.
  { intros j Hj. rewrite Hlen in Hj.
    destruct (variable_rank_surj s nv j Hj) as (v & Hv & Hu & Hr).
    exists v. repeat (split; [done|]). rewrite <- Hr. by apply HR. }
  destruct (seed_solution_complete R sol 0 (empty_assignment n))
    as [seeded Hseed].
  { intros j Hj. destruct (Hslot j Hj) as (v & _ & _ & _ & Hv).
    exists (Z.of_nat v). split; [done|]. split; [lia | done]. }
  { intros j j' orig Hj Hj' Ho Ho'.
    destruct (Hslot j Hj) as (v & _ & _ & <- & Hv).
    destruct (Hslot j' Hj') as (v' & _ & _ & <- & Hv').
    assert (v = v') as -> by (apply Nat2Z.inj; congruence). done. }
  exists seeded. split; [done|].
  destruct (seed_solution_sound _ _ _ _ _ Hseed) as (Hnum & Hset & _ & _).
  split; [done|]. intros var b Hvar Hu Hb.
  pose proof (variable_rank_lt s var nv Hvar Hu) as Hlt.
  destruct (Hset (variable_rank s var) b)
    as (orig & Horig & _ & _ & Hval).
  { unfold sol. rewrite !list_lookup_fmap, lookup_seq_lt by done. simpl.
    f_equal. by apply LiteralIsTrue_positive. }
  change (R !! variable_rank s var = Some orig) in Horig.
  rewrite (HR var Hvar Hu) in Horig. injection Horig as <-.
  replace (N.of_nat var) with (Z.to_N (Z.of_nat var)) by lia. exact Hval.
Qed.

Lemma variable_in_use_below n s var :
  presolver_inv n s -> counters_inv n s ->
  variable_in_use s var = true -> (var < n)%nat.
Proof.
  intros Hinv [[Hlen Hexact] Hvars _] (b & k & Hk & Hpos & _)%variable_in_use_spec.
  set (l := MakeLiteral (N.of_nat var) b) in *.
  assert (N.to_nat l < length (literal_to_clauses_ s))%nat as Hrange.
  { apply lookup_lt_Some in Hk. by rewrite <- Hlen. }
  rewrite (Hexact l Hrange) in Hk. injection Hk as <-.
  destruct (live_occurrence_exists s l) as (ci & Hci & Hlive & _); [lia|].
  destruct (inv_accurate _ _ Hinv l ci Hci) as [?|Hl]; [done|].
  pose proof (Hvars ci l Hl) as Hlt.
  unfold l in Hlt. rewrite LiteralVariable_MakeLiteral in Hlt. lia.
Qed.

Lemma log_is_same_log p p' es :
  associated_literal_ p' = associated_literal_ p ->
  clauses_start_ p' = clauses_start_ p ->
  clauses_literals_ p' = clauses_literals_ p ->
  log_is p es -> log_is p' es.
Proof. unfold log_is. by intros -> -> ->. Qed.

(** A model of the clauses given to the solver, copied to the variables in
    use, is a model of the database. *)
Lemma renamed_model_satisfies_db n nv s (A seeded : VariablesAssignment) :
  presolver_inv n s -> sizes_exact s ->
  (2 * nv <= length (literal_to_clause_sizes_ s))%nat ->
  (forall ci l, l ∈ clause_at s ci ->
     (N.to_nat (LiteralVariable l) < nv)%nat) ->
  (forall c, c ∈ map (map (renamed_literal s))
                   (filter (fun c => c <> []) (clauses_ s)) ->
     clause_satisfied A c = true) ->
  (forall var b, (var < nv)%nat -> variable_in_use s var = true ->
     values A !! N.of_nat (variable_rank s var) = Some b ->
     values seeded !! N.of_nat var = Some b) ->
  satisfies_db seeded s.
Proof.
  intros Hinv Hsizes Hrange Hbelow HG Hval ci Hlive.
  assert (clause_at s ci ∈ filter (fun c => c <> []) (clauses_ s)) as Hin.
  { apply list_elem_of_filter. split; [done|].
    apply list_elem_of_lookup. exists ci.
    apply list_lookup_lookup_total_lt. by apply live_clause_in_range. }
  assert (clause_satisfied A (map (renamed_literal s) (clause_at s ci)) = true)
    as Hsat.
  { apply HG. apply list_elem_of_fmap. by exists (clause_at s ci). }
  apply clause_satisfied_spec in Hsat as (l' & Hl' & Htrue).
  apply list_elem_of_fmap in Hl' as (l & -> & Hl).
  apply clause_satisfied_spec. exists l. split; [done|].
  apply LiteralIsTrue_spec in Htrue. apply LiteralIsTrue_spec.
  unfold renamed_literal in Htrue.
  rewrite LiteralVariable_MakeLiteral, IsPositive_MakeLiteral in Htrue.
  rewrite <- (N2Nat.id (LiteralVariable l)).
  apply Hval; [by eapply Hbelow| |done].
  apply (live_literal_in_use n s ci); [done..|].
  apply lookup_lt_is_Some_2. rewrite MakeLiteral_index.
  specialize (Hbelow ci l Hl). lia.
Qed.

(** The round trip through the solver.  A formula [F] over [n] variables is
    added to a new presolver and presolve operations are run; the
    postsolver is given the mapping of [VariableMapping] and the solver the
    problem of [LoadProblemIntoSatSolver], [NumVariables()] covering the
    variables of the clauses and not going past the counters.  Then none
    of these calls aborts, and for every assignment of the solver that
    gives a value to each of its variables and satisfies each of its
    clauses, [ExtractAndPostsolveSolution] returns [n] values that satisfy
    every clause of [F]. *)
Theorem presolved_problem_round_trip (n : nat) (threshold weight : Z)
    (F : list (list Literal)) (sF s : SatPresolver) (nv : nat) :
  presolver_of_clauses (SatPostsolver_new n) threshold weight F = Some sF ->
  (forall c l, c ∈ F -> l ∈ c -> (LiteralVariable l < N.of_nat n)%N) ->
  presolve_steps sF s ->
  (2 * nv <= length (literal_to_clause_sizes_ s))%nat ->
  (forall ci l, l ∈ clause_at s ci ->
     (N.to_nat (LiteralVariable l) < nv)%nat) ->
  exists mapping p' new_size G s',
    VariableMapping nv s = Some mapping
    /\ ApplyMapping (postsolver_ s) mapping = Some p'
    /\ LoadProblemIntoSatSolver nv s = Some (new_size, G, s')
    /\ forall A : VariablesAssignment,
         (forall v, (v < new_size)%nat ->
            VariableIsAssigned A (N.of_nat v) = true) ->
         (forall c, c ∈ G -> clause_satisfied A c = true) ->
         exists out p'',
           ExtractAndPostsolveSolution p' new_size A = Some (out, p'')
           /\ length out = n
           /\ forall c, c ∈ F ->
                exists l, l ∈ c
                  /\ out !! N.to_nat (LiteralVariable l)
                     = Some (IsPositive l).
Proof.
  intros Hload Hvars Hsteps Hrange Hbelow.
  destruct (presolved_invariants n threshold weight F sF s Hload Hvars Hsteps)
    as (Hinv & Hcount & es & Hlog & Hrec).
  destruct (load_clauses_sound n F _ sF (SatPresolver_new_inv n threshold weight)
              eq_refl Hload) as (_ & _ & HsatF).
  destruct (LoadProblemIntoSatSolver_runs n nv s Hinv (inv_sizes _ _ Hcount)
              Hrange Hbelow)
    as (mapping & s' & HM & Hlen & Hlook & Hrun & _).
  destruct (ApplyMapping_dense n nv s (postsolver_ s) mapping
              (inv_mapping _ _ Hinv) Hlen Hlook)
    as (p' & Happly & HlenR & Hal & Hcs & Hcl & Hassign & HR).
  { intros var _ Hu. by apply (variable_in_use_below n s). }
  exists mapping, p', (variable_rank s nv),
    (map (map (renamed_literal s)) (filter (fun c => c <> []) (clauses_ s))),
    s'.
  split; [done|]. split; [done|]. split; [exact Hrun|].
  intros A Htotal HG.
  unfold ExtractAndPostsolveSolution.
  assert (forallb (VariableIsAssigned A)
            (map N.of_nat (seq 0 (variable_rank s nv))) = true) as ->.
  { apply forallb_forall. intros v (u & <- & Hu%in_seq)%in_map_iff.
    apply Htotal. lia. }
  unfold PostsolveSolution. rewrite Hassign, (inv_assignment _ _ Hcount).
  destruct (seed_renamed_solution n nv s (reverse_mapping_ p') A HR)
    as (seeded & Hseed & Hnum & Hval).
  rewrite Hseed. eexists _, _. split; [reflexivity|].
  split; [by rewrite length_map, length_seq|].
  intros c Hc.
  assert (log_is p' es) as Hlog' by (by apply (log_is_same_log (postsolver_ s))).
  rewrite (Postsolve_replay_entries p' es seeded Hlog').
  destruct (Hrec (assign_unassigned seeded)) as [Htot Hsat].
  { rewrite <- Hnum. apply assign_unassigned_total. }
  { apply assign_unassigned_satisfies.
    by apply (renamed_model_satisfies_db n nv s A seeded Hinv
                (inv_sizes _ _ Hcount) Hrange Hbelow). }
  pose proof (HsatF _ Htot Hsat c Hc (fun l Hl => Hvars c l Hc Hl)) as Hsatc.
  apply clause_satisfied_spec in Hsatc as (l & Hl & Htrue).
  exists l. split; [done|].
  apply LiteralIsTrue_spec in Htrue.
  rewrite list_lookup_fmap, lookup_seq_lt.
  - simpl. rewrite N2Nat.id. f_equal. by apply LiteralIsTrue_positive.
  - rewrite HlenR. specialize (Hvars c l Hc Hl). lia.
Qed.

Lemma presolved_problem_round_trip_witness :
  let F : list (list Literal) := [[0; 2]; [1; 4]; [0; 2; 4]]%N in
  exists sF s1 s,
    presolver_of_clauses (SatPostsolver_new 3) 500 3 F = Some sF
    /\ ProcessAllClauses 4 sF = Some (true, s1)
    /\ CrossProduct s1 0%N = Some (true, s)
    /\ clauses_ s = [[]; []; []; [2; 4]]%N
    /\ exists mapping p' new_size G s',
         VariableMapping 3 s = Some mapping
         /\ ApplyMapping (postsolver_ s) mapping = Some p'
         /\ LoadProblemIntoSatSolver 3 s = Some (new_size, G, s')
         /\ forall A : VariablesAssignment,
              (forall v, (v < new_size)%nat ->
                 VariableIsAssigned A (N.of_nat v) = true) ->
              (forall c, c ∈ G -> clause_satisfied A c = true) ->
              exists out p'',
                ExtractAndPostsolveSolution p' new_size A = Some (out, p'')
                /\ length out = 3%nat
                /\ forall c, c ∈ F ->
                     exists l, l ∈ c
                       /\ out !! N.to_nat (LiteralVariable l)
                          = Some (IsPositive l).
Proof.
  intros F. eexists _, _, _.
  split; [vm_compute; reflexivity|].
  split; [vm_compute; reflexivity|].
  split; [vm_compute; reflexivity|].
  split; [vm_compute; reflexivity|].
  eapply (presolved_problem_round_trip 3 500 3 F).
  - vm_compute. reflexivity.
  - intros c l Hc. revert l. apply Forall_forall. revert c Hc.
    apply Forall_forall. decide_by_compute.
  - eapply presolve_steps_trans.
    { apply (ProcessAllClauses_steps 4). vm_compute. reflexivity. }
    eapply presolve_steps_next; [|apply presolve_steps_done].
    eapply (step_eliminate _ 0%N). vm_compute. reflexivity.
  - vm_compute. lia.
  - intros [|[|[|[|ci]]]] l Hl; vm_compute in Hl; try (by inversion Hl).
    apply elem_of_cons in Hl as [->|Hl]; [vm_compute; lia|].
    apply list_elem_of_singleton in Hl as ->. vm_compute. lia.
Defined.

Example round_trip_example :
  let F : list (list Literal) := [[0; 2]; [1; 4]; [0; 2; 4]]%N in
  let A := {| NumberOfVariables := 2;
              values := {[ 0%N := true; 1%N := false ]} |} in
  exists sF s1 s s' p' p'',
    presolver_of_clauses (SatPostsolver_new 3) 500 3 F = Some sF
    /\ ProcessAllClauses 4 sF = Some (true, s1)
    /\ CrossProduct s1 0%N = Some (true, s)
    /\ VariableMapping 3 s = Some [-1; 0; 1]
    /\ ApplyMapping (postsolver_ s) [-1; 0; 1] = Some p'
    /\ LoadProblemIntoSatSolver 3 s = Some (2%nat, [[0; 2]]%N, s')
    /\ clauses_ s' = [[]; []; []; []]
    /\ ExtractAndPostsolveSolution p' 2 A = Some ([false; true; false], p'').
Proof.
  intros F A. eexists _, _, _, _, _, _.
  repeat (split; [vm_compute; reflexivity|]). vm_compute. reflexivity.
Qed.

(** What the solver is given.  After a formula over [n] variables has been
    added to a new presolver and presolve operations have been run,
    [LoadProblemIntoSatSolver] passes its [CHECK_NE] on every literal (the
    variable of a literal of the database is in use): it declares as many
    variables as are in use, gives the solver the clauses that are not
    deleted, in their order, every literal being renamed to the rank of its
    variable with its polarity, and leaves every clause of the database
    empty.  The renaming is one-to-one on the literals of the database, and
    stays below the number of variables declared. *)
Theorem LoadProblemIntoSatSolver_contract (n : nat) (threshold weight : Z)
    (F : list (list Literal)) (sF s : SatPresolver) (nv : nat) :
  presolver_of_clauses (SatPostsolver_new n) threshold weight F = Some sF ->
  (forall c l, c ∈ F -> l ∈ c -> (LiteralVariable l < N.of_nat n)%N) ->
  presolve_steps sF s ->
  (2 * nv <= length (literal_to_clause_sizes_ s))%nat ->
  (forall ci l, l ∈ clause_at s ci ->
     (N.to_nat (LiteralVariable l) < nv)%nat) ->
  exists s',
    LoadProblemIntoSatSolver nv s
    = Some (variable_rank s nv,
            map (map (renamed_literal s))
              (filter (fun c => c <> []) (clauses_ s)),
            s')
    /\ clauses_ s' = map (fun _ => []) (clauses_ s)
    /\ (forall ci l, l ∈ clause_at s ci ->
          (N.to_nat (LiteralVariable (renamed_literal s l))
           < variable_rank s nv)%nat)
    /\ (forall ci cj l l', l ∈ clause_at s ci -> l' ∈ clause_at s cj ->
          renamed_literal s l = renamed_literal s l' -> l = l').
Proof.
  intros Hload Hvars Hsteps Hrange Hbelow.
  destruct (presolved_invariants n threshold weight F sF s Hload Hvars Hsteps)
    as (Hinv & Hcount & _).
  destruct (LoadProblemIntoSatSolver_runs n nv s Hinv (inv_sizes _ _ Hcount)
              Hrange Hbelow)
    as (mapping & s' & _ & _ & _ & Hrun & Hcl & _).
  exists s'. split; [done|]. split; [done|].
  assert (forall ci l, l ∈ clause_at s ci ->
            variable_in_use s (N.to_nat (LiteralVariable l)) = true) as Huse.
  { intros ci l Hl.
    apply (live_literal_in_use n s ci); [done|apply (inv_sizes _ _ Hcount)|done|].
    apply lookup_lt_is_Some_2. rewrite MakeLiteral_index.
    specialize (Hbelow ci l Hl). lia. }
  split.
  - intros ci l Hl. unfold renamed_literal.
    rewrite LiteralVariable_MakeLiteral, Nat2N.id.
    apply variable_rank_lt; [by eapply Hbelow | by eapply Huse].
  - intros ci cj l l' Hl Hl' Heq. unfold renamed_literal in Heq.
    apply literal_eq.
    + apply (f_equal LiteralVariable) in Heq.
      rewrite !LiteralVariable_MakeLiteral in Heq.
      apply Nat2N.inj in Heq.
      apply (variable_rank_inj s) in Heq; [lia|by eapply Huse..].
    + apply (f_equal IsPositive) in Heq.
      by rewrite !IsPositive_MakeLiteral in Heq.
Qed.

Lemma LoadProblemIntoSatSolver_contract_witness :
  let F : list (list Literal) := [[0; 2]; [1; 4]; [0; 2; 4]]%N in
  exists sF s1 s,
    presolver_of_clauses (SatPostsolver_new 3) 500 3 F = Some sF
    /\ ProcessAllClauses 4 sF = Some (true, s1)
    /\ CrossProduct s1 0%N = Some (true, s)
    /\ clauses_ s = [[]; []; []; [2; 4]]%N
    /\ exists s',
         LoadProblemIntoSatSolver 3 s
         = Some (variable_rank s 3,
                 map (map (renamed_literal s))
                   (filter (fun c => c <> []) (clauses_ s)),
                 s')
         /\ clauses_ s' = map (fun _ => []) (clauses_ s)
         /\ (forall ci l, l ∈ clause_at s ci ->
               (N.to_nat (LiteralVariable (renamed_literal s l))
                < variable_rank s 3)%nat)
         /\ (forall ci cj l l', l ∈ clause_at s ci -> l' ∈ clause_at s cj ->
               renamed_literal s l = renamed_literal s l' -> l = l').
Proof.
  intros F. eexists _, _, _.
  split; [vm_compute; reflexivity|].
  split; [vm_compute; reflexivity|].
  split; [vm_compute; reflexivity|].
  split; [vm_compute; reflexivity|].
  eapply (LoadProblemIntoSatSolver_contract 3 500 3 F).
  - vm_compute. reflexivity.
  - intros c l Hc. revert l. apply Forall_forall. revert c Hc.
    apply Forall_forall. decide_by_compute.
  - eapply presolve_steps_trans.
    { apply (ProcessAllClauses_steps 4). vm_compute. reflexivity. }
    eapply presolve_steps_next; [|apply presolve_steps_done].
    eapply (step_eliminate _ 0%N). vm_compute. reflexivity.
  - vm_compute. lia.
  - intros [|[|[|[|ci]]]] l Hl; vm_compute in Hl; try (by inversion Hl).
    apply elem_of_cons in Hl as [->|Hl]; [vm_compute; lia|].
    apply list_elem_of_singleton in Hl as ->. vm_compute. lia.
Defined.

(** * [ProcessAllClauses] terminates *)

Lemma sum_list_with_insert {A} (f : A -> nat) (l : list A) i x y :
  l !! i = Some x ->
  (sum_list_with f (<[i := y]> l) + f x = sum_list_with f l + f y)%nat.
Proof.
  revert i. induction l as [|z l IH]; intros [|i] Hi; try done.
  - injection Hi as ->. simpl. lia.
  - simpl in *. specialize (IH i Hi). lia.
Qed.

Lemma total_literals_replace s ci (b' : list Literal) :
  clause_at s ci <> [] ->
  (total_literals (set_clauses s (<[ci := b']> (clauses_ s)))
   + length (clause_at s ci)
   = total_literals s + length b')%nat.
Proof.
  intros Hlive%live_clause_in_range. unfold total_literals. simpl.
  apply sum_list_with_insert. by apply list_lookup_lookup_total_lt.
Qed.

Lemma enqueue_clause_measure s ci :
  (length (clause_to_process_ (enqueue_clause s ci))
   <= S (length (clause_to_process_ s)))%nat
  /\ clauses_ (enqueue_clause s ci) = clauses_ s.
Proof.
  unfold enqueue_clause. destruct (_ !!! _); simpl; (split; [|done]); [lia|].
  rewrite length_app. simpl. lia.
Qed.

Lemma UpdatePriorityQueue_queue s var :
  clause_to_process_ (UpdatePriorityQueue s var) = clause_to_process_ s.
Proof. unfold UpdatePriorityQueue. by destruct (var_pq_elements_ s). Qed.

Lemma forget_occurrences_queue c :
  forall s, clause_to_process_ (foldl forget_occurrence s c)
            = clause_to_process_ s.
Proof.
  induction c as [|e c IH]; intros s; [done|]. cbn [foldl]. rewrite IH.
  unfold forget_occurrence. by rewrite UpdatePriorityQueue_queue.
Qed.

Lemma Remove_measure s ci :
  (queue_measure (Remove s ci) <= queue_measure s)%nat.
Proof.
  unfold queue_measure, Remove.
  set (s1 := foldl forget_occurrence s (clause_at s ci)).
  destruct (forget_occurrences_frame (clause_at s ci) s) as (Hc & _ & _).
  pose proof (forget_occurrences_queue (clause_at s ci) s) as Hq.
  fold s1 in Hc, Hq.
  change (clause_to_process_ (set_clauses s1 (<[ci:=[]]> (clauses_ s1))))
    with (clause_to_process_ s1).
  rewrite Hq.
  destruct (decide (clause_at s1 ci = [])) as [Hdead|Hlive].
  - rewrite <- Hdead, set_clauses_id. unfold total_literals. rewrite Hc. lia.
  - pose proof (total_literals_replace s1 ci [] Hlive) as Htot.
    assert (total_literals s1 = total_literals s) as Heq
      by (unfold total_literals; by rewrite Hc).
    simpl in Htot. lia.
Qed.

Lemma unregister_literal_measure s ci opp :
  (length (clause_to_process_ (unregister_literal s ci opp))
   <= S (length (clause_to_process_ s)))%nat.
Proof.
  unfold unregister_literal.
  set (s1 := UpdatePriorityQueue _ _).
  destruct (enqueue_clause_measure s1 ci) as [Hle _].
  unfold s1 in Hle. by rewrite UpdatePriorityQueue_queue in Hle.
Qed.

Lemma strengthen_total s ci (b1 b2 : list Literal) o :
  clause_at s ci = b1 ++ o :: b2 ->
  S (total_literals (set_clauses s (<[ci := b1 ++ b2]> (clauses_ s))))
  = total_literals s.
Proof.
  intros Hb.
  assert (clause_at s ci <> []) as Hlive by (rewrite Hb; by destruct b1).
  pose proof (total_literals_replace s ci (b1 ++ b2) Hlive) as Htot.
  rewrite Hb, !length_app in Htot. simpl in Htot. lia.
Qed.

(** Neither scan of [ProcessClauseToSimplifyOthers] lets the measure
    grow: a clause is only added to the queue when it loses a literal. *)
Lemma simplify_occurrences_measure clause_index clause lit todo :
  forall kept opp s r kept' opp' s',
    simplify_occurrences clause_index clause lit todo kept opp s
      = Some (r, kept', opp', s') ->
    (queue_measure s' <= queue_measure s)%nat.
Proof.
  induction todo as [|ci todo IH]; intros kept opp s r kept' opp' s' Hrun.
  { by injection Hrun as <- <- <- <-. }
  cbn [simplify_occurrences] in Hrun.
  destruct (is_empty_clause (clause_at s ci)) eqn:Hempty; [by eapply IH|].
  apply is_empty_clause_false in Hempty.
  destruct (ci =? clause_index)%nat; [by eapply IH|].
  destruct (SimplifyClause clause (clause_at s ci) opp)
    as [[[subsumed b'] opp1]|] eqn:Hsimp; [|done].
  destruct (SimplifyClause_result _ _ _ _ _ _ Hsimp) as (Hfalse & Hsub & Hstr).
  cbv zeta in Hrun. destruct subsumed.
  2:{ rewrite (Hfalse eq_refl), set_clauses_id in Hrun. by eapply IH. }
  destruct (opp1 =? -1) eqn:Hopp.
  { apply Z.eqb_eq in Hopp. destruct (Hsub eq_refl Hopp) as [-> _].
    rewrite set_clauses_id in Hrun. apply IH in Hrun.
    pose proof (Remove_measure s ci). lia. }
  apply Z.eqb_neq in Hopp.
  destruct (Hstr eq_refl Hopp) as (x & b1 & b2 & -> & Hb & ->).
  pose proof (strengthen_total s ci b1 b2 x Hb) as Htot.
  set (s0 := set_clauses s (<[ci := b1 ++ b2]> (clauses_ s))) in *.
  destruct (Index x =? Index lit); [done|].
  destruct (is_empty_clause (b1 ++ b2)).
  { injection Hrun as <- <- <- <-. unfold queue_measure.
    change (clause_to_process_ s0) with (clause_to_process_ s). lia. }
  apply IH in Hrun.
  pose proof (unregister_literal_measure s0 ci (Index x)) as Hq.
  destruct (unregister_literal_frame s0 ci (Index x)) as (Hc & _).
  unfold queue_measure, total_literals in *. rewrite Hc in Hrun.
  change (clause_to_process_ s0) with (clause_to_process_ s) in Hq. lia.
Qed.

Lemma simplify_negated_occurrences_measure clause lit todo :
  forall kept removed opp s r kept' removed' s',
    simplify_negated_occurrences clause lit todo kept removed opp s
      = Some (r, kept', removed', s') ->
    (queue_measure s' <= queue_measure s)%nat.
Proof.
  induction todo as [|ci todo IH];
    intros kept removed opp s r kept' removed' s' Hrun.
  { by injection Hrun as <- <- <- <-. }
  cbn [simplify_negated_occurrences] in Hrun.
  destruct (is_empty_clause (clause_at s ci)) eqn:Hempty; [by eapply IH|].
  apply is_empty_clause_false in Hempty.
  destruct (SimplifyClause clause (clause_at s ci) opp)
    as [[[subsumed b'] opp1]|] eqn:Hsimp; [|done].
  destruct (SimplifyClause_result _ _ _ _ _ _ Hsimp) as (Hfalse & Hsub & Hstr).
  cbv zeta in Hrun. destruct subsumed.
  2:{ rewrite (Hfalse eq_refl), set_clauses_id in Hrun. by eapply IH. }
  destruct (opp1 =? NegatedIndex lit) eqn:Hopp; [|done].
  cbn [negb] in Hrun. apply Z.eqb_eq in Hopp.
  destruct Hstr as (x & b1 & b2 & Hx & Hb & ->); [done| |].
  { rewrite Hopp. pose proof (Index_nonneg (Negated lit)).
    unfold NegatedIndex. lia. }
  pose proof (strengthen_total s ci b1 b2 x Hb) as Htot.
  set (s0 := set_clauses s (<[ci := b1 ++ b2]> (clauses_ s))) in *.
  destruct (is_empty_clause (b1 ++ b2)).
  { injection Hrun as <- <- <- <-. unfold queue_measure.
    change (clause_to_process_ s0) with (clause_to_process_ s). lia. }
  apply IH in Hrun.
  destruct (enqueue_clause_measure s0 ci) as [Hq Hc].
  unfold queue_measure, total_literals in *. rewrite Hc in Hrun.
  change (clause_to_process_ s0) with (clause_to_process_ s) in Hq. lia.
Qed.

Lemma ProcessClauseToSimplifyOthers_measure s ci r s' :
  ProcessClauseToSimplifyOthers s ci = Some (r, s') ->
  (queue_measure s' <= queue_measure s)%nat.
Proof.
  unfold ProcessClauseToSimplifyOthers. intros Hrun.
  destruct (FindLiteralWithShortestOccurenceList s (clause_at s ci))
    as [lit|]; [|by injection Hrun as <- <-].
  destruct (simplify_occurrences ci (clause_at s ci) lit (occurrences s lit)
              [] 0 s) as [[[[r1 kept1] opp1] s1]|] eqn:Hfirst; [|done].
  apply simplify_occurrences_measure in Hfirst.
  destruct r1; [|by injection Hrun as <- <-].
  set (sa := write_occurrences s1 lit kept1 true) in *.
  destruct (negb _); [done|].
  destruct (simplify_negated_occurrences (clause_at s ci) lit
              (occurrences sa (Negated lit)) [] false opp1 sa)
    as [[[[r2 kept2] removed2] s2]|] eqn:Hsecond; [|done].
  apply simplify_negated_occurrences_measure in Hsecond.
  change (queue_measure sa) with (queue_measure s1) in Hsecond.
  destruct r2;
    [|injection Hrun as <- <-; unfold queue_measure, total_literals in *;
      simpl; lia].
  injection Hrun as <- <-.
  destruct removed2; [|unfold queue_measure, total_literals in *; simpl; lia].
  set (sc := set_literal_to_clause_sizes _ _).
  destruct (UpdatePriorityQueue_frame sc (LiteralVariable (Negated lit)))
    as (Hc & _).
  pose proof (UpdatePriorityQueue_queue sc (LiteralVariable (Negated lit)))
    as Hq.
  unfold queue_measure, total_literals in *. rewrite Hc, Hq. simpl. lia.
Qed.

Lemma ProcessAllClauses_runs n threshold weight F sF :
  presolver_of_clauses (SatPostsolver_new n) threshold weight F = Some sF ->
  (forall c l, c ∈ F -> l ∈ c -> (LiteralVariable l < N.of_nat n)%N) ->
  forall fuel s,
    presolve_steps sF s -> (queue_measure s < fuel)%nat ->
    exists r s', ProcessAllClauses fuel s = Some (r, s')
      /\ (r = true -> clause_to_process_ s' = []).
Proof.
  intros Hload Hvars.
  induction fuel as [|fuel IH]; intros s Hsteps Hlt; [lia|].
  cbn [ProcessAllClauses].
  destruct (clause_to_process_ s) as [|ci queue] eqn:Hqueue.
  { by exists true, s. }
  cbv zeta.
  set (s0 := set_clause_queue s _ queue) in *.
  assert (presolve_step s s0) as Hschedule.
  { pose proof (step_schedule s (<[ci := false]> (in_clause_to_process_ s))
                  queue (var_pq_elements_ s) (var_pq_ s)) as Hs.
    by destruct s. }
  assert (presolve_steps sF s0) as Hsteps0.
  { eapply presolve_steps_trans; [exact Hsteps|].
    eapply presolve_steps_next; [exact Hschedule | apply presolve_steps_done]. }
  destruct (presolved_invariants n threshold weight F sF s0 Hload Hvars
              Hsteps0) as (Hinv0 & Hcount0 & _).
  destruct (ProcessClauseToSimplifyOthers_runs n s0 ci Hinv0 Hcount0)
    as (r & s1 & Hrun & _).
  rewrite Hrun.
  pose proof (ProcessClauseToSimplifyOthers_measure s0 ci r s1 Hrun) as Hle.
  destruct r; [|by exists false, s1].
  apply IH.
  - eapply presolve_steps_trans; [exact Hsteps0|].
    eapply presolve_steps_next; [|apply presolve_steps_done].
    by eapply step_process.
  - unfold queue_measure, total_literals in *. rewrite Hqueue in Hlt.
    simpl in Hlt, Hle. lia.
Qed.

(** [ProcessAllClauses] terminates.  After a formula over [n] variables
    has been added to a new presolver and any presolve operations have been
    run, the loop of [ProcessAllClauses] ends without abort after at most
    as many iterations as the length of the queue plus the number of
    literals of the database: a clause only enters the queue when it loses
    a literal.  When it returns true the queue is empty. *)
Theorem ProcessAllClauses_terminates (n : nat) (threshold weight : Z)
    (F : list (list Literal)) (sF s : SatPresolver) :
  presolver_of_clauses (SatPostsolver_new n) threshold weight F = Some sF ->
  (forall c l, c ∈ F -> l ∈ c -> (LiteralVariable l < N.of_nat n)%N) ->
  presolve_steps sF s ->
  exists r s',
    ProcessAllClauses (S (queue_measure s)) s = Some (r, s')
    /\ (r = true -> clause_to_process_ s' = []).
Proof.
  intros Hload Hvars Hsteps.
  apply (ProcessAllClauses_runs n threshold weight F sF Hload Hvars);
    [done | lia].
Qed.

Lemma ProcessAllClauses_terminates_witness :
  let F : list (list Literal) := [[0; 2]; [1; 4]; [0; 2; 4]]%N in
  exists sF,
    presolver_of_clauses (SatPostsolver_new 3) 500 3 F = Some sF
    /\ queue_measure sF = 10%nat
    /\ exists r s',
         ProcessAllClauses (S (queue_measure sF)) sF = Some (r, s')
         /\ (r = true -> clause_to_process_ s' = []).
Proof.
  intros F. eexists.
  split; [vm_compute; reflexivity|].
  split; [vm_compute; reflexivity|].
  eapply (ProcessAllClauses_terminates 3 500 3 F).
  - vm_compute. reflexivity.
  - intros c l Hc. revert l. apply Forall_forall. revert c Hc.
    apply Forall_forall. decide_by_compute.
  - apply presolve_steps_done.
Defined.

(** ** From a model of the formula to a model of the loaded problem *)

(** The values of the variables in use, moved to their ranks. *)
Lemma ranked_values s nv (m : gmap VariableIndex bool) :
  exists ranked : gmap VariableIndex bool,
    forall u b, (u < nv)%nat -> variable_in_use s u = true ->
      m !! N.of_nat u = Some b ->
      ranked !! N.of_nat (variable_rank s u) = Some b.
Proof.
  induction nv as [|nv [ranked IH]]; [exists ∅; intros; lia|].
  destruct (variable_in_use s nv) eqn:Huse.
  2:{ exists ranked. intros u b Hu Hin Hb. apply IH; [|done..].
      destruct (decide (u = nv)) as [->|]; [congruence | lia]. }
  destruct (m !! N.of_nat nv) as [bn|] eqn:Hm.
  2:{ exists ranked. intros u b Hu Hin Hb. apply IH; [|done..].
      destruct (decide (u = nv)) as [->|]; [congruence | lia]. }
  exists (<[N.of_nat (variable_rank s nv) := bn]> ranked).
  intros u b Hu Hin Hb. destruct (decide (u = nv)) as [->|Hne].
  - rewrite lookup_insert_eq. congruence.
  - rewrite lookup_insert_ne; [apply IH; [lia|done..]|].
    assert (u < nv)%nat as Hlt by lia.
    pose proof (variable_rank_lt s u nv Hlt Hin). lia.
Qed.

(** Nothing is lost on the way to the solver.  When an assignment
    satisfies every clause of the formula [F], the problem that
    [LoadProblemIntoSatSolver] gives to the solver after presolve has a
    model too, which gives a value to each of the variables declared: the
    solver cannot find the problem unsatisfiable. *)
Theorem loaded_problem_satisfiable (n : nat) (threshold weight : Z)
    (F : list (list Literal)) (sF s : SatPresolver) (nv : nat)
    (m : VariablesAssignment) :
  presolver_of_clauses (SatPostsolver_new n) threshold weight F = Some sF ->
  (forall c l, c ∈ F -> l ∈ c -> (LiteralVariable l < N.of_nat n)%N) ->
  presolve_steps sF s ->
  (2 * nv <= length (literal_to_clause_sizes_ s))%nat ->
  (forall ci l, l ∈ clause_at s ci ->
     (N.to_nat (LiteralVariable l) < nv)%nat) ->
  (forall c, c ∈ F -> clause_satisfied m c = true) ->
  exists new_size G s' A,
    LoadProblemIntoSatSolver nv s = Some (new_size, G, s')
    /\ (forall v, (v < new_size)%nat ->
          VariableIsAssigned A (N.of_nat v) = true)
    /\ forall c, c ∈ G -> clause_satisfied A c = true.
Proof.
  intros Hload Hvars Hsteps Hrange Hbelow Hall.
  destruct (presolved_invariants n threshold weight F sF s Hload Hvars Hsteps)
    as (Hinv & Hcount & _).
  destruct (loaded_formula_models n threshold weight F sF s m Hload Hsteps
              Hall) as [_ Hm].
  destruct (LoadProblemIntoSatSolver_runs n nv s Hinv (inv_sizes _ _ Hcount)
              Hrange Hbelow)
    as (mapping & s' & _ & _ & _ & Hrun & _).
  destruct (ranked_values s nv (values m)) as [ranked Hranked].
  set (A := {| NumberOfVariables := variable_rank s nv; values := ranked |}).
  exists (variable_rank s nv),
    (map (map (renamed_literal s)) (filter (fun c => c <> []) (clauses_ s))),
    s', (assign_unassigned A).
  split; [exact Hrun|]. split.
  - intros v Hv. apply VariableIsAssigned_spec.
    by apply (assign_unassigned_assigned A).
  - intros c' (c & -> & [Hlive Hc]%list_elem_of_filter)%list_elem_of_fmap.
    apply list_elem_of_lookup in Hc as [ci Hci].
    assert (clause_at s ci = c) as Hat.
    { unfold clause_at. by rewrite (list_lookup_total_correct _ _ _ Hci). }
    specialize (Hm ci). rewrite Hat in Hm.
    apply clause_satisfied_spec in Hm as (l & Hl & Htrue); [|done].
    apply clause_satisfied_spec. exists (renamed_literal s l).
    split; [apply list_elem_of_fmap; by exists l|].
    apply LiteralIsTrue_spec in Htrue. apply LiteralIsTrue_spec.
    apply assign_unassigned_keeps. unfold renamed_literal.
    rewrite LiteralVariable_MakeLiteral, IsPositive_MakeLiteral.
    rewrite <- Hat in Hl.
    apply Hranked; [by eapply Hbelow| |by rewrite N2Nat.id].
    apply (live_literal_in_use n s ci); [done|apply (inv_sizes _ _ Hcount)|done|].
    apply lookup_lt_is_Some_2. rewrite MakeLiteral_index.
    specialize (Hbelow ci l Hl). lia.
Qed.

Lemma loaded_problem_satisfiable_witness :
  let F : list (list Literal) := [[0; 2]; [1; 4]; [0; 2; 4]]%N in
  let m := {| NumberOfVariables := 3;
              values := {[ 0%N := false; 1%N := true ]} |} in
  exists sF s1 s,
    presolver_of_clauses (SatPostsolver_new 3) 500 3 F = Some sF
    /\ ProcessAllClauses 4 sF = Some (true, s1)
    /\ CrossProduct s1 0%N = Some (true, s)
    /\ clauses_ s = [[]; []; []; [2; 4]]%N
    /\ exists new_size G s' A,
         LoadProblemIntoSatSolver 3 s = Some (new_size, G, s')
         /\ (forall v, (v < new_size)%nat ->
               VariableIsAssigned A (N.of_nat v) = true)
         /\ forall c, c ∈ G -> clause_satisfied A c = true.
Proof.
  intros F m. eexists _, _, _.
  split; [vm_compute; reflexivity|].
  split; [vm_compute; reflexivity|].
  split; [vm_compute; reflexivity|].
  split; [vm_compute; reflexivity|].
  eapply (loaded_problem_satisfiable 3 500 3 F _ _ 3 m).
  - vm_compute. reflexivity.
  - intros c l Hc. revert l. apply Forall_forall. revert c Hc.
    apply Forall_forall. decide_by_compute.
  - eapply presolve_steps_trans.
    { apply (ProcessAllClauses_steps 4). vm_compute. reflexivity. }
    eapply presolve_steps_next; [|apply presolve_steps_done].
    eapply (step_eliminate _ 0%N). vm_compute. reflexivity.
  - vm_compute. lia.
  - intros [|[|[|[|ci]]]] l Hl; vm_compute in Hl; try (by inversion Hl).
    apply elem_of_cons in Hl as [->|Hl]; [vm_compute; lia|].
    apply list_elem_of_singleton in Hl as ->. vm_compute. lia.
  - apply Forall_forall. decide_by_compute.
Defined.

(** * The assumptions of the optimizer and the cores of the solver *)

Lemma collect_assumptions_spec slb nodes :
  collect_assumptions slb nodes
  = (map (fun n => Negated (literal0 n))
       (filter (fun n => slb <= weight n) (filter (fun n => 0 < size n) nodes)),
     filter (fun n => 0 < size n) nodes).
Proof.
  induction nodes as [|n nodes IH]; [done|].
  cbn [collect_assumptions]. rewrite IH, (filter_cons _ n nodes).
  destruct (Z.gtb_spec (size n) 0) as [Hpos|Hzero].
  - rewrite decide_True by lia. rewrite filter_cons.
    destruct (Z.geb_spec (weight n) slb) as [Hw|Hw].
    + by rewrite decide_True by lia.
    + by rewrite decide_False by lia.
  - by rewrite decide_False by lia.
Qed.

Lemma assumptions_of_nodes_spec (o : Optimizer) :
  exists assumptions o',
    assumptions_of_nodes o = Some (assumptions, o')
    /\ nodes_ o' = filter (fun n => 0 < size n) (nodes_ o)
    /\ stratified_lower_bound_ o' = stratified_lower_bound_ o
    /\ assumptions_already_added_ o' = assumptions_already_added_ o
    /\ assumptions
       = map (fun n => Negated (literal0 n))
           (filter (fun n => stratified_lower_bound_ o <= weight n)
              (nodes_ o'))
    /\ (length assumptions <= length (nodes_ o'))%nat.
Proof.
  unfold assumptions_of_nodes. rewrite collect_assumptions_spec.
  set (kept := filter (fun n => 0 < size n) (nodes_ o)).
  set (assumed := filter (fun n => stratified_lower_bound_ o <= weight n) kept).
  assert (length (map (fun n => Negated (literal0 n)) assumed)
          <= length kept)%nat as Hle.
  { rewrite length_map. apply length_filter. }
  destruct (Nat.leb_spec (length (map (fun n => Negated (literal0 n)) assumed))
              (length kept)) as [_|Hgt]; [|lia].
  by eexists _, _.
Qed.

(** [SolveWithAssumptions] never fails its [CHECK_LE]: it keeps the nodes
    of positive size, in their order, and the assumptions are the negated
    output literals of the kept nodes whose weight reaches
    [stratified_lower_bound_], in the order of the nodes. *)
Theorem assumptions_of_nodes_contract (o : Optimizer) :
  exists assumptions o',
    assumptions_of_nodes o = Some (assumptions, o')
    /\ nodes_ o' = filter (fun n => 0 < size n) (nodes_ o)
    /\ stratified_lower_bound_ o' = stratified_lower_bound_ o
    /\ assumptions_already_added_ o' = assumptions_already_added_ o
    /\ assumptions
       = map (fun n => Negated (literal0 n))
           (filter (fun n => stratified_lower_bound_ o <= weight n)
              (nodes_ o'))
    /\ (length assumptions <= length (nodes_ o'))%nat.
Proof. apply assumptions_of_nodes_spec. Qed.

Lemma core_min_weight_skip c core n nodes min_weight :
  Negated (literal0 n) <> c ->
  core_min_weight (c :: core) (n :: nodes) min_weight
  = core_min_weight (c :: core) nodes min_weight.
Proof.
  intros Hne. simpl.
  destruct (N.eqb_spec (Negated (literal0 n)) c) as [Heq|_]; [done|].
  by destruct (skip_to_assumption c nodes) as [sk [|n' rest]].
Qed.

(** A core that is a part of the assumptions, in their order, is matched
    by the first scan of the nodes, on nodes that are assumed. *)
Lemma core_min_weight_sublist slb nodes :
  forall core min_weight,
    NoDup (map literal0 nodes) ->
    core `sublist_of` map (fun n => Negated (literal0 n))
                        (filter (fun n => slb <= weight n) nodes) ->
    exists w, core_min_weight core nodes min_weight = Some w
      /\ (slb <= min_weight -> slb <= w).
Proof.
  induction nodes as [|n nodes IH]; intros core mw Hnd Hsub.
  { apply sublist_nil_r in Hsub as ->. exists mw. by split. }
  destruct core as [|c core]; [exists mw; by split|].
  cbn [map] in Hnd. apply NoDup_cons in Hnd as [Hfresh Hnd].
  rewrite filter_cons in Hsub.
  assert (forall c', c' ∈ map (fun n => Negated (literal0 n))
                          (filter (fun n => slb <= weight n) nodes) ->
                     c' <> Negated (literal0 n)) as Hother.
  { intros c' (n' & -> & [_ Hn']%list_elem_of_filter)%list_elem_of_fmap Heq.
    apply Negated_inj in Heq. apply Hfresh, list_elem_of_fmap.
    by exists n'. }
  destruct (decide (Negated (literal0 n) = c)) as [<-|Hne].
  - (* the node [n] is the one of [c] *)
    assert (slb <= weight n /\ core `sublist_of`
              map (fun n => Negated (literal0 n))
                (filter (fun n => slb <= weight n) nodes)) as [Hw Hsub'].
    { destruct (decide (slb <= weight n)) as [Hw|Hw].
      - split; [done|]. cbn [map] in Hsub.
        apply sublist_cons_r in Hsub as [Hsub|(l' & [= <-] & Hsub)]; [|done].
        exfalso. apply (Hother (Negated (literal0 n))); [|done].
        eapply elem_of_sublist; [|exact Hsub]. by left.
      - exfalso. apply (Hother (Negated (literal0 n))); [|done].
        eapply elem_of_sublist; [|exact Hsub]. by left. }
    assert (Negated (literal0 n) ∉ core) as Hnotin.
    { intros Hin. apply (Hother (Negated (literal0 n))); [|done].
      by eapply elem_of_sublist. }
    cbn [core_min_weight skip_to_assumption]. rewrite N.eqb_refl.
    rewrite core_min_weight_skip_head by done.
    destruct (IH core (Z.min mw (weight n)) Hnd Hsub') as (w & Hrun & Hw1).
    exists w. split; [done|]. intros Hmw. apply Hw1. lia.
  - rewrite core_min_weight_skip by done. apply IH; [done|].
    destruct (decide (slb <= weight n)); [|done].
    cbn [map] in Hsub.
    apply sublist_cons_r in Hsub as [Hsub|(l' & [= Heq _] & _)]; done.
Qed.

(** [ProcessCore] finds the nodes of the core.  When the nodes have
    distinct output literals, [stratified_lower_bound_] is a coefficient
    (at most [kCoefficientMax]) and the core is a part of the assumptions
    that [SolveWithAssumptions] gave to the solver, in their order, neither
    scan of [nodes_] runs past its end: the minimum weight is found, it is
    at least [stratified_lower_bound_], and the second scan collects one
    node to merge for each literal of the core, in the order of the core. *)
Theorem assumed_core_is_matched (o o' : Optimizer)
    (assumptions core : list Literal) :
  assumptions_of_nodes o = Some (assumptions, o') ->
  NoDup (map literal0 (nodes_ o')) ->
  stratified_lower_bound_ o <= kCoefficientMax ->
  core `sublist_of` assumptions ->
  exists w kept to_merge,
    core_min_weight core (nodes_ o') kCoefficientMax = Some w
    /\ stratified_lower_bound_ o <= w
    /\ merge_scan w core (nodes_ o') = Some (kept, to_merge)
    /\ map (fun n => Negated (literal0 n)) to_merge = core.
Proof.
  intros Hrun Hnd Hmax Hsub.
  destruct (assumptions_of_nodes_spec o)
    as (a & o1 & Hrun' & _ & _ & _ & Ha & _).
  rewrite Hrun in Hrun'. injection Hrun' as <- <-.
  rewrite Ha in Hsub.
  destruct (core_min_weight_sublist (stratified_lower_bound_ o) (nodes_ o')
              core kCoefficientMax Hnd Hsub) as (w & Hmin & Hw).
  assert (NoDup core) as Hndc.
  { eapply sublist_NoDup; [|exact Hsub].
    apply (NoDup_fmap_2_strong (fun n => Negated (literal0 n))).
    - intros n1 n2 Hn1%list_elem_of_filter Hn2%list_elem_of_filter Heq.
      apply Negated_inj in Heq.
      destruct Hn1 as [_ Hn1], Hn2 as [_ Hn2].
      apply list_elem_of_lookup in Hn1 as [i1 Hi1].
      apply list_elem_of_lookup in Hn2 as [i2 Hi2].
      assert (i1 = i2) as ->.
      { apply (NoDup_lookup _ i1 i2 (literal0 n1) Hnd);
          rewrite list_lookup_fmap; [by rewrite Hi1 | by rewrite Hi2, Heq]. }
      congruence.
    - apply NoDup_filter. by apply (NoDup_fmap_1 literal0). }
  destruct (core_scans_agree core (nodes_ o') kCoefficientMax w Hndc Hmin)
    as (segs & tail & _ & Hcore & _ & Hscan).
  exists w, (segments_residual w segs tail), (map (fun s => reduce w s.2) segs).
  split; [done|]. split; [by apply Hw|]. split; [apply Hscan|].
  rewrite <- Hcore, map_map. apply map_ext. intros s. unfold reduce.
  by destruct (weight s.2 >? w).
Qed.

Lemma assumed_core_is_matched_witness :
  let o := {| nodes_ := [mkNode 0 5 1; mkNode 2 3 0; mkNode 4 4 1;
                         mkNode 6 8 1; mkNode 8 1 1];
              stratified_lower_bound_ := 3;
              assumptions_already_added_ := false |} in
  let o' := {| nodes_ := [mkNode 0 5 1; mkNode 4 4 1; mkNode 6 8 1;
                          mkNode 8 1 1];
               stratified_lower_bound_ := 3;
               assumptions_already_added_ := false |} in
  let core := [1; 7]%N in
  exists w kept to_merge,
    core_min_weight core (nodes_ o') kCoefficientMax = Some w
    /\ stratified_lower_bound_ o <= w
    /\ merge_scan w core (nodes_ o') = Some (kept, to_merge)
    /\ map (fun n => Negated (literal0 n)) to_merge = core.
Proof.
  intros o o' core. apply (assumed_core_is_matched o o' [1; 5; 7]%N core).
  - reflexivity.
  - decide_by_compute.
  - vm_compute. discriminate.
  - apply sublist_skip, sublist_cons, sublist_skip, sublist_nil.
Defined.

(** * The weights of the nodes stay positive *)

Lemma skip_to_assumption_Forall (P : EncodingNode -> Prop) c nodes skipped rest :
  skip_to_assumption c nodes = (skipped, rest) ->
  Forall P nodes -> Forall P skipped /\ Forall P rest.
Proof.
  intros [-> _]%skip_to_assumption_spec. apply Forall_app.
Qed.

Lemma core_min_weight_positive core :
  forall nodes min_weight w,
    core_min_weight core nodes min_weight = Some w ->
    Forall (fun n => 0 < weight n) nodes ->
    0 < min_weight -> 0 < w.
Proof.
  induction core as [|c core IH]; intros nodes mw w Hrun Hall Hmw.
  { by injection Hrun as <-. }
  simpl in Hrun.
  destruct (skip_to_assumption c nodes) as [sk [|n rest]] eqn:Hskip; [done|].
  destruct (skip_to_assumption_Forall _ _ _ _ _ Hskip Hall) as [_ Hrest].
  apply (IH _ _ _ Hrun Hrest). apply Forall_cons in Hrest as [Hn _]. lia.
Qed.

Lemma merge_scan_positive min_weight core :
  forall nodes kept to_merge,
    merge_scan min_weight core nodes = Some (kept, to_merge) ->
    Forall (fun n => 0 < weight n) nodes ->
    Forall (fun n => 0 < weight n) kept.
Proof.
  induction core as [|c core IH]; intros nodes kept to_merge Hrun Hall.
  { by injection Hrun as <- _. }
  simpl in Hrun.
  destruct (skip_to_assumption c nodes) as [sk [|n rest]] eqn:Hskip; [done|].
  destruct (skip_to_assumption_Forall _ _ _ _ _ Hskip Hall) as [Hsk Hrest].
  apply Forall_cons in Hrest as [Hn Hrest].
  destruct (merge_scan min_weight core rest) as [[kept' merged']|] eqn:Hscan;
    [|done].
  specialize (IH _ _ _ Hscan Hrest).
  destruct (Z.gtb_spec (weight n) min_weight) as [Hgt|Hle];
    injection Hrun as <- _; apply Forall_app; (split; [done|]); [|done].
  apply Forall_cons. split; [simpl; lia | done].
Qed.

Lemma grow_matching_nodes_weights `{SolverOps Solver} (c : Literal) :
  (forall n (s : Solver), weight (IncreaseNodeSize n s).1 = weight n) ->
  forall nodes (solver : Solver),
    map weight (grow_matching_nodes c nodes solver).1 = map weight nodes.
Proof.
  intros Hgrow. induction nodes as [|n nodes IH]; intros solver; [done|].
  simpl. destruct (Negated (literal0 n) =? c)%N.
  - specialize (Hgrow n solver).
    destruct (IncreaseNodeSize n solver) as [n' solver'].
    specialize (IH solver').
    destruct (grow_matching_nodes c nodes solver') as [nodes' solver''].
    simpl in *. by rewrite Hgrow, IH.
  - specialize (IH solver).
    destruct (grow_matching_nodes c nodes solver) as [nodes' solver''].
    simpl in *. by rewrite IH.
Qed.

Lemma Forall_weight_map (P : Z -> Prop) (nodes nodes' : list EncodingNode) :
  map weight nodes' = map weight nodes ->
  Forall (fun n => P (weight n)) nodes -> Forall (fun n => P (weight n)) nodes'.
Proof.
  intros Heq Hall. apply (Forall_fmap weight P) in Hall.
  apply (Forall_fmap weight P).
  change (Forall P (map weight nodes')). by rewrite Heq.
Qed.

(** One iteration of the main loop keeps the weights of the nodes positive,
    so that [gap / n->weight()] in [SolveWithAssumptions] never divides by
    zero: the nodes matched by a core keep what is left of their weight
    only when it is positive, and the merged node gets the minimum of the
    matched weights.  [IncreaseNodeSize], which is not among the sources,
    is taken to leave the weight of the node as it is. *)
Theorem AfterSolve_keeps_weights_positive `{SolverOps Solver}
    (sat_status : SatStatus) (conflict_limit : Z) (is_feasible : bool)
    (core : list Literal) (solver solver' : Solver) (o o' : Optimizer)
    (e : IterationEnd) :
  (forall n (s : Solver), weight (IncreaseNodeSize n s).1 = weight n) ->
  (forall n, n ∈ nodes_ o -> 0 < weight n) ->
  AfterSolve sat_status conflict_limit is_feasible core solver o
  = Some (e, o', solver') ->
  forall n, n ∈ nodes_ o' -> 0 < weight n.
Proof.
  intros Hgrow Hpos Hrun. apply Forall_forall.
  apply Forall_forall in Hpos.
  set (ob := {| nodes_ := nodes_ o;
               stratified_lower_bound_ := stratified_lower_bound_ o;
               assumptions_already_added_ := true |}) in *.
  change (Forall (fun n => 0 < weight n) (nodes_ ob)) in Hpos.
  assert (forall r : BopStatus * Optimizer,
             OnModelSat ob = r -> nodes_ r.2 = nodes_ ob) as Hsat.
  { intros r <-. unfold OnModelSat.
    by destruct (_ <? _). }
  assert (forall o1 s1, ProcessCore core solver ob = Some (o1, s1) ->
             Forall (fun n => 0 < weight n) (nodes_ o1)) as Hcore.
  { clear Hrun. intros o1 s1 Hrun. unfold ProcessCore in Hrun.
    destruct (core_min_weight core (nodes_ ob) kCoefficientMax)
      as [w|] eqn:Hmin; [|done].
    assert (0 < w) as Hw.
    { apply (core_min_weight_positive _ _ _ _ Hmin Hpos). done. }
    destruct (length core =? 1)%nat.
    - destruct (LiteralIsFalse _ _); [|done].
      pose proof (grow_matching_nodes_weights (hd 0%N core) Hgrow (nodes_ ob)
                    (Backtrack 0 solver)) as Hsame.
      destruct (grow_matching_nodes _ _ _) as [nodes' s'].
      injection Hrun as <- _. simpl in Hsame |- *.
      by apply (Forall_weight_map (fun w => 0 < w) (nodes_ ob)).
    - destruct (merge_scan w core (nodes_ ob)) as [[kept to_merge]|] eqn:Hscan;
        [|done].
      destruct (LazyMergeAllNodeWithPQ _ _) as [merged s1'].
      destruct (IncreaseNodeSize _ _) as [grown s2'].
      destruct (AddUnitClause _ _) as [[|] s3']; [|done].
      injection Hrun as <- _. simpl. apply Forall_app. split.
      + by apply (merge_scan_positive _ _ _ _ _ Hscan).
      + by apply Forall_singleton. }
  unfold AfterSolve in Hrun. fold ob in Hrun.
  destruct sat_status; cbn [orb] in Hrun.
  - destruct (conflict_limit <? 0).
    + by injection Hrun as _ <- _.
    + destruct (ProcessCore core solver ob) as [[o1 s1]|] eqn:Hproc; [|done].
      injection Hrun as _ <- _. by apply (Hcore o1 s1).
  - by injection Hrun as _ <- _.
  - destruct (conflict_limit <? 0).
    + by injection Hrun as _ <- _.
    + destruct (OnModelSat ob) as [status o1] eqn:Hmodel.
      injection Hrun as _ <- _. specialize (Hsat _ eq_refl).
      simpl in Hsat. by rewrite Hsat.
  - by injection Hrun as _ <- _.
Qed.

Lemma AfterSolve_keeps_weights_positive_witness :
  Forall (fun n => 0 < weight n)
    [mkNode 0 2 1; mkNode 2 3 1; mkNode 6 5 1; mkNode 1002 3 1].
Proof.
  apply Forall_forall.
  apply (AfterSolve_keeps_weights_positive ASSUMPTIONS_UNSAT 10 false
           [1; 5; 7]%N ([] : list SolverCall)
           [CallBacktrack 0;
            CallLazyMerge [mkNode 0 2 1; mkNode 4 3 1; mkNode 6 5 1];
            CallIncreaseNodeSize (mkNode 1002 0 0);
            CallAddUnitClause 1002%N]
           {| nodes_ := [mkNode 0 5 1; mkNode 2 3 1; mkNode 4 3 1;
                         mkNode 6 8 1];
              stratified_lower_bound_ := 3;
              assumptions_already_added_ := false |}
           {| nodes_ := [mkNode 0 2 1; mkNode 2 3 1; mkNode 6 5 1;
                         mkNode 1002 3 1];
              stratified_lower_bound_ := 3;
              assumptions_already_added_ := false |}
           NextIteration).
  - intros n s. reflexivity.
  - intros n Hn. simpl in Hn.
    repeat (apply elem_of_cons in Hn as [->|Hn]); [..|inversion Hn];
      vm_compute; reflexivity.
  - vm_compute. reflexivity.
Defined.

(** * The size of a resolvent *)

Lemma filter_mutual_length (k kb : list Literal) :
  NoDup k -> NoDup kb ->
  length (filter (fun l => l ∈ kb) k) = length (filter (fun l => l ∈ k) kb).
Proof.
  intros Hk Hkb. apply Permutation_length, NoDup_Permutation.
  - by apply NoDup_filter.
  - by apply NoDup_filter.
  - intros l. rewrite !list_elem_of_filter. tauto.
Qed.

Lemma length_filter_split (P : Literal -> Prop) `{!forall l, Decision (P l)}
    (c : list Literal) :
  length c = (length (filter P c) + length (filter (fun l => ~ P l) c))%nat.
Proof.
  rewrite <- length_app. apply Permutation_length. symmetry.
  apply filter_app_complement.
Qed.

(** The size that [ComputeResolvantSize] announces is the size of the
    clause that [ComputeResolvant] builds.  For canonical clauses [a] with
    [x] and [b] with the negation of [x], [ComputeResolvantSize] returns
    [-1] exactly when [ComputeResolvant] returns false, and the number of
    literals of [out] otherwise. *)
Theorem ComputeResolvantSize_is_length (x : Literal) (a b : list Literal) :
  canonical a = true -> canonical b = true ->
  x ∈ a -> Negated x ∈ b ->
  ComputeResolvantSize x a b
  = if (ComputeResolvant x a b).1
    then Z.of_nat (length (ComputeResolvant x a b).2)
    else -1.
Proof.
  intros [Hsa Hca]%canonical_spec [Hsb Hcb]%canonical_spec Hxa Hxb.
  assert (Negated x ∉ a) as Hnxa by (by apply Hca).
  assert (x ∉ b) as Hxnb.
  { intros Hin. apply (Hcb x Hin Hxb). }
  destruct (ComputeResolvantSize_loop_spec x a b
              (Z.of_nat (length a) + Z.of_nat (length b) - 2)
              Hsa Hsb Hca Hcb) as [S1 S2].
  destruct (ComputeResolvant_spec x a b Hsa Hsb Hca Hcb Hnxa Hxnb) as [R1 R2];
    [tauto|].
  destruct (clash_decidable x a b) as [Hc|Hc].
  { unfold ComputeResolvantSize. by rewrite (S1 Hc), (R1 Hc). }
  destruct (R2 Hc) as (out & Hout & Hso & Hmem).
  unfold ComputeResolvantSize. rewrite (S2 Hc), Hout. simpl.
  apply elem_of_Permutation in Hxa as [k Hk].
  apply elem_of_Permutation in Hxb as [kb Hkb].
  assert (NoDup (x :: k)) as [Hxk Hndk]%NoDup_cons.
  { rewrite <- Hk. by apply is_sorted_NoDup. }
  assert (NoDup (Negated x :: kb)) as [Hxkb Hndkb]%NoDup_cons.
  { rewrite <- Hkb. by apply is_sorted_NoDup. }
  assert (Negated x ∉ k) as Hnxk.
  { intros Hin. apply Hnxa. rewrite Hk. by right. }
  assert (out ≡ₚ k ++ filter (fun l => l ∉ k) kb) as Hperm.
  { apply NoDup_Permutation.
    - by apply is_sorted_NoDup.
    - apply NoDup_app. split; [done|]. split; [|by apply NoDup_filter].
      by intros l Hl [Hn _]%list_elem_of_filter.
    - intros l. rewrite Hmem, elem_of_app, list_elem_of_filter, Hk, Hkb.
      rewrite !elem_of_cons. split.
      + intros [[[->|Hl] Hne]|[[->|Hl] Hne]]; try done; [by left|].
        destruct (decide (l ∈ k)); [by left | by right].
      + intros [Hl|[Hn Hl]].
        * left. split; [by right|]. by intros ->.
        * right. split; [by right|]. by intros ->. }
  assert (length (filter (fun l => l ∈ b) a)
          = length (filter (fun l => l ∈ kb) k)) as ->.
  { rewrite Hk, filter_cons, decide_False by done. f_equal.
    apply filter_ext_elem. intros l Hl. rewrite Hkb, elem_of_cons.
    split; [|by right]. intros [->|?]; done. }
  rewrite Hperm, length_app, Hk, Hkb. cbn [length].
  pose proof (length_filter_split (fun l => l ∈ k) kb) as Hsplit.
  rewrite <- (filter_mutual_length k kb) in Hsplit by done. lia.
Qed.

Lemma ComputeResolvantSize_is_length_witness :
  ComputeResolvantSize 2 [2; 4; 6]%N [3; 4; 8]%N
  = if (ComputeResolvant 2 [2; 4; 6]%N [3; 4; 8]%N).1
    then Z.of_nat (length (ComputeResolvant 2 [2; 4; 6]%N [3; 4; 8]%N).2)
    else -1.
Proof.
  apply ComputeResolvantSize_is_length.
  - reflexivity.
  - reflexivity.
  - decide_by_compute.
  - decide_by_compute.
Defined.

(** * The literal with the shortest occurrence list *)

Lemma first_minimum_fold (m : Literal -> Z) (c : list Literal) :
  forall r res,
    res = foldl (fun result l => if m l <? m result then l else result) r c ->
    exists before after,
      r :: c = before ++ res :: after
      /\ (forall l, l ∈ before -> m res < m l)
      /\ (forall l, l ∈ after -> m res <= m l).
Proof.
  induction c as [|l c IH]; intros r res Hres.
  { exists [], []. simpl in Hres. subst res. split; [done|].
    split; intros l Hl; inversion Hl. }
  simpl in Hres. destruct (Z.ltb_spec (m l) (m r)) as [Hlt|Hge].
  - destruct (IH l res Hres) as (before & after & Hcut & Hbefore & Hafter).
    assert (m res <= m l) as Hle.
    { assert (l ∈ before ++ res :: after) as Hin by (rewrite <- Hcut; left).
      apply elem_of_app in Hin as [Hin|Hin]; [specialize (Hbefore _ Hin); lia|].
      apply elem_of_cons in Hin as [->|Hin]; [lia | by apply Hafter]. }
    exists (r :: before), after. rewrite Hcut. split; [done|].
    split; [|done]. intros l' [->|Hl']%elem_of_cons; [lia | by apply Hbefore].
  - destruct (IH r res Hres) as (before & after & Hcut & Hbefore & Hafter).
    destruct before as [|r' before].
    + injection Hcut as Hr <-. exists [], (l :: c). rewrite <- Hr.
      split; [done|]. split; [intros l' Hl'; inversion Hl'|].
      intros l' [->|Hl']%elem_of_cons; [lia|]. rewrite Hr.
      by apply Hafter.
    + injection Hcut as <- ->.
      assert (m res < m r) as Hlt by (apply Hbefore; left).
      exists (r :: l :: before), after. split; [done|]. split; [|done].
      intros l' [->|[->|Hl']%elem_of_cons]%elem_of_cons; [lia|lia|].
      apply Hbefore. by right.
Qed.

(** [FindLiteralWithShortestOccurenceList] picks the first literal of the
    clause that is in the fewest clauses.  After a formula over [n]
    variables has been added to a new presolver and any presolve operations
    have been run, the literal returned for a clause that is not empty, and
    whose literals have a counter, cuts the clause in two: the literals
    before it are in more clauses of the database than it is, and the
    literals after it are in at least as many. *)
Theorem FindLiteralWithShortestOccurenceList_first_minimum (n : nat)
    (threshold weight : Z) (F : list (list Literal)) (sF s : SatPresolver)
    (clause : list Literal) :
  presolver_of_clauses (SatPostsolver_new n) threshold weight F = Some sF ->
  (forall c l, c ∈ F -> l ∈ c -> (LiteralVariable l < N.of_nat n)%N) ->
  presolve_steps sF s ->
  clause <> [] ->
  (forall l, l ∈ clause ->
     (N.to_nat l < length (literal_to_clause_sizes_ s))%nat) ->
  let count (l : Literal) :=
    length (filter (fun ci => l ∈ clause_at s ci)
              (seq 0 (length (clauses_ s)))) in
  exists lit before after,
    FindLiteralWithShortestOccurenceList s clause = Some lit
    /\ clause = before ++ lit :: after
    /\ (forall l, l ∈ before -> (count lit < count l)%nat)
    /\ (forall l, l ∈ after -> (count lit <= count l)%nat).
Proof.
  intros Hload Hvars Hsteps Hne Hrange count.
  destruct (presolved_invariants n threshold weight F sF s Hload Hvars Hsteps)
    as (Hinv & [[Hlen Hexact] _ _] & _).
  assert (forall l, l ∈ clause -> occurrence_size s l = Z.of_nat (count l))
    as Hsize.
  { intros l Hl. unfold occurrence_size.
    apply list_lookup_total_correct.
    rewrite (Hexact l) by (rewrite <- Hlen; by apply Hrange).
    by rewrite (live_occurrences_count n). }
  destruct clause as [|front clause']; [done|].
  unfold FindLiteralWithShortestOccurenceList.
  cbn [foldl]. rewrite Z.ltb_irrefl.
  set (lit := foldl _ front clause').
  destruct (first_minimum_fold (occurrence_size s) clause' front lit eq_refl)
    as (before & after & Hcut & Hbefore & Hafter).
  assert (lit ∈ front :: clause') as Hlit.
  { rewrite Hcut. apply elem_of_app. right. left. }
  exists lit, before, after. split; [done|]. split; [done|].
  split; intros l Hl.
  - assert (l ∈ front :: clause') as Hin.
    { rewrite Hcut. apply elem_of_app. by left. }
    specialize (Hbefore l Hl). rewrite !Hsize in Hbefore by done. lia.
  - assert (l ∈ front :: clause') as Hin.
    { rewrite Hcut. apply elem_of_app. right. by right. }
    specialize (Hafter l Hl). rewrite !Hsize in Hafter by done. lia.
Qed.

Lemma FindLiteralWithShortestOccurenceList_first_minimum_witness :
  let F : list (list Literal) := [[0; 2]; [1; 4]; [0; 2; 4]]%N in
  let clause : list Literal := [0; 1; 4]%N in
  exists sF,
    presolver_of_clauses (SatPostsolver_new 3) 500 3 F = Some sF
    /\ let count (l : Literal) :=
         length (filter (fun ci => l ∈ clause_at sF ci)
                   (seq 0 (length (clauses_ sF)))) in
       exists lit before after,
         FindLiteralWithShortestOccurenceList sF clause = Some lit
         /\ clause = before ++ lit :: after
         /\ (forall l, l ∈ before -> (count lit < count l)%nat)
         /\ (forall l, l ∈ after -> (count lit <= count l)%nat).
Proof.
  intros F clause. eexists.
  split; [vm_compute; reflexivity|].
  eapply (FindLiteralWithShortestOccurenceList_first_minimum 3 500 3 F).
  - vm_compute. reflexivity.
  - intros c l Hc. revert l. apply Forall_forall. revert c Hc.
    apply Forall_forall. decide_by_compute.
  - apply presolve_steps_done.
  - discriminate.
  - apply Forall_forall. decide_by_compute.
Defined.

(** * The first assumptions of the stratified approach *)

Lemma foldl_max_weight (nodes : list EncodingNode) :
  forall start,
    let bound := foldl (fun b n => Z.max b (weight n)) start nodes in
    start <= bound
    /\ (forall n, n ∈ nodes -> weight n <= bound)
    /\ (bound = start \/ exists n, n ∈ nodes /\ weight n = bound).
Proof.
  induction nodes as [|n nodes IH]; intros start; simpl.
  { split; [lia|]. split; [|by left]. intros n Hn. inversion Hn. }
  destruct (IH (Z.max start (weight n))) as (Hstart & Hall & Hatt).
  simpl in Hstart, Hall, Hatt. split; [lia|]. split.
  - intros n' [->|Hn']%elem_of_cons; [lia | by apply Hall].
  - destruct Hatt as [Heq|(n' & Hn' & Heq)].
    + destruct (Z.max_spec start (weight n)) as [[_ Hmax]|[_ Hmax]].
      * right. exists n. split; [left | congruence].
      * left. congruence.
    + right. exists n'. split; [by right | done].
Qed.

(** The stratified approach starts from the heaviest nodes.  When
    [stratified_lower_bound_] has the value that [SynchronizeIfNeeded]
    gives it and no weight is negative, the assumptions of
    [SolveWithAssumptions] are the negated output literals of the nodes of
    positive size whose weight is the largest of all the nodes. *)
Theorem first_assumptions_heaviest_nodes (o o' : Optimizer)
    (assumptions : list Literal) :
  stratified_lower_bound_ o = initial_stratified_lower_bound (nodes_ o) ->
  (forall n, n ∈ nodes_ o -> 0 <= weight n) ->
  assumptions_of_nodes o = Some (assumptions, o') ->
  assumptions
  = map (fun n => Negated (literal0 n))
      (filter (fun n => 0 < size n
                        /\ Forall (fun n' => weight n' <= weight n) (nodes_ o))
         (nodes_ o)).
Proof.
  intros Hinit Hweights Hrun.
  destruct (assumptions_of_nodes_spec o)
    as (a & o1 & Hrun' & Hnodes & _ & _ & Ha & _).
  rewrite Hrun in Hrun'. injection Hrun' as <- <-.
  rewrite Ha, Hnodes, list_filter_filter. f_equal.
  destruct (foldl_max_weight (nodes_ o) 0) as (Hzero & Hall & Hatt).
  fold (initial_stratified_lower_bound (nodes_ o)) in Hzero, Hall, Hatt.
  rewrite <- Hinit in Hzero, Hall, Hatt.
  apply filter_ext_elem. intros n Hn. split.
  - intros [Hw Hsize]. split; [done|]. apply Forall_forall. intros n' Hn'.
    specialize (Hall n' Hn'). lia.
  - intros [Hsize Hmax]. split; [|done].
    rewrite Forall_forall in Hmax.
    destruct Hatt as [Heq|(n' & Hn' & Heq)].
    + specialize (Hweights n Hn). lia.
    + specialize (Hmax n' Hn'). lia.
Qed.

Lemma first_assumptions_heaviest_nodes_witness :
  let o := {| nodes_ := [mkNode 0 5 1; mkNode 2 8 0; mkNode 4 8 1;
                         mkNode 6 8 2; mkNode 8 1 1];
              stratified_lower_bound_ := 8;
              assumptions_already_added_ := false |} in
  [5; 7]%N
  = map (fun n => Negated (literal0 n))
      (filter (fun n => 0 < size n
                        /\ Forall (fun n' => weight n' <= weight n) (nodes_ o))
         (nodes_ o)).
Proof.
  intros o.
  apply (first_assumptions_heaviest_nodes o
           {| nodes_ := [mkNode 0 5 1; mkNode 4 8 1; mkNode 6 8 2;
                         mkNode 8 1 1];
              stratified_lower_bound_ := 8;
              assumptions_already_added_ := false |}).
  - reflexivity.
  - apply Forall_forall. repeat constructor; vm_compute; discriminate.
  - reflexivity.
Defined.

(** * Postsolve soundness with equivalent literals *)

(** ** Adding clauses under an equivalence mapping *)







(** ** What the prober logs *)

(** The entries of a log are equivalence entries over [n] variables. *)
Lemma record_equivalence_log `{SolverOps Solver} `{SolverAssignment Solver}
    n partition (solver solver' : Solver) p p' mapping mapping' es i :
  identity_mapping n p -> log_is p es ->
  Forall (fun e => equivalence_entry partition e
                   /\ forall l, l ∈ e.2 -> (LiteralVariable l < N.of_nat n)%N)
    es ->
  record_equivalence partition (solver, p, mapping) i
  = Some (solver', p', mapping') ->
  identity_mapping n p'
  /\ mapping' = <[i := Index (root_of partition (N.of_nat i))]> mapping
  /\ exists es',
       log_is p' es'
       /\ Forall (fun e => equivalence_entry partition e
                           /\ forall l, l ∈ e.2 ->
                                (LiteralVariable l < N.of_nat n)%N) es'
       /\ (forall e, e ∈ es -> e ∈ es').
Proof.
  intros Hid Hlog Hes Hrun. unfold record_equivalence in Hrun.
  unfold GetRootAndCompressPath in Hrun.
  set (l := N.of_nat i) in *. set (rep := root_of partition l) in *.
  destruct (IsLiteralAssigned (Assignment solver) rep).
  { destruct (negb _); injection Hrun as _ <- <-;
      (split; [done|]); (split; [done|]); by exists es. }
  destruct (N.eqb_spec rep l) as [Heq|Hne]; cbn [negb] in Hrun.
  { injection Hrun as _ <- <-. split; [done|]. split; [done|]. by exists es. }
  destruct (IsLiteralAssigned (Assignment solver) l); [done|].
  destruct (Add p l [l; Negated rep]) as [p1|] eqn:Hadd; [|done].
  injection Hrun as _ <- <-.
  destruct (Add_log_is p es _ _ _ Hlog Hadd)
    as (x' & clause' & Hx & Hclause & Hlog' & Hrev & _).
  apply (ApplyReverseMapping_identity n) in Hx as [-> Hlvar]; [|done].
  simpl in Hclause.
  destruct (ApplyReverseMapping p l) as [l1|] eqn:Hl1; [|done].
  destruct (ApplyReverseMapping p (Negated rep)) as [r1|] eqn:Hr1; [|done].
  apply (ApplyReverseMapping_identity n) in Hl1 as [-> _]; [|done].
  apply (ApplyReverseMapping_identity n) in Hr1 as [-> Hrvar]; [|done].
  injection Hclause as <-.
  split; [unfold identity_mapping; by rewrite Hrev|]. split; [done|].
  exists (es ++ [(l, [l; Negated rep])]). split; [done|]. split.
  - apply Forall_app. split; [done|]. apply Forall_singleton. split.
    + by exists l.
    + intros l' [->|[->|Hl']%elem_of_cons]%elem_of_cons;
        [done|done|inversion Hl'].
  - intros e He. apply elem_of_app. by left.
Qed.

Lemma record_equivalences_None `{SolverOps Solver} `{SolverAssignment Solver}
    partition (indices : list nat) :
  foldl (fun state i =>
           state ≫= fun state => record_equivalence partition state i)
    None indices = None.
Proof. induction indices as [|i indices IH]; [done|]. simpl. exact IH. Qed.

Lemma record_equivalences_log `{SolverOps Solver} `{SolverAssignment Solver}
    n partition (indices : list nat) :
  forall (solver solver' : Solver) p p' mapping mapping' es,
    identity_mapping n p -> log_is p es ->
    Forall (fun e => equivalence_entry partition e
                     /\ forall l, l ∈ e.2 ->
                          (LiteralVariable l < N.of_nat n)%N) es ->
    foldl (fun state i =>
             state ≫= fun state => record_equivalence partition state i)
      (Some (solver, p, mapping)) indices
    = Some (solver', p', mapping') ->
    identity_mapping n p'
    /\ mapping'
       = foldl (fun m i => <[i := Index (root_of partition (N.of_nat i))]> m)
           mapping indices
    /\ exists es',
         log_is p' es'
         /\ Forall (fun e => equivalence_entry partition e
                             /\ forall l, l ∈ e.2 ->
                                  (LiteralVariable l < N.of_nat n)%N) es'.
Proof.
  induction indices as [|i indices IH];
    intros solver solver' p p' mapping mapping' es Hid Hlog Hes Hrun.
  { injection Hrun as _ <- <-. split; [done|]. split; [done|]. by exists es. }
  cbn [foldl mbind option_bind] in Hrun.
  destruct (record_equivalence partition (solver, p, mapping) i)
    as [[[solver1 p1] mapping1]|] eqn:Hstep.
  2:{ by rewrite record_equivalences_None in Hrun. }
  destruct (record_equivalence_log n _ _ _ _ _ _ _ _ _ Hid Hlog Hes Hstep)
    as (Hid1 & -> & es1 & Hlog1 & Hes1 & _).
  by apply (IH _ _ _ _ _ _ es1 Hid1 Hlog1 Hes1 Hrun).
Qed.

(** Writing the representative of every literal into a mapping of the right
    size gives the mapping from literals to representatives. *)
Lemma representatives_written partition (size : nat) :
  foldl (fun m i => <[i := Index (root_of partition (N.of_nat i))]> m)
    (replicate size (-1)) (seq 0 size)
  = map (fun i => Index (root_of partition (N.of_nat i))) (seq 0 size).
Proof.
  set (f := fun i => Index (root_of partition (N.of_nat i))).
  assert (forall k rest,
            foldl (fun m i => <[i := f i]> m) (map f (seq 0 k) ++ rest)
              (seq k (length rest))
            = map f (seq 0 (k + length rest))) as Hgen.
  { intros k rest. revert k. induction rest as [|r rest IH]; intros k.
    { simpl. by rewrite app_nil_r, Nat.add_0_r. }
    cbn [length seq foldl].
    assert (<[k := f k]> (map f (seq 0 k) ++ r :: rest)
            = map f (seq 0 (S k)) ++ rest) as ->.
    { rewrite seq_S, map_app, <- app_assoc. simpl.
      rewrite insert_app_r_alt by (by rewrite length_map, length_seq).
      by rewrite length_map, length_seq, Nat.sub_diag. }
    rewrite IH. f_equal. f_equal. lia. }
  specialize (Hgen 0%nat (replicate size (-1))).
  by rewrite length_replicate in Hgen.
Qed.


(** ** Replaying the entries of the prober *)





(** ** The round trip *)


Lemma literal_below (n : nat) (l : Literal) :
  (LiteralVariable l < N.of_nat n)%N -> (N.to_nat l < n * 2)%nat.
Proof.
  destruct (literal_decompose l) as [k [(-> & -> & _)|(-> & -> & _)]]; lia.
Qed.


(** The mapping of the prober sends a literal to its representative. *)
Lemma apply_representatives partition (n : nat) s (l : Literal) :
  equiv_mapping_ s
  = map (fun i => Index (root_of partition (N.of_nat i))) (seq 0 (n * 2)) ->
  (LiteralVariable l < N.of_nat n)%N ->
  apply_equiv_mapping s [l] = [root_of partition l].
Proof.
  intros Hmapping Hl. apply literal_below in Hl as Hlt.
  unfold apply_equiv_mapping. rewrite Hmapping.
  destruct (map _ (seq 0 (n * 2))) as [|i0 rest] eqn:Hmap.
  { apply (f_equal length) in Hmap.
    rewrite length_map, length_seq in Hmap. simpl in Hmap. lia. }
  rewrite <- Hmap. cbn [map]. f_equal.
  erewrite list_lookup_total_correct.
  2:{ rewrite list_lookup_fmap, lookup_seq_lt by done. reflexivity. }
  cbn [fmap option_fmap option_map]. rewrite Nat.add_0_l, N2Nat.id.
  unfold Index. lia.
Qed.

(** ** A solver without fixed variables *)

Lemma fix_representatives_unfixed `{SolverOps Solver}
    `{SolverAssignment Solver} partition (solver : Solver) indices :
  (forall l, IsLiteralAssigned (Assignment solver) l = false) ->
  foldl (fix_representative partition) solver indices = solver.
Proof.
  intros Hfree. induction indices as [|i indices IH]; [done|].
  cbn [foldl]. unfold fix_representative at 2. by rewrite Hfree.
Qed.

Lemma record_equivalences_unfixed `{SolverOps Solver}
    `{SolverAssignment Solver} n partition (solver : Solver) indices :
  (forall l, IsLiteralAssigned (Assignment solver) l = false) ->
  forall p p' mapping mapping' solver',
    identity_mapping n p ->
    foldl (fun state i =>
             state ≫= fun state => record_equivalence partition state i)
      (Some (solver, p, mapping)) indices
    = Some (solver', p', mapping') ->
    (forall x, x ∈ associated_literal_ p -> x ∈ associated_literal_ p')
    /\ forall i, i ∈ indices ->
         root_of partition (N.of_nat i) <> N.of_nat i ->
         N.of_nat i ∈ associated_literal_ p'.
Proof.
  intros Hfree. induction indices as [|i indices IH];
    intros p p' mapping mapping' solver' Hid Hrun.
  { injection Hrun as _ <- _. split; [done|]. intros i Hi. inversion Hi. }
  cbn [foldl mbind option_bind] in Hrun.
  destruct (record_equivalence partition (solver, p, mapping) i)
    as [[[solver1 p1] mapping1]|] eqn:Hstep.
  2:{ by rewrite record_equivalences_None in Hrun. }
  assert (solver1 = solver /\ identity_mapping n p1
          /\ (forall x, x ∈ associated_literal_ p -> x ∈ associated_literal_ p1)
          /\ (root_of partition (N.of_nat i) <> N.of_nat i ->
              N.of_nat i ∈ associated_literal_ p1)) as (-> & Hid1 & Hkeep & Hnew).
  { unfold record_equivalence, GetRootAndCompressPath in Hstep.
    rewrite !Hfree in Hstep.
    destruct (N.eqb_spec (root_of partition (N.of_nat i)) (N.of_nat i))
      as [Heq|Hne]; cbn [negb] in Hstep.
    { by injection Hstep as <- <- _. }
    destruct (Add p (N.of_nat i) _) as [p2|] eqn:Hadd; [|done].
    injection Hstep as <- <- _. unfold Add in Hadd.
    destruct (ApplyReverseMapping p (N.of_nat i)) as [x'|] eqn:Hx; [|done].
    destruct (mapM _ _) as [clause'|]; [|done].
    apply (ApplyReverseMapping_identity n) in Hx as [-> _]; [|done].
    injection Hadd as <-. simpl. split; [done|]. split; [done|]. split.
    - intros x Hx. apply elem_of_app. by left.
    - intros _. apply elem_of_app. right. left. }
  destruct (IH _ _ _ _ _ Hid1 Hrun) as [Hkeep' Hall].
  split; [intros x Hx; by apply Hkeep', Hkeep|].
  intros i' [->|Hi']%elem_of_cons Hroot; [by apply Hkeep', Hnew|].
  by apply Hall.
Qed.

(** When no variable is fixed in the solver, the prober logs an entry for
    every literal that the mapping changes. *)
Lemma unfixed_solver_logs_equivalences `{policy : MergePolicy}
    `{SolverOps Solver} `{SolverAssignment Solver} (n : nat)
    (scc : list (list Literal)) (solver solver' : Solver)
    (p : SatPostsolver) (mapping : list LiteralIndex) (s0 : SatPresolver)
    (l : Literal) :
  (forall l, IsLiteralAssigned (Assignment (Backtrack 0 solver)) l = false) ->
  ProbeAndFindEquivalentLiteral n scc solver (SatPostsolver_new n)
  = Some (solver', p, mapping) ->
  equiv_mapping_ s0 = mapping ->
  (LiteralVariable l < N.of_nat n)%N ->
  apply_equiv_mapping s0 [l] = [l] \/ l ∈ associated_literal_ p.
Proof.
  intros Hfree Hrun Hs0 Hl. unfold ProbeAndFindEquivalentLiteral in Hrun.
  destruct (merge_components scc MergingPartition_new) as [partition|];
    [|done].
  destruct (existsb (fun component => (1 <? length component)%nat) scc).
  2:{ injection Hrun as _ _ <-. left. unfold apply_equiv_mapping.
      by rewrite Hs0. }
  rewrite fix_representatives_unfixed in Hrun by done.
  assert (identity_mapping n (SatPostsolver_new n)) as Hid0 by reflexivity.
  destruct (record_equivalences_log n partition (seq 0 (n * 2)) _ _ _ _ _ _ []
              Hid0 ltac:(by repeat split) (Forall_nil_2 _) Hrun)
    as (_ & Hmapping & _).
  rewrite representatives_written in Hmapping.
  destruct (record_equivalences_unfixed n partition _ (seq 0 (n * 2)) Hfree
              _ _ _ _ _ Hid0 Hrun) as [_ Hall].
  rewrite (apply_representatives partition n s0 l) by congruence.
  destruct (decide (root_of partition l = l)) as [->|Hne]; [by left|].
  right. rewrite <- (N2Nat.id l). apply Hall.
  - apply elem_of_seq. apply literal_below in Hl. lia.
  - by rewrite N2Nat.id.
Qed.


